(** * ts-check: configuration discovery, merge and validation pipeline

    A shallow embedding of the TypeScript sources of the analyzer
    ([config-finder], [compiler-options], [project-structure],
    [node-modules-resolver], [common-issues], [report-generator],
    [export-formats], [tsconfig-analyzer], [user-interaction] and the
    command [analyze]) and the properties of the pipeline proved over
    it. The logger only writes to the console and is left out. *)

From Stdlib Require Import Ascii String ZArith Lia Permutation.
From stdpp Require Import base tactics option strings numbers pretty list.

#[local] Set Warnings "-register-all".

Local Open Scope string_scope.
Local Open Scope nat_scope.
Local Open Scope list_scope.

(** ** JavaScript data *)

(** A JavaScript object or [Map] keeps its entries in insertion order:
    reading takes the entry of a key, writing replaces the value of a key
    that is present in place and appends a new key at the end. *)
Module Obj.
Section obj.
Context {V : Type}.

Definition t := list (string * V).

Fixpoint get (k : string) (o : list (string * V)) : option V :=
  match o with
  | [] => None
  | (k', v) :: o' => if String.eqb k' k then Some v else get k o'
  end.

Fixpoint set (k : string) (v : V) (o : list (string * V)) : list (string * V) :=
  match o with
  | [] => [(k, v)]
  | (k', v') :: o' =>
      if String.eqb k' k then (k, v) :: o' else (k', v') :: set k v o'
  end.

Definition keys (o : list (string * V)) : list string := map fst o.

(** [Object.entries(o)], and the iteration of a [Map]: every key with the
    value read under it. *)
Definition entries (o : list (string * V)) : list (string * V) :=
  omap (fun k => pair k <$> get k o) (keys o).

(** [Object.assign(target, source)]: the entries of [source] are written
    into [target] one after the other. *)
Definition assign (target source : list (string * V)) : list (string * V) :=
  fold_left (fun acc kv => set (fst kv) (snd kv) acc) (entries source) target.

(** [{ ...a, ...b }]: a new object that receives the entries of [a], then
    those of [b]. *)
Definition spread (a b : list (string * V)) : list (string * V) :=
  assign (assign [] a) b.

(** [new Map(pairs)]: the pairs are written in order into an empty map. *)
Definition of_entries (es : list (string * V)) : list (string * V) :=
  fold_left (fun acc kv => set (fst kv) (snd kv) acc) es [].
End obj.
Arguments t : clear implicits.
End Obj.

(** ** config-finder *)

Definition CONFIG_FILE_NAMES : list string :=
  [ "tsconfig.json"; "tsconfig.app.json"; "tsconfig.node.json"; "jsconfig.json" ].

(** A JavaScript number as [determineRelevantConfigs] uses it: an index of
    [CONFIG_FILE_NAMES] or [Number.POSITIVE_INFINITY]. *)
Inductive priority :=
| Rank (n : nat)
| Infinity.

Definition priority_lt (p q : priority) : bool :=
  match p, q with
  | Rank a, Rank b => Nat.ltb a b
  | Rank _, Infinity => true
  | Infinity, _ => false
  end.

(** [new Map(CONFIG_FILE_NAMES.map((name, index) => [name, index]))] *)
Definition configPriority : Obj.t nat :=
  Obj.of_entries (imap (fun index name => (name, index)) CONFIG_FILE_NAMES).

Section determineRelevantConfigs.
(** [path.basename] of Node's [path] module. *)
Variable basename : string -> string.

(** One round of the loop over [configFiles]; [unshift] puts the file at
    the front of [relevantConfigs], [push] at its end. *)
Definition relevant_step (relevantConfigs : list string) (configFile : string)
  : list string :=
  let fileName := basename configFile in
  let priority := from_option Rank Infinity (Obj.get fileName configPriority) in
  let configPriorityValue :=
    match relevantConfigs with
    | [] => None
    | front :: _ => Obj.get (basename front) configPriority
    end in
  if match relevantConfigs with [] => true | _ => false end
     || match configPriorityValue with
        | Some v => priority_lt priority (Rank v)
        | None => false
        end
  then configFile :: relevantConfigs
  else relevantConfigs ++ [configFile].

Definition determineRelevantConfigs (configFiles : list string) : list string :=
  fold_left relevant_step configFiles [].
End determineRelevantConfigs.

(** Node's POSIX [path.basename]: trailing separators are dropped and the
    part after the last remaining separator is returned. *)
Fixpoint drop_slashes (rev_path : list ascii) : list ascii :=
  match rev_path with
  | "/"%char :: p => drop_slashes p
  | _ => rev_path
  end.

Fixpoint until_slash (rev_path : list ascii) : list ascii :=
  match rev_path with
  | [] => []
  | "/"%char :: _ => []
  | c :: p => c :: until_slash p
  end.

Definition posix_basename (p : string) : string :=
  string_of_list_ascii
    (rev (until_slash (drop_slashes (rev (list_ascii_of_string p))))).


(** ** Values and exceptions *)

(** What [JSON.parse] produces. Numbers are kept to the integers. *)
Inductive json :=
| JNull
| JBool (b : bool)
| JNum (n : Z)
| JStr (s : string)
| JArr (elems : list json)
| JObj (props : list (string * json)).

(** [if (v)], [!v], [v && ...] *)
Definition truthy (v : json) : bool :=
  match v with
  | JNull => false
  | JBool b => b
  | JNum n => negb (Z.eqb n 0)
  | JStr s => negb (String.eqb s "")
  | JArr _ | JObj _ => true
  end.

(** The same test on a property that may be absent ([undefined]). *)
Definition truthy_opt (v : option json) : bool :=
  match v with
  | Some v => truthy v
  | None => false
  end.

(** A thrown JavaScript exception: its [name] and its [message]. *)
Inductive error := Error (name message : string).

(** A call either returns or throws; an [async] function resolves or
    rejects. *)
Inductive outcome (A : Type) :=
| Returns (a : A)
| Raises (e : error).
Arguments Returns {A} a.
Arguments Raises {A} e.

#[global] Instance outcome_ret : MRet outcome := fun A a => Returns a.
#[global] Instance outcome_bind : MBind outcome := fun A B f m =>
  match m with
  | Returns a => f a
  | Raises e => Raises e
  end.

(** [try { body } catch (error) { handler }] *)
Definition try_catch {A} (body : outcome A) (handler : error -> outcome A)
  : outcome A :=
  match body with
  | Returns a => Returns a
  | Raises e => handler e
  end.

(** The [TSConfig] interface. [other] holds the entries under the index
    signature [[key: string]: any], the keys the interface does not name. *)
Record TSConfig := mkTSConfig {
  compilerOptions : option (Obj.t json);
  include : option (list string);
  exclude : option (list string);
  extends : option string;
  files : option (list string);
  other : Obj.t json;
}.

(** [{}] *)
Definition emptyConfig : TSConfig :=
  {| compilerOptions := None; include := None; exclude := None;
     extends := None; files := None; other := [] |}.

(** ** config-finder: merge *)

(** The characters of a string, as strings. *)
Fixpoint characters (s : string) : list string :=
  match s with
  | EmptyString => []
  | String c s' => String c EmptyString :: characters s'
  end.

(** [Object.entries(j)] for a JSON value. *)
Definition json_entries (j : json) : list (string * json) :=
  match j with
  | JObj props => Obj.entries props
  | JArr elems => imap (fun i v => (pretty i, v)) elems
  | JStr s => imap (fun i c => (pretty i, JStr c)) (characters s)
  | _ => []
  end.

Definition RESERVED_KEYS : list string :=
  [ "compilerOptions"; "include"; "exclude"; "files"; "extends" ].

(** The prototype of the object [mergedConfig]. An object literal has
    [Object.prototype]; the assignment [mergedConfig["__proto__"] = value]
    runs the setter of [Object.prototype] while that setter is inherited,
    and the setter makes an object or an array the prototype, removes the
    prototype for [null], and ignores every other value. *)
Inductive prototype :=
| ObjectPrototype
| NullPrototype
| Inherits (parent : json).

(** The object [mergedConfig] of [mergeConfigs]: its own properties and
    its prototype. The loop never writes [extends]; the arrays it makes
    hold the elements of the arrays of the sources and, after a read
    through the prototype, what the inherited value held. *)
Module Merged.
Record t := mk {
  compilerOptions : option (Obj.t json);
  include : option (list json);
  exclude : option (list json);
  files : option (list json);
  other : Obj.t json;
  proto : prototype;
}.

(** [{}] *)
Definition empty : t :=
  {| compilerOptions := None; include := None; exclude := None;
     files := None; other := []; proto := ObjectPrototype |}.
End Merged.

(** The value a read of [key] finds on the prototype chain, for the four
    keys the loop reads: a parsed object has it as an own property or not
    at all, and neither an array nor [Object.prototype] has any of
    them. *)
Definition inherited (proto : prototype) (key : string) : option json :=
  match proto with
  | Inherits (JObj props) => Obj.get key props
  | _ => None
  end.

(** Whether the assignment of the key [__proto__] reaches the setter of
    [Object.prototype]: not when the object has a property of that name of
    its own, when it has no prototype, or when its prototype, a parsed
    object, has an own property of that name. *)
Definition reaches_setter (merged : Merged.t) : bool :=
  match Obj.get "__proto__" (Merged.other merged) with
  | Some _ => false
  | None =>
      match Merged.proto merged with
      | ObjectPrototype => true
      | NullPrototype => false
      | Inherits (JObj props) =>
          match Obj.get "__proto__" props with
          | Some _ => false
          | None => true
          end
      | Inherits _ => true
      end
  end.

Definition with_other (merged : Merged.t) (other : Obj.t json) : Merged.t :=
  {| Merged.compilerOptions := Merged.compilerOptions merged;
     Merged.include := Merged.include merged;
     Merged.exclude := Merged.exclude merged;
     Merged.files := Merged.files merged;
     Merged.other := other;
     Merged.proto := Merged.proto merged |}.

Definition with_proto (merged : Merged.t) (proto : prototype) : Merged.t :=
  {| Merged.compilerOptions := Merged.compilerOptions merged;
     Merged.include := Merged.include merged;
     Merged.exclude := Merged.exclude merged;
     Merged.files := Merged.files merged;
     Merged.other := Merged.other merged;
     Merged.proto := proto |}.

(** [mergedConfig[key] = value] for a key that is not reserved. *)
Definition assign_key (merged : Merged.t) (key : string) (value : json)
  : Merged.t :=
  if String.eqb key "__proto__" && reaches_setter merged then
    match value with
    | JObj _ | JArr _ => with_proto merged (Inherits value)
    | JNull => with_proto merged NullPrototype
    | _ => merged
    end
  else with_other merged (Obj.set key value (Merged.other merged)).

(** The loop over [Object.entries(config)]: the five named keys are on the
    reserved list and skipped, so the loop is run over [other config]. *)
Definition merge_other (merged : Merged.t) (config : Obj.t json) : Merged.t :=
  fold_left
    (fun acc kv =>
       if bool_decide (fst kv ∈ RESERVED_KEYS) then acc
       else assign_key acc (fst kv) (snd kv))
    (Obj.entries config) merged.

(** [{ ...mergedConfig.compilerOptions, ...config.compilerOptions }], the
    first read going to the own property or else through the prototype. *)
Definition merge_options (merged : Merged.t) (options : Obj.t json)
  : Obj.t json :=
  match Merged.compilerOptions merged with
  | Some own => Obj.spread own options
  | None =>
      Obj.spread
        (from_option json_entries [] (inherited (Merged.proto merged) "compilerOptions"))
        options
  end.

(** The elements [...(mergedConfig[prop] || [])] spreads, [own] being the
    own property: an inherited value that is truthy has to be iterable. *)
Definition spread_array (own : option (list json)) (proto : prototype)
    (prop : string) : outcome (list json) :=
  match own with
  | Some elems => Returns elems
  | None =>
      match inherited proto prop with
      | None => Returns []
      | Some v =>
          if truthy v then
            match v with
            | JArr elems => Returns elems
            | JStr s => Returns (map JStr (characters s))
            | _ =>
                Raises (Error "TypeError"
                          "(mergedConfig[prop] || []) is not iterable")
            end
          else Returns []
      end
  end.

(** [mergedConfig[prop] = [...(mergedConfig[prop] || []), ...config[prop]]],
    run when [config[prop]] is there. *)
Definition merge_array (own : option (list json)) (proto : prototype)
    (prop : string) (config : option (list string))
  : outcome (option (list json)) :=
  match config with
  | Some arr =>
      elems ← spread_array own proto prop;
      Returns (Some (elems ++ map JStr arr))
  | None => Returns own
  end.

(** The body of [for (const config of configs.reverse())]. *)
Definition merge_step (mergedConfig : Merged.t) (config : TSConfig)
  : outcome Merged.t :=
  let proto := Merged.proto mergedConfig in
  let options :=
    match compilerOptions config with
    | Some options => Some (merge_options mergedConfig options)
    | None => Merged.compilerOptions mergedConfig
    end in
  included ← merge_array (Merged.include mergedConfig) proto "include"
               (include config);
  excluded ← merge_array (Merged.exclude mergedConfig) proto "exclude"
               (exclude config);
  listed ← merge_array (Merged.files mergedConfig) proto "files"
             (files config);
  Returns
    (merge_other
       {| Merged.compilerOptions := options; Merged.include := included;
          Merged.exclude := excluded; Merged.files := listed;
          Merged.other := Merged.other mergedConfig; Merged.proto := proto |}
       (other config)).

(** The second loop, over the configurations in the order it takes
    them. *)
Fixpoint merge_all (configs : list TSConfig) (mergedConfig : Merged.t)
  : outcome Merged.t :=
  match configs with
  | [] => Returns mergedConfig
  | config :: rest =>
      mergedConfig ← merge_step mergedConfig config;
      merge_all rest mergedConfig
  end.

Section mergeConfigs.
(** [readTSConfig]: the file is read and parsed, a failure of either is
    thrown again. *)
Variable readTSConfig : string -> outcome TSConfig.

(** The first loop: [configs.push(await readTSConfig(configPath))]. *)
Fixpoint readConfigs (configPaths : list string) : outcome (list TSConfig) :=
  match configPaths with
  | [] => Returns []
  | configPath :: paths =>
      config ← readTSConfig configPath;
      configs ← readConfigs paths;
      Returns (config :: configs)
  end.

Definition mergeConfigs (configPaths : list string) : outcome Merged.t :=
  configs ← readConfigs configPaths;
  merge_all (rev configs) Merged.empty.
End mergeConfigs.

(** The merged object as the configuration the analyzer holds: an object
    with the prototype of an object literal, whose arrays hold strings. An
    object that has been given another prototype has properties the
    interface [TSConfig] does not show. *)
Definition as_strings_opt (elems : option (list json))
  : option (option (list string)) :=
  match elems with
  | None => Some None
  | Some elems =>
      Some <$> mapM (fun e => match e with JStr s => Some s | _ => None end) elems
  end.

Definition as_config (merged : Merged.t) : option TSConfig :=
  match Merged.proto merged with
  | ObjectPrototype =>
      included ← as_strings_opt (Merged.include merged);
      excluded ← as_strings_opt (Merged.exclude merged);
      listed ← as_strings_opt (Merged.files merged);
      Some {| compilerOptions := Merged.compilerOptions merged;
              include := included; exclude := excluded; extends := None;
              files := listed; other := Merged.other merged |}
  | _ => None
  end.

(** The merged configuration a caller of [mergeConfigs] goes on with;
    [None] for a merged object outside of what [TSConfig] shows. *)
Definition held (merged : outcome Merged.t) : option (outcome TSConfig) :=
  match merged with
  | Returns merged => Returns <$> as_config merged
  | Raises e => Some (Raises e)
  end.

(** ** compiler-options *)

(** The schema is built with the combinators of the [zod] library, which is
    a dependency of the repository and not part of its sources. *)

(** Modelled from the spec: the schema types of [zod] that
    [compilerOptionsSchema] is built from (section 4.5: an enumerated string
    choice, a boolean, a string, an ordered sequence, each optional, in a
    table of recognized option names). *)
Inductive ZodType :=
| ZEnum (values : list string)
| ZBoolean
| ZString
| ZArray (element : ZodType)
| ZOptional (inner : ZodType)
| ZObject (shape : list (string * ZodType)).

(** Modelled from the spec: a segment of the field path of a validation
    error (section 3), a property name or an array index. *)
Inductive segment :=
| Key (k : string)
| Index (i : nat).

#[global] Instance segment_eq_dec : EqDecision segment.
Proof. solve_decision. Defined.

(** Modelled from the spec: a [ZodIssue] (the validation error of section
    3), with its [code] and the [path] of the offending value. The text of
    [message] is not modelled. *)
Record ZodIssue := mkIssue {
  code : string;
  path : list segment;
}.

Definition invalid_type (at_path : list segment) : ZodIssue :=
  {| code := "invalid_type"; path := at_path |}.

Definition invalid_enum_value (at_path : list segment) : ZodIssue :=
  {| code := "invalid_enum_value"; path := at_path |}.

(** Modelled from the spec: what [safeParse] of [zod] reports for a value
    ([None] is [undefined]) against a schema type (section 4.5). An optional
    type accepts an absent value; an object type checks the keys of its
    table, each under the path extended by the key, and lets every other
    key pass; a sequence checks each element under its index; every other
    mismatch is one issue at the path of the value. *)
Fixpoint zod_parse (t : ZodType) (at_path : list segment) (input : option json)
  : list ZodIssue :=
  match t with
  | ZOptional inner =>
      match input with
      | None => []
      | Some _ => zod_parse inner at_path input
      end
  | ZEnum values =>
      match input with
      | Some (JStr s) =>
          if bool_decide (s ∈ values) then [] else [invalid_enum_value at_path]
      | _ => [invalid_type at_path]
      end
  | ZBoolean =>
      match input with
      | Some (JBool _) => []
      | _ => [invalid_type at_path]
      end
  | ZString =>
      match input with
      | Some (JStr _) => []
      | _ => [invalid_type at_path]
      end
  | ZArray element =>
      match input with
      | Some (JArr elems) =>
          List.concat
            (imap (fun i v => zod_parse element (at_path ++ [Index i]) (Some v))
               elems)
      | _ => [invalid_type at_path]
      end
  | ZObject shape =>
      match input with
      | Some (JObj props) =>
          (fix fields (shape : list (string * ZodType)) : list ZodIssue :=
             match shape with
             | [] => []
             | (k, field) :: shape' =>
                 zod_parse field (at_path ++ [Key k]) (Obj.get k props)
                   ++ fields shape'
             end) shape
      | _ => [invalid_type at_path]
      end
  end.

(** Modelled from the spec: the result of [schema.safeParse(input)], a
    success or the issues found. *)
Inductive SafeParseResult :=
| SafeParseSuccess
| SafeParseError (issues : list ZodIssue).

(** Modelled from the spec: [schema.safeParse(input)] succeeds when no issue
    is found, and never throws. *)
Definition safeParse (schema : ZodType) (input : json) : SafeParseResult :=
  match zod_parse schema [] (Some input) with
  | [] => SafeParseSuccess
  | issues => SafeParseError issues
  end.

Definition compilerOptionsSchema : ZodType :=
  ZObject
    [ ("target", ZOptional (ZEnum
        [ "es3"; "es5"; "es6"; "es2015"; "es2016"; "es2017"; "es2018";
          "es2019"; "es2020"; "es2021"; "es2022"; "esnext" ]));
      ("module", ZOptional (ZEnum
        [ "none"; "commonjs"; "amd"; "system"; "umd"; "es6"; "es2015";
          "es2020"; "es2022"; "esnext"; "node16"; "nodenext" ]));
      ("lib", ZOptional (ZArray ZString));
      ("allowJs", ZOptional ZBoolean);
      ("checkJs", ZOptional ZBoolean);
      ("jsx", ZOptional (ZEnum
        [ "preserve"; "react"; "react-native"; "react-jsx"; "react-jsxdev" ]));
      ("declaration", ZOptional ZBoolean);
      ("declarationMap", ZOptional ZBoolean);
      ("sourceMap", ZOptional ZBoolean);
      ("outFile", ZOptional ZString);
      ("outDir", ZOptional ZString);
      ("rootDir", ZOptional ZString);
      ("composite", ZOptional ZBoolean);
      ("removeComments", ZOptional ZBoolean);
      ("noEmit", ZOptional ZBoolean);
      ("importHelpers", ZOptional ZBoolean);
      ("downlevelIteration", ZOptional ZBoolean);
      ("isolatedModules", ZOptional ZBoolean);
      ("strict", ZOptional ZBoolean);
      ("noImplicitAny", ZOptional ZBoolean);
      ("strictNullChecks", ZOptional ZBoolean);
      ("strictFunctionTypes", ZOptional ZBoolean);
      ("strictBindCallApply", ZOptional ZBoolean);
      ("strictPropertyInitialization", ZOptional ZBoolean);
      ("noImplicitThis", ZOptional ZBoolean);
      ("useUnknownInCatchVariables", ZOptional ZBoolean);
      ("alwaysStrict", ZOptional ZBoolean);
      ("noUnusedLocals", ZOptional ZBoolean);
      ("noUnusedParameters", ZOptional ZBoolean);
      ("exactOptionalPropertyTypes", ZOptional ZBoolean);
      ("noImplicitReturns", ZOptional ZBoolean);
      ("noFallthroughCasesInSwitch", ZOptional ZBoolean);
      ("noUncheckedIndexedAccess", ZOptional ZBoolean);
      ("noImplicitOverride", ZOptional ZBoolean);
      ("noPropertyAccessFromIndexSignature", ZOptional ZBoolean);
      ("allowUnusedLabels", ZOptional ZBoolean);
      ("allowUnreachableCode", ZOptional ZBoolean);
      ("skipLibCheck", ZOptional ZBoolean);
      ("forceConsistentCasingInFileNames", ZOptional ZBoolean) ].

(** The value [validateCompilerOptions] returns. *)
Record ValidationResult := mkValidation {
  valid : bool;
  errors : list ZodIssue;
}.

Definition validateCompilerOptions (options : json) : ValidationResult :=
  let result := safeParse compilerOptionsSchema options in
  {| valid := match result with SafeParseSuccess => true | _ => false end;
     errors := match result with
               | SafeParseSuccess => []
               | SafeParseError issues => issues
               end |}.

(** ** project-structure *)

Module ProjectStructure.
Record t := mk {
  files : list string;
  directories : list string;
}.
End ProjectStructure.

(** [s.replace(/c/g, replacement)] for a pattern of one character. *)
Fixpoint replace_all (c : ascii) (replacement : string) (s : string) : string :=
  match s with
  | EmptyString => EmptyString
  | String c' s' =>
      if Ascii.eqb c' c then replacement +:+ replace_all c replacement s'
      else String c' (replace_all c replacement s')
  end.

(** The three replacements of [minimatch], in their order. *)
Definition regexPattern (pattern : string) : string :=
  replace_all "?" "."
    (replace_all "*" ".*"
       (replace_all "." "\." pattern)).

(** [array.some(test)] and [array.filter(keep)] with a callback that may
    throw: the first exception ends the traversal. *)
Fixpoint array_some {A} (test : A -> outcome bool) (l : list A) : outcome bool :=
  match l with
  | [] => Returns false
  | x :: l' =>
      b ← test x;
      if b : bool then Returns true else array_some test l'
  end.

Fixpoint array_filter {A} (keep : A -> outcome bool) (l : list A)
  : outcome (list A) :=
  match l with
  | [] => Returns []
  | x :: l' =>
      b ← keep x;
      kept ← array_filter keep l';
      Returns (if b : bool then x :: kept else kept)
  end.

Section analyzeProjectStructure.
(** [new RegExp(source)] of the JavaScript engine: a syntax error is
    thrown, a compiled expression is used through [test]. *)
Variable RegExp : string -> outcome (string -> bool).

Definition minimatch (filename pattern : string) : outcome bool :=
  regex ← RegExp ("^" +:+ regexPattern pattern +:+ "$");
  Returns (regex filename).

Definition analyzeProjectStructure
    (structure : ProjectStructure.t) (tsconfig : TSConfig)
  : outcome (list string) :=
  let messages : list string := [] in
  let messages :=
    match files tsconfig with
    | Some declared =>
        let missingFiles :=
          filter (fun file => file ∉ ProjectStructure.files structure)
            declared in
        if Nat.ltb 0 (length missingFiles) then
          messages
            ++ ["The following files specified in 'files' are missing from the project:"]
            ++ map (fun file => "  - " +:+ file) missingFiles
        else messages
    | None => messages
    end in
  messages ←
    match include tsconfig with
    | Some patterns =>
        includedFiles ←
          array_filter
            (fun file => array_some (fun pattern => minimatch file pattern) patterns)
            (ProjectStructure.files structure);
        Returns (messages ++
          ["Found " +:+ pretty (length includedFiles)
             +:+ " files matching 'include' patterns."])
    | None => Returns messages
    end;
  messages ←
    match exclude tsconfig with
    | Some patterns =>
        excludedFiles ←
          array_filter
            (fun file => array_some (fun pattern => minimatch file pattern) patterns)
            (ProjectStructure.files structure);
        Returns
          (if Nat.ltb 0 (length excludedFiles) then
             messages ++
               ["Warning: Found " +:+ pretty (length excludedFiles)
                  +:+ " files matching 'exclude' patterns."]
           else messages)
    | None => Returns messages
    end;
  Returns messages.
End analyzeProjectStructure.

(** An engine for the expressions that [minimatch] builds from plain
    wildcard patterns: literal characters, escaped punctuation, [.] and the
    star, between [^] and [$]. It stands in for the JavaScript engine in the
    examples. Like that engine it rejects a group that is not closed and a
    star with nothing to repeat; the other constructs of JavaScript
    expressions are not implemented, and rejected as such. *)
Inductive atom :=
| Lit (c : ascii)
| AnyChar.

Inductive lexeme :=
| LAtom (a : atom)
| LStar.

Definition atom_matches (a : atom) (c : ascii) : bool :=
  match a with
  | Lit c' => Ascii.eqb c' c
  | AnyChar => negb (Ascii.eqb c "010") && negb (Ascii.eqb c "013")
  end.

Definition syntax_error (source reason : string) : error :=
  Error "SyntaxError"
    ("Invalid regular expression: /" +:+ source +:+ "/: " +:+ reason).

Definition is_alphanumeric (c : ascii) : bool :=
  let n := nat_of_ascii c in
  (Nat.leb 48 n && Nat.leb n 57) || (Nat.leb 65 n && Nat.leb n 90)
  || (Nat.leb 97 n && Nat.leb n 122).

Fixpoint lex (source : string) (chars : list ascii) : outcome (list lexeme) :=
  match chars with
  | [] => Returns []
  | "\"%char :: [] => Raises (syntax_error source "\ at end of pattern")
  | "\"%char :: c :: rest =>
      if is_alphanumeric c then Raises (syntax_error source "Not implemented")
      else lexemes ← lex source rest; Returns (LAtom (Lit c) :: lexemes)
  | "."%char :: rest => lexemes ← lex source rest; Returns (LAtom AnyChar :: lexemes)
  | "*"%char :: rest => lexemes ← lex source rest; Returns (LStar :: lexemes)
  | "("%char :: rest =>
      if bool_decide (")"%char ∈ rest)
      then Raises (syntax_error source "Not implemented")
      else Raises (syntax_error source "Unterminated group")
  | c :: rest =>
      if bool_decide (c ∈ list_ascii_of_string ")[]{}|+?^$")
      then Raises (syntax_error source "Not implemented")
      else lexemes ← lex source rest; Returns (LAtom (Lit c) :: lexemes)
  end.

Fixpoint attach_stars (source : string) (lexemes : list lexeme)
  : outcome (list (atom * bool)) :=
  match lexemes with
  | [] => Returns []
  | LStar :: _ => Raises (syntax_error source "Nothing to repeat")
  | LAtom a :: LStar :: rest =>
      atoms ← attach_stars source rest; Returns ((a, true) :: atoms)
  | LAtom a :: rest =>
      atoms ← attach_stars source rest; Returns ((a, false) :: atoms)
  end.

Fixpoint match_here (atoms : list (atom * bool)) : list ascii -> bool :=
  match atoms with
  | [] => fun s => match s with [] => true | _ => false end
  | (a, false) :: atoms' => fun s =>
      match s with
      | c :: s' => atom_matches a c && match_here atoms' s'
      | [] => false
      end
  | (a, true) :: atoms' =>
      fix star (s : list ascii) : bool :=
        match_here atoms' s
        || match s with
           | c :: s' => atom_matches a c && star s'
           | [] => false
           end
  end.

Definition wildcard_RegExp (source : string) : outcome (string -> bool) :=
  match list_ascii_of_string source with
  | "^"%char :: body =>
      match rev body with
      | "$"%char :: rev_body =>
          lexemes ← lex source (rev rev_body);
          atoms ← attach_stars source lexemes;
          Returns (fun filename => match_here atoms (list_ascii_of_string filename))
      | _ => Raises (syntax_error source "Not implemented")
      end
  | _ => Raises (syntax_error source "Not implemented")
  end.

(** ** common-issues *)

(** [s.toLowerCase()], on the ASCII letters. *)
Definition lower_ascii (c : ascii) : ascii :=
  let n := nat_of_ascii c in
  if Nat.leb 65 n && Nat.leb n 90 then ascii_of_nat (n + 32) else c.

Fixpoint toLowerCase (s : string) : string :=
  match s with
  | EmptyString => EmptyString
  | String c s' => String (lower_ascii c) (toLowerCase s')
  end.

(** The error of a call of [callee], an expression whose value is not a
    function: the message of the engine names the expression as the source
    writes it. *)
Definition not_a_function (callee : string) : error :=
  Error "TypeError" (callee +:+ " is not a function").

(** [v?.toLowerCase()] for a value of type [any], [callee] being the text
    of the expression up to the call: [undefined] when [v] is [undefined]
    or [null], the lowered string when [v] is a string, and a [TypeError]
    otherwise, since no other value has the method. *)
Definition opt_toLowerCase (callee : string) (v : option json)
  : outcome (option string) :=
  match v with
  | None | Some JNull => Returns None
  | Some (JStr s) => Returns (Some (toLowerCase s))
  | Some _ => Raises (not_a_function callee)
  end.

(** [config.compilerOptions?.[setting]] *)
Definition get_option (config : TSConfig) (setting : string) : option json :=
  compilerOptions config ≫= Obj.get setting.

(** [{ ...config, compilerOptions: { ...config.compilerOptions, [setting]: value } }] *)
Definition set_option (setting : string) (value : json) (config : TSConfig)
  : TSConfig :=
  {| compilerOptions :=
       Some (Obj.set setting value
               (Obj.assign [] (default [] (compilerOptions config))));
     include := include config;
     exclude := exclude config;
     extends := extends config;
     files := files config;
     other := Obj.assign [] (other config) |}.

(** The tests of the catalog on the value of the option they read. *)
Definition not_enabled (v : option json) : outcome bool :=
  Returns (negb (truthy_opt v)).

Definition MODERN_TARGETS : list string :=
  [ "es2018"; "es2019"; "es2020"; "es2021"; "es2022"; "esnext" ].

Definition target_outdated (v : option json) : outcome bool :=
  target ← opt_toLowerCase "config.compilerOptions?.target?.toLowerCase" v;
  Returns
    match target with
    | Some target =>
        negb (String.eqb target "") && negb (bool_decide (target ∈ MODERN_TARGETS))
    | None => false
    end.

Definition module_not_esnext (v : option json) : outcome bool :=
  module ← opt_toLowerCase "config.compilerOptions?.module?.toLowerCase" v;
  Returns (negb (bool_decide (module = Some "esnext"))).

(** An entry of the catalog. Each rule of the source reads one compiler
    option in its [check] and writes that option in its [fix]: the entry
    keeps the name of the option ([setting]), the test on its value and the
    value the fix gives it. *)
Module Issue.
Record t := mk {
  description : string;
  setting : string;
  test : option json -> outcome bool;
  value : json;
  reason : string;
}.

Definition check (issue : t) (config : TSConfig) : outcome bool :=
  test issue (get_option config (setting issue)).

Definition fix_ (issue : t) (config : TSConfig) : TSConfig :=
  set_option (setting issue) (value issue) config.
End Issue.

Definition commonIssues : list Issue.t :=
  [ Issue.mk "Strict mode is not enabled"
      "strict" not_enabled (JBool true)
      "Enabling strict mode helps catch more errors and improves type safety.";
    Issue.mk "Target is set to an outdated ECMAScript version"
      "target" target_outdated (JStr "es2022")
      "Using a more modern target allows for better optimizations and newer language features.";
    Issue.mk "Module is not set to ESNext"
      "module" module_not_esnext (JStr "ESNext")
      "Using ESNext as the module system enables better tree-shaking and is more future-proof.";
    Issue.mk "esModuleInterop is not enabled"
      "esModuleInterop" not_enabled (JBool true)
      "Enabling esModuleInterop improves compatibility with CommonJS modules.";
    Issue.mk "forceConsistentCasingInFileNames is not enabled"
      "forceConsistentCasingInFileNames" not_enabled (JBool true)
      "Enforcing consistent casing in file names helps prevent issues on case-insensitive file systems.";
    Issue.mk "skipLibCheck is not enabled"
      "skipLibCheck" not_enabled (JBool true)
      "Enabling skipLibCheck can significantly improve compilation speed, especially in large projects.";
    Issue.mk "noImplicitAny is not enabled"
      "noImplicitAny" not_enabled (JBool true)
      "Enabling noImplicitAny helps catch potential type errors and improves code quality.";
    Issue.mk "strictNullChecks is not enabled"
      "strictNullChecks" not_enabled (JBool true)
      "Enabling strictNullChecks helps prevent null and undefined errors.";
    Issue.mk "noUnusedLocals is not enabled"
      "noUnusedLocals" not_enabled (JBool true)
      "Enabling noUnusedLocals helps identify and remove unused variables, improving code cleanliness.";
    Issue.mk "noUnusedParameters is not enabled"
      "noUnusedParameters" not_enabled (JBool true)
      "Enabling noUnusedParameters helps identify and remove unused function parameters, improving code cleanliness.";
    Issue.mk "sourceMap is not enabled"
      "sourceMap" not_enabled (JBool true)
      "Enabling sourceMap generation improves debugging experience by mapping compiled code back to the original TypeScript source.";
    Issue.mk "declaration is not enabled"
      "declaration" not_enabled (JBool true)
      "Enabling declaration file generation is crucial for libraries and improves IDE support for consumers of your code.";
    Issue.mk "resolveJsonModule is not enabled"
      "resolveJsonModule" not_enabled (JBool true)
      "Enabling resolveJsonModule allows for importing JSON files as modules, which can be useful for configuration files or data." ].

(** An element of the list [analyzeCommonIssues] returns. *)
Module Detected.
Record t := mk {
  description : string;
  fix_ : TSConfig;
  reason : string;
}.
End Detected.

Definition analyzeCommonIssues (config : TSConfig) : outcome (list Detected.t) :=
  detected ← array_filter (fun issue => Issue.check issue config) commonIssues;
  Returns
    (map (fun issue =>
            {| Detected.description := Issue.description issue;
               Detected.fix_ := Issue.fix_ issue config;
               Detected.reason := Issue.reason issue |})
       detected).

(** [fixIndex] is taken among the integers. *)
Definition applyFix (config : TSConfig) (fixIndex : Z) : outcome TSConfig :=
  issues ← analyzeCommonIssues config;
  if Z.leb 0 fixIndex && Z.ltb fixIndex (Z.of_nat (length issues)) then
    match issues !! Z.to_nat fixIndex with
    | Some issue => Returns (Detected.fix_ issue)
    | None => Raises (Error "TypeError" "Cannot read properties of undefined")
    end
  else Returns config.

(** ** The file system *)

(** A directory entry as [fs.readdir(dir, { withFileTypes: true })] gives
    it. *)
Module Dirent.
Record t := mk {
  name : string;
  isDirectory : bool;
  isFile : bool;
}.
End Dirent.

(** The fields of a package manifest that the resolver reads. *)
Module PackageJson.
Record t := mk {
  types : option string;
  typings : option string;
}.
End PackageJson.

(** A [Map<string, TSConfig>]. *)
Definition DependencyConfigs := Obj.t TSConfig.

Section file_system.
(** The file system and the parser are capabilities handed to the code:
    [fs.readdir], [fs.readFile], [fs.access], [path.join], [path.basename]
    and [JSON.parse] at the two types it is used at. The output of the
    logger is not part of the model. *)
Variable readdir : string -> outcome (list Dirent.t).
Variable readFile : string -> outcome string.
Variable access : string -> outcome unit.
Variable join : string -> string -> string.
Variable basename : string -> string.
Variable parseTSConfig : string -> outcome TSConfig.
Variable parsePackageJson : string -> outcome PackageJson.t.

(** *** config-finder: discovery *)

(** [scanDirectory] recurses into the directories it meets; [fuel] bounds
    the depth of the recursion, and [None] says that it was too small.
    The result holds [configFiles] with the files found appended. *)
Fixpoint scanDirectory (fuel : nat) (dir : string) (configFiles : list string)
  : option (outcome (list string)) :=
  match fuel with
  | 0 => None
  | S fuel' =>
      match readdir dir with
      | Raises e => Some (Raises e)
      | Returns entries =>
          (fix visit (entries : list Dirent.t) (configFiles : list string)
             : option (outcome (list string)) :=
             match entries with
             | [] => Some (Returns configFiles)
             | entry :: rest =>
                 if Dirent.isDirectory entry
                    && negb (String.prefix "." (Dirent.name entry))
                    && negb (String.eqb (Dirent.name entry) "node_modules")
                 then
                   match scanDirectory fuel' (join dir (Dirent.name entry))
                           configFiles with
                   | Some (Returns configFiles') => visit rest configFiles'
                   | Some (Raises e) => Some (Raises e)
                   | None => None
                   end
                 else if Dirent.isFile entry
                         && bool_decide (Dirent.name entry ∈ CONFIG_FILE_NAMES)
                 then visit rest (configFiles ++ [join dir (Dirent.name entry)])
                 else visit rest configFiles
             end) entries configFiles
      end
  end.

Definition findTSConfigs (fuel : nat) (projectRoot : string)
  : option (outcome (list string)) :=
  scanDirectory fuel projectRoot [].

Definition readTSConfig (configPath : string) : outcome TSConfig :=
  try_catch
    (content ← readFile configPath; parseTSConfig content)
    (fun error => Raises error).

(** [findAndMergeConfigs]; [None] when the discovery needs more [fuel],
    and when the merged object is not one the interface [TSConfig]
    describes. *)
Definition findAndMergeConfigs (fuel : nat) (projectRoot : string)
  : option (outcome TSConfig) :=
  match findTSConfigs fuel projectRoot with
  | Some (Returns configFiles) =>
      held (mergeConfigs readTSConfig
              (determineRelevantConfigs basename configFiles))
  | Some (Raises e) => Some (Raises e)
  | None => None
  end.

(** *** node-modules-resolver: scan *)

(** [[tsconfig.json, types && join(types), typings && join(typings)]
    .filter(Boolean)] *)
Definition possiblePaths (packagePath : string) (packageJson : PackageJson.t)
  : list string :=
  let declared (field : option string) : list string :=
    match field with
    | Some file => if String.eqb file "" then [] else [join packagePath file]
    | None => []
    end in
  [join packagePath "tsconfig.json"]
    ++ declared (PackageJson.types packageJson)
    ++ declared (PackageJson.typings packageJson).

(** The loop of [findTSConfig]: the first path that [fs.access] accepts. *)
Fixpoint first_accessible (paths : list string) : option string :=
  match paths with
  | [] => None
  | configPath :: paths' =>
      match try_catch (_ ← access configPath; Returns (Some configPath))
              (fun _ => Returns None) with
      | Returns (Some found) => Some found
      | _ => first_accessible paths'
      end
  end.

Definition findTSConfig (packagePath : string) (packageJson : PackageJson.t)
  : outcome (option string) :=
  Returns (first_accessible (possiblePaths packagePath packageJson)).

Definition resolvePackageConfig (packagePath : string)
  : outcome (option TSConfig) :=
  try_catch
    (let packageJsonPath := join packagePath "package.json" in
     packageJsonContent ← readFile packageJsonPath;
     packageJson ← parsePackageJson packageJsonContent;
     tsConfigPath ← findTSConfig packagePath packageJson;
     match tsConfigPath with
     | Some tsConfigPath =>
         if String.eqb tsConfigPath "" then Returns None
         else config ← readTSConfig tsConfigPath; Returns (Some config)
     | None => Returns None
     end)
    (fun error => Returns None).

(** The loops of [scanNodeModules] write into the map and may stop on an
    exception: they return the map as it is when they end, with the way
    they ended. *)
Fixpoint scanScope (scope scopePath : string) (scopedEntries : list Dirent.t)
    (dependencyConfigs : DependencyConfigs)
  : DependencyConfigs * outcome unit :=
  match scopedEntries with
  | [] => (dependencyConfigs, Returns ())
  | scopedEntry :: rest =>
      if Dirent.isDirectory scopedEntry then
        let packagePath := join scopePath (Dirent.name scopedEntry) in
        match resolvePackageConfig packagePath with
        | Raises e => (dependencyConfigs, Raises e)
        | Returns (Some config) =>
            scanScope scope scopePath rest
              (Obj.set (scope +:+ "/" +:+ Dirent.name scopedEntry) config
                 dependencyConfigs)
        | Returns None => scanScope scope scopePath rest dependencyConfigs
        end
      else scanScope scope scopePath rest dependencyConfigs
  end.

Fixpoint scanEntries (nodeModulesPath : string) (entries : list Dirent.t)
    (dependencyConfigs : DependencyConfigs)
  : DependencyConfigs * outcome unit :=
  match entries with
  | [] => (dependencyConfigs, Returns ())
  | entry :: rest =>
      if Dirent.isDirectory entry && negb (String.prefix "@" (Dirent.name entry))
      then
        let packagePath := join nodeModulesPath (Dirent.name entry) in
        match resolvePackageConfig packagePath with
        | Raises e => (dependencyConfigs, Raises e)
        | Returns (Some config) =>
            scanEntries nodeModulesPath rest
              (Obj.set (Dirent.name entry) config dependencyConfigs)
        | Returns None => scanEntries nodeModulesPath rest dependencyConfigs
        end
      else if Dirent.isDirectory entry && String.prefix "@" (Dirent.name entry)
      then
        let scopePath := join nodeModulesPath (Dirent.name entry) in
        match readdir scopePath with
        | Raises e => (dependencyConfigs, Raises e)
        | Returns scopedEntries =>
            match scanScope (Dirent.name entry) scopePath scopedEntries
                    dependencyConfigs with
            | (dependencyConfigs', Returns _) =>
                scanEntries nodeModulesPath rest dependencyConfigs'
            | (dependencyConfigs', Raises e) => (dependencyConfigs', Raises e)
            end
        end
      else scanEntries nodeModulesPath rest dependencyConfigs
  end.

(** The [try] block of [scanNodeModules], started on the empty map. *)
Definition scanTryBlock (nodeModulesPath : string)
  : DependencyConfigs * outcome unit :=
  match readdir nodeModulesPath with
  | Raises e => ([], Raises e)
  | Returns entries => scanEntries nodeModulesPath entries []
  end.

Definition scanNodeModules (projectRoot : string) : outcome DependencyConfigs :=
  let nodeModulesPath := join projectRoot "node_modules" in
  let '(dependencyConfigs, ended) := scanTryBlock nodeModulesPath in
  _ ← try_catch ended (fun error => Returns ());
  Returns dependencyConfigs.
End file_system.

(** *** node-modules-resolver: fold of the dependency configurations *)

(** [incorporateDependencyConfigs] copies the project configuration one
    level deep and then writes into objects it reaches through the copy.
    The objects it may write are kept in a store, and a value refers to them
    by location, so that two references to one object see the same writes.
    The data it only reads (the dependency configurations, and what lies
    below the objects it writes) are immutable JSON values. *)
Definition loc := nat.

Inductive val :=
| VUndefined
| VJson (j : json)
| VRef (l : loc).

Inductive cell :=
| CObj (props : Obj.t val)
| CArr (elems : list val).

Definition heap := list cell.

Definition truthy_val (v : val) : bool :=
  match v with
  | VUndefined => false
  | VJson j => truthy j
  | VRef _ => true
  end.

(** A run over the store ends with a value and a store, or throws, or leaves
    the part of JavaScript that the model covers ([Unmodelled]: a write into
    an object that is kept out of the store, a property written on an
    array). *)
Inductive result (A : Type) :=
| Done (a : A) (h : heap)
| Throws (e : error)
| Unmodelled.
Arguments Done {A} a h.
Arguments Throws {A} e.
Arguments Unmodelled {A}.

Definition M (A : Type) : Type := heap -> result A.

#[global] Instance M_ret : MRet M := fun A a h => Done a h.
#[global] Instance M_bind : MBind M := fun A B f m h =>
  match m h with
  | Done a h' => f a h'
  | Throws e => Throws e
  | Unmodelled => Unmodelled
  end.

Definition throw {A} (message : string) : M A :=
  fun _ => Throws (Error "TypeError" message).

Definition unmodelled {A} : M A := fun _ => Unmodelled.

(** A new object or array. *)
Definition alloc (c : cell) : M val :=
  fun h => Done (VRef (length h)) (h ++ [c]).

Definition load (l : loc) : M cell :=
  fun h => match h !! l with Some c => Done c h | None => Unmodelled end.

Definition store (l : loc) (c : cell) : M unit :=
  fun h => Done () (<[l:=c]> h).

(** [v.k] for one of the property names [compilerOptions], [paths] and
    [types], which no array, string, number or boolean has. *)
Definition getProp (v : val) (k : string) : M val :=
  match v with
  | VUndefined | VJson JNull => throw "Cannot read properties of undefined"
  | VJson (JObj props) => mret (from_option VJson VUndefined (Obj.get k props))
  | VJson _ => mret VUndefined
  | VRef l =>
      c ← load l;
      match c with
      | CObj props => mret (default VUndefined (Obj.get k props))
      | CArr _ => mret VUndefined
      end
  end.

(** [v[k] = x], in strict mode. *)
Definition setProp (v : val) (k : string) (x : val) : M unit :=
  match v with
  | VUndefined | VJson JNull => throw "Cannot set properties of undefined"
  | VJson (JBool _) | VJson (JNum _) | VJson (JStr _) =>
      throw "Cannot create property on a primitive"
  | VJson (JArr _) | VJson (JObj _) => unmodelled
  | VRef l =>
      c ← load l;
      match c with
      | CObj props => store l (CObj (Obj.set k x props))
      | CArr _ => unmodelled
      end
  end.

(** [v.push(...xs)], the elements [xs] being known. *)
Definition push (v : val) (xs : list val) : M unit :=
  match v with
  | VUndefined | VJson JNull => throw "Cannot read properties of undefined"
  | VJson (JArr _) => unmodelled
  | VJson _ => throw "push is not a function"
  | VRef l =>
      c ← load l;
      match c with
      | CArr elems => store l (CArr (elems ++ xs))
      | CObj _ => throw "push is not a function"
      end
  end.

(** The entries [{ ...v }] copies. *)
Definition spreadProps (v : val) : M (Obj.t val) :=
  match v with
  | VUndefined | VJson JNull | VJson (JBool _) | VJson (JNum _) => mret []
  | VJson (JObj props) => mret (Obj.entries (map (fun kv => (fst kv, VJson (snd kv))) props))
  | VJson (JArr _) | VJson (JStr _) => unmodelled
  | VRef l =>
      c ← load l;
      match c with
      | CObj props => mret (Obj.entries props)
      | CArr _ => unmodelled
      end
  end.

(** [for (const x of l) body(x)] *)
Fixpoint for_each {A} (l : list A) (body : A -> M unit) : M unit :=
  match l with
  | [] => mret ()
  | x :: l' => _ ← body x; for_each l' body
  end.

(** The string a template literal makes of a JSON value. *)
Fixpoint json_toString (j : json) : string :=
  match j with
  | JNull => "null"
  | JBool true => "true"
  | JBool false => "false"
  | JNum n => pretty n
  | JStr s => s
  | JArr elems =>
      (fix join (elems : list json) : string :=
         match elems with
         | [] => ""
         | [e] => match e with JNull => "" | _ => json_toString e end
         | e :: elems' =>
             match e with JNull => "" | _ => json_toString e end
               +:+ "," +:+ join elems'
         end) elems
  | JObj _ => "[object Object]"
  end.

(** [(value as string[]).map(f)]: only an array has the method. *)
Definition json_map (value : json) (f : json -> string) : M (list string) :=
  match value with
  | JArr elems => mret (map f elems)
  | _ => throw "value.map is not a function"
  end.

(** The elements [...j] spreads into an argument list. *)
Definition json_iterate (j : json) : M (list json) :=
  match j with
  | JArr elems => mret elems
  | JStr s => mret (map JStr (characters s))
  | _ => throw "Spread syntax requires an iterable"
  end.

(** The body of the loop over [Object.entries(paths)]. *)
Definition writeEntry (updatedConfig : val) (dependencyName : string)
    (key : string) (value : json) : M unit :=
  if truthy value then
    options ← getProp updatedConfig "compilerOptions";
    target ← getProp options "paths";
    mapped ← json_map value (fun p =>
               "node_modules/" +:+ dependencyName +:+ "/" +:+ json_toString p);
    array ← alloc (CArr (map (fun s => VJson (JStr s)) mapped));
    setProp target (dependencyName +:+ "/" +:+ key) array
  else mret ().

Definition mergePaths (updatedConfig : val) (dependencyName : string)
    (paths : json) : M unit :=
  options ← getProp updatedConfig "compilerOptions";
  existing ← getProp options "paths";
  _ ← (if truthy_val existing then mret ()
       else fresh ← alloc (CObj []); setProp options "paths" fresh);
  for_each (json_entries paths) (fun kv =>
    writeEntry updatedConfig dependencyName (fst kv) (snd kv)).

Definition mergeTypes (updatedConfig : val) (types : json) : M unit :=
  options ← getProp updatedConfig "compilerOptions";
  existing ← getProp options "types";
  _ ← (if truthy_val existing then mret ()
       else fresh ← alloc (CArr []); setProp options "types" fresh);
  options ← getProp updatedConfig "compilerOptions";
  target ← getProp options "types";
  elems ← json_iterate types;
  push target (map VJson elems).

(** The body of the loop over the map of the dependencies. *)
Definition foldDependency (updatedConfig : val) (dependencyName : string)
    (dependencyConfig : TSConfig) : M unit :=
  match compilerOptions dependencyConfig with
  | Some dependencyOptions =>
      _ ← match Obj.get "paths" dependencyOptions with
          | Some paths =>
              if truthy paths
              then mergePaths updatedConfig dependencyName paths
              else mret ()
          | None => mret ()
          end;
      match Obj.get "types" dependencyOptions with
      | Some types =>
          if truthy types then mergeTypes updatedConfig types else mret ()
      | None => mret ()
      end
  | None => mret ()
  end.

Definition incorporateDependencyConfigs (projectConfig : val)
    (dependencyConfigs : DependencyConfigs) : M val :=
  props ← spreadProps projectConfig;
  updatedConfig ← alloc (CObj props);
  options ← getProp updatedConfig "compilerOptions";
  _ ← (if truthy_val options then mret ()
       else fresh ← alloc (CObj []);
            setProp updatedConfig "compilerOptions" fresh);
  _ ← for_each (Obj.entries dependencyConfigs) (fun entry =>
         foldDependency updatedConfig (fst entry) (snd entry));
  mret updatedConfig.

(** ** report-generator *)

(** A line feed and a double quote, as strings. *)
Definition LF : string := String "010" EmptyString.
Definition dq : string := String "034" EmptyString.

(** [suggestedValue] is always set; [currentValue] is [undefined] when the
    option it was read from is absent. *)
Module Suggestion.
Record t := mk {
  setting : string;
  currentValue : option json;
  suggestedValue : json;
  reason : string;
}.
End Suggestion.

(** The interface declares [config] a [TSConfig]; the results that the
    command line hands over hold what [getConfig] returned, which is [null]
    ([None]) when no configuration was read. *)
Module AnalysisResult.
Record t := mk {
  configPath : string;
  valid : bool;
  messages : list string;
  config : option TSConfig;
}.
End AnalysisResult.

(** [v !== true] *)
Definition not_true (v : option json) : bool :=
  match v with
  | Some (JBool true) => false
  | _ => true
  end.

(** [v && !allowed.includes(v.toLowerCase())], [callee] being the text of
    the expression [v.toLowerCase]: a value that is not truthy ends the
    test, a string is lowered and looked up, and no other value has the
    method. *)
Definition outside_of (callee : string) (allowed : list string)
    (v : option json) : outcome bool :=
  match v with
  | None => Returns false
  | Some (JStr s) =>
      Returns (negb (String.eqb s "")
               && negb (bool_decide (toLowerCase s ∈ allowed)))
  | Some v =>
      if truthy v then Raises (not_a_function callee) else Returns false
  end.

Definition ESM_MODULES : list string := [ "es2015"; "es2020"; "es2022"; "esnext" ].

(** [generateSuggestions], which [report-generator] and [export-formats]
    each define with the same body. *)
Definition generateSuggestions (config : option TSConfig)
  : outcome (list Suggestion.t) :=
  match config with
  | None =>
      Raises (Error "TypeError"
                "Cannot read properties of null (reading 'compilerOptions')")
  | Some config =>
      let suggestions : list Suggestion.t := [] in
      match compilerOptions config with
      | None => Returns suggestions
      | Some compilerOptions =>
          let suggestions :=
            if not_true (Obj.get "strict" compilerOptions) then
              suggestions ++
                [ {| Suggestion.setting := "compilerOptions.strict";
                     Suggestion.currentValue := Obj.get "strict" compilerOptions;
                     Suggestion.suggestedValue := JBool true;
                     Suggestion.reason :=
                       "Enabling strict mode helps catch more errors and improves type safety." |} ]
            else suggestions in
          outdated ← outside_of "compilerOptions.target.toLowerCase"
                       MODERN_TARGETS (Obj.get "target" compilerOptions);
          let suggestions :=
            if outdated : bool then
              suggestions ++
                [ {| Suggestion.setting := "compilerOptions.target";
                     Suggestion.currentValue := Obj.get "target" compilerOptions;
                     Suggestion.suggestedValue := JStr "es2022";
                     Suggestion.reason :=
                       "Using a more modern target allows for better optimizations and newer language features." |} ]
            else suggestions in
          let suggestions :=
            if not_true (Obj.get "incremental" compilerOptions) then
              suggestions ++
                [ {| Suggestion.setting := "compilerOptions.incremental";
                     Suggestion.currentValue := Obj.get "incremental" compilerOptions;
                     Suggestion.suggestedValue := JBool true;
                     Suggestion.reason :=
                       "Enabling incremental compilation can significantly speed up subsequent builds." |} ]
            else suggestions in
          foreign ← outside_of "compilerOptions.module.toLowerCase"
                      ESM_MODULES (Obj.get "module" compilerOptions);
          let suggestions :=
            if foreign : bool then
              suggestions ++
                [ {| Suggestion.setting := "compilerOptions.module";
                     Suggestion.currentValue := Obj.get "module" compilerOptions;
                     Suggestion.suggestedValue := JStr "es2022";
                     Suggestion.reason :=
                       "Using the ECMAScript module system enables better tree-shaking and is more future-proof." |} ]
            else suggestions in
          Returns suggestions
      end
  end.

(** [array.map(f)] with a callback that may throw. *)
Fixpoint array_map {A B} (f : A -> outcome B) (l : list A) : outcome (list B) :=
  match l with
  | [] => Returns []
  | x :: l' =>
      y ← f x;
      ys ← array_map f l';
      Returns (y :: ys)
  end.

(** [x || y] on strings. *)
Definition or_else (x y : string) : string :=
  if String.eqb x "" then y else x.

(** [s.trim()], on the ASCII white space: tab, line feed, vertical tab,
    form feed, carriage return and space. The white space outside of
    ASCII, which [trim] removes as well, is not modelled. *)
Definition is_space (c : ascii) : bool :=
  let n := nat_of_ascii c in
  (Nat.leb 9 n && Nat.leb n 13) || Nat.eqb n 32.

Fixpoint trimStart (s : string) : string :=
  match s with
  | EmptyString => EmptyString
  | String c s' => if is_space c then trimStart s' else s
  end.

Definition trim (s : string) : string :=
  String.rev (trimStart (String.rev (trimStart s))).

Section reports.
(** [JSON.stringify] of the JavaScript engine, on a value and, with an
    indentation of two, on the list of results. *)
Variable JSON_stringify : json -> string.
Variable JSON_stringify_results : list AnalysisResult.t -> string.

(** [JSON.stringify(v)] inside a template: [undefined] has no JSON text,
    and the template shows the word. *)
Definition stringified (v : option json) : string :=
  match v with
  | Some j => JSON_stringify j
  | None => "undefined"
  end.

(** The body of [for (const result of results)] in [generateTextReport],
    on the lines pushed so far. *)
Definition text_section (report : list string) (result : AnalysisResult.t)
  : outcome (list string) :=
  let report := report ++
    [ "Configuration: " +:+ AnalysisResult.configPath result;
      "Overall Validity: "
        +:+ (if AnalysisResult.valid result then "Valid" else "Invalid");
      "" ] in
  let report := report ++ [ "Analysis Messages:" ] in
  let report := report ++
    map (fun message => "- " +:+ message) (AnalysisResult.messages result) in
  let report := report ++ [ "" ] in
  suggestions ← generateSuggestions (AnalysisResult.config result);
  let report :=
    if Nat.ltb 0 (length suggestions) then
      report ++ [ "Suggestions for Improvement:" ] ++
        List.concat
          (map (fun suggestion =>
                  [ "- " +:+ Suggestion.setting suggestion +:+ ":";
                    "  Current value: "
                      +:+ stringified (Suggestion.currentValue suggestion);
                    "  Suggested value: "
                      +:+ stringified (Some (Suggestion.suggestedValue suggestion));
                    "  Reason: " +:+ Suggestion.reason suggestion;
                    "" ])
             suggestions)
    else report ++ [ "No suggestions for improvement." ] in
  Returns (report ++ [ "------------------------------------------"; "" ]).

Fixpoint text_sections (report : list string) (results : list AnalysisResult.t)
  : outcome (list string) :=
  match results with
  | [] => Returns report
  | result :: rest =>
      report ← text_section report result;
      text_sections report rest
  end.

Definition generateTextReport (results : list AnalysisResult.t) : outcome string :=
  report ← text_sections
    [ "TypeScript Configuration Analysis Report";
      "==========================================";
      "" ] results;
  Returns (String.concat LF report).

(** ** export-formats *)

(** The templates are written line by line, joined by line feeds. *)
Definition html_suggestion (suggestion : Suggestion.t) : string :=
  String.concat LF
    [ "";
      "            <div class=" +:+ dq +:+ "suggestion" +:+ dq +:+ ">";
      "                <h4>" +:+ Suggestion.setting suggestion +:+ "</h4>";
      "                <p><strong>Current value:</strong> "
        +:+ stringified (Suggestion.currentValue suggestion) +:+ "</p>";
      "                <p><strong>Suggested value:</strong> "
        +:+ stringified (Some (Suggestion.suggestedValue suggestion)) +:+ "</p>";
      "                <p><strong>Reason:</strong> "
        +:+ Suggestion.reason suggestion +:+ "</p>";
      "            </div>";
      "        " ].

Definition html_section (result : AnalysisResult.t) : outcome string :=
  suggestions ← generateSuggestions (AnalysisResult.config result);
  Returns (String.concat LF
    [ "";
      "    <div class=" +:+ dq +:+ "config-section" +:+ dq +:+ ">";
      "        <h2>Configuration: " +:+ AnalysisResult.configPath result +:+ "</h2>";
      "        <h3>Overall Validity: <span class=" +:+ dq
        +:+ (if AnalysisResult.valid result then "valid" else "invalid")
        +:+ dq +:+ ">"
        +:+ (if AnalysisResult.valid result then "Valid" else "Invalid")
        +:+ "</span></h3>";
      "        ";
      "        <h3>Analysis Messages:</h3>";
      "        <ul>";
      "            "
        +:+ String.concat ""
              (map (fun message => "<li>" +:+ message +:+ "</li>")
                 (AnalysisResult.messages result));
      "        </ul>";
      "        ";
      "        <h3>Suggestions for Improvement:</h3>";
      "        "
        +:+ or_else (String.concat "" (map html_suggestion suggestions))
              "<p>No suggestions for improvement.</p>";
      "    </div>";
      "    " ]).

Definition generateHTMLReport (results : list AnalysisResult.t) : outcome string :=
  sections ← array_map html_section results;
  Returns (String.concat LF
    [ "";
      "<!DOCTYPE html>";
      "<html lang=" +:+ dq +:+ "en" +:+ dq +:+ ">";
      "<head>";
      "    <meta charset=" +:+ dq +:+ "UTF-8" +:+ dq +:+ ">";
      "    <meta name=" +:+ dq +:+ "viewport" +:+ dq +:+ " content=" +:+ dq
        +:+ "width=device-width, initial-scale=1.0" +:+ dq +:+ ">";
      "    <title>TypeScript Configuration Analysis Report</title>";
      "    <style>";
      "        body { font-family: Arial, sans-serif; line-height: 1.6; color: #333; max-width: 800px; margin: 0 auto; padding: 20px; }";
      "        h1, h2, h3 { color: #2c3e50; }";
      "        .valid { color: #27ae60; }";
      "        .invalid { color: #c0392b; }";
      "        .suggestion { background-color: #f9f9f9; border-left: 5px solid #3498db; padding: 10px; margin-bottom: 10px; }";
      "        .config-section { border-bottom: 1px solid #bdc3c7; margin-bottom: 20px; padding-bottom: 20px; }";
      "    </style>";
      "</head>";
      "<body>";
      "    <h1>TypeScript Configuration Analysis Report</h1>";
      "    ";
      "    " +:+ String.concat "" sections;
      "</body>";
      "</html>";
      "  " ]).

Definition md_suggestion (suggestion : Suggestion.t) : string :=
  String.concat LF
    [ "";
      "#### " +:+ Suggestion.setting suggestion;
      "";
      "- **Current value:** " +:+ stringified (Suggestion.currentValue suggestion);
      "- **Suggested value:** "
        +:+ stringified (Some (Suggestion.suggestedValue suggestion));
      "- **Reason:** " +:+ Suggestion.reason suggestion;
      "" ].

Definition md_section (result : AnalysisResult.t) : outcome string :=
  suggestions ← generateSuggestions (AnalysisResult.config result);
  Returns (String.concat LF
    [ "";
      "## Configuration: " +:+ AnalysisResult.configPath result;
      "";
      "### Overall Validity: "
        +:+ (if AnalysisResult.valid result then "Valid" else "Invalid");
      "";
      "### Analysis Messages:";
      "";
      String.concat LF
        (map (fun message => "- " +:+ message) (AnalysisResult.messages result));
      "";
      "### Suggestions for Improvement:";
      "";
      or_else (String.concat LF (map md_suggestion suggestions))
        "No suggestions for improvement.";
      "";
      "---";
      "" ]).

Definition generateMarkdownReport (results : list AnalysisResult.t)
  : outcome string :=
  sections ← array_map md_section results;
  let md :=
    String.concat LF
      [ "";
        "# TypeScript Configuration Analysis Report";
        "";
        String.concat LF sections;
        "  " ] in
  Returns (trim md).

Definition exportReport (format : string) (results : list AnalysisResult.t)
  : outcome string :=
  if String.eqb format "html" then generateHTMLReport results
  else if String.eqb format "markdown" then generateMarkdownReport results
  else Raises (Error "Error" ("Unsupported export format: " +:+ format)).

(** ** report-generator: dispatch *)

(** [format] is [None] when the argument is left out, and is then
    ["text"]. *)
Definition generateReport (results : list AnalysisResult.t)
    (format : option string) : outcome string :=
  let format := default "text" format in
  if String.eqb format "text" then generateTextReport results
  else if String.eqb format "json" then Returns (JSON_stringify_results results)
  else if String.eqb format "html" || String.eqb format "markdown"
  then exportReport format results
  else Raises (Error "Error" ("Unsupported report format: " +:+ format)).
End reports.

(** ** project-structure: scan *)

Section scanProjectStructure.
(** [fs.readdir], [path.join] and [path.relative]. *)
Variable readdir : string -> outcome (list Dirent.t).
Variable join : string -> string -> string.
Variable relative : string -> string -> string.

(** The inner function [scan], which pushes into the two arrays of
    [structure] and recurses into every directory; [fuel] bounds the depth
    of the recursion, and [None] says that it was too small. *)
Fixpoint scanStructure (fuel : nat) (projectRoot dir : string)
    (structure : ProjectStructure.t) : option (outcome ProjectStructure.t) :=
  match fuel with
  | 0 => None
  | S fuel' =>
      match readdir dir with
      | Raises e => Some (Raises e)
      | Returns entries =>
          (fix visit (entries : list Dirent.t) (structure : ProjectStructure.t)
             : option (outcome ProjectStructure.t) :=
             match entries with
             | [] => Some (Returns structure)
             | entry :: rest =>
                 let fullPath := join dir (Dirent.name entry) in
                 let relativePath := relative projectRoot fullPath in
                 if Dirent.isDirectory entry then
                   match scanStructure fuel' projectRoot fullPath
                           {| ProjectStructure.files :=
                                ProjectStructure.files structure;
                              ProjectStructure.directories :=
                                ProjectStructure.directories structure
                                  ++ [relativePath] |} with
                   | Some (Returns structure') => visit rest structure'
                   | Some (Raises e) => Some (Raises e)
                   | None => None
                   end
                 else if Dirent.isFile entry then
                   visit rest
                     {| ProjectStructure.files :=
                          ProjectStructure.files structure ++ [relativePath];
                        ProjectStructure.directories :=
                          ProjectStructure.directories structure |}
                 else visit rest structure
             end) entries structure
      end
  end.

(** The error of the scan is logged and thrown again. *)
Definition scanProjectStructure (fuel : nat) (projectRoot : string)
  : option (outcome ProjectStructure.t) :=
  match scanStructure fuel projectRoot projectRoot
          {| ProjectStructure.files := []; ProjectStructure.directories := [] |} with
  | Some scanned => Some (try_catch scanned (fun error => Raises error))
  | None => None
  end.
End scanProjectStructure.

(** ** tsconfig-analyzer *)

(** The options of an analyzer; an option that is left out is
    [undefined]. *)
Module AnalyzerOptions.
Record t := mk {
  ignoreErrors : option bool;
  autoFix : option bool;
}.
End AnalyzerOptions.

(** [!!flag] *)
Definition enabled (flag : option bool) : bool := default false flag.

(** A [ZodIssue] with its [message], as the analyzer passes it on. *)
Module Reported.
Record t := mk {
  code : string;
  path : list segment;
  message : string;
}.
End Reported.

(** What the method [validateCompilerOptions] returns. *)
Module Validated.
Record t := mk {
  valid : bool;
  errors : list Reported.t;
}.
End Validated.

Module SuggestedFix.
Record t := mk {
  description : string;
  reason : string;
}.
End SuggestedFix.

(** What [analyzeConfig] returns. *)
Module Analysis.
Record t := mk {
  valid : bool;
  messages : list string;
  report : string;
  suggestedFixes : list SuggestedFix.t;
}.
End Analysis.

(** The text of a path segment: a key, or an index in decimal. *)
Definition segment_text (key : segment) : string :=
  match key with
  | Key k => k
  | Index i => pretty i
  end.

(** [target[key]] where the model has it, a property of an object or the
    element of an array at an index; [None] is a read outside the model,
    [Some None] is [undefined]. *)
Definition read_at (target : json) (key : segment) : option (option json) :=
  match target, key with
  | JObj props, _ => Some (Obj.get (segment_text key) props)
  | JArr elems, Index i => Some (elems !! i)
  | _, _ => None
  end.

(** [target[key] = x] in strict mode, on a truthy [target]; the key is
    [None] for [undefined], which names the property ["undefined"]. A write
    that gives an array a property or a hole is outside the model; a write
    on a string, a number or a boolean throws. *)
Definition write_at (target : json) (key : option segment) (x : json)
  : option (outcome json) :=
  match target with
  | JObj props =>
      Some (Returns (JObj (Obj.set (from_option segment_text "undefined" key)
                             x props)))
  | JArr elems =>
      match key with
      | Some (Index i) =>
          if Nat.ltb i (length elems) then Some (Returns (JArr (<[i:=x]> elems)))
          else if Nat.eqb i (length elems) then Some (Returns (JArr (elems ++ [x])))
          else None
      | _ => None
      end
  | _ => Some (Raises (Error "TypeError" "Cannot create property on a primitive"))
  end.

(** The object [target] after the statements
    [for (let i = 0; target && i < path.length - 1; i++) target = target[path[i]];
     if (target) target[path[path.length - 1]] = x;]
    have run on it: the object reached is written in place, so the value is
    rebuilt around it. *)
Fixpoint assign_at (target : json) (path : list segment) (x : json)
  : option (outcome json) :=
  if negb (truthy target) then Some (Returns target)
  else
    match path with
    | [] => write_at target None x
    | [last] => write_at target (Some last) x
    | key :: path' =>
        match read_at target key with
        | None => None
        | Some None => Some (Returns target)
        | Some (Some child) =>
            match assign_at child path' x with
            | Some (Returns child') =>
                match target, key with
                | JObj props, _ =>
                    Some (Returns (JObj (Obj.set (segment_text key) child' props)))
                | JArr elems, Index i =>
                    Some (Returns (JArr (<[i:=child']> elems)))
                | _, _ => None
                end
            | ended => ended
            end
        end
    end.

(** The loop of [analyzeConfig] that applies the fixes:
    [for (let i = 0; i < commonIssues.length; i++) this.config = applyFix(this.config, i)],
    from the index [i] on, for as many rounds as are left. It ends with the
    configuration the analyzer then holds. *)
Fixpoint applyFixes (config : TSConfig) (i rounds : nat)
  : outcome unit * TSConfig :=
  match rounds with
  | 0 => (Returns (), config)
  | S rounds' =>
      match applyFix config (Z.of_nat i) with
      | Returns config => applyFixes config (S i) rounds'
      | Raises e => (Raises e, config)
      end
  end.

Module TSConfigAnalyzer.
(** The fields of an analyzer. *)
Record t := mk {
  configPath : string;
  config : option TSConfig;
  projectStructure : option ProjectStructure.t;
  dependencyConfigs : option DependencyConfigs;
  options : AnalyzerOptions.t;
}.

(** [new TSConfigAnalyzer(configPath, options)] *)
Definition new (configPath : string) (options : AnalyzerOptions.t) : t :=
  {| configPath := configPath; config := None; projectStructure := None;
     dependencyConfigs := None; options := options |}.

Definition getConfig (this : t) : option TSConfig := config this.

Definition with_config (this : t) (config : option TSConfig) : t :=
  {| configPath := configPath this; config := config;
     projectStructure := projectStructure this;
     dependencyConfigs := dependencyConfigs this; options := options this |}.

Section methods.
(** The state outside the program that [promptUser] reads and writes: the
    console and the files of saved answers. *)
Variable World : Type.

(** [promptUser] of [user-interaction], which resolves to the answer or
    rejects; the text [zod] gives to an issue; the engine of regular
    expressions; [JSON.stringify]. *)
Variable promptUser : string -> string -> World -> outcome string * World.
Variable zod_message : ZodIssue -> string.
Variable RegExp : string -> outcome (string -> bool).
Variable JSON_stringify : json -> string.
Variable JSON_stringify_results : list AnalysisResult.t -> string.

Definition reported (issue : ZodIssue) : Reported.t :=
  {| Reported.code := code issue; Reported.path := path issue;
     Reported.message := zod_message issue |}.

(** A step of a method: it ends with a value or an exception, in a state
    of the configuration and of the world; [None] is a run that leaves the
    model. *)
Definition step (A : Type) : Type := option (outcome A * TSConfig * World).

(** [this.config.compilerOptions] with the object [compilerOptions] put in
    the place of the one that was there. *)
Definition with_compilerOptions (config : TSConfig) (written : Obj.t json)
  : TSConfig :=
  {| compilerOptions := Some written;
     include := include config; exclude := exclude config;
     extends := extends config; files := files config; other := other config |}.

(** The write of a correction, started at [this.config?.compilerOptions]. *)
Definition correct (config : TSConfig) (path : list segment) (correction : string)
  : option (outcome TSConfig) :=
  match compilerOptions config with
  | None => Some (Returns config)
  | Some compilerOptions =>
      match assign_at (JObj compilerOptions) path (JStr correction) with
      | Some (Returns (JObj compilerOptions')) =>
          Some (Returns (with_compilerOptions config compilerOptions'))
      | Some (Returns _) => None
      | Some (Raises e) => Some (Raises e)
      | None => None
      end
  end.

(** The body of the loop of [handleValidationErrors]. *)
Definition handleValidationError (error : Reported.t)
    (correctedErrors : list Reported.t) (config : TSConfig) (w : World)
  : step (list Reported.t) :=
  let errorPath := String.concat "." (map segment_text (Reported.path error)) in
  let errorMessage := errorPath +:+ ": " +:+ Reported.message error in
  match promptUser
          ("Do you want to correct the error: " +:+ errorMessage +:+ "? (yes/no)")
          ("correct_error_" +:+ errorPath) w with
  | (Raises e, w) => Some (Raises e, config, w)
  | (Returns shouldCorrect, w) =>
      if String.eqb (toLowerCase shouldCorrect) "yes" then
        match promptUser ("Enter the correct value for " +:+ errorPath +:+ ":")
                ("correction_" +:+ errorPath) w with
        | (Raises e, w) => Some (Raises e, config, w)
        | (Returns correction, w) =>
            match correct config (Reported.path error) correction with
            | Some (Returns config) => Some (Returns correctedErrors, config, w)
            | Some (Raises e) => Some (Raises e, config, w)
            | None => None
            end
        end
      else
        Some (Returns
                (correctedErrors ++
                   [ {| Reported.code := "custom"; Reported.path := [];
                        Reported.message := errorMessage |} ]),
              config, w)
  end.

Fixpoint handleValidationErrors_from (errors : list Reported.t)
    (correctedErrors : list Reported.t) (config : TSConfig) (w : World)
  : step (list Reported.t) :=
  match errors with
  | [] => Some (Returns correctedErrors, config, w)
  | error :: rest =>
      match handleValidationError error correctedErrors config w with
      | Some (Returns correctedErrors, config, w) =>
          handleValidationErrors_from rest correctedErrors config w
      | ended => ended
      end
  end.

Definition handleValidationErrors (errors : list Reported.t)
    (config : TSConfig) (w : World) : step (list Reported.t) :=
  handleValidationErrors_from errors [] config w.

Definition NO_COMPILER_OPTIONS : string :=
  "No compiler options found in tsconfig.json or extended configs".

Definition no_compiler_options : Validated.t :=
  {| Validated.valid := false;
     Validated.errors :=
       [ {| Reported.code := "custom"; Reported.path := [];
            Reported.message := NO_COMPILER_OPTIONS |} ] |}.

(** The method [validateCompilerOptions] of an analyzer that holds a
    configuration. *)
Definition validateLoaded (options : AnalyzerOptions.t)
    (config : TSConfig) (w : World) : step Validated.t :=
  match compilerOptions config with
  | None => Some (Returns no_compiler_options, config, w)
  | Some compilerOptions =>
      let checked := validateCompilerOptions (JObj compilerOptions) in
      let errors := map reported (errors checked) in
      if negb (valid checked)
         && negb (enabled (AnalyzerOptions.ignoreErrors options))
      then
        match handleValidationErrors errors config w with
        | Some (Returns correctedErrors, config, w) =>
            Some (Returns
                    {| Validated.valid := Nat.eqb (length correctedErrors) 0;
                       Validated.errors := correctedErrors |},
                  config, w)
        | Some (Raises e, config, w) => Some (Raises e, config, w)
        | None => None
        end
      else
        Some (Returns {| Validated.valid := valid checked;
                         Validated.errors := errors |},
              config, w)
  end.

(** The method [validateCompilerOptions]. *)
Definition validateCompilerOptions (this : t) (w : World)
  : option (outcome Validated.t * t * World) :=
  match config this with
  | None => Some (Returns no_compiler_options, this, w)
  | Some config =>
      match validateLoaded (options this) config w with
      | Some (validated, config, w) =>
          Some (validated, with_config this (Some config), w)
      | None => None
      end
  end.

(** [analyzeConfig] past the test that there is a configuration: the
    cross-check of the structure, the common issues and the report, on the
    configuration as validation has left it. *)
Definition analyzeValidated (this : t) (validated : Validated.t)
    (config : TSConfig) : outcome Analysis.t * TSConfig :=
  let valid := true in
  let messages : list string := [] in
  let '(valid, messages) :=
    if negb (Validated.valid validated) then
      (false,
       messages ++ ["Compiler options validation failed:"]
         ++ map Reported.message (Validated.errors validated))
    else (valid, messages ++ ["Compiler options are valid."]) in
  match
    match projectStructure this with
    | Some structure =>
        structureAnalysis ← analyzeProjectStructure RegExp structure config;
        Returns (messages ++ ["Project structure analysis:"] ++ structureAnalysis)
    | None =>
        Returns
          (messages ++
             ["Warning: Project structure analysis skipped - no structure data available."])
    end
  with
  | Raises e => (Raises e, config)
  | Returns messages =>
      match analyzeCommonIssues config with
      | Raises e => (Raises e, config)
      | Returns commonIssues =>
          let suggestedFixes :=
            map (fun issue =>
                   {| SuggestedFix.description := Detected.description issue;
                      SuggestedFix.reason := Detected.reason issue |})
              commonIssues in
          match
            if Nat.ltb 0 (length commonIssues) then
              let messages :=
                messages ++ ["Common issues detected:"]
                  ++ map (fun issue => "- " +:+ Detected.description issue)
                       commonIssues in
              if enabled (AnalyzerOptions.autoFix (options this)) then
                match applyFixes config 0 (length commonIssues) with
                | (Returns _, config) =>
                    (Returns (messages ++ ["Automatic fixes applied."]), config)
                | (Raises e, config) => (Raises e, config)
                end
              else (Returns messages, config)
            else (Returns (messages ++ ["No common issues detected."]), config)
          with
          | (Raises e, config) => (Raises e, config)
          | (Returns messages, config) =>
              match generateReport JSON_stringify JSON_stringify_results
                      [ {| AnalysisResult.configPath := "";
                           AnalysisResult.config := Some config;
                           AnalysisResult.valid := valid;
                           AnalysisResult.messages := messages |} ]
                      None with
              | Raises e => (Raises e, config)
              | Returns report =>
                  (Returns
                     {| Analysis.valid :=
                          valid
                          || enabled (AnalyzerOptions.ignoreErrors (options this));
                        Analysis.messages := messages;
                        Analysis.report := report;
                        Analysis.suggestedFixes := suggestedFixes |},
                   config)
              end
          end
      end
  end.

(** [analyzeConfig]; the analyzer holds a configuration when the method
    [validateCompilerOptions] is entered. *)
Definition analyzeConfig (this : t) (w : World)
  : option (outcome Analysis.t * t * World) :=
  match config this with
  | None =>
      Some (Returns {| Analysis.valid := false;
                       Analysis.messages := ["No configuration found"];
                       Analysis.report := "";
                       Analysis.suggestedFixes := [] |},
            this, w)
  | Some config =>
      match validateLoaded (options this) config w with
      | None => None
      | Some (Raises e, config, w) =>
          Some (Raises e, with_config this (Some config), w)
      | Some (Returns validated, config, w) =>
          let '(analysis, config) := analyzeValidated this validated config in
          Some (analysis, with_config this (Some config), w)
      end
  end.
End methods.
End TSConfigAnalyzer.

(** ** tsconfig-analyzer: reading, and the command *)

(** *** Configurations in the store *)

(** A configuration as the JSON object it is: the named properties that
    are set, then the others. *)
Definition optional_entry (key : string) (value : option json) : Obj.t json :=
  match value with
  | Some j => [(key, j)]
  | None => []
  end.

Definition json_strings (l : list string) : json := JArr (map JStr l).

Definition config_json (config : TSConfig) : Obj.t json :=
  optional_entry "compilerOptions" (JObj <$> compilerOptions config)
    ++ optional_entry "include" (json_strings <$> include config)
    ++ optional_entry "exclude" (json_strings <$> exclude config)
    ++ optional_entry "files" (json_strings <$> files config)
    ++ optional_entry "extends" (JStr <$> extends config)
    ++ other config.

(** A property that is absent or an array of strings, and one that is
    absent or a string. *)
Definition strings_at (key : string) (props : Obj.t json)
  : option (option (list string)) :=
  match Obj.get key props with
  | None => Some None
  | Some (JArr elems) =>
      Some <$> mapM (fun e => match e with JStr s => Some s | _ => None end) elems
  | Some _ => None
  end.

Definition string_at (key : string) (props : Obj.t json)
  : option (option string) :=
  match Obj.get key props with
  | None => Some None
  | Some (JStr s) => Some (Some s)
  | Some _ => None
  end.

(** The configuration a JSON object is, when its named properties have
    the types of the interface. *)
Definition config_of_json (props : list (string * json)) : option TSConfig :=
  declared ←
    match Obj.get "compilerOptions" props with
    | None => Some None
    | Some (JObj options) => Some (Some options)
    | Some _ => None
    end;
  included ← strings_at "include" props;
  excluded ← strings_at "exclude" props;
  listed ← strings_at "files" props;
  extended ← string_at "extends" props;
  Some {| compilerOptions := declared; include := included;
          exclude := excluded; extends := extended; files := listed;
          other := filter (fun kv => fst kv ∉ RESERVED_KEYS) props |}.

(** The analyzer holds a configuration as a [TSConfig], and the fold of the
    dependency configurations runs on objects of the store. [embed] lays a
    configuration out as the fold expects it: the configuration object at
    location 0, its [compilerOptions] at 1, and below these the [paths]
    object at 2 and the [types] array at 3, which the options refer to when
    they hold an object under [paths] and an array under [types]. What
    lies below is kept as JSON. *)
Definition embed_props (key : string) (l : loc) (props : Obj.t json) : Obj.t val :=
  map (fun kv =>
         (fst kv,
          match snd kv with
          | JObj _ => if String.eqb (fst kv) key then VRef l else VJson (snd kv)
          | _ => VJson (snd kv)
          end))
    props.

Definition embed_options (options : Obj.t json) : Obj.t val :=
  map (fun kv =>
         (fst kv,
          match snd kv with
          | JObj _ =>
              if String.eqb (fst kv) "paths" then VRef 2 else VJson (snd kv)
          | JArr _ =>
              if String.eqb (fst kv) "types" then VRef 3 else VJson (snd kv)
          | _ => VJson (snd kv)
          end))
    options.

Definition embed (config : TSConfig) : heap :=
  let options := default [] (compilerOptions config) in
  [ CObj (embed_props "compilerOptions" 1 (config_json config));
    CObj (embed_options options);
    CObj (match Obj.get "paths" options with
          | Some (JObj paths) => map (fun kv => (fst kv, VJson (snd kv))) paths
          | _ => []
          end);
    CArr (match Obj.get "types" options with
          | Some (JArr types) => map VJson types
          | _ => []
          end) ].

(** The JSON value a value of the store stands for, read to the given
    depth; [undefined] is no JSON value. *)
Fixpoint reify (depth : nat) (h : heap) (v : val) : option json :=
  match v with
  | VUndefined => None
  | VJson j => Some j
  | VRef l =>
      match depth with
      | 0 => None
      | S depth' =>
          match h !! l with
          | Some (CObj props) =>
              JObj <$> mapM (fun kv => pair (fst kv) <$> reify depth' h (snd kv))
                         props
          | Some (CArr elems) => JArr <$> mapM (reify depth' h) elems
          | None => None
          end
      end
  end.

(** The configuration an object of the store stands for: the object of the
    configuration, the options, the path mappings and their target lists
    are four levels. *)
Definition extract (h : heap) (v : val) : option TSConfig :=
  match reify 4 h v with
  | Some (JObj props) => config_of_json props
  | _ => None
  end.

(** [incorporateDependencyConfigs] on the configuration an analyzer holds.
    The fold writes into the [compilerOptions] of its argument, so when it
    throws, the analyzer is left with what was written before; that state
    is kept in the model only when the configuration has no
    [compilerOptions], where the writes go to an object of the copy. *)
Definition incorporate (config : TSConfig)
    (dependencyConfigs : DependencyConfigs) : option (outcome TSConfig) :=
  match incorporateDependencyConfigs (VRef 0) dependencyConfigs (embed config) with
  | Done updatedConfig h => Returns <$> extract h updatedConfig
  | Throws e =>
      match compilerOptions config with
      | None => Some (Raises e)
      | Some _ => None
      end
  | Unmodelled => None
  end.

(** *** The method [readAndParseConfig] *)

Definition with_projectStructure (this : TSConfigAnalyzer.t)
    (structure : option ProjectStructure.t) : TSConfigAnalyzer.t :=
  {| TSConfigAnalyzer.configPath := TSConfigAnalyzer.configPath this;
     TSConfigAnalyzer.config := TSConfigAnalyzer.config this;
     TSConfigAnalyzer.projectStructure := structure;
     TSConfigAnalyzer.dependencyConfigs := TSConfigAnalyzer.dependencyConfigs this;
     TSConfigAnalyzer.options := TSConfigAnalyzer.options this |}.

Definition with_dependencyConfigs (this : TSConfigAnalyzer.t)
    (dependencyConfigs : option DependencyConfigs) : TSConfigAnalyzer.t :=
  {| TSConfigAnalyzer.configPath := TSConfigAnalyzer.configPath this;
     TSConfigAnalyzer.config := TSConfigAnalyzer.config this;
     TSConfigAnalyzer.projectStructure := TSConfigAnalyzer.projectStructure this;
     TSConfigAnalyzer.dependencyConfigs := dependencyConfigs;
     TSConfigAnalyzer.options := TSConfigAnalyzer.options this |}.

(** The handler of [readAndParseConfig]: the error is logged, and thrown
    again unless errors are ignored. The fields written before the error
    stay written. *)
Definition caught (this : TSConfigAnalyzer.t) (e : error)
  : outcome unit * TSConfigAnalyzer.t :=
  (if negb (enabled (AnalyzerOptions.ignoreErrors (TSConfigAnalyzer.options this)))
   then Raises e else Returns (),
   this).

(** What [analyzeTSConfig] returns: the analysis, and the configuration of
    the analyzer. *)
Module Analyzed.
Record t := mk {
  valid : bool;
  messages : list string;
  report : string;
  suggestedFixes : list SuggestedFix.t;
  config : option TSConfig;
}.
End Analyzed.

(** The options of the command [analyze] that the run reads; [verbose] and
    [debug] only set the levels of the logger. [path] and [output] have
    defaults, the working directory and ["text"]. *)
Module CommandOptions.
Record t := mk {
  path : string;
  output : string;
  ignoreErrors : option bool;
  export : option string;
  autoFix : option bool;
}.
End CommandOptions.

(** An element of the array [results] of the command. *)
Module CommandResult.
Record t := mk {
  configPath : string;
  valid : bool;
  messages : list string;
  report : string;
  suggestedFixes : list SuggestedFix.t;
  config : option TSConfig;
}.
End CommandResult.

(** What the command gives out: a line on the console, or a file. *)
Inductive output :=
| Printed (text : string)
| Written (file content : string).

Section entry.
(** The file system, [path] and the parsers. *)
Variable readdir : string -> outcome (list Dirent.t).
Variable readFile : string -> outcome string.
Variable access : string -> outcome unit.
Variable writeFile : string -> string -> outcome unit.
Variable join : string -> string -> string.
Variable basename : string -> string.
Variable dirname : string -> string.
Variable relative : string -> string -> string.
Variable resolve : string -> string.
Variable parseTSConfig : string -> outcome TSConfig.
Variable parsePackageJson : string -> outcome PackageJson.t.

(** The user, [zod], the engine of regular expressions and
    [JSON.stringify], as the analyzer has them; [JSON.stringify] of the
    array [results] of the command. *)
Variable World : Type.
Variable promptUser : string -> string -> World -> outcome string * World.
Variable zod_message : ZodIssue -> string.
Variable RegExp : string -> outcome (string -> bool).
Variable JSON_stringify : json -> string.
Variable JSON_stringify_results : list AnalysisResult.t -> string.
Variable JSON_stringify_command : list CommandResult.t -> string.

(** [readAndParseConfig]: the three reads and the fold, each written to
    its field as it ends. The test [this.config && this.dependencyConfigs]
    is passed by every object and every map. [None] is a run that needs
    more [fuel] or leaves the model. *)
Definition readAndParseConfig (fuel : nat) (this : TSConfigAnalyzer.t)
  : option (outcome unit * TSConfigAnalyzer.t) :=
  let projectRoot := dirname (TSConfigAnalyzer.configPath this) in
  match findAndMergeConfigs readdir readFile join basename parseTSConfig
          fuel projectRoot with
  | None => None
  | Some (Raises e) => Some (caught this e)
  | Some (Returns config) =>
      let this := TSConfigAnalyzer.with_config this (Some config) in
      match scanProjectStructure readdir join relative fuel projectRoot with
      | None => None
      | Some (Raises e) => Some (caught this e)
      | Some (Returns structure) =>
          let this := with_projectStructure this (Some structure) in
          match scanNodeModules readdir readFile access join parseTSConfig
                  parsePackageJson projectRoot with
          | Raises e => Some (caught this e)
          | Returns dependencyConfigs =>
              let this := with_dependencyConfigs this (Some dependencyConfigs) in
              match incorporate config dependencyConfigs with
              | None => None
              | Some (Raises e) => Some (caught this e)
              | Some (Returns config) =>
                  Some (Returns (), TSConfigAnalyzer.with_config this (Some config))
              end
          end
      end
  end.

(** [analyzeTSConfig] *)
Definition analyzeTSConfig (fuel : nat) (configPath : string)
    (options : AnalyzerOptions.t) (w : World)
  : option (outcome Analyzed.t * World) :=
  let analyzer := TSConfigAnalyzer.new configPath options in
  match readAndParseConfig fuel analyzer with
  | None => None
  | Some (Raises e, _) => Some (Raises e, w)
  | Some (Returns _, analyzer) =>
      match TSConfigAnalyzer.analyzeConfig World promptUser zod_message RegExp
              JSON_stringify JSON_stringify_results analyzer w with
      | None => None
      | Some (Raises e, _, w) => Some (Raises e, w)
      | Some (Returns result, analyzer, w) =>
          Some (Returns
                  {| Analyzed.valid := Analysis.valid result;
                     Analyzed.messages := Analysis.messages result;
                     Analyzed.report := Analysis.report result;
                     Analyzed.suggestedFixes := Analysis.suggestedFixes result;
                     Analyzed.config := TSConfigAnalyzer.getConfig analyzer |},
                w)
      end
  end.

(** *** The command [analyze] *)

(** The loop over [configFiles], which pushes one result per file. *)
Fixpoint analyzeAll (fuel : nat) (options : CommandOptions.t)
    (configFiles : list string) (results : list CommandResult.t) (w : World)
  : option (outcome (list CommandResult.t) * World) :=
  match configFiles with
  | [] => Some (Returns results, w)
  | configPath :: rest =>
      match analyzeTSConfig fuel configPath
              {| AnalyzerOptions.ignoreErrors := CommandOptions.ignoreErrors options;
                 AnalyzerOptions.autoFix := CommandOptions.autoFix options |}
              w with
      | None => None
      | Some (Raises e, w) => Some (Raises e, w)
      | Some (Returns analyzed, w) =>
          analyzeAll fuel options rest
            (results ++
               [ {| CommandResult.configPath := configPath;
                    CommandResult.valid := Analyzed.valid analyzed;
                    CommandResult.messages := Analyzed.messages analyzed;
                    CommandResult.report := Analyzed.report analyzed;
                    CommandResult.suggestedFixes := Analyzed.suggestedFixes analyzed;
                    CommandResult.config := Analyzed.config analyzed |} ])
            w
      end
  end.

(** A result as [generateReport] reads it. *)
Definition reported_result (result : CommandResult.t) : AnalysisResult.t :=
  {| AnalysisResult.configPath := CommandResult.configPath result;
     AnalysisResult.valid := CommandResult.valid result;
     AnalysisResult.messages := CommandResult.messages result;
     AnalysisResult.config := CommandResult.config result |}.

(** [generateReport(results, options.output)] on the results of the
    command. *)
Definition commandReport (results : list CommandResult.t) (format : string)
  : outcome string :=
  generateReport JSON_stringify (fun _ => JSON_stringify_command results)
    (map reported_result results) (Some format).

(** The lines that display the suggested fixes of a result. *)
Definition displayFixes (result : CommandResult.t) : list output :=
  if Nat.ltb 0 (length (CommandResult.suggestedFixes result)) then
    Printed (LF +:+ "Suggested fixes for " +:+ CommandResult.configPath result +:+ ":")
      :: flat_map
           (fun suggested =>
              [ Printed ("- " +:+ SuggestedFix.description suggested);
                Printed ("  Reason: " +:+ SuggestedFix.reason suggested) ])
           (CommandResult.suggestedFixes result)
  else [].

(** The action of the command: what it gives out when it ends, or the
    error on which it leaves the process with the exit code 1. Nothing is
    given out before the last statement that can throw. *)
Definition analyzeAction (fuel : nat) (options : CommandOptions.t) (w : World)
  : option (outcome (list output) * World) :=
  let repoPath := resolve (CommandOptions.path options) in
  match findTSConfigs readdir join fuel repoPath with
  | None => None
  | Some (Raises e) => Some (Raises e, w)
  | Some (Returns configFiles) =>
      match analyzeAll fuel options configFiles [] w with
      | None => None
      | Some (Raises e, w) => Some (Raises e, w)
      | Some (Returns results, w) =>
          match commandReport results (CommandOptions.output options) with
          | Raises e => Some (Raises e, w)
          | Returns report =>
              match
                match CommandOptions.export options with
                | Some file =>
                    if negb (String.eqb file "") then
                      _ ← writeFile file report; Returns [Written file report]
                    else Returns [Printed report]
                | None => Returns [Printed report]
                end
              with
              | Raises e => Some (Raises e, w)
              | Returns given =>
                  Some (Returns (given ++ flat_map displayFixes results), w)
              end
          end
      end
  end.
End entry.

(** ** user-interaction *)

Definition USER_INPUT_FILE : string := "ts-debug.json".
Definition QUESTIONS_FILE : string := "questions.txt".

(** What the module reads and writes outside the program: the files of
    the working directory by name, whether the directory can be written,
    the lines the user is going to type, and the queries shown so far. *)
Module Terminal.
Record t := mk {
  files : Obj.t string;
  writable : bool;
  typed : list string;
  shown : list string;
}.
End Terminal.

Definition with_files (w : Terminal.t) (files : Obj.t string) : Terminal.t :=
  {| Terminal.files := files; Terminal.writable := Terminal.writable w;
     Terminal.typed := Terminal.typed w; Terminal.shown := Terminal.shown w |}.

(** [fs.readFile(file, "utf-8")], [fs.writeFile(file, content)] and
    [fs.unlink(file)] *)
Definition fs_readFile (file : string) (w : Terminal.t) : outcome string :=
  match Obj.get file (Terminal.files w) with
  | Some content => Returns content
  | None =>
      Raises (Error "Error"
                ("ENOENT: no such file or directory, open '" +:+ file +:+ "'"))
  end.

Definition fs_writeFile (file content : string) (w : Terminal.t)
  : outcome unit * Terminal.t :=
  if Terminal.writable w
  then (Returns (), with_files w (Obj.set file content (Terminal.files w)))
  else (Raises (Error "Error"
                  ("EACCES: permission denied, open '" +:+ file +:+ "'")),
        w).

Fixpoint without (file : string) (files : Obj.t string) : Obj.t string :=
  match files with
  | [] => []
  | (name, content) :: rest =>
      if String.eqb name file then without file rest
      else (name, content) :: without file rest
  end.

Definition fs_unlink (file : string) (w : Terminal.t)
  : outcome unit * Terminal.t :=
  match Obj.get file (Terminal.files w) with
  | None =>
      (Raises (Error "Error"
                 ("ENOENT: no such file or directory, unlink '" +:+ file +:+ "'")),
       w)
  | Some _ =>
      if Terminal.writable w
      then (Returns (), with_files w (without file (Terminal.files w)))
      else (Raises (Error "Error"
                      ("EACCES: permission denied, unlink '" +:+ file +:+ "'")),
            w)
  end.

(** [rl.question(query)]: the query is shown and the next line the user
    types is the answer; [None] when the user types nothing more, and the
    promise stays pending. *)
Definition rl_question (query : string) (w : Terminal.t)
  : option (string * Terminal.t) :=
  match Terminal.typed w with
  | answer :: rest =>
      Some (answer,
            {| Terminal.files := Terminal.files w;
               Terminal.writable := Terminal.writable w;
               Terminal.typed := rest;
               Terminal.shown := Terminal.shown w ++ [query] |})
  | [] => None
  end.

(** [input.id === id] for an element of the parsed array: the read of
    [id] throws on [null], and is [undefined] on a value that is no
    object. *)
Definition has_id (id : string) (input : json) : outcome bool :=
  match input with
  | JNull =>
      Raises (Error "TypeError" "Cannot read properties of null (reading 'id')")
  | JObj props =>
      Returns match Obj.get "id" props with
              | Some (JStr s) => String.eqb s id
              | _ => false
              end
  | _ => Returns false
  end.

(** [elems.find(input => input.id === id)] and
    [elems.findIndex(input => input.id === id)], the index counted from
    [i]. *)
Fixpoint array_find (id : string) (elems : list json) : outcome (option json) :=
  match elems with
  | [] => Returns None
  | input :: rest =>
      match has_id id input with
      | Raises e => Raises e
      | Returns true => Returns (Some input)
      | Returns false => array_find id rest
      end
  end.

Fixpoint array_findIndex (id : string) (elems : list json) (i : nat)
  : outcome (option nat) :=
  match elems with
  | [] => Returns None
  | input :: rest =>
      match has_id id input with
      | Raises e => Raises e
      | Returns true => Returns (Some i)
      | Returns false => array_findIndex id rest (S i)
      end
  end.

(** The elements of a parsed value on which the array method
    [object.method] is called: only an array has [find] and [findIndex]. *)
Definition array_of (object method : string) (inputs : json)
  : outcome (list json) :=
  match inputs with
  | JArr elems => Returns elems
  | JNull =>
      Raises (Error "TypeError"
                ("Cannot read properties of null (reading '" +:+ method +:+ "')"))
  | _ =>
      Raises (Error "TypeError"
                (object +:+ "." +:+ method +:+ " is not a function"))
  end.

(** [{ id, question, answer }] *)
Definition userInput (id question answer : string) : json :=
  JObj [("id", JStr id); ("question", JStr question); ("answer", JStr answer)].

(** The array after
    [index !== -1 ? existingInputs[index] = userInput : existingInputs.push(userInput)]. *)
Definition upsert (id : string) (entry : json) (elems : list json)
  : outcome (list json) :=
  index ← array_findIndex id elems 0;
  Returns match index with
          | Some i => <[i:=entry]> elems
          | None => elems ++ [entry]
          end.

(** [content.split("\n")] *)
Fixpoint split_lines (content : string) : list string :=
  match content with
  | EmptyString => [EmptyString]
  | String c rest =>
      if Ascii.eqb c "010"%char then EmptyString :: split_lines rest
      else
        match split_lines rest with
        | line :: lines => String c line :: lines
        | [] => [String c EmptyString]
        end
  end.

(** The array [questions] of [updateQuestionsFile]: the lines of the file
    that are not blank, or the empty array when the file cannot be read. *)
Definition readQuestions (w : Terminal.t) : list string :=
  match fs_readFile QUESTIONS_FILE w with
  | Returns content =>
      List.filter (fun q => negb (String.eqb (trim q) "")) (split_lines content)
  | Raises _ => []
  end.

(** [updateQuestionsFile] *)
Definition updateQuestionsFile (id question : string) (w : Terminal.t)
  : outcome unit * Terminal.t :=
  let questions := readQuestions w in
  let questionEntry := id +:+ ": " +:+ question in
  if negb (existsb (String.eqb questionEntry) questions) then
    fs_writeFile QUESTIONS_FILE (String.concat LF (questions ++ [questionEntry])) w
  else (Returns (), w).

Section user_interaction.
(** [JSON.parse], and [JSON.stringify] with an indentation of two. *)
Variable JSON_parse : string -> outcome json.
Variable JSON_stringify : json -> string.

(** [loadUserInput]: the saved answer, or [None] for [null] and for an
    entry without answer; every exception ends in [null]. *)
Definition loadUserInput (id : string) (w : Terminal.t) : option json :=
  match
    (content ← fs_readFile USER_INPUT_FILE w;
     inputs ← JSON_parse content;
     elems ← array_of "inputs" "find" inputs;
     input ← array_find id elems;
     Returns match input with
             | Some (JObj props) => Obj.get "answer" props
             | _ => None
             end)
  with
  | Returns answer => answer
  | Raises _ => None
  end.

(** The array [existingInputs] of [saveUserInput]: the parsed file, or
    the empty array when the file cannot be read or parsed. *)
Definition readInputs (w : Terminal.t) : json :=
  match (content ← fs_readFile USER_INPUT_FILE w; JSON_parse content) with
  | Returns inputs => inputs
  | Raises _ => JArr []
  end.

(** [saveUserInput]: the file is read inside a handler, the entry is
    looked up and written outside of it. *)
Definition saveUserInput (id question answer : string) (w : Terminal.t)
  : outcome unit * Terminal.t :=
  match
    (elems ← array_of "existingInputs" "findIndex" (readInputs w);
     upsert id (userInput id question answer) elems)
  with
  | Raises e => (Raises e, w)
  | Returns elems =>
      match fs_writeFile USER_INPUT_FILE (JSON_stringify (JArr elems)) w with
      | (Raises e, w) => (Raises e, w)
      | (Returns _, w) => updateQuestionsFile id question w
      end
  end.

(** The second half of [promptUser]: the user is asked and the answer is
    saved. *)
Definition askUser (question id : string) (w : Terminal.t)
  : option (outcome json * Terminal.t) :=
  match rl_question (question +:+ " ") w with
  | None => None
  | Some (answer, w) =>
      match saveUserInput id question answer w with
      | (Raises e, w) => Some (Raises e, w)
      | (Returns _, w) => Some (Returns (JStr answer), w)
      end
  end.

(** [promptUser]: a saved answer that is truthy is returned as it is
    saved. *)
Definition promptUser (question id : string) (w : Terminal.t)
  : option (outcome json * Terminal.t) :=
  match loadUserInput id w with
  | Some savedAnswer =>
      if truthy savedAnswer then Some (Returns savedAnswer, w)
      else askUser question id w
  | None => askUser question id w
  end.

(** [clearUserInputs]: both files are removed, and a failure of either is
    ignored. *)
Definition clearUserInputs (w : Terminal.t) : Terminal.t :=
  let w := snd (fs_unlink USER_INPUT_FILE w) in
  snd (fs_unlink QUESTIONS_FILE w).
End user_interaction.

(* ================================================================= *)
(** * Specification vocabulary *)

Section rank.
Variable basename : string -> string.

(** The rank of a discovered file: the index of its basename in
    [CONFIG_FILE_NAMES]. *)
Definition rank_of (configFile : string) : option nat :=
  Obj.get (basename configFile) configPriority.

(** What the loop of [determineRelevantConfigs] has established after
    reading [seen]: the front of [relevant] is the first file of [seen]
    that no other file of [seen] beats. *)
Definition front_is_best (seen relevant : list string) : Prop :=
  ∃ pre best post rest r,
    seen = pre ++ best :: post ∧
    relevant = best :: rest ∧
    rank_of best = Some r ∧
    (∀ f, f ∈ pre → ∃ r', rank_of f = Some r' ∧ r < r') ∧
    (∀ f, f ∈ post → ∃ r', rank_of f = Some r' ∧ r ≤ r').
End rank.

(** The value that the front-most element of a list gives. *)
Fixpoint front_most {A B} (f : A -> option B) (l : list A) : option B :=
  match l with
  | [] => None
  | x :: l' =>
      match f x with
      | Some v => Some v
      | None => front_most f l'
      end
  end.

(** *** The merge, as the specification describes it *)

(** The specification has every source contribute its arrays and its keys
    to the merged configuration, whatever the keys are called. The three
    definitions below follow its words: arrays are appended, the keys
    outside the reserved set are written one after the other, and the
    merged configuration is read as the plain record it builds. *)
Definition spec_merge_array (merged config : option (list string))
  : option (list string) :=
  match config with
  | Some arr => Some (default [] merged ++ arr)
  | None => merged
  end.

Definition spec_merge_other (merged config : Obj.t json) : Obj.t json :=
  fold_left
    (fun acc kv =>
       if bool_decide (fst kv ∈ RESERVED_KEYS) then acc
       else Obj.set (fst kv) (snd kv) acc)
    (Obj.entries config) merged.

Definition spec_merge_step (mergedConfig config : TSConfig) : TSConfig :=
  {| compilerOptions :=
       match compilerOptions config with
       | Some options =>
           Some (Obj.spread (default [] (compilerOptions mergedConfig)) options)
       | None => compilerOptions mergedConfig
       end;
     include := spec_merge_array (include mergedConfig) (include config);
     exclude := spec_merge_array (exclude mergedConfig) (exclude config);
     extends := extends mergedConfig;
     files := spec_merge_array (files mergedConfig) (files config);
     other := spec_merge_other (other mergedConfig) (other config) |}.

(** The configuration the specification expects of the sources [configs],
    given in selection order and merged from the back. *)
Definition spec_merged (configs : list TSConfig) : TSConfig :=
  fold_left spec_merge_step (rev configs) emptyConfig.

(** A source that has no key [__proto__] among its other entries. *)
Definition unpolluted (config : TSConfig) : Prop :=
  Obj.get "__proto__" (other config) = None.

(** The object that holds a configuration in own properties, below the
    prototype of an object literal. *)
Definition merged_object (config : TSConfig) : Merged.t :=
  {| Merged.compilerOptions := compilerOptions config;
     Merged.include := map JStr <$> include config;
     Merged.exclude := map JStr <$> exclude config;
     Merged.files := map JStr <$> files config;
     Merged.other := other config;
     Merged.proto := ObjectPrototype |}.

(** Array-union of one of the fields [include], [exclude], [files]: the
    merged array is the concatenation of the sources' arrays in processing
    order, hence holds their elements with their multiplicities, and the
    field is absent exactly when no source has it. *)
Definition arrays_concatenated (prop : TSConfig -> option (list string))
    (configs : list TSConfig) (merged : TSConfig) : Prop :=
  default [] (prop merged) =
    List.concat (map (fun c => default [] (prop c)) (rev configs)) ∧
  default [] (prop merged) ≡ₚ
    List.concat (map (fun c => default [] (prop c)) configs) ∧
  (prop merged = None ↔ Forall (fun c => prop c = None) configs).

(** Induction on a schema type, with the fields of an object type. *)
Section ZodType_induction.
Variable P : ZodType → Prop.
Hypothesis Henum : ∀ values, P (ZEnum values).
Hypothesis Hboolean : P ZBoolean.
Hypothesis Hstring : P ZString.
Hypothesis Harray : ∀ element, P element → P (ZArray element).
Hypothesis Hoptional : ∀ inner, P inner → P (ZOptional inner).
Hypothesis Hobject : ∀ shape, Forall (fun kt => P (snd kt)) shape → P (ZObject shape).

Fixpoint ZodType_nested_ind (t : ZodType) : P t :=
  match t with
  | ZEnum values => Henum values
  | ZBoolean => Hboolean
  | ZString => Hstring
  | ZArray element => Harray element (ZodType_nested_ind element)
  | ZOptional inner => Hoptional inner (ZodType_nested_ind inner)
  | ZObject shape =>
      Hobject shape
        ((fix go (l : list (string * ZodType)) : Forall (fun kt => P (snd kt)) l :=
            match l with
            | [] => Forall_nil_2 _
            | kt :: l' => Forall_cons_2 _ _ _ (ZodType_nested_ind (snd kt)) (go l')
            end) shape)
  end.
End ZodType_induction.

(** The option names the schema recognizes. *)
Definition recognized_options : list string :=
  match compilerOptionsSchema with
  | ZObject shape => map fst shape
  | _ => []
  end.

(** The issues a table of fields reports on the properties [props] of an
    object found at [at_path]. *)
Definition field_issues (at_path : list segment) (props : Obj.t json)
    (shape : list (string * ZodType)) : list ZodIssue :=
  List.concat
    (map (fun kt => zod_parse (snd kt) (at_path ++ [Key (fst kt)])
                      (Obj.get (fst kt) props)) shape).

(** The lines [analyzeProjectStructure] writes about the declared files
    that the project lacks: a heading and one line per missing file, or
    nothing when no declared file is missing. *)
Definition missing_report (structure : ProjectStructure.t)
    (declared : list string) : list string :=
  match filter (fun file => file ∉ ProjectStructure.files structure) declared with
  | [] => []
  | missing =>
      "The following files specified in 'files' are missing from the project:"
        :: map (fun file => "  - " +:+ file) missing
  end.

(** The engine accepts the expression of every pattern of the list. *)
Definition patterns_compile (RegExp : string -> outcome (string -> bool))
    (patterns : list string) : Prop :=
  ∀ pattern, pattern ∈ patterns →
    ∃ regex, RegExp ("^" +:+ regexPattern pattern +:+ "$") = Returns regex.

(** *** The fold of the dependency configurations *)

(** An array of strings, or nothing for any other value. *)
Definition as_strings (j : json) : option (list string) :=
  match j with
  | JArr elems =>
      mapM (fun e => match e with JStr s => Some s | _ => None end) elems
  | _ => None
  end.

Definition strs (l : list string) : list val :=
  map (fun s => VJson (JStr s)) l.

(** The path-mapping entries of a dependency configuration: the keys of
    [compilerOptions.paths] with their target lists. *)
Definition typed_entries (paths : json) : list (string * list string) :=
  omap (fun kv => pair (fst kv) <$> as_strings (snd kv)) (json_entries paths).

Definition dependency_paths (dependencyConfig : TSConfig)
  : list (string * list string) :=
  match compilerOptions dependencyConfig ≫= Obj.get "paths" with
  | Some paths => if truthy paths then typed_entries paths else []
  | None => []
  end.

(** The entries of [compilerOptions.types] of a dependency configuration. *)
Definition dependency_types (dependencyConfig : TSConfig) : list string :=
  match compilerOptions dependencyConfig ≫= Obj.get "types" with
  | Some types => if truthy types then default [] (as_strings types) else []
  | None => []
  end.

Definition declares_types (dependencyConfig : TSConfig) : bool :=
  truthy_opt (compilerOptions dependencyConfig ≫= Obj.get "types").

(** The shape the resolver expects of a dependency configuration: [paths],
    when it is set, is an object whose values are arrays of strings, and
    [types], when it is set, is an array of strings. *)
Definition well_typed_paths (paths : json) : bool :=
  match paths with
  | JObj props =>
      forallb (fun kv => bool_decide (is_Some (as_strings (snd kv))))
        (Obj.entries props)
  | _ => false
  end.

Definition well_typed_dependency (dependencyConfig : TSConfig) : bool :=
  match compilerOptions dependencyConfig with
  | None => true
  | Some options =>
      match Obj.get "paths" options with
      | Some paths => negb (truthy paths) || well_typed_paths paths
      | None => true
      end
      && match Obj.get "types" options with
         | Some types =>
             negb (truthy types) || bool_decide (is_Some (as_strings types))
         | None => true
         end
  end.

(** The shape of a project configuration in the store: an object whose
    [compilerOptions], when set, is an object of the store; the [paths] of
    that object, when set, is another object of the store, and its [types],
    when set, an array of the store. *)
Definition project_well_shaped (h : heap) (projectConfig : val) : bool :=
  match projectConfig with
  | VRef p =>
      match h !! p with
      | Some (CObj props) =>
          match default VUndefined (Obj.get "compilerOptions" props) with
          | VRef c =>
              match h !! c with
              | Some (CObj options) =>
                  match default VUndefined (Obj.get "paths" options) with
                  | VRef m =>
                      negb (Nat.eqb m c)
                      && match h !! m with Some (CObj _) => true | _ => false end
                  | v => negb (truthy_val v)
                  end
                  && match default VUndefined (Obj.get "types" options) with
                     | VRef t =>
                         match h !! t with Some (CArr _) => true | _ => false end
                     | v => negb (truthy_val v)
                     end
              | _ => false
              end
          | v => negb (truthy_val v)
          end
      | _ => false
      end
  | _ => false
  end.

(** Reading the store: the properties of an object, the elements of an
    array, and the two lists the fold builds. *)
Definition read_object (h : heap) (v : val) : option (Obj.t val) :=
  match v with
  | VRef l => match h !! l with Some (CObj props) => Some props | _ => None end
  | _ => None
  end.

Definition read_array (h : heap) (v : val) : option (list val) :=
  match v with
  | VRef l => match h !! l with Some (CArr elems) => Some elems | _ => None end
  | _ => None
  end.

Definition read_prop (h : heap) (v : val) (k : string) : val :=
  match read_object h v with
  | Some props => default VUndefined (Obj.get k props)
  | None => VUndefined
  end.

Definition read_path_targets (h : heap) (config : val) (key : string)
  : option (list val) :=
  read_array h
    (read_prop h (read_prop h (read_prop h config "compilerOptions") "paths") key).

Definition read_types (h : heap) (config : val) : option (list val) :=
  read_array h (read_prop h (read_prop h config "compilerOptions") "types").

(** What the fold is to produce: the targets of a dependency under its
    installation path, the namespaced entries of all dependencies, and the
    types of all dependencies in the order of the map. *)
Definition installed_targets (dependencyName : string) (targets : list string)
  : list string :=
  map (fun p => "node_modules/" +:+ dependencyName +:+ "/" +:+ p) targets.

Definition namespaced_entries (dependencyName : string)
    (entries : list (string * list string)) : list (string * list string) :=
  map (fun kt => (dependencyName +:+ "/" +:+ fst kt,
                  installed_targets dependencyName (snd kt))) entries.

Definition all_namespaced (dependencyConfigs : DependencyConfigs)
  : list (string * list string) :=
  List.concat
    (map (fun entry => namespaced_entries (fst entry) (dependency_paths (snd entry)))
       (Obj.entries dependencyConfigs)).

Definition all_types (dependencyConfigs : DependencyConfigs) : list val :=
  List.concat
    (map (fun entry => strs (dependency_types (snd entry)))
       (Obj.entries dependencyConfigs)).

(** *** Invariant of the fold *)

(** The state of the store while the loop over the dependencies runs:
    [u] is the copy, [c] the options object it shares with the project,
    [written] the path entries the dependencies have put there so far and
    [types] the array of types with its elements, once there is one. *)
Definition types_inv (h : heap) (types : option (loc * list val)) (v : val) : Prop :=
  match v with
  | VRef t => ∃ elems, types = Some (t, elems) ∧ h !! t = Some (CArr elems)
  | v => truthy_val v = false ∧ types = None
  end.

Definition paths_inv (h : heap) (u c : loc) (written : Obj.t (list string))
    (types : option (loc * list val)) (v : val) : Prop :=
  match v with
  | VRef m =>
      m ≠ u ∧ m ≠ c ∧
      ∃ entries,
        h !! m = Some (CObj entries) ∧
        ∀ key targets,
          Obj.get key written = Some targets →
          ∃ a, Obj.get key entries = Some (VRef a) ∧
               h !! a = Some (CArr (strs targets)) ∧
               fst <$> types ≠ Some a
  | v => truthy_val v = false ∧ written = []
  end.

Definition store_inv (h : heap) (u c : loc) (written : Obj.t (list string))
    (types : option (loc * list val)) : Prop :=
  u ≠ c ∧
  (∃ props, h !! u = Some (CObj props) ∧
            default VUndefined (Obj.get "compilerOptions" props) = VRef c) ∧
  (∃ options,
     h !! c = Some (CObj options) ∧
     paths_inv h u c written types (default VUndefined (Obj.get "paths" options)) ∧
     types_inv h types (default VUndefined (Obj.get "types" options))).

(** The options object has its [paths] object. *)
Definition paths_set (h : heap) (c : loc) : Prop :=
  ∃ options m,
    h !! c = Some (CObj options) ∧
    default VUndefined (Obj.get "paths" options) = VRef m.

(** The entries of [entries], each with the array of strings it holds. *)
Definition entries_typed (entries : list (string * json))
    (typed : list (string * list string)) : Prop :=
  Forall2 (fun kv kt => fst kv = fst kt ∧ as_strings (snd kv) = Some (snd kt))
    entries typed.

(** The path entries after those of [entries] have been written. *)
Definition write_all (entries : list (string * list string))
    (written : Obj.t (list string)) : Obj.t (list string) :=
  fold_left (fun acc kt => Obj.set (fst kt) (snd kt) acc) entries written.

(** The elements of the types array after a dependency has been folded. *)
Definition next_types (elems : option (list val)) (dependencyConfig : TSConfig)
  : option (list val) :=
  if declares_types dependencyConfig
  then Some (default [] elems ++ strs (dependency_types dependencyConfig))
  else elems.

(** *** Names of dependencies *)

(** The part of a string before its first [/], and the part after it. *)
Fixpoint first_segment (s : string) : string :=
  match s with
  | EmptyString => EmptyString
  | String c s' =>
      if Ascii.eqb c "/" then EmptyString else String c (first_segment s')
  end.

Fixpoint after_slash (s : string) : option string :=
  match s with
  | EmptyString => None
  | String c s' => if Ascii.eqb c "/" then Some s' else after_slash s'
  end.

Definition no_slash (s : string) : bool :=
  match after_slash s with
  | Some _ => false
  | None => true
  end.

(** [name.startsWith("@")] *)
Definition scoped (s : string) : bool := String.prefix "@" s.

(** The names [scanNodeModules] gives to dependencies: the name of a
    directory, which has no [/], or [@scope/name] made of two of them. *)
Definition is_package_name (name : string) : bool :=
  if scoped name then
    match after_slash name with
    | Some package => no_slash package
    | None => false
    end
  else no_slash name.

(** The dependency a namespaced key belongs to. *)
Definition package_of (key : string) : string :=
  if scoped key then
    match after_slash key with
    | Some rest => first_segment key +:+ "/" +:+ first_segment rest
    | None => first_segment key
    end
  else first_segment key.

(** The names of the entries every directory listing gives have no [/]. *)
Definition plain_entry_names (readdir : string -> outcome (list Dirent.t)) : Prop :=
  ∀ dir entries,
    readdir dir = Returns entries →
    Forall (fun entry => no_slash (Dirent.name entry) = true) entries.

(** The keys of a map of dependencies are distinct package names. *)
Definition package_keys (dependencyConfigs : DependencyConfigs) : Prop :=
  NoDup (Obj.keys dependencyConfigs) ∧
  Forall (fun name => is_package_name name = true) (Obj.keys dependencyConfigs).

(** *** Reports *)

(** The error of the first result for which [generateSuggestions] throws. *)
Fixpoint first_failure (results : list AnalysisResult.t) : option error :=
  match results with
  | [] => None
  | result :: rest =>
      match generateSuggestions (AnalysisResult.config result) with
      | Raises e => Some e
      | Returns _ => first_failure rest
      end
  end.

(** The names under which [generateSuggestions] files its suggestions, in
    the order it looks at the options. *)
Definition SUGGESTED_SETTINGS : list string :=
  [ "compilerOptions.strict"; "compilerOptions.target";
    "compilerOptions.incremental"; "compilerOptions.module" ].

(** A value on which the catalog can call [toLowerCase] behind [?.]: a
    string, [undefined] or [null]. *)
Definition lowers (v : option json) : bool :=
  match v with
  | None | Some JNull | Some (JStr _) => true
  | Some _ => false
  end.

(** The head of the text report. *)
Definition TEXT_HEADER : list string :=
  [ "TypeScript Configuration Analysis Report";
    "==========================================";
    "" ].

(** The test that decides whether [generateSuggestions] files a suggestion
    under [compilerOptions.<option>], on the value of the option. *)
Definition draws_suggestion (option_name : string) (v : option json) : outcome bool :=
  if bool_decide (option_name ∈ ["strict"; "incremental"]) then Returns (not_true v)
  else if String.eqb option_name "target" then
    outside_of "compilerOptions.target.toLowerCase" MODERN_TARGETS v
  else if String.eqb option_name "module" then
    outside_of "compilerOptions.module.toLowerCase" ESM_MODULES v
  else Returns false.

(** The value [generateSuggestions] suggests for an option. *)
Definition suggested_for (option_name : string) : json :=
  if bool_decide (option_name ∈ ["strict"; "incremental"]) then JBool true
  else JStr "es2022".

(** *** Discovery *)

(** The loop of [scanDirectory] over the entries of a directory, with the
    scan of a subdirectory as a parameter. *)
Definition visitEntries (join : string -> string -> string)
    (scan : string -> list string -> option (outcome (list string)))
    (dir : string) :=
  fix visit (entries : list Dirent.t) (configFiles : list string)
    : option (outcome (list string)) :=
    match entries with
    | [] => Some (Returns configFiles)
    | entry :: rest =>
        if Dirent.isDirectory entry
           && negb (String.prefix "." (Dirent.name entry))
           && negb (String.eqb (Dirent.name entry) "node_modules")
        then
          match scan (join dir (Dirent.name entry)) configFiles with
          | Some (Returns configFiles') => visit rest configFiles'
          | Some (Raises e) => Some (Raises e)
          | None => None
          end
        else if Dirent.isFile entry
                && bool_decide (Dirent.name entry ∈ CONFIG_FILE_NAMES)
        then visit rest (configFiles ++ [join dir (Dirent.name entry)])
        else visit rest configFiles
    end.

(** The loop of the inner function of [scanProjectStructure], likewise. *)
Definition visitStructure (join relative : string -> string -> string)
    (scan : string -> ProjectStructure.t -> option (outcome ProjectStructure.t))
    (projectRoot dir : string) :=
  fix visit (entries : list Dirent.t) (structure : ProjectStructure.t)
    : option (outcome ProjectStructure.t) :=
    match entries with
    | [] => Some (Returns structure)
    | entry :: rest =>
        let fullPath := join dir (Dirent.name entry) in
        let relativePath := relative projectRoot fullPath in
        if Dirent.isDirectory entry then
          match scan fullPath
                  {| ProjectStructure.files := ProjectStructure.files structure;
                     ProjectStructure.directories :=
                       ProjectStructure.directories structure ++ [relativePath] |} with
          | Some (Returns structure') => visit rest structure'
          | Some (Raises e) => Some (Raises e)
          | None => None
          end
        else if Dirent.isFile entry then
          visit rest
            {| ProjectStructure.files :=
                 ProjectStructure.files structure ++ [relativePath];
               ProjectStructure.directories :=
                 ProjectStructure.directories structure |}
        else visit rest structure
    end.

(** A directory that discovery enters: not hidden, and not the directory
    of the installed dependencies. *)
Definition entered (entry : Dirent.t) : bool :=
  Dirent.isDirectory entry
  && negb (String.prefix "." (Dirent.name entry))
  && negb (String.eqb (Dirent.name entry) "node_modules").

(** The directories discovery reads: the project root, and the entered
    directories of the listing of a directory it reads. *)
Inductive reads (readdir : string -> outcome (list Dirent.t))
    (join : string -> string -> string) (projectRoot : string) : string -> Prop :=
| reads_root : reads readdir join projectRoot projectRoot
| reads_entered dir entries entry :
    reads readdir join projectRoot dir ->
    readdir dir = Returns entries ->
    entry ∈ entries ->
    entered entry = true ->
    reads readdir join projectRoot (join dir (Dirent.name entry)).

(** An entry that discovery takes for a configuration file. *)
Definition config_entry (entry : Dirent.t) : bool :=
  negb (entered entry)
  && Dirent.isFile entry
  && bool_decide (Dirent.name entry ∈ CONFIG_FILE_NAMES).

(** A path that names a configuration file of a directory discovery
    reads. *)
Definition discovered (readdir : string -> outcome (list Dirent.t))
    (join : string -> string -> string) (projectRoot configFile : string) : Prop :=
  ∃ dir entries entry,
    reads readdir join projectRoot dir ∧
    readdir dir = Returns entries ∧
    entry ∈ entries ∧
    config_entry entry = true ∧
    configFile = join dir (Dirent.name entry).

(** The directories the scan of the structure reads: the project root, and
    every directory of the listing of a directory it reads, whatever its
    name. *)
Inductive scans (readdir : string -> outcome (list Dirent.t))
    (join : string -> string -> string) (projectRoot : string) : string -> Prop :=
| scans_root : scans readdir join projectRoot projectRoot
| scans_directory dir entries entry :
    scans readdir join projectRoot dir ->
    readdir dir = Returns entries ->
    entry ∈ entries ->
    Dirent.isDirectory entry = true ->
    scans readdir join projectRoot (join dir (Dirent.name entry)).

(** An entry of the directory [dir] is recorded in a structure: a
    directory among the directories, a file among the files, by its path
    relative to the root. *)
Definition recorded (join relative : string -> string -> string)
    (projectRoot dir : string) (structure : ProjectStructure.t)
    (entry : Dirent.t) : Prop :=
  let relativePath := relative projectRoot (join dir (Dirent.name entry)) in
  if Dirent.isDirectory entry
  then relativePath ∈ ProjectStructure.directories structure
  else Dirent.isFile entry = true →
       relativePath ∈ ProjectStructure.files structure.

(** A directory is listed by [readdir] and all its entries are recorded. *)
Definition listed (readdir : string -> outcome (list Dirent.t))
    (join relative : string -> string -> string)
    (projectRoot : string) (structure : ProjectStructure.t) (dir : string) : Prop :=
  ∃ entries,
    readdir dir = Returns entries ∧
    ∀ entry, entry ∈ entries →
      recorded join relative projectRoot dir structure entry.

(** The scan of the structure only appends to the two arrays. *)
Definition grows (structure structure' : ProjectStructure.t) : Prop :=
  (∃ added, ProjectStructure.files structure'
            = ProjectStructure.files structure ++ added) ∧
  (∃ added, ProjectStructure.directories structure'
            = ProjectStructure.directories structure ++ added).

(** *** Patterns *)

(** What [minimatch] makes of one character of a pattern. *)
Definition translate (c : ascii) : string :=
  if Ascii.eqb c "." then "\."
  else if Ascii.eqb c "*" then ".*"
  else if Ascii.eqb c "?" then "."
  else String c EmptyString.

Fixpoint translate_all (pattern : string) : string :=
  match pattern with
  | EmptyString => EmptyString
  | String c pattern' => translate c +:+ translate_all pattern'
  end.

(** An engine that accepts no expression. *)
Definition rejecting_RegExp (source : string) : outcome (string -> bool) :=
  Raises (Error "SyntaxError" ("Invalid regular expression: /" +:+ source +:+ "/")).

(** *** The analyzer *)

(** Every second element of a list: the elements at the odd indices. *)
Fixpoint every_other {A} (l : list A) : list A :=
  match l with
  | _ :: y :: l' => y :: every_other l'
  | _ => []
  end.

(** The rules of the catalog that fire on a configuration. *)
Definition detect (config : TSConfig) : outcome (list Issue.t) :=
  array_filter (fun issue => Issue.check issue config) commonIssues.

(** A rule fires on a configuration: its check returns [true]. *)
Definition fires (config : TSConfig) (rule : Issue.t) : bool :=
  match Issue.check rule config with
  | Returns true => true
  | _ => false
  end.

(** The issue [analyzeCommonIssues] makes of a rule that fires. *)
Definition detected_issue (config : TSConfig) (issue : Issue.t) : Detected.t :=
  {| Detected.description := Issue.description issue;
     Detected.fix_ := Issue.fix_ issue config;
     Detected.reason := Issue.reason issue |}.

(** The cross-check of the structure, when the analyzer holds one. *)
Definition cross_check (RegExp : string -> outcome (string -> bool))
    (structure : option ProjectStructure.t) (config : TSConfig)
  : outcome (option (list string)) :=
  match structure with
  | Some structure =>
      structureAnalysis ← analyzeProjectStructure RegExp structure config;
      Returns (Some structureAnalysis)
  | None => Returns None
  end.

(** The messages of [analyzeConfig], by the step that writes them. *)
Definition validation_messages (validated : Validated.t) : list string :=
  if Validated.valid validated then ["Compiler options are valid."]
  else "Compiler options validation failed:"
         :: map Reported.message (Validated.errors validated).

Definition structure_messages (structureAnalysis : option (list string))
  : list string :=
  match structureAnalysis with
  | Some lines => "Project structure analysis:" :: lines
  | None =>
      ["Warning: Project structure analysis skipped - no structure data available."]
  end.

Definition issue_messages (autoFix : bool) (detected : list Issue.t) : list string :=
  match detected with
  | [] => ["No common issues detected."]
  | _ =>
      "Common issues detected:"
        :: map (fun issue => "- " +:+ Issue.description issue) detected
        ++ (if autoFix then ["Automatic fixes applied."] else [])
  end.

(** The option [k] of a configuration holds a string. *)
Definition holds_string (config : TSConfig) (k : string) : Prop :=
  ∃ text, get_option config k = Some (JStr text).

(** A user who answers every question and agrees to every correction. *)
Definition agrees {World : Type}
    (promptUser : string -> string -> World -> outcome string * World) : Prop :=
  ∀ question id w,
    ∃ answer w',
      promptUser question id w = (Returns answer, w') ∧
      (String.prefix "correct_error_" id = true → toLowerCase answer = "yes").

(** ** Dependencies that declare nothing *)

(** A dependency configuration declares something to the fold when its
    [compilerOptions] has a truthy [paths] or a truthy [types]. *)
Definition declares (dependencyConfig : TSConfig) : bool :=
  truthy_opt (compilerOptions dependencyConfig ≫= Obj.get "paths")
  || truthy_opt (compilerOptions dependencyConfig ≫= Obj.get "types").

(** ** The command on configurations that cannot be read *)

(** The result the command pushes for a file whose configurations could
    not be read and merged, when errors are ignored. *)
Definition unread_result (configPath : string) : CommandResult.t :=
  {| CommandResult.configPath := configPath;
     CommandResult.valid := false;
     CommandResult.messages := ["No configuration found"];
     CommandResult.report := "";
     CommandResult.suggestedFixes := [];
     CommandResult.config := None |}.

(** *** The files of saved answers *)

(** A text without line feed, and a text of white space only. *)
Definition single_line (s : string) : bool :=
  forallb (fun c => negb (Ascii.eqb c "010"%char)) (list_ascii_of_string s).

Definition blank (s : string) : bool :=
  forallb is_space (list_ascii_of_string s).

(** A parsed file of saved answers on which the look-up of [id] throws: a
    value that is no array, or an array with a [null] in front of every
    entry of [id]. *)
Definition damaged (id : string) (inputs : json) : Prop :=
  match inputs with
  | JArr elems =>
      ∃ before after,
        elems = before ++ JNull :: after ∧
        Forall (fun input => has_id id input = Returns false) before
  | _ => True
  end.

(** *** Configurations with distinct keys *)

(** A configuration whose objects have distinct keys, as those of a
    JavaScript object are, the five named keys being kept out of
    [other]. *)
Definition distinct_keys (config : TSConfig) : Prop :=
  NoDup (Obj.keys (default [] (compilerOptions config))) ∧
  NoDup (Obj.keys (other config)) ∧
  Forall (fun k => k ∉ RESERVED_KEYS) (Obj.keys (other config)).

(* ================================================================= *)
(** * Sample data *)

(** Two configuration files of one project, as [readTSConfig] parses them. *)
Definition sample_base_config : TSConfig :=
  {| compilerOptions :=
       Some [("target", JStr "es2022"); ("strict", JBool true)];
     include := Some ["src"];
     exclude := None;
     extends := None;
     files := Some ["src/index.ts"];
     other := [("compileOnSave", JBool true)] |}.

Definition sample_app_config : TSConfig :=
  {| compilerOptions :=
       Some [("target", JStr "es5"); ("module", JStr "esnext")];
     include := Some ["src"; "app"];
     exclude := Some ["dist"];
     extends := Some "./tsconfig.json";
     files := None;
     other := [("compileOnSave", JBool false); ("references", JArr [])] |}.

Definition sample_readTSConfig (configPath : string) : outcome TSConfig :=
  if String.eqb configPath "tsconfig.json" then Returns sample_base_config
  else if String.eqb configPath "tsconfig.app.json" then Returns sample_app_config
  else Raises (Error "Error" ("ENOENT: no such file or directory, open '" +:+ configPath +:+ "'")).

(** Two configuration files with a key [__proto__], as [JSON.parse] reads
    them: the key is an own property of the parsed object. *)
Definition sample_inherited_options : TSConfig :=
  {| compilerOptions := None; include := None; exclude := None;
     extends := None; files := None;
     other :=
       [("__proto__",
         JObj [("compilerOptions",
                JObj [("target", JStr "es3"); ("noEmit", JBool true)])])] |}.

Definition sample_inherited_include : TSConfig :=
  {| compilerOptions := None; include := None; exclude := None;
     extends := None; files := None;
     other := [("__proto__", JObj [("include", JArr [JStr "evil"])])] |}.

(** A project in which [tsconfig.app.json] is one of these files. *)
Definition sample_polluted_readTSConfig (polluted : TSConfig)
    (configPath : string) : outcome TSConfig :=
  if String.eqb configPath "tsconfig.json" then Returns sample_base_config
  else if String.eqb configPath "tsconfig.app.json" then Returns polluted
  else Raises (Error "Error"
                 ("ENOENT: no such file or directory, open '" +:+ configPath +:+ "'")).

(** A project structure. *)
Definition sample_structure : ProjectStructure.t :=
  {| ProjectStructure.files := ["src/index.ts"; "src/b.ts"; "README.md"];
     ProjectStructure.directories := ["src"] |}.

(** A project configuration in the store: the configuration object at
    location 0, its [compilerOptions] at 1, the [types] array of these at
    2. *)
Definition sample_store : heap :=
  [ CObj [("compilerOptions", VRef 1); ("include", VJson (JArr [JStr "src"]))];
    CObj [("strict", VJson (JBool true)); ("types", VRef 2)];
    CArr [VJson (JStr "node")] ].

(** The configurations of two installed dependencies. *)
Definition sample_dependency : TSConfig :=
  {| compilerOptions :=
       Some [("paths", JObj [("@lib/*", JArr [JStr "src/*"; JStr "gen/*"])]);
             ("types", JArr [JStr "jest"])];
     include := None; exclude := None; extends := None; files := None;
     other := [] |}.

Definition sample_dependencies : DependencyConfigs :=
  [ ("dep", sample_dependency); ("@scope/tool", sample_dependency) ].

(** A file system whose dependency directory holds a package with a
    manifest and a configuration, a scope that cannot be read, and a
    further package. *)
Definition sample_readdir (dir : string) : outcome (list Dirent.t) :=
  if String.eqb dir "/project/node_modules" then
    Returns [ Dirent.mk "left-pad" true false; Dirent.mk "@scope" true false;
              Dirent.mk "zod" true false ]
  else Raises (Error "Error" ("EACCES: permission denied, scandir '" +:+ dir +:+ "'")).

Definition sample_readFile (file : string) : outcome string :=
  if String.eqb file "/project/node_modules/left-pad/package.json"
  then Returns "{ name: left-pad }"
  else if String.eqb file "/project/node_modules/left-pad/tsconfig.json"
  then Returns "{ compilerOptions }"
  else Raises (Error "Error" ("ENOENT: no such file or directory, open '" +:+ file +:+ "'")).

Definition sample_access (file : string) : outcome unit :=
  if String.eqb file "/project/node_modules/left-pad/tsconfig.json"
  then Returns ()
  else Raises (Error "Error" ("ENOENT: no such file or directory, access '" +:+ file +:+ "'")).

Definition sample_join (dir name : string) : string := dir +:+ "/" +:+ name.

Definition sample_parseTSConfig (content : string) : outcome TSConfig :=
  if String.eqb content "{ compilerOptions }" then Returns sample_dependency
  else Raises (Error "SyntaxError" "Unexpected token in JSON").

Definition sample_parsePackageJson (content : string) : outcome PackageJson.t :=
  if String.eqb content "{ name: left-pad }"
  then Returns (PackageJson.mk None None)
  else Raises (Error "SyntaxError" "Unexpected token in JSON").


(** A sample of [JSON.stringify], for the values of the examples. *)
Definition sample_stringify (j : json) : string :=
  match j with
  | JNull => "null"
  | JBool true => "true"
  | JBool false => "false"
  | JNum n => pretty n
  | JStr s => dq +:+ s +:+ dq
  | JArr _ => "[...]"
  | JObj _ => "{...}"
  end.

Definition sample_stringify_results (results : list AnalysisResult.t) : string :=
  "[" +:+ String.concat "," (map AnalysisResult.configPath results) +:+ "]".

(** The configuration of the examples of [common-issues] and
    [report-generator]. *)
Definition sample_legacy_config : TSConfig :=
  {| compilerOptions :=
       Some [ ("target", JStr "es5"); ("module", JStr "commonjs");
              ("strict", JBool false) ];
     include := None; exclude := None; extends := None;
     files := None; other := [] |}.

(** Two results, as the example of [report-generator] has them. *)
Definition sample_results : list AnalysisResult.t :=
  [ {| AnalysisResult.configPath := "tsconfig.json";
       AnalysisResult.valid := true;
       AnalysisResult.messages :=
         [ "Compiler options are valid.";
           "Project structure analysis completed successfully." ];
       AnalysisResult.config := Some sample_legacy_config |};
    {| AnalysisResult.configPath := "src/tsconfig.app.json";
       AnalysisResult.valid := false;
       AnalysisResult.messages := [ "Compiler options validation failed:" ];
       AnalysisResult.config :=
         Some {| compilerOptions :=
                   Some [ ("target", JStr "invalid"); ("module", JStr "esnext");
                          ("strict", JBool true) ];
                 include := None; exclude := None; extends := None;
                 files := None; other := [] |} |} ].

(** The result the command line stores for an analyzer that has read no
    configuration. *)
Definition sample_unread_result : AnalysisResult.t :=
  {| AnalysisResult.configPath := "packages/api/tsconfig.json";
     AnalysisResult.valid := false;
     AnalysisResult.messages := [ "No configuration found" ];
     AnalysisResult.config := None |}.

(** A repository: sources, installed dependencies (whose listing is a
    parameter), a hidden directory and two files. *)
Definition sample_tree (node_modules : outcome (list Dirent.t)) (dir : string)
  : outcome (list Dirent.t) :=
  if String.eqb dir "/repo" then
    Returns [ Dirent.mk "src" true false; Dirent.mk "node_modules" true false;
              Dirent.mk ".git" true false; Dirent.mk "tsconfig.json" false true;
              Dirent.mk "README.md" false true ]
  else if String.eqb dir "/repo/src" then
    Returns [ Dirent.mk "tsconfig.app.json" false true;
              Dirent.mk "index.ts" false true ]
  else if String.eqb dir "/repo/node_modules" then node_modules
  else if String.eqb dir "/repo/.git" then
    Returns [ Dirent.mk "config" false true ]
  else Raises (Error "Error" ("ENOENT: no such file or directory, scandir '" +:+ dir +:+ "'")).

Definition sample_unreadable : outcome (list Dirent.t) :=
  Raises (Error "Error" "EACCES: permission denied, scandir '/repo/node_modules'").

Definition sample_installed : outcome (list Dirent.t) :=
  Returns [ Dirent.mk "tsconfig.json" false true ].

(** [path.relative] for a path below the directory it is taken from. *)
Fixpoint sample_relative (from to : string) : string :=
  match from, to with
  | String a from', String b to' =>
      if Ascii.eqb a b then sample_relative from' to' else to
  | EmptyString, String "/" to' => to'
  | _, _ => to
  end.

(** The two configuration files of the repository. *)
Definition sample_tree_readFile (file : string) : outcome string :=
  if String.eqb file "/repo/tsconfig.json" then Returns "base"
  else if String.eqb file "/repo/src/tsconfig.app.json" then Returns "app"
  else Raises (Error "Error" ("ENOENT: no such file or directory, open '" +:+ file +:+ "'")).

Definition sample_tree_parseTSConfig (content : string) : outcome TSConfig :=
  if String.eqb content "base" then Returns sample_base_config
  else if String.eqb content "app" then Returns sample_app_config
  else Raises (Error "SyntaxError" "Unexpected token in JSON").

(** A user who agrees to every correction and types [true] as every
    correct value; the world counts the questions. *)
Definition sample_promptUser (question id : string) (asked : nat)
  : outcome string * nat :=
  (Returns (if String.prefix "correct_error_" id then "Yes" else "true"), S asked).

(** The text of an issue, for the examples: its code. *)
Definition sample_zod_message (issue : ZodIssue) : string := code issue.

(** A configuration in which [strict] is a string. *)
Definition sample_mistyped_config : TSConfig :=
  {| compilerOptions := Some [ ("strict", JStr "yes"); ("target", JStr "es2022") ];
     include := None; exclude := None; extends := None; files := None;
     other := [] |}.

(** An analyzer that holds the mistyped configuration and the sample
    structure, with the options given. *)
Definition sample_analyzer (options : AnalyzerOptions.t) : TSConfigAnalyzer.t :=
  {| TSConfigAnalyzer.configPath := "tsconfig.json";
     TSConfigAnalyzer.config := Some sample_mistyped_config;
     TSConfigAnalyzer.projectStructure := Some sample_structure;
     TSConfigAnalyzer.dependencyConfigs := None;
     TSConfigAnalyzer.options := options |}.

(** The remaining functions of the file system of the repository:
    [path.dirname] of its two configuration files, [path.resolve] of an
    absolute path, a write that succeeds; a parser that rejects the
    content of [src/tsconfig.app.json]; and [JSON.stringify] of the results
    of the command. *)
Definition sample_dirname (p : string) : string :=
  if String.eqb p "/repo/tsconfig.json" then "/repo"
  else if String.eqb p "/repo/src/tsconfig.app.json" then "/repo/src"
  else ".".

Definition sample_resolve (p : string) : string := p.

Definition sample_writeFile (file content : string) : outcome unit := Returns ().

Definition sample_rejecting_parser (content : string) : outcome TSConfig :=
  if String.eqb content "base" then Returns sample_base_config
  else Raises (Error "SyntaxError" "Unexpected token in JSON").

Definition sample_stringify_command (results : list CommandResult.t) : string :=
  "[" +:+ String.concat "," (map CommandResult.configPath results) +:+ "]".

(** The command on the repository. *)
Definition sample_action (node_modules : outcome (list Dirent.t))
    (parseTSConfig : string -> outcome TSConfig) (options : CommandOptions.t)
  : option (outcome (list output) * nat) :=
  analyzeAction (sample_tree node_modules) sample_tree_readFile sample_access
    sample_writeFile sample_join posix_basename sample_dirname sample_relative
    sample_resolve parseTSConfig sample_parsePackageJson nat sample_promptUser
    sample_zod_message wildcard_RegExp sample_stringify sample_stringify_results
    sample_stringify_command 5 options 0.

(** A terminal in a directory without saved answers, at which the user
    types a name; a [JSON.stringify] that lists the saved answers, and the
    [JSON.parse] of the one text it is used on. *)
Definition sample_terminal : Terminal.t :=
  {| Terminal.files := []; Terminal.writable := true;
     Terminal.typed := ["Ada"; "blue"]; Terminal.shown := [] |}.

Definition sample_stringify_inputs (inputs : json) : string :=
  match inputs with
  | JArr elems =>
      String.concat ";"
        (map (fun input =>
                match input with
                | JObj [(_, JStr id); _; (_, JStr answer)] => id +:+ "=" +:+ answer
                | _ => "?"
                end) elems)
  | _ => "?"
  end.

Definition sample_parse_inputs (content : string) : outcome json :=
  if String.eqb content "user_name=Ada"
  then Returns (JArr [userInput "user_name" "What is your name?" "Ada"])
  else if String.eqb content "{}" then Returns (JObj [])
  else Raises (Error "SyntaxError" "Unexpected token in JSON").
(* ================================================================= *)
(** * Properties *)

(** Membership in an explicit list. *)
Ltac elem_of_list :=
  repeat first [apply list_elem_of_here | apply list_elem_of_further].

(** A closed decidable proposition, settled by evaluation. *)
Ltac by_evaluation := apply (bool_decide_unpack _); vm_compute; exact I.

(** ** Objects *)

Section obj_facts.
Context {V : Type}.
Implicit Types (o a b : list (string * V)) (k : string) (v : V).

Lemma get_set_eq o k v : Obj.get k (Obj.set k v o) = Some v.
Proof.
  induction o as [|[k' v'] o IH]; simpl.
  - by rewrite String.eqb_refl.
  - destruct (String.eqb k' k) eqn:E; simpl.
    + by rewrite String.eqb_refl.
    + by rewrite E.
Qed.

Lemma get_set_ne o k k' v : k ≠ k' → Obj.get k' (Obj.set k v o) = Obj.get k' o.
Proof.
  intros Hne. induction o as [|[k0 v0] o IH]; simpl.
  - destruct (String.eqb k k') eqn:E; [|done].
    by apply String.eqb_eq in E.
  - destruct (String.eqb k0 k) eqn:E; simpl.
    + apply String.eqb_eq in E as ->.
      destruct (String.eqb k k') eqn:E'; [|done].
      by apply String.eqb_eq in E'.
    + by rewrite IH.
Qed.

Lemma get_set o k k' v :
  Obj.get k' (Obj.set k v o) = if decide (k = k') then Some v else Obj.get k' o.
Proof.
  case_decide as H; [subst; apply get_set_eq | by apply get_set_ne].
Qed.

Lemma get_app o1 o2 k :
  Obj.get k (o1 ++ o2) =
  match Obj.get k o1 with Some v => Some v | None => Obj.get k o2 end.
Proof.
  induction o1 as [|[k' v'] o1 IH]; simpl; [done|].
  by destruct (String.eqb k' k).
Qed.

Lemma get_fold_set (es : list (string * V)) o k :
  Obj.get k (fold_left (fun acc kv => Obj.set (fst kv) (snd kv) acc) es o) =
  match Obj.get k (rev es) with Some v => Some v | None => Obj.get k o end.
Proof.
  revert o. induction es as [|[k' v'] es IH] using rev_ind; intros o; [done|].
  rewrite fold_left_app, rev_app_distr. simpl.
  rewrite get_set. case_decide as H.
  - subst. by rewrite String.eqb_refl.
  - destruct (String.eqb k' k) eqn:E; [by apply String.eqb_eq in E|].
    apply IH.
Qed.

Lemma get_None_keys o k : Obj.get k o = None ↔ k ∉ Obj.keys o.
Proof.
  unfold Obj.keys. induction o as [|[k' v'] o IH]; simpl.
  - split; [intros _ []%elem_of_nil|done].
  - rewrite not_elem_of_cons. destruct (String.eqb k' k) eqn:E.
    + apply String.eqb_eq in E as ->. split; [done|by intros []].
    + apply String.eqb_neq in E. rewrite IH. split; [|tauto].
      intros ?. split; [congruence|done].
Qed.

Lemma get_rev_entries_of (ks : list string) o k :
  Obj.get k (rev (omap (fun k' => pair k' <$> Obj.get k' o) ks)) =
  if decide (k ∈ ks) then Obj.get k o else None.
Proof.
  induction ks as [|k' ks IH]; [done|]. csimpl.
  destruct (Obj.get k' o) as [v'|] eqn:Hk'; csimpl.
  - rewrite get_app, IH. simpl.
    destruct (decide (k ∈ ks)) as [Hin|Hin].
    + rewrite decide_True by (by right).
      destruct (Obj.get k o) eqn:Hk; [done|].
      destruct (String.eqb k' k) eqn:E; [|done].
      apply String.eqb_eq in E. congruence.
    + destruct (String.eqb k' k) eqn:E.
      * apply String.eqb_eq in E as ->. rewrite decide_True by left. done.
      * apply String.eqb_neq in E.
        rewrite decide_False; [done|]. apply not_elem_of_cons. split; congruence.
  - rewrite IH. destruct (decide (k ∈ ks)) as [Hin|Hin].
    + by rewrite decide_True by (by right).
    + destruct (decide (k = k')) as [->|Hne].
      * rewrite decide_True by left. done.
      * rewrite decide_False; [done|]. by apply not_elem_of_cons.
Qed.

Lemma get_rev_entries o k : Obj.get k (rev (Obj.entries o)) = Obj.get k o.
Proof.
  unfold Obj.entries. rewrite get_rev_entries_of. case_decide as H; [done|].
  symmetry. by apply get_None_keys.
Qed.

Lemma get_entries_of (ks : list string) o k :
  Obj.get k (omap (fun k' => pair k' <$> Obj.get k' o) ks) =
  if decide (k ∈ ks) then Obj.get k o else None.
Proof.
  induction ks as [|k' ks IH]; [done|]. csimpl.
  destruct (Obj.get k' o) as [v'|] eqn:Hk'; csimpl.
  - destruct (String.eqb k' k) eqn:E.
    + apply String.eqb_eq in E as ->. by rewrite decide_True by left.
    + apply String.eqb_neq in E. rewrite IH.
      destruct (decide (k ∈ ks)) as [Hin|Hin].
      * by rewrite decide_True by (by right).
      * rewrite decide_False; [done|]. apply not_elem_of_cons. split; congruence.
  - rewrite IH. destruct (decide (k ∈ ks)) as [Hin|Hin].
    + by rewrite decide_True by (by right).
    + destruct (decide (k = k')) as [->|Hne].
      * by rewrite decide_True by left.
      * rewrite decide_False; [done|]. by apply not_elem_of_cons.
Qed.

Lemma get_entries o k : Obj.get k (Obj.entries o) = Obj.get k o.
Proof.
  unfold Obj.entries. rewrite get_entries_of. case_decide as H; [done|].
  symmetry. by apply get_None_keys.
Qed.

Lemma get_assign a b k :
  Obj.get k (Obj.assign a b) =
  match Obj.get k b with Some v => Some v | None => Obj.get k a end.
Proof. unfold Obj.assign. by rewrite get_fold_set, get_rev_entries. Qed.

Lemma get_spread a b k :
  Obj.get k (Obj.spread a b) =
  match Obj.get k b with Some v => Some v | None => Obj.get k a end.
Proof.
  unfold Obj.spread. rewrite !get_assign. simpl.
  by destruct (Obj.get k b), (Obj.get k a).
Qed.
End obj_facts.

(** ** Priority selection *)

Section determineRelevantConfigs_facts.
Variable basename : string -> string.

Lemma rank_of_recognized f :
  basename f ∈ CONFIG_FILE_NAMES → ∃ r, rank_of basename f = Some r.
Proof.
  unfold rank_of, CONFIG_FILE_NAMES. intros H.
  repeat (apply elem_of_cons in H as [->|H]; [by eexists|]).
  by apply elem_of_nil in H.
Qed.

Lemma relevant_step_first f :
  relevant_step basename [] f = [f].
Proof. done. Qed.

Lemma relevant_step_front best rest r f rf :
  rank_of basename best = Some r → rank_of basename f = Some rf →
  relevant_step basename (best :: rest) f =
    if decide (rf < r) then f :: best :: rest else (best :: rest) ++ [f].
Proof.
  unfold rank_of, relevant_step. intros -> ->. simpl.
  case_decide as H.
  - by apply Nat.ltb_lt in H as ->.
  - by apply Nat.ltb_nlt in H as ->.
Qed.

Lemma determineRelevantConfigs_snoc l f :
  determineRelevantConfigs basename (l ++ [f]) =
  relevant_step basename (determineRelevantConfigs basename l) f.
Proof. unfold determineRelevantConfigs. by rewrite fold_left_app. Qed.

Lemma determineRelevantConfigs_perm l :
  determineRelevantConfigs basename l ≡ₚ l.
Proof.
  induction l as [|f l IH] using rev_ind; [done|].
  rewrite determineRelevantConfigs_snoc. unfold relevant_step.
  match goal with |- (if ?c then _ else _) ≡ₚ _ => destruct c end.
  - rewrite IH. by rewrite Permutation_app_comm.
  - by rewrite IH.
Qed.

Lemma determineRelevantConfigs_invariant l :
  l ≠ [] →
  Forall (λ f, basename f ∈ CONFIG_FILE_NAMES) l →
  front_is_best basename l (determineRelevantConfigs basename l).
Proof.
  induction l as [|f l IH] using rev_ind; [done|].
  intros _ Hall. apply Forall_app in Hall as [Hl Hf].
  apply Forall_singleton, rank_of_recognized in Hf as [rf Hrf].
  rewrite determineRelevantConfigs_snoc.
  destruct l as [|f0 l0].
  { exists [], f, [], [], rf. simpl.
    split_and!; try done; intros ? []%elem_of_nil. }
  destruct IH as (pre & best & post & rest & r & Hseen & -> & Hr & Hpre & Hpost);
    [done..|].
  rewrite (relevant_step_front _ _ _ _ _ Hr Hrf). case_decide as Hlt.
  - exists (f0 :: l0), f, [], (best :: rest), rf.
    split_and!; try done; [|intros ? []%elem_of_nil].
    intros g Hg. rewrite Hseen in Hg.
    apply elem_of_app in Hg as [Hg|Hg].
    + destruct (Hpre _ Hg) as (r' & ? & ?). exists r'. split; [done|lia].
    + apply elem_of_cons in Hg as [->|Hg].
      * exists r. split; [done|lia].
      * destruct (Hpost _ Hg) as (r' & ? & ?). exists r'. split; [done|lia].
  - exists pre, best, (post ++ [f]), (rest ++ [f]), r.
    split_and!; try done.
    + rewrite Hseen. by rewrite <- app_assoc.
    + intros g [Hg|Hg]%elem_of_app; [by apply Hpost|].
      apply list_elem_of_singleton in Hg as ->. exists rf. split; [done|lia].
Qed.
End determineRelevantConfigs_facts.

(** C1. When every discovered file bears a name of the ranking list, the
    first element of [determineRelevantConfigs] is the file of lowest rank
    number, and among files of that rank the one discovered first: every
    file discovered before it ranks strictly worse, no file discovered
    after it ranks better. Nothing is dropped (the result is a permutation
    of the input). The rest of the list is not sorted: a further file goes
    to the front when it beats the current front and to the back otherwise,
    so that [jsconfig.json, tsconfig.app.json, tsconfig.node.json] comes
    out with ranks 1, 3, 2. *)
Theorem determineRelevantConfigs_front_highest_priority
    (basename : string → string) (configFiles : list string) :
  configFiles ≠ [] →
  Forall (λ f, basename f ∈ CONFIG_FILE_NAMES) configFiles →
  (∃ pre best post rest r,
      configFiles = pre ++ best :: post ∧
      determineRelevantConfigs basename configFiles = best :: rest ∧
      rank_of basename best = Some r ∧
      (∀ f, f ∈ pre → ∃ r', rank_of basename f = Some r' ∧ r < r') ∧
      (∀ f, f ∈ post → ∃ r', rank_of basename f = Some r' ∧ r ≤ r') ∧
      (∀ f rf, rank_of basename f = Some rf →
         determineRelevantConfigs basename (configFiles ++ [f]) =
           if decide (rf < r) then f :: best :: rest
           else (best :: rest) ++ [f])) ∧
  determineRelevantConfigs basename configFiles ≡ₚ configFiles ∧
  ((∀ name, name ∈ CONFIG_FILE_NAMES → basename name = name) →
   determineRelevantConfigs basename
     ["jsconfig.json"; "tsconfig.app.json"; "tsconfig.node.json"] =
     ["tsconfig.app.json"; "jsconfig.json"; "tsconfig.node.json"]).
Proof.
  intros Hne Hall. split_and!.
  - destruct (determineRelevantConfigs_invariant basename _ Hne Hall)
      as (pre & best & post & rest & r & Hseen & Hres & Hr & Hpre & Hpost).
    exists pre, best, post, rest, r. split_and!; try done.
    intros f rf Hrf. rewrite determineRelevantConfigs_snoc, Hres.
    by apply relevant_step_front.
  - apply determineRelevantConfigs_perm.
  - intros Hbase.
    assert (∀ name r, name ∈ CONFIG_FILE_NAMES →
              Obj.get name configPriority = Some r →
              rank_of basename name = Some r) as Hrank.
    { intros name r Hin Hr. unfold rank_of. by rewrite Hbase. }
    unfold determineRelevantConfigs. cbn [fold_left].
    rewrite relevant_step_first.
    rewrite (relevant_step_front basename _ _ 3 _ 1);
      [|by apply Hrank; [unfold CONFIG_FILE_NAMES; elem_of_list|]..].
    rewrite decide_True by lia.
    rewrite (relevant_step_front basename _ _ 1 _ 2);
      [|by apply Hrank; [unfold CONFIG_FILE_NAMES; elem_of_list|]..].
    by rewrite decide_False by lia.
Qed.

Lemma determineRelevantConfigs_front_highest_priority_witness :
  let configFiles :=
    ["packages/web/tsconfig.node.json"; "packages/api/tsconfig.json";
     "jsconfig.json"; "tsconfig.json"] in
  determineRelevantConfigs posix_basename configFiles =
    ["packages/api/tsconfig.json"; "packages/web/tsconfig.node.json";
     "jsconfig.json"; "tsconfig.json"] ∧
  determineRelevantConfigs posix_basename configFiles ≡ₚ configFiles.
Proof.
  intros configFiles.
  destruct (determineRelevantConfigs_front_highest_priority
              posix_basename configFiles) as (_ & Hperm & _).
  - done.
  - unfold configFiles, CONFIG_FILE_NAMES.
    repeat (apply Forall_cons_2; [vm_compute; elem_of_list|]).
    apply Forall_nil_2.
  - split; [reflexivity | exact Hperm].
Defined.

(** ** Merge *)

Lemma filter_rev' {A} (P : A → Prop) `{!∀ x, Decision (P x)} (l : list A) :
  filter P (rev l) = rev (filter P l).
Proof.
  induction l as [|x l IH]; [done|]. simpl.
  rewrite filter_app, IH, !filter_cons, filter_nil.
  case_decide; simpl; [done|]. by rewrite app_nil_r.
Qed.

Lemma filter_none {A} (P : A → Prop) `{!∀ x, Decision (P x)} (l : list A) :
  Forall (fun x => ¬ P x) l → filter P l = [].
Proof.
  induction 1 as [|x l Hx _ IH]; [done|]. by rewrite filter_cons_False.
Qed.

Section obj_filter.
Context {V : Type}.
Implicit Types (o : list (string * V)) (k : string).

Lemma fold_set_unless (p : string → bool) (es : list (string * V)) o :
  fold_left (fun acc kv => if p (fst kv) then acc
                           else Obj.set (fst kv) (snd kv) acc) es o =
  fold_left (fun acc kv => Obj.set (fst kv) (snd kv) acc)
    (filter (fun kv => p (fst kv) = false) es) o.
Proof.
  revert o. induction es as [|[k v] es IH]; intros o; [done|]. simpl.
  rewrite filter_cons. simpl. destruct (p k) eqn:E.
  - rewrite decide_False by done. apply IH.
  - rewrite decide_True by done. apply IH.
Qed.

Lemma get_filter_key (p : string → bool) o k :
  Obj.get k (filter (fun kv => p (fst kv) = false) o) =
  if p k then None else Obj.get k o.
Proof.
  induction o as [|[k' v'] o IH]; [by destruct (p k)|].
  rewrite filter_cons. simpl. destruct (p k') eqn:E'.
  - rewrite decide_False by done. rewrite IH.
    destruct (String.eqb k' k) eqn:E; [|done].
    apply String.eqb_eq in E as ->. by rewrite E'.
  - rewrite decide_True by done. simpl.
    destruct (String.eqb k' k) eqn:E; [|done].
    apply String.eqb_eq in E as ->. by rewrite E'.
Qed.
End obj_filter.

Lemma keys_entries {V} (o : list (string * V)) :
  map fst (Obj.entries o) = Obj.keys o.
Proof.
  unfold Obj.entries.
  assert (∀ ks : list string,
            (∀ k, k ∈ ks → k ∈ Obj.keys o) →
            map fst (omap (fun k => pair k <$> Obj.get k o) ks) = ks) as H.
  { induction ks as [|k ks IH]; intros Hks; [done|]. csimpl.
    destruct (Obj.get k o) as [v|] eqn:Hk; csimpl.
    - f_equal. apply IH. intros k' Hk'. apply Hks. by right.
    - apply get_None_keys in Hk. destruct Hk. apply Hks. left. }
  by apply H.
Qed.

Lemma get_distinct {V} (o : Obj.t V) k v :
  NoDup (Obj.keys o) → (k, v) ∈ o → Obj.get k o = Some v.
Proof.
  induction o as [|[k' v'] o IH]; simpl; [by intros _ ?%elem_of_nil|].
  intros [Hk' Hkeys]%NoDup_cons [[= -> ->]|Hin]%elem_of_cons.
  - by rewrite String.eqb_refl.
  - destruct (String.eqb k' k) eqn:E; [|by apply IH].
    apply String.eqb_eq in E as ->. destruct Hk'.
    apply list_elem_of_fmap. by exists (k, v).
Qed.

Lemma entries_distinct {V} (o : Obj.t V) :
  NoDup (Obj.keys o) → Obj.entries o = o.
Proof.
  intros Hkeys. unfold Obj.entries, Obj.keys.
  assert (∀ l : list (string * V),
            (∀ kv, kv ∈ l → Obj.get (fst kv) o = Some (snd kv)) →
            omap (fun k => pair k <$> Obj.get k o) (map fst l) = l) as H.
  { induction l as [|[k v] l IH]; intros Hl; [done|]. simpl.
    assert (Obj.get k o = Some v) as -> by (apply (Hl (k, v)); by left).
    simpl. f_equal. apply IH.
    intros kv Hkv. apply Hl. by right. }
  apply H. intros [k v] Hkv. by apply get_distinct.
Qed.


(** *** The merge of the specification *)

Lemma get_spec_merge_other merged config key :
  Obj.get key (spec_merge_other merged config) =
  if bool_decide (key ∈ RESERVED_KEYS) then Obj.get key merged
  else match Obj.get key config with
       | Some v => Some v
       | None => Obj.get key merged
       end.
Proof.
  unfold spec_merge_other.
  pose proof (fold_set_unless (fun k => bool_decide (k ∈ RESERVED_KEYS))
                (Obj.entries config) merged) as Hfold.
  pose proof (get_filter_key (fun k => bool_decide (k ∈ RESERVED_KEYS))
                (rev (Obj.entries config)) key) as Hget.
  cbv beta in Hfold, Hget.
  rewrite Hfold, get_fold_set, <- filter_rev', Hget, get_rev_entries.
  by destruct (bool_decide _).
Qed.

(** The state of the merge after the sources [configs] (in selection
    order) have been processed from the back. *)
Lemma spec_merged_cons config configs :
  spec_merged (config :: configs) = spec_merge_step (spec_merged configs) config.
Proof. unfold spec_merged. simpl. by rewrite fold_left_app. Qed.

Lemma spec_merged_compilerOptions configs key :
  compilerOptions (spec_merged configs) ≫= Obj.get key =
  front_most (fun c => compilerOptions c ≫= Obj.get key) configs.
Proof.
  induction configs as [|c cs IH]; [done|].
  rewrite spec_merged_cons. cbn [front_most]. rewrite <- IH.
  set (m := spec_merged cs).
  cbn [spec_merge_step compilerOptions].
  destruct (compilerOptions c) as [options|]; simpl; [|done].
  rewrite get_spread. destruct (Obj.get key options); [done|].
  by destruct (compilerOptions m).
Qed.

Lemma spec_merged_other configs key :
  Obj.get key (other (spec_merged configs)) =
  if bool_decide (key ∈ RESERVED_KEYS) then None
  else front_most (fun c => Obj.get key (other c)) configs.
Proof.
  induction configs as [|c cs IH]; [by destruct (bool_decide _)|].
  rewrite spec_merged_cons. cbn [front_most spec_merge_step other].
  rewrite get_spec_merge_other, IH.
  destruct (bool_decide _); [done|]. by destruct (Obj.get key (other c)).
Qed.

Lemma spec_merge_array_default merged config :
  default [] (spec_merge_array merged config) =
  default [] merged ++ default [] config.
Proof. destruct config; simpl; [done|by rewrite app_nil_r]. Qed.

Lemma spec_merged_arrays (prop : TSConfig → option (list string)) configs :
  (∀ m c, prop (spec_merge_step m c) = spec_merge_array (prop m) (prop c)) →
  prop emptyConfig = None →
  arrays_concatenated prop configs (spec_merged configs).
Proof.
  intros Hstep Hempty.
  assert (default [] (prop (spec_merged configs)) =
          List.concat (map (fun c => default [] (prop c)) (rev configs))) as Heq.
  { induction configs as [|c cs IH]; [cbn; by rewrite Hempty|].
    rewrite spec_merged_cons, Hstep, spec_merge_array_default, IH. simpl.
    rewrite map_app, concat_app. simpl. by rewrite app_nil_r. }
  split_and!; [done| |].
  - rewrite Heq, map_rev.
    induction (map (λ c, default [] (prop c)) configs) as [|x xs IH]; [done|].
    simpl. rewrite concat_app, IH. simpl. rewrite app_nil_r.
    apply Permutation_app_comm.
  - clear Heq. induction configs as [|c cs IH].
    + split; [constructor|done].
    + rewrite spec_merged_cons, Hstep. unfold spec_merge_array at 1.
      destruct (prop c) eqn:Hc.
      * split; [done|]. intros [? _]%Forall_cons_1. congruence.
      * split.
        -- intros H. apply Forall_cons_2; [done|by apply IH].
        -- intros [_ H]%Forall_cons_1. by apply IH.
Qed.

Lemma spec_merged_extends configs : extends (spec_merged configs) = None.
Proof.
  induction configs as [|config configs IH]; [done|].
  by rewrite spec_merged_cons.
Qed.

Lemma spec_merged_no_compilerOptions configs :
  compilerOptions (spec_merged configs) = None ↔
  Forall (fun config => compilerOptions config = None) configs.
Proof.
  induction configs as [|config configs IH]; [done|].
  rewrite spec_merged_cons, Forall_cons. simpl.
  destruct (compilerOptions config); [|by rewrite IH; intuition].
  split; [done|by intros [[=] _]].
Qed.

(** *** The loop on the object *)

(** The keys written by the loop over the entries, when none of them is
    [__proto__]: each is written as an own property. *)
Lemma merge_entries_plain (es : list (string * json)) (merged : Merged.t) :
  Forall (fun kv => fst kv ≠ "__proto__") es →
  fold_left
    (fun acc kv =>
       if bool_decide (fst kv ∈ RESERVED_KEYS) then acc
       else assign_key acc (fst kv) (snd kv))
    es merged =
  with_other merged
    (fold_left
       (fun acc kv =>
          if bool_decide (fst kv ∈ RESERVED_KEYS) then acc
          else Obj.set (fst kv) (snd kv) acc)
       es (Merged.other merged)).
Proof.
  intros Hes. revert merged.
  induction Hes as [|[k v] es Hk _ IH]; intros merged; [by destruct merged|].
  cbn [fold_left fst snd]. destruct (bool_decide (k ∈ RESERVED_KEYS)); [apply IH|].
  rewrite IH. unfold assign_key.
  apply String.eqb_neq in Hk. simpl in Hk. by rewrite Hk.
Qed.

Lemma entries_without_key {V} (o : list (string * V)) k :
  Obj.get k o = None → Forall (fun kv => fst kv ≠ k) (Obj.entries o).
Proof.
  intros Hget. apply Forall_forall. intros kv Hin <-.
  rewrite <- get_entries in Hget. apply get_None_keys in Hget.
  destruct Hget. unfold Obj.keys. by apply list_elem_of_fmap_2.
Qed.

Lemma merge_other_unpolluted merged config :
  Obj.get "__proto__" config = None →
  merge_other merged config =
  with_other merged (spec_merge_other (Merged.other merged) config).
Proof.
  intros Hget. apply merge_entries_plain. by apply entries_without_key.
Qed.

(** A step of the loop on an object that holds own properties only, up
    to the loop over the entries. *)
Lemma merge_step_object merged config :
  merge_step (merged_object merged) config =
  Returns
    (merge_other
       (with_other (merged_object (spec_merge_step merged config)) (other merged))
       (other config)).
Proof.
  unfold merge_step, merged_object, with_other, merge_options, merge_array,
    spread_array.
  cbn [Merged.compilerOptions Merged.include Merged.exclude Merged.files
       Merged.other Merged.proto inherited spec_merge_step compilerOptions
       include exclude files other].
  destruct (compilerOptions config) as [options|],
           (compilerOptions merged) as [own|],
           (include config) as [inc|], (include merged) as [inc'|],
           (exclude config) as [exc|], (exclude merged) as [exc'|],
           (files config) as [fs|], (files merged) as [fs'|];
    cbn; rewrite ?map_app; reflexivity.
Qed.

Lemma merge_step_unpolluted merged config :
  unpolluted config →
  merge_step (merged_object merged) config =
  Returns (merged_object (spec_merge_step merged config)).
Proof.
  intros Hconfig. rewrite merge_step_object, merge_other_unpolluted by done.
  reflexivity.
Qed.

Lemma merge_all_app configs configs' merged :
  merge_all (configs ++ configs') merged =
  (merged' ← merge_all configs merged; merge_all configs' merged').
Proof.
  revert merged. induction configs as [|config configs IH]; intros merged;
    [done|].
  simpl. destruct (merge_step merged config) as [merged'|e]; [|done].
  cbn [mbind outcome_bind]. apply IH.
Qed.

Lemma merge_all_unpolluted configs merged :
  Forall unpolluted configs →
  merge_all configs (merged_object merged) =
  Returns (merged_object (fold_left spec_merge_step configs merged)).
Proof.
  intros Hconfigs. revert merged.
  induction Hconfigs as [|config configs Hconfig _ IH]; intros merged; [done|].
  simpl. rewrite merge_step_unpolluted by done. cbn [mbind outcome_bind].
  apply IH.
Qed.

Lemma mergeConfigs_merges readTSConfig configPaths configs :
  readConfigs readTSConfig configPaths = Returns configs →
  mergeConfigs readTSConfig configPaths = merge_all (rev configs) Merged.empty.
Proof. unfold mergeConfigs. by intros ->. Qed.

(** Without a key [__proto__] in the sources, the loop builds the
    configuration of the specification. *)
Lemma mergeConfigs_unpolluted readTSConfig configPaths configs :
  readConfigs readTSConfig configPaths = Returns configs →
  Forall unpolluted configs →
  mergeConfigs readTSConfig configPaths =
    Returns (merged_object (spec_merged configs)).
Proof.
  intros Hread Hconfigs. rewrite (mergeConfigs_merges _ _ _ Hread).
  change Merged.empty with (merged_object emptyConfig).
  apply merge_all_unpolluted. by apply List.Forall_rev.
Qed.

Lemma as_strings_opt_strings (l : option (list string)) :
  as_strings_opt (map JStr <$> l) = Some l.
Proof.
  destruct l as [l|]; [|done]. simpl.
  assert (mapM (fun e => match e with JStr s => Some s | _ => None end)
            (map JStr l) = Some l) as ->; [|done].
  induction l as [|s l IH]; [done|]. simpl. by rewrite IH.
Qed.

Lemma as_config_merged_object config :
  extends config = None → as_config (merged_object config) = Some config.
Proof.
  intros Hextends. unfold as_config, merged_object.
  cbn [Merged.proto Merged.include Merged.exclude Merged.files
       Merged.compilerOptions Merged.other].
  rewrite !as_strings_opt_strings. cbn. rewrite <- Hextends.
  by destruct config.
Qed.

Lemma held_unpolluted readTSConfig configPaths configs :
  readConfigs readTSConfig configPaths = Returns configs →
  Forall unpolluted configs →
  held (mergeConfigs readTSConfig configPaths) =
    Some (Returns (spec_merged configs)).
Proof.
  intros Hread Hconfigs.
  rewrite (mergeConfigs_unpolluted _ _ _ Hread Hconfigs). unfold held.
  by rewrite as_config_merged_object by apply spec_merged_extends.
Qed.

(** The loop over the entries of a source with a key [__proto__], on an
    object that has the prototype of an object literal and no property of
    that name: the key is not written, and the value is made the
    prototype when it is an object, an array or [null]. *)
Lemma get_split {V} (o : list (string * V)) k v :
  Obj.get k o = Some v →
  ∃ before after, o = before ++ (k, v) :: after ∧ k ∉ Obj.keys before.
Proof.
  induction o as [|[k' v'] o IH]; [done|]. simpl.
  destruct (String.eqb k' k) eqn:E.
  - apply String.eqb_eq in E as ->. intros [= ->].
    exists [], o. split; [done|]. apply not_elem_of_nil.
  - intros (before & after & -> & Hbefore)%IH.
    exists ((k', v') :: before), after. split; [done|].
    apply String.eqb_neq in E. apply not_elem_of_cons.
    split; [simpl; congruence|done].
Qed.

Lemma keys_without (es : list (string * json)) k :
  k ∉ Obj.keys es → Forall (fun kv => fst kv ≠ k) es.
Proof.
  intros Hk. apply Forall_forall. intros kv Hin <-. destruct Hk.
  unfold Obj.keys. by apply list_elem_of_fmap_2.
Qed.

Lemma get_fold_unless_other (es : list (string * json)) (o : list (string * json)) k :
  Forall (fun kv => fst kv ≠ k) es →
  Obj.get k
    (fold_left
       (fun acc kv =>
          if bool_decide (fst kv ∈ RESERVED_KEYS) then acc
          else Obj.set (fst kv) (snd kv) acc)
       es o) = Obj.get k o.
Proof.
  intros Hes. revert o. induction Hes as [|[k' v'] es Hk _ IH]; intros o; [done|].
  cbn [fold_left fst snd]. rewrite IH.
  destruct (bool_decide _); [done|]. by apply get_set_ne.
Qed.

Lemma merge_other_polluted merged (config : list (string * json)) value :
  NoDup (Obj.keys config) →
  Obj.get "__proto__" config = Some value →
  Merged.proto merged = ObjectPrototype →
  Obj.get "__proto__" (Merged.other merged) = None →
  Obj.get "__proto__" (Merged.other (merge_other merged config)) = None ∧
  Merged.proto (merge_other merged config) =
    match value with
    | JObj _ | JArr _ => Inherits value
    | JNull => NullPrototype
    | _ => ObjectPrototype
    end.
Proof.
  intros Hkeys Hget Hproto Hown. unfold merge_other.
  rewrite entries_distinct by done.
  destruct (get_split _ _ _ Hget) as (before & after & -> & Hbefore).
  unfold Obj.keys in Hkeys. rewrite map_app in Hkeys.
  apply NoDup_app in Hkeys as (_ & _ & Hafter). simpl in Hafter.
  apply NoDup_cons in Hafter as [Hafter _].
  rewrite fold_left_app. cbn [fold_left fst snd].
  rewrite (merge_entries_plain before) by (by apply keys_without).
  rewrite bool_decide_eq_false_2 by by_evaluation.
  set (m := with_other merged _).
  assert (reaches_setter m = true) as Hreach.
  { unfold reaches_setter. subst m. cbn [with_other Merged.other Merged.proto].
    rewrite get_fold_unless_other by (by apply keys_without).
    by rewrite Hown, Hproto. }
  assert (Obj.get "__proto__" (Merged.other m) = None) as Hm.
  { subst m. cbn [with_other Merged.other].
    rewrite get_fold_unless_other by (by apply keys_without). done. }
  assert (Merged.proto m = ObjectPrototype) as Hpm by done.
  unfold assign_key. rewrite Hreach. cbn [String.eqb Ascii.eqb Bool.eqb andb].
  rewrite (merge_entries_plain after) by (by apply keys_without).
  cbn [with_other Merged.other Merged.proto].
  rewrite get_fold_unless_other by (by apply keys_without).
  by destruct value.
Qed.

(** The loop over the entries leaves the four properties the first part
    of the step writes as they are. *)
Lemma assign_key_fields merged key value :
  Merged.compilerOptions (assign_key merged key value) = Merged.compilerOptions merged ∧
  Merged.include (assign_key merged key value) = Merged.include merged ∧
  Merged.exclude (assign_key merged key value) = Merged.exclude merged ∧
  Merged.files (assign_key merged key value) = Merged.files merged.
Proof.
  unfold assign_key. destruct (String.eqb key "__proto__" && reaches_setter merged);
    [by destruct value|done].
Qed.

Lemma merge_other_fields merged config :
  Merged.compilerOptions (merge_other merged config) = Merged.compilerOptions merged ∧
  Merged.include (merge_other merged config) = Merged.include merged ∧
  Merged.exclude (merge_other merged config) = Merged.exclude merged ∧
  Merged.files (merge_other merged config) = Merged.files merged.
Proof.
  unfold merge_other. revert merged.
  induction (Obj.entries config) as [|[k v] es IH]; intros merged; [done|].
  cbn [fold_left fst snd]. destruct (bool_decide (k ∈ RESERVED_KEYS)); [apply IH|].
  destruct (IH (assign_key merged k v)) as (-> & -> & -> & ->).
  apply assign_key_fields.
Qed.

(** The first step of the loop on a source whose one other entry is an
    object under the key [__proto__]: the object becomes the prototype. *)
Lemma merge_step_prototype back props :
  other back = [("__proto__", JObj props)] →
  merge_step Merged.empty back =
  Returns
    (with_proto
       (with_other (merged_object (spec_merge_step emptyConfig back)) [])
       (Inherits (JObj props))).
Proof.
  intros Hother. change Merged.empty with (merged_object emptyConfig).
  rewrite merge_step_object, Hother. reflexivity.
Qed.

Lemma spec_merged_unpolluted configs :
  Forall unpolluted configs →
  Obj.get "__proto__" (other (spec_merged configs)) = None.
Proof.
  intros Hconfigs. rewrite spec_merged_other.
  rewrite bool_decide_eq_false_2 by by_evaluation.
  induction Hconfigs as [|config configs Hconfig _ IH]; [done|].
  cbn [front_most]. by rewrite Hconfig.
Qed.

(** A property that neither the object nor its prototype holds is
    written from the source alone, and one that the object holds is
    appended to. *)
Lemma merge_array_own own proto prop config :
  (own = None → inherited proto prop = None) →
  merge_array own proto prop config =
  Returns match config with
          | Some arr => Some (default [] own ++ map JStr arr)
          | None => own
          end.
Proof.
  intros Hinherited. unfold merge_array, spread_array.
  destruct config as [arr|]; [|done].
  destruct own as [elems|]; [done|]. by rewrite Hinherited.
Qed.

(** C2 (what the code does). Once the sources have been read,
    [mergeConfigs] processes them from the last to the first, the front
    one being merged last. When no source has a key [__proto__], the
    merged [compilerOptions] holds under every key the value of the
    front-most source that sets the key, and so does the merged
    configuration for every top-level key outside the reserved set, the
    reserved keys never being copied from the other entries. The key
    [__proto__] is outside the reserved set, and the rule fails for it:
    when the front source sets it, above sources that do not, the merged
    object holds no property of that name, and the value has become its
    prototype when it is an object, an array or [null]. The options of
    such a prototype then enter the merged [compilerOptions] under the
    keys that the front source does not set. *)
Theorem mergeConfigs_front_most_source_wins
    (readTSConfig : string → outcome TSConfig)
    (configPaths : list string) (configs : list TSConfig) :
  readConfigs readTSConfig configPaths = Returns configs →
  (Forall unpolluted configs →
   ∃ merged,
     mergeConfigs readTSConfig configPaths = Returns (merged_object merged) ∧
     (∀ config rest, configs = config :: rest →
        merged = spec_merge_step (spec_merged rest) config) ∧
     (∀ key,
        compilerOptions merged ≫= Obj.get key =
        front_most (fun c => compilerOptions c ≫= Obj.get key) configs) ∧
     (∀ key, key ∉ RESERVED_KEYS →
        Obj.get key (other merged) =
        front_most (fun c => Obj.get key (other c)) configs) ∧
     (∀ key, key ∈ RESERVED_KEYS → Obj.get key (other merged) = None)) ∧
  (∀ config rest value,
     configs = config :: rest →
     Forall unpolluted rest →
     NoDup (Obj.keys (other config)) →
     Obj.get "__proto__" (other config) = Some value →
     ∃ merged,
       mergeConfigs readTSConfig configPaths = Returns merged ∧
       front_most (fun c => Obj.get "__proto__" (other c)) configs = Some value ∧
       Obj.get "__proto__" (Merged.other merged) = None ∧
       Merged.proto merged =
         match value with
         | JObj _ | JArr _ => Inherits value
         | JNull => NullPrototype
         | _ => ObjectPrototype
         end) ∧
  (∀ front back options inheritedOptions,
     configs = [front; back] →
     compilerOptions front = Some options →
     compilerOptions back = None →
     other back =
       [("__proto__", JObj [("compilerOptions", JObj inheritedOptions)])] →
     ∃ merged declared,
       mergeConfigs readTSConfig configPaths = Returns merged ∧
       Merged.compilerOptions merged = Some declared ∧
       ∀ key,
         Obj.get key declared =
         match Obj.get key options with
         | Some value => Some value
         | None => Obj.get key inheritedOptions
         end).
Proof.
  intros Hread. split_and!.
  - intros Hconfigs. exists (spec_merged configs).
    split; [by apply mergeConfigs_unpolluted|]. split_and!.
    + intros config rest ->. apply spec_merged_cons.
    + apply spec_merged_compilerOptions.
    + intros key Hkey. rewrite spec_merged_other.
      by rewrite bool_decide_eq_false_2.
    + intros key Hkey. rewrite spec_merged_other.
      by rewrite bool_decide_eq_true_2.
  - intros config rest value -> Hrest Hkeys Hvalue.
    rewrite (mergeConfigs_merges _ _ _ Hread). cbn [rev].
    rewrite merge_all_app.
    change Merged.empty with (merged_object emptyConfig).
    rewrite merge_all_unpolluted by (by apply List.Forall_rev).
    cbn [mbind outcome_bind merge_all]. rewrite merge_step_object.
    cbn [mbind outcome_bind]. eexists. split; [reflexivity|].
    split; [cbn [front_most]; by rewrite Hvalue|].
    apply merge_other_polluted; [done..|].
    by apply spec_merged_unpolluted.
  - intros front back options inheritedOptions -> Hfront Hback Hother.
    rewrite (mergeConfigs_merges _ _ _ Hread). cbn [rev app merge_all].
    rewrite (merge_step_prototype back _ Hother). cbn [mbind outcome_bind].
    unfold merge_step.
    rewrite !merge_array_own by (intros _; reflexivity).
    cbn [mbind outcome_bind]. eexists _, _. split; [reflexivity|].
    rewrite (proj1 (merge_other_fields _ _)).
    cbn [Merged.compilerOptions]. rewrite Hfront. split; [reflexivity|].
    intros key. unfold merge_options.
    cbn [with_proto with_other merged_object Merged.compilerOptions
         Merged.proto spec_merge_step compilerOptions].
    rewrite Hback. cbn. rewrite get_spread, get_entries.
    by destruct (Obj.get key options).
Qed.

(** C3 (what the code does). Once the sources have been read, and when no
    source has a key [__proto__], each of the merged [include], [exclude]
    and [files] arrays is the concatenation of the arrays of all sources:
    the same elements with the same multiplicities, nothing removed and
    nothing added. A source with a key [__proto__] adds elements: when the
    back source of two has no [include] and holds an object with an
    [include] array under [__proto__], the merged [include] begins with
    the elements of that array, which the front source reads through the
    prototype, although no source has them in its [include]. *)
Theorem mergeConfigs_arrays_concatenated
    (readTSConfig : string → outcome TSConfig)
    (configPaths : list string) (configs : list TSConfig) :
  readConfigs readTSConfig configPaths = Returns configs →
  (Forall unpolluted configs →
   ∃ merged,
     mergeConfigs readTSConfig configPaths = Returns (merged_object merged) ∧
     arrays_concatenated include configs merged ∧
     arrays_concatenated exclude configs merged ∧
     arrays_concatenated files configs merged) ∧
  (∀ front back arr elems,
     configs = [front; back] →
     include front = Some arr →
     include back = None →
     other back = [("__proto__", JObj [("include", JArr elems)])] →
     ∃ merged,
       mergeConfigs readTSConfig configPaths = Returns merged ∧
       Merged.include merged = Some (elems ++ map JStr arr)).
Proof.
  intros Hread. split.
  - intros Hconfigs. exists (spec_merged configs).
    split; [by apply mergeConfigs_unpolluted|].
    split_and!; by apply spec_merged_arrays.
  - intros front back arr elems -> Hfront Hback Hother.
    rewrite (mergeConfigs_merges _ _ _ Hread). cbn [rev app merge_all].
    rewrite (merge_step_prototype back _ Hother). cbn [mbind outcome_bind].
    unfold merge_step.
    rewrite (merge_array_own _ _ "exclude") by (intros _; reflexivity).
    rewrite (merge_array_own _ _ "files") by (intros _; reflexivity).
    cbn [with_proto with_other merged_object Merged.include Merged.proto
         spec_merge_step include emptyConfig].
    rewrite Hfront, Hback. cbn [merge_array spread_array spec_merge_array fmap
      option_fmap option_map inherited Obj.get String.eqb Ascii.eqb Bool.eqb
      truthy mbind outcome_bind].
    eexists. split; [reflexivity|].
    by rewrite (proj1 (proj2 (merge_other_fields _ _))).
Qed.

Lemma mergeConfigs_front_most_source_wins_witness :
  (∃ merged,
     mergeConfigs sample_readTSConfig ["tsconfig.json"; "tsconfig.app.json"]
       = Returns (merged_object merged) ∧
     compilerOptions merged ≫= Obj.get "target" = Some (JStr "es2022") ∧
     compilerOptions merged ≫= Obj.get "module" = Some (JStr "esnext") ∧
     Obj.get "compileOnSave" (other merged) = Some (JBool true) ∧
     Obj.get "extends" (other merged) = None) ∧
  (∃ merged,
     mergeConfigs (sample_polluted_readTSConfig sample_inherited_options)
       ["tsconfig.app.json"] = Returns merged ∧
     Merged.other merged = [] ∧
     Merged.proto merged =
       Inherits
         (JObj [("compilerOptions",
                 JObj [("target", JStr "es3"); ("noEmit", JBool true)])])) ∧
  (∃ merged,
     mergeConfigs (sample_polluted_readTSConfig sample_inherited_options)
       ["tsconfig.json"; "tsconfig.app.json"] = Returns merged ∧
     Merged.compilerOptions merged
       = Some [("target", JStr "es2022"); ("noEmit", JBool true);
               ("strict", JBool true)]).
Proof.
  split_and!.
  - destruct (mergeConfigs_front_most_source_wins sample_readTSConfig
                ["tsconfig.json"; "tsconfig.app.json"]
                [sample_base_config; sample_app_config] eq_refl)
      as (Hclaim & _ & _).
    destruct Hclaim as (merged & Hmerged & _ & Hoptions & Hother & Hreserved).
    { repeat constructor. }
    exists merged. split_and!.
    + exact Hmerged.
    + rewrite Hoptions. reflexivity.
    + rewrite Hoptions. reflexivity.
    + rewrite Hother; [reflexivity|]. by_evaluation.
    + apply Hreserved. unfold RESERVED_KEYS. elem_of_list.
  - destruct (mergeConfigs_front_most_source_wins
                (sample_polluted_readTSConfig sample_inherited_options)
                ["tsconfig.app.json"] [sample_inherited_options] eq_refl)
      as (_ & Hlost & _).
    destruct (Hlost sample_inherited_options [] _ eq_refl (Forall_nil_2 _)
                ltac:(by_evaluation) eq_refl)
      as (merged & Hmerged & _ & _ & Hproto).
    exists merged. split; [exact Hmerged|]. split; [|exact Hproto].
    vm_compute in Hmerged. by injection Hmerged as <-.
  - destruct (mergeConfigs_front_most_source_wins
                (sample_polluted_readTSConfig sample_inherited_options)
                ["tsconfig.json"; "tsconfig.app.json"]
                [sample_base_config; sample_inherited_options] eq_refl)
      as (_ & _ & Hinherited).
    destruct (Hinherited sample_base_config sample_inherited_options _ _
                eq_refl eq_refl eq_refl eq_refl)
      as (merged & declared & Hmerged & Hdeclared & _).
    exists merged. split; [exact Hmerged|].
    vm_compute in Hmerged. by injection Hmerged as <-.
Defined.

Lemma mergeConfigs_arrays_concatenated_witness :
  (∃ merged,
     mergeConfigs sample_readTSConfig ["tsconfig.json"; "tsconfig.app.json"]
       = Returns (merged_object merged) ∧
     include merged = Some ["src"; "app"; "src"] ∧
     exclude merged = Some ["dist"] ∧
     files merged = Some ["src/index.ts"]) ∧
  (∃ merged,
     mergeConfigs (sample_polluted_readTSConfig sample_inherited_include)
       ["tsconfig.json"; "tsconfig.app.json"] = Returns merged ∧
     Merged.include merged = Some [JStr "evil"; JStr "src"]).
Proof.
  split.
  - destruct (mergeConfigs_arrays_concatenated sample_readTSConfig
                ["tsconfig.json"; "tsconfig.app.json"]
                [sample_base_config; sample_app_config] eq_refl)
      as (Hclaim & _).
    destruct Hclaim
      as (merged & Hmerged & (Hinclude & _ & Hsome) & (Hexclude & _ & Hsome') &
          (Hfiles & _ & Hsome'')).
    { repeat constructor. }
    exists merged. split; [exact Hmerged|].
    simpl in Hinclude, Hexclude, Hfiles.
    destruct (include merged) as [inc|];
      [|exfalso; apply proj1 in Hsome; specialize (Hsome eq_refl);
        by apply Forall_cons_1 in Hsome as [? _]].
    destruct (exclude merged) as [exc|];
      [|exfalso; apply proj1 in Hsome'; specialize (Hsome' eq_refl);
        by apply Forall_cons_1 in Hsome' as [_ [? _]%Forall_cons_1]].
    destruct (files merged) as [fs|];
      [|exfalso; apply proj1 in Hsome''; specialize (Hsome'' eq_refl);
        by apply Forall_cons_1 in Hsome'' as [? _]].
    simpl in *. by subst.
  - destruct (mergeConfigs_arrays_concatenated
                (sample_polluted_readTSConfig sample_inherited_include)
                ["tsconfig.json"; "tsconfig.app.json"]
                [sample_base_config; sample_inherited_include] eq_refl)
      as (_ & Hadded).
    apply (Hadded sample_base_config sample_inherited_include ["src"]
             [JStr "evil"] eq_refl eq_refl eq_refl eq_refl).
Defined.

(** ** Schema validation *)

Lemma zod_parse_object shape at_path props :
  zod_parse (ZObject shape) at_path (Some (JObj props)) =
  field_issues at_path props shape.
Proof.
  unfold field_issues. simpl.
  induction shape as [|[k t] shape IH]; [done|]. simpl. by rewrite IH.
Qed.

(** Every issue lies at or below the path of the value it was found in. *)
Lemma zod_parse_path t : ∀ at_path input,
  Forall (fun e => ∃ suffix, path e = at_path ++ suffix)
    (zod_parse t at_path input).
Proof.
  induction t as [values| | |element IH|inner IH|shape IH]
    using ZodType_nested_ind; intros at_path input.
  - simpl. destruct input as [[]|]; try (constructor; [by exists []; rewrite app_nil_r|done]).
    case_bool_decide; [done|]. constructor; [by exists []; rewrite app_nil_r|done].
  - simpl. destruct input as [[]|]; try done;
      (constructor; [by exists []; rewrite app_nil_r|done]).
  - simpl. destruct input as [[]|]; try done;
      (constructor; [by exists []; rewrite app_nil_r|done]).
  - simpl. destruct input as [[| | | |elems|]|];
      try (constructor; [by exists []; rewrite app_nil_r|done]).
    apply Forall_concat, Forall_forall. intros issues Hin.
    apply elem_of_lookup_imap in Hin as (i & v & -> & _).
    eapply Forall_impl; [apply IH|]. simpl. intros e [suffix ->].
    exists (Index i :: suffix). by rewrite <- app_assoc.
  - simpl. destruct input; [apply IH|done].
  - destruct input as [[| | | | |props]|];
      try (constructor; [by exists []; rewrite app_nil_r|done]).
    rewrite zod_parse_object. unfold field_issues.
    apply Forall_concat, Forall_forall. intros issues Hin.
    apply list_elem_of_fmap in Hin as ([k t] & -> & Hin).
    rewrite Forall_forall in IH. specialize (IH _ Hin). simpl in *.
    eapply Forall_impl; [apply IH|]. simpl. intros e [suffix ->].
    exists (Key k :: suffix). by rewrite <- app_assoc.
Qed.

Lemma field_issues_cons at_path props k t shape :
  field_issues at_path props ((k, t) :: shape) =
  zod_parse t (at_path ++ [Key k]) (Obj.get k props)
    ++ field_issues at_path props shape.
Proof. done. Qed.

Lemma field_issues_absent at_path props shape :
  Forall (fun kt => ∃ inner, snd kt = ZOptional inner) shape →
  (∀ k, k ∈ map fst shape → Obj.get k props = None) →
  field_issues at_path props shape = [].
Proof.
  unfold field_issues. induction shape as [|[k t] shape IH]; [done|].
  intros [[inner Hinner] Hopt]%Forall_cons_1 Habsent. simpl in *. subst t.
  rewrite Habsent by left. simpl. apply IH; [done|].
  intros k' Hk'. apply Habsent. by right.
Qed.

Lemma field_issues_other_path at_path props shape key :
  key ∉ map fst shape →
  filter (fun e => path e = at_path ++ [Key key]) (field_issues at_path props shape) = [].
Proof.
  unfold field_issues. induction shape as [|[k t] shape IH]; [done|].
  simpl. intros [Hne Hnot]%not_elem_of_cons.
  rewrite filter_app, IH by done. rewrite app_nil_r.
  apply filter_none. eapply Forall_impl; [apply zod_parse_path|].
  simpl. intros e [suffix ->] Heq.
  rewrite <- app_assoc in Heq. apply app_inv_head in Heq.
  simpl in Heq. congruence.
Qed.

Lemma compilerOptionsSchema_optional :
  match compilerOptionsSchema with
  | ZObject shape => Forall (fun kt => ∃ inner, snd kt = ZOptional inner) shape
  | _ => False
  end.
Proof. simpl. repeat (apply Forall_cons_2; [by eexists|]). apply Forall_nil_2. Qed.

Lemma validate_only_unrecognized props :
  (∀ k, k ∈ recognized_options → Obj.get k props = None) →
  validateCompilerOptions (JObj props) = {| valid := true; errors := [] |}.
Proof.
  intros Habsent. unfold validateCompilerOptions, safeParse, compilerOptionsSchema.
  rewrite zod_parse_object, field_issues_absent; [done| |done].
  apply compilerOptionsSchema_optional.
Qed.

Lemma validate_target_invalid props :
  Obj.get "target" props = Some (JStr "invalid") →
  ∃ others,
    validateCompilerOptions (JObj props) =
      {| valid := false; errors := invalid_enum_value [Key "target"] :: others |} ∧
    filter (fun e => path e = [Key "target"]) others = [] ∧
    ((∀ k, k ∈ recognized_options → k ≠ "target" → Obj.get k props = None) →
     others = []).
Proof.
  intros Htarget. unfold validateCompilerOptions, safeParse, compilerOptionsSchema.
  rewrite zod_parse_object.
  match goal with
  | |- context [field_issues _ _ (_ :: ?rest)] => set (shape := rest)
  end.
  rewrite field_issues_cons. cbn [fst snd app]. rewrite Htarget.
  cbn [zod_parse]. rewrite bool_decide_eq_false_2 by by_evaluation.
  cbn [app]. exists (field_issues [] props shape). split; [done|]. split.
  - apply (field_issues_other_path [] props). by_evaluation.
  - intros Habsent. apply field_issues_absent.
    + pose proof compilerOptionsSchema_optional as H.
      by apply Forall_cons_1 in H as [_ H].
    + intros k Hk. apply Habsent.
      * by right.
      * intros ->. revert Hk. by_evaluation.
Qed.

(** Case analysis on a recognized option name. *)
Ltac each_recognized H :=
  unfold recognized_options in H; simpl in H;
  repeat (apply elem_of_cons in H as [->|H]; [first [reflexivity | done]|]);
  by apply elem_of_nil in H.

(** C4. A settings object whose [target] is the string ["invalid"] is
    reported invalid, and exactly one of the reported errors has the path
    [target]; when no other recognized option is set, that error is the
    only one. The empty settings object is valid, and so is every object
    that sets unrecognized keys only. *)
Theorem validateCompilerOptions_target_and_open_schema :
  (∀ props,
     Obj.get "target" props = Some (JStr "invalid") →
     valid (validateCompilerOptions (JObj props)) = false ∧
     filter (fun e => path e = [Key "target"])
       (errors (validateCompilerOptions (JObj props))) =
       [invalid_enum_value [Key "target"]] ∧
     ((∀ k, k ∈ recognized_options → k ≠ "target" → Obj.get k props = None) →
      errors (validateCompilerOptions (JObj props)) =
        [invalid_enum_value [Key "target"]])) ∧
  validateCompilerOptions (JObj []) = {| valid := true; errors := [] |} ∧
  (∀ props,
     (∀ k, k ∈ recognized_options → Obj.get k props = None) →
     validateCompilerOptions (JObj props) = {| valid := true; errors := [] |}).
Proof.
  split_and!.
  - intros props Htarget.
    destruct (validate_target_invalid props Htarget) as (others & -> & Hpath & Honly).
    cbn [valid errors]. split_and!; [done| |].
    + rewrite filter_cons_True by done. by rewrite Hpath.
    + intros Habsent. by rewrite Honly.
  - by apply validate_only_unrecognized.
  - apply validate_only_unrecognized.
Qed.

Lemma validateCompilerOptions_target_and_open_schema_witness :
  validateCompilerOptions (JObj [("target", JStr "invalid"); ("plugins", JArr [])]) =
    {| valid := false; errors := [invalid_enum_value [Key "target"]] |} ∧
  validateCompilerOptions (JObj [("plugins", JArr []); ("baseUrl", JStr ".")]) =
    {| valid := true; errors := [] |}.
Proof.
  destruct validateCompilerOptions_target_and_open_schema as (Htarget & _ & Hopen).
  split.
  - destruct (Htarget [("target", JStr "invalid"); ("plugins", JArr [])])
      as (Hvalid & _ & Honly); [reflexivity|].
    assert (∀ k, k ∈ recognized_options → k ≠ "target" →
              Obj.get k [("target", JStr "invalid"); ("plugins", JArr [])] = None)
      as Habsent by (intros k Hk Hne; each_recognized Hk).
    specialize (Honly Habsent).
    destruct (validateCompilerOptions _) as [v es]. simpl in *. by subst.
  - apply Hopen. intros k Hk. each_recognized Hk.
Defined.

(** ** Structure cross-check *)

Lemma array_some_returns {A} (test : A → outcome bool) (l : list A) :
  (∀ x, x ∈ l → ∃ b, test x = Returns b) →
  ∃ b, array_some test l = Returns b.
Proof.
  induction l as [|x l IH]; intros Hall; [by eexists|]. simpl.
  destruct (Hall x) as [b ->]; [left|]. simpl.
  destruct b; [by eexists|]. apply IH. intros y Hy. apply Hall. by right.
Qed.

Lemma array_filter_returns {A} (keep : A → outcome bool) (l : list A) :
  (∀ x, x ∈ l → ∃ b, keep x = Returns b) →
  ∃ kept, array_filter keep l = Returns kept.
Proof.
  induction l as [|x l IH]; intros Hall; [by eexists|]. simpl.
  destruct (Hall x) as [b ->]; [left|]. simpl.
  destruct IH as [kept ->]; [intros y Hy; apply Hall; by right|].
  by eexists.
Qed.

Lemma matching_files_returns RegExp patterns (fs : list string) :
  patterns_compile RegExp patterns →
  ∃ kept,
    array_filter
      (fun file => array_some (fun pattern => minimatch RegExp file pattern) patterns)
      fs = Returns kept.
Proof.
  intros Hcompile. apply array_filter_returns. intros file _.
  apply array_some_returns. intros pattern Hin. unfold minimatch.
  destruct (Hcompile _ Hin) as [regex ->]. by eexists.
Qed.

Lemma missing_report_eq structure declared :
  (if Nat.ltb 0 (length (filter (fun file => file ∉ ProjectStructure.files structure)
                            declared)) then
     [] ++ ["The following files specified in 'files' are missing from the project:"]
        ++ map (fun file => "  - " +:+ file)
             (filter (fun file => file ∉ ProjectStructure.files structure) declared)
   else []) = missing_report structure declared.
Proof. unfold missing_report. by destruct (filter _ declared). Qed.

Lemma missing_report_lists structure declared file :
  file ∈ declared → file ∉ ProjectStructure.files structure →
  "  - " +:+ file ∈ missing_report structure declared.
Proof.
  intros Hin Hmissing. unfold missing_report.
  assert (file ∈ filter (fun file => file ∉ ProjectStructure.files structure)
                   declared) as Hf by (by apply list_elem_of_filter).
  destruct (filter _ declared) as [|f fs] eqn:E; [by apply elem_of_nil in Hf|].
  right. by apply (list_elem_of_fmap_2 (fun file => "  - " +:+ file)).
Qed.

(** When the configuration declares an explicit file list, and the
    engine accepts the [include] and [exclude] patterns, the analysis
    returns its messages and these start with the report of the declared
    files that the structure lacks. *)
Lemma analyzeProjectStructure_missing_report
    (RegExp : string → outcome (string → bool))
    (structure : ProjectStructure.t) (tsconfig : TSConfig)
    (declared : list string) :
  files tsconfig = Some declared →
  patterns_compile RegExp
    (default [] (include tsconfig) ++ default [] (exclude tsconfig)) →
  ∃ rest,
    analyzeProjectStructure RegExp structure tsconfig =
      Returns (missing_report structure declared ++ rest) ∧
    (∀ file, file ∈ declared → file ∉ ProjectStructure.files structure →
       "  - " +:+ file ∈ missing_report structure declared) ∧
    (include tsconfig = None → exclude tsconfig = None → rest = []) ∧
    (declared = ["src/a.ts"] → "src/a.ts" ∉ ProjectStructure.files structure →
       missing_report structure declared =
         [ "The following files specified in 'files' are missing from the project:";
           "  - src/a.ts" ]).
Proof.
  intros Hfiles Hcompile. unfold analyzeProjectStructure.
  rewrite Hfiles. cbv zeta. rewrite (missing_report_eq structure declared).
  set (report := missing_report structure declared).
  assert (∃ rest,
    (messages ←
       match include tsconfig with
       | Some patterns =>
           includedFiles ←
             array_filter
               (fun file => array_some (fun pattern => minimatch RegExp file pattern) patterns)
               (ProjectStructure.files structure);
           Returns (report ++
             ["Found " +:+ pretty (length includedFiles)
                +:+ " files matching 'include' patterns."])
       | None => Returns report
       end;
     messages ←
       match exclude tsconfig with
       | Some patterns =>
           excludedFiles ←
             array_filter
               (fun file => array_some (fun pattern => minimatch RegExp file pattern) patterns)
               (ProjectStructure.files structure);
           Returns
             (if Nat.ltb 0 (length excludedFiles) then
                messages ++
                  ["Warning: Found " +:+ pretty (length excludedFiles)
                     +:+ " files matching 'exclude' patterns."]
              else messages)
       | None => Returns messages
       end;
     Returns messages) = Returns (report ++ rest) ∧
    (include tsconfig = None → exclude tsconfig = None → rest = [])) as (rest & -> & Hrest).
  { destruct (include tsconfig) as [inc|], (exclude tsconfig) as [exc|]; simpl in *.
    - destruct (matching_files_returns RegExp inc (ProjectStructure.files structure))
        as [included ->].
      { intros p Hp. apply Hcompile, elem_of_app. by left. }
      destruct (matching_files_returns RegExp exc (ProjectStructure.files structure))
        as [excluded ->].
      { intros p Hp. apply Hcompile, elem_of_app. by right. }
      simpl. destruct (Nat.ltb 0 (length excluded)).
      + rewrite <- app_assoc. by eexists.
      + by eexists.
    - destruct (matching_files_returns RegExp inc (ProjectStructure.files structure))
        as [included ->].
      { intros p Hp. apply Hcompile, elem_of_app. by left. }
      simpl. by eexists.
    - destruct (matching_files_returns RegExp exc (ProjectStructure.files structure))
        as [excluded ->].
      { intros p Hp. apply Hcompile. done. }
      simpl. destruct (Nat.ltb 0 (length excluded)); [by eexists|].
      exists []. by rewrite app_nil_r.
    - exists []. by rewrite app_nil_r. }
  exists rest. subst report. split_and!; [done| |done|].
  - apply missing_report_lists.
  - intros -> Hmissing. unfold missing_report.
    by rewrite filter_cons_True by done.
Qed.

(** C7 (what the code does). When the configuration declares an explicit
    file list, and the engine accepts the [include] and [exclude]
    patterns, the analysis returns its messages and these start with the
    report of the declared files that the structure lacks: each of them is
    named on a line of its own, as a message. For the list [src/a.ts] and
    a structure without that file, the report is the heading and the one
    line naming the file, and it is the whole result when there are no
    [include] and [exclude] patterns. When the engine rejects the first
    [include] pattern and the structure has a file, the analysis throws
    the error of the engine, and no declared file is reported missing. *)
Theorem analyzeProjectStructure_reports_missing_files
    (RegExp : string → outcome (string → bool))
    (structure : ProjectStructure.t) (tsconfig : TSConfig)
    (declared : list string) :
  files tsconfig = Some declared →
  (patterns_compile RegExp
     (default [] (include tsconfig) ++ default [] (exclude tsconfig)) →
   ∃ rest,
     analyzeProjectStructure RegExp structure tsconfig =
       Returns (missing_report structure declared ++ rest) ∧
     (∀ file, file ∈ declared → file ∉ ProjectStructure.files structure →
        "  - " +:+ file ∈ missing_report structure declared) ∧
     (include tsconfig = None → exclude tsconfig = None → rest = []) ∧
     (declared = ["src/a.ts"] → "src/a.ts" ∉ ProjectStructure.files structure →
        missing_report structure declared =
          [ "The following files specified in 'files' are missing from the project:";
            "  - src/a.ts" ])) ∧
  (∀ pattern patterns file others e,
     include tsconfig = Some (pattern :: patterns) →
     ProjectStructure.files structure = file :: others →
     RegExp ("^" +:+ regexPattern pattern +:+ "$") = Raises e →
     analyzeProjectStructure RegExp structure tsconfig = Raises e).
Proof.
  intros Hfiles. split.
  - by apply analyzeProjectStructure_missing_report.
  - intros pattern patterns file others e Hinclude Hstructure Hreject.
    unfold analyzeProjectStructure. rewrite Hinclude, Hstructure.
    cbn [array_filter array_some].
    assert (minimatch RegExp file pattern = Raises e) as ->
      by (unfold minimatch; by rewrite Hreject).
    done.
Qed.

(** C8 (what the code does). When the engine rejects the expression [^($],
    as JavaScript does for a group that is not closed, the analysis of a
    project with one file against the [include] pattern [(] throws the
    error of the engine instead of returning messages. *)
Theorem analyzeProjectStructure_raises_on_rejected_pattern
    (RegExp : string → outcome (string → bool)) (e : error) :
  RegExp "^($" = Raises e →
  analyzeProjectStructure RegExp
    {| ProjectStructure.files := ["a.ts"]; ProjectStructure.directories := [] |}
    {| compilerOptions := None; include := Some ["("]; exclude := None;
       extends := None; files := None; other := [] |} = Raises e.
Proof.
  intros Hreject. unfold analyzeProjectStructure, minimatch. simpl.
  change ("^" +:+ regexPattern "(" +:+ "$") with "^($". by rewrite Hreject.
Qed.

Lemma analyzeProjectStructure_raises_on_rejected_pattern_witness :
  analyzeProjectStructure wildcard_RegExp
    {| ProjectStructure.files := ["a.ts"]; ProjectStructure.directories := [] |}
    {| compilerOptions := None; include := Some ["("]; exclude := None;
       extends := None; files := None; other := [] |} =
  Raises (Error "SyntaxError"
            "Invalid regular expression: /^($/: Unterminated group").
Proof.
  apply analyzeProjectStructure_raises_on_rejected_pattern. reflexivity.
Defined.

Lemma analyzeProjectStructure_reports_missing_files_witness :
  analyzeProjectStructure wildcard_RegExp sample_structure
    {| compilerOptions := None; include := Some ["src/*.ts"];
       exclude := Some ["*.md"]; extends := None;
       files := Some ["src/a.ts"]; other := [] |} =
  Returns
    [ "The following files specified in 'files' are missing from the project:";
      "  - src/a.ts";
      "Found 2 files matching 'include' patterns.";
      "Warning: Found 1 files matching 'exclude' patterns." ] ∧
  analyzeProjectStructure wildcard_RegExp sample_structure
    {| compilerOptions := None; include := Some ["("]; exclude := None;
       extends := None; files := Some ["src/a.ts"]; other := [] |} =
  Raises (Error "SyntaxError"
            "Invalid regular expression: /^($/: Unterminated group").
Proof.
  split.
  - destruct (analyzeProjectStructure_reports_missing_files wildcard_RegExp
                sample_structure
                {| compilerOptions := None; include := Some ["src/*.ts"];
                   exclude := Some ["*.md"]; extends := None;
                   files := Some ["src/a.ts"]; other := [] |}
                ["src/a.ts"] eq_refl)
      as (Hreport & _).
    destruct Hreport as (rest & Hrun & _ & _ & Hreport).
    + intros pattern Hin. simpl in Hin.
      repeat (apply elem_of_cons in Hin as [->|Hin]; [by eexists|]).
      by apply elem_of_nil in Hin.
    + rewrite Hrun. rewrite Hreport in Hrun |- *; [|done|by_evaluation..].
      revert Hrun. vm_compute. intros [= <-]. reflexivity.
  - destruct (analyzeProjectStructure_reports_missing_files wildcard_RegExp
                sample_structure
                {| compilerOptions := None; include := Some ["("]; exclude := None;
                   extends := None; files := Some ["src/a.ts"]; other := [] |}
                ["src/a.ts"] eq_refl)
      as (_ & Hthrows).
    by apply (Hthrows "(" [] "src/index.ts" ["src/b.ts"; "README.md"]).
Defined.

(** ** Common issues *)

Lemma array_filter_inv {A} (keep : A → outcome bool) (l kept : list A) :
  array_filter keep l = Returns kept →
  (∀ x, x ∈ l → ∃ b, keep x = Returns b) ∧
  (∀ x, x ∈ kept ↔ x ∈ l ∧ keep x = Returns true).
Proof.
  revert kept. induction l as [|x l IH]; intros kept; simpl.
  - intros [= <-]. split; [by intros ? ?%elem_of_nil|].
    intros y. rewrite elem_of_nil. tauto.
  - destruct (keep x) as [b|e] eqn:Hx; simpl; [|done].
    destruct (array_filter keep l) as [kept'|e] eqn:Hl; simpl; [|done].
    intros [= <-]. destruct (IH kept' eq_refl) as [Hret Hkept]. split.
    + intros y [->|Hy]%elem_of_cons; [by eexists|by apply Hret].
    + intros y. destruct b.
      * rewrite !elem_of_cons, Hkept. split.
        -- intros [->|[? ?]]; [by split; [left|]|by split; [right|]].
        -- intros [[->|?] ?]; [by left|by right].
      * rewrite !elem_of_cons, Hkept. split.
        -- intros [? ?]. by split; [right|].
        -- intros [[->|?] ?]; [congruence|done].
Qed.

Lemma get_option_set_option k v config k' :
  get_option (set_option k v config) k' =
  if decide (k = k') then Some v else get_option config k'.
Proof.
  unfold get_option, set_option. simpl. rewrite get_set.
  case_decide; [done|]. rewrite get_assign. simpl.
  destruct (compilerOptions config) as [co|]; simpl; [|done].
  by destruct (Obj.get k' co).
Qed.

Lemma commonIssues_fixed_value :
  Forall (fun r => Issue.test r (Some (Issue.value r)) = Returns false) commonIssues.
Proof. unfold commonIssues. repeat (apply Forall_cons_2; [reflexivity|]). apply Forall_nil_2. Qed.

Lemma commonIssues_settings_distinct : NoDup (map Issue.setting commonIssues).
Proof. by_evaluation. Qed.

Lemma commonIssues_descriptions_distinct : NoDup (map Issue.description commonIssues).
Proof. by_evaluation. Qed.

Lemma NoDup_fmap_eq {A B} (f : A → B) (l : list A) x y :
  NoDup (map f l) → x ∈ l → y ∈ l → f x = f y → x = y.
Proof.
  induction l as [|z l IH]; simpl; [by intros _ ?%elem_of_nil|].
  intros [Hz Hl]%NoDup_cons [->|Hx]%elem_of_cons [->|Hy]%elem_of_cons Heq;
    [done| | |by apply IH].
  - destruct Hz. rewrite Heq. by apply (list_elem_of_fmap_2 f).
  - destruct Hz. rewrite <- Heq. by apply (list_elem_of_fmap_2 f).
Qed.

Lemma check_after_own_fix rule config :
  rule ∈ commonIssues →
  Issue.check rule (Issue.fix_ rule config) = Returns false.
Proof.
  intros Hin. unfold Issue.check, Issue.fix_.
  rewrite get_option_set_option, decide_True by done.
  pose proof commonIssues_fixed_value as H. rewrite Forall_forall in H.
  by apply H.
Qed.

Lemma check_after_other_fix rule rule' config :
  rule ∈ commonIssues → rule' ∈ commonIssues → rule' ≠ rule →
  Issue.check rule' (Issue.fix_ rule config) = Issue.check rule' config.
Proof.
  intros Hin Hin' Hne. unfold Issue.check, Issue.fix_.
  rewrite get_option_set_option, decide_False; [done|].
  intros Heq. apply Hne. symmetry.
  by apply (NoDup_fmap_eq Issue.setting commonIssues);
    [apply commonIssues_settings_distinct|..].
Qed.

Lemma checks_return_after_fix config rule :
  (∀ r, r ∈ commonIssues → ∃ b, Issue.check r config = Returns b) →
  rule ∈ commonIssues →
  ∀ r, r ∈ commonIssues → ∃ b, Issue.check r (Issue.fix_ rule config) = Returns b.
Proof.
  intros Hret Hin r Hr.
  destruct (decide (Issue.setting r = Issue.setting rule)) as [Heq|Hne].
  - assert (r = rule) as ->.
    { by apply (NoDup_fmap_eq Issue.setting commonIssues);
        [apply commonIssues_settings_distinct|..]. }
    exists false. by apply check_after_own_fix.
  - rewrite check_after_other_fix; [by apply Hret|done..|congruence].
Qed.

Lemma detection_after_fix config detected rule :
  array_filter (fun issue => Issue.check issue config) commonIssues = Returns detected →
  rule ∈ commonIssues →
  ∃ detected',
    array_filter (fun issue => Issue.check issue (Issue.fix_ rule config))
      commonIssues = Returns detected' ∧
    (∀ r, r ∈ detected' → r ∈ commonIssues ∧ r ≠ rule).
Proof.
  intros Hdet Hin. apply array_filter_inv in Hdet as [Hret _].
  destruct (array_filter_returns
              (fun issue => Issue.check issue (Issue.fix_ rule config))
              commonIssues) as [detected' Hdet'].
  { by apply checks_return_after_fix. }
  exists detected'. split; [done|].
  apply array_filter_inv in Hdet' as [_ Hkept].
  intros r [Hr Hcheck]%Hkept. split; [done|]. intros ->.
  rewrite check_after_own_fix in Hcheck by done. congruence.
Qed.

(** C9. On the configuration that the fix of a rule produces, the check of
    that rule is false, whatever the configuration was, and no list of
    issues detected on it has an issue of that rule. A detected issue
    carries the configuration its rule fixes, and the detection run on that
    configuration does return such a list. And [applyFix] with an index
    outside the range of the issues detected on the current configuration
    returns this configuration. *)
Theorem analyzeCommonIssues_fix_idempotent_per_rule :
  (∀ config rule,
     rule ∈ commonIssues →
     Issue.check rule (Issue.fix_ rule config) = Returns false) ∧
  (∀ config rule issues',
     rule ∈ commonIssues →
     analyzeCommonIssues (Issue.fix_ rule config) = Returns issues' →
     ∀ issue', issue' ∈ issues' →
       Detected.description issue' ≠ Issue.description rule) ∧
  (∀ config issues n issue,
     analyzeCommonIssues config = Returns issues →
     issues !! n = Some issue →
     ∃ issues',
       analyzeCommonIssues (Detected.fix_ issue) = Returns issues' ∧
       ∀ issue', issue' ∈ issues' →
         Detected.description issue' ≠ Detected.description issue) ∧
  (∀ config issues fixIndex,
     analyzeCommonIssues config = Returns issues →
     ¬ (0 ≤ fixIndex < Z.of_nat (length issues))%Z →
     applyFix config fixIndex = Returns config).
Proof.
  split_and!.
  - intros config rule Hin. by apply check_after_own_fix.
  - intros config rule issues' Hin Hissues issue' Hissue' Heq.
    unfold analyzeCommonIssues in Hissues.
    destruct (array_filter _ commonIssues) as [detected|e] eqn:Hdet; [|done].
    cbn [mbind outcome_bind] in Hissues. injection Hissues as <-.
    apply (list_elem_of_fmap _ detected) in Hissue' as (rule' & -> & Hrule').
    cbn [Detected.description] in Heq.
    apply (array_filter_inv _ _ _ Hdet) in Hrule' as [Hin' Hcheck].
    assert (rule' = rule) as ->.
    { by apply (NoDup_fmap_eq Issue.description commonIssues);
        [apply commonIssues_descriptions_distinct|..]. }
    rewrite check_after_own_fix in Hcheck by done. congruence.
  - intros config issues n issue Hissues Hn.
    unfold analyzeCommonIssues in Hissues.
    destruct (array_filter _ commonIssues) as [detected|e] eqn:Hdet; [|done].
    cbn [mbind outcome_bind] in Hissues. injection Hissues as <-.
    apply (list_lookup_fmap_Some _ detected) in Hn as (rule & -> & Hrule).
    cbn [Detected.fix_ Detected.description].
    apply list_elem_of_lookup_2 in Hrule.
    assert (rule ∈ commonIssues) as Hin.
    { by apply (array_filter_inv _ _ _ Hdet) in Hrule as [? _]. }
    destruct (detection_after_fix config detected rule Hdet Hin)
      as (detected' & Hdet' & Hnot).
    unfold analyzeCommonIssues. rewrite Hdet'. cbn [mbind outcome_bind].
    eexists. split; [done|].
    intros issue' Hin'.
    apply (list_elem_of_fmap _ detected') in Hin' as (rule' & -> & Hin').
    cbn [Detected.description]. intros Heq.
    destruct (Hnot _ Hin') as [Hcat Hne]. apply Hne.
    by apply (NoDup_fmap_eq Issue.description commonIssues);
      [apply commonIssues_descriptions_distinct|..].
  - intros config issues fixIndex Hissues Hrange. unfold applyFix.
    rewrite Hissues. cbn [mbind outcome_bind].
    destruct (Z.leb 0 fixIndex && Z.ltb fixIndex (Z.of_nat (length issues))) eqn:E;
      [|done].
    apply andb_true_iff in E as [?%Z.leb_le ?%Z.ltb_lt]. lia.
Qed.

Lemma analyzeCommonIssues_fix_idempotent_per_rule_witness :
  let config :=
    {| compilerOptions :=
         Some [("target", JStr "ES5"); ("module", JStr "commonjs");
               ("strict", JBool false)];
       include := None; exclude := None; extends := None; files := None;
       other := [] |} in
  (∃ issues issue issues',
     analyzeCommonIssues config = Returns issues ∧
     issues !! 1 = Some issue ∧
     Detected.description issue = "Target is set to an outdated ECMAScript version" ∧
     analyzeCommonIssues (Detected.fix_ issue) = Returns issues' ∧
     ∀ issue', issue' ∈ issues' →
       Detected.description issue' ≠ Detected.description issue) ∧
  applyFix config 13%Z = Returns config ∧
  applyFix config (-1)%Z = Returns config.
Proof.
  intros config.
  destruct analyzeCommonIssues_fix_idempotent_per_rule
    as (_ & _ & Hfixed & Hstale).
  destruct (analyzeCommonIssues config) as [issues|e] eqn:Hissues;
    [|by vm_compute in Hissues].
  assert (length issues = 13) as Hlen.
  { vm_compute in Hissues. injection Hissues as <-. reflexivity. }
  destruct (issues !! 1) as [issue|] eqn:Hissue.
  2: { apply lookup_ge_None in Hissue. lia. }
  split_and!.
  - destruct (Hfixed config issues 1 issue Hissues Hissue) as (issues' & Hrun & Hnone).
    exists issues, issue, issues'. split_and!; try done.
    vm_compute in Hissues. injection Hissues as <-.
    vm_compute in Hissue. by injection Hissue as <-.
  - apply (Hstale config issues 13%Z Hissues). lia.
  - apply (Hstale config issues (-1)%Z Hissues). lia.
Defined.

(** ** Scan of the installed dependencies *)

Lemma try_catch_returns {A} (body : outcome A) (handler : error → outcome A) :
  (∀ e, ∃ a, handler e = Returns a) → ∃ a, try_catch body handler = Returns a.
Proof. intros H. destruct body as [a|e]; simpl; [by eexists|apply H]. Qed.

Section scan_facts.
Variable readdir : string → outcome (list Dirent.t).
Variable readFile : string → outcome string.
Variable access : string → outcome unit.
Variable join : string → string → string.
Variable parseTSConfig : string → outcome TSConfig.
Variable parsePackageJson : string → outcome PackageJson.t.

Let resolve := resolvePackageConfig readFile access join parseTSConfig parsePackageJson.

Lemma resolvePackageConfig_returns packagePath :
  ∃ config, resolve packagePath = Returns config.
Proof. apply try_catch_returns. by eexists. Qed.


End scan_facts.



(** ** Fold of the dependency configurations *)

(** *** Runs over the store *)

Lemma bind_done {A B} (m : M A) (f : A → M B) h a h' :
  m h = Done a h' → (m ≫= f) h = f a h'.
Proof. unfold mbind, M_bind. by intros ->. Qed.

Lemma getProp_object h l props k :
  h !! l = Some (CObj props) →
  getProp (VRef l) k h = Done (default VUndefined (Obj.get k props)) h.
Proof. intros H. unfold getProp, load, mbind, M_bind. by rewrite H. Qed.

Lemma setProp_object h l props k x :
  h !! l = Some (CObj props) →
  setProp (VRef l) k x h = Done () (<[l:=CObj (Obj.set k x props)]> h).
Proof. intros H. unfold setProp, load, mbind, M_bind. by rewrite H. Qed.

Lemma push_array h l elems xs :
  h !! l = Some (CArr elems) →
  push (VRef l) xs h = Done () (<[l:=CArr (elems ++ xs)]> h).
Proof. intros H. unfold push, load, mbind, M_bind. by rewrite H. Qed.


Lemma as_strings_inv j ss : as_strings j = Some ss → j = JArr (map JStr ss).
Proof.
  destruct j as [| | | |elems|]; try done. simpl. intros H. f_equal.
  apply mapM_Some in H. induction H as [|e s elems ss He _ IH]; [done|].
  simpl. rewrite <- IH. by destruct e; simplify_eq.
Qed.

(** *** Preservation of the invariant *)

(** A cell that a write leaves alone. *)
Lemma lookup_insert_other (h : heap) l l' c :
  l ≠ l' → <[l:=c]> h !! l' = h !! l'.
Proof. apply list_lookup_insert_ne. Qed.

Lemma lookup_extend (h : heap) l c x :
  h !! l = Some c → (h ++ [x]) !! l = Some c.
Proof. intros H. rewrite lookup_app_l; [done|]. by apply lookup_lt_Some in H. Qed.

Lemma lookup_fresh (h : heap) x : (h ++ [x]) !! length h = Some x.
Proof. by rewrite list_lookup_middle. Qed.

Lemma types_inv_cases h types v :
  types_inv h types v →
  (truthy_val v = false ∧ types = None) ∨
  (∃ t elems, v = VRef t ∧ types = Some (t, elems) ∧ h !! t = Some (CArr elems)).
Proof.
  destruct v as [|j|t]; simpl; [by left|by left|].
  intros (elems & -> & Ht). right. by exists t, elems.
Qed.

(** The facts about the path entries survive a change of the store that
    keeps the object of the entries and the arrays they point to. *)
Lemma paths_inv_frame h h' u c written types types' v :
  (∀ m entries, v = VRef m → h !! m = Some (CObj entries) →
     h' !! m = Some (CObj entries)) →
  (∀ a elems, h !! a = Some (CArr elems) → fst <$> types ≠ Some a →
     h' !! a = Some (CArr elems) ∧ fst <$> types' ≠ Some a) →
  paths_inv h u c written types v → paths_inv h' u c written types' v.
Proof.
  intros Hobj Harr. destruct v as [|j|m]; simpl; [done..|].
  intros (Hmu & Hmc & entries & Hm & Hkeys). split_and!; [done..|].
  exists entries. split; [by eapply Hobj|].
  intros key targets Hkey. destruct (Hkeys _ _ Hkey) as (a & Ha & Hcell & Hne).
  exists a. destruct (Harr _ _ Hcell Hne) as [? ?]. by split_and!.
Qed.

Lemma ensure_types_inv h u c written types :
  store_inv h u c written types →
  ∃ h' t,
    (options ← getProp (VRef u) "compilerOptions";
     existing ← getProp options "types";
     if truthy_val existing then mret ()
     else fresh ← alloc (CArr []); setProp options "types" fresh) h = Done () h' ∧
    store_inv h' u c written (Some (t, default [] (snd <$> types))).
Proof.
  intros (Huc & (props & Hu & Hoptions) & (options & Hc & Hpaths & Htypes)).
  erewrite bind_done by (by apply getProp_object).
  rewrite Hoptions. erewrite bind_done by (by apply getProp_object).
  destruct (types_inv_cases _ _ _ Htypes) as [[Hfalsy ->]|(t & elems & Hv & -> & Ht)].
  - rewrite Hfalsy. erewrite bind_done by reflexivity.
    erewrite setProp_object by (by apply lookup_extend).
    pose proof (lookup_lt_Some _ _ _ Hu) as Hulen.
    pose proof (lookup_lt_Some _ _ _ Hc) as Hclen.
    eexists _, (length h). split; [done|]. split_and!; [done| |].
    + exists props. rewrite lookup_insert_other by done.
      by erewrite lookup_extend.
    + exists (Obj.set "types" (VRef (length h)) options). split_and!.
      * apply list_lookup_insert_eq. rewrite length_app. simpl. lia.
      * rewrite get_set_ne by done.
        eapply paths_inv_frame; [| |exact Hpaths].
        -- intros m entries Hv Hm.
           assert (m ≠ c) by (rewrite Hv in Hpaths; simpl in Hpaths; tauto).
           rewrite lookup_insert_other by done. by apply lookup_extend.
        -- intros a cells Ha _. split.
           ++ rewrite lookup_insert_other by congruence. by apply lookup_extend.
           ++ simpl. apply lookup_lt_Some in Ha. intros [= Heq]. lia.
      * rewrite get_set_eq. simpl. exists []. split; [done|].
        rewrite lookup_insert_other by lia. apply lookup_fresh.
  - rewrite Hv. simpl. exists h, t. split; [done|].
    split_and!; [done|by exists props|]. exists options. rewrite Hv.
    split_and!; [done..|]. simpl. by exists elems.
Qed.

Lemma push_types_inv h u c written t elems xs :
  store_inv h u c written (Some (t, elems)) →
  ∃ h',
    (options ← getProp (VRef u) "compilerOptions";
     target ← getProp options "types";
     push target xs) h = Done () h' ∧
    store_inv h' u c written (Some (t, elems ++ xs)).
Proof.
  intros (Huc & (props & Hu & Hoptions) & (options & Hc & Hpaths & Htypes)).
  erewrite bind_done by (by apply getProp_object).
  rewrite Hoptions. erewrite bind_done by (by apply getProp_object).
  destruct (types_inv_cases _ _ _ Htypes) as [[_ [=]]|(t' & elems' & Hv & [= <- <-] & Ht)].
  rewrite Hv. erewrite push_array by done.
  eexists. split; [done|]. split_and!; [done| |].
  - exists props. by rewrite lookup_insert_other by congruence.
  - exists options. rewrite Hv. split_and!.
    + by rewrite lookup_insert_other by congruence.
    + eapply paths_inv_frame; [| |exact Hpaths].
      * intros m entries _ Hm. by rewrite lookup_insert_other by congruence.
      * intros a cells Ha Hne. split; [|done].
        rewrite lookup_insert_other; [done|]. simpl in Hne. congruence.
    + simpl. exists (elems ++ xs). split; [done|].
      apply list_lookup_insert_eq. by apply lookup_lt_Some in Ht.
Qed.

Lemma mergeTypes_inv h u c written types typesJson ss :
  store_inv h u c written types →
  as_strings typesJson = Some ss →
  ∃ h' t,
    mergeTypes (VRef u) typesJson h = Done () h' ∧
    store_inv h' u c written (Some (t, default [] (snd <$> types) ++ strs ss)).
Proof.
  intros Hinv Hss. apply as_strings_inv in Hss as ->.
  destruct (ensure_types_inv _ _ _ _ _ Hinv) as (h1 & t & Hrun1 & Hinv1).
  destruct (push_types_inv _ _ _ _ _ _ (strs ss) Hinv1) as (h2 & Hrun2 & Hinv2).
  exists h2, t. split; [|done].
  unfold mergeTypes, json_iterate, strs, mbind, M_bind, mret, M_ret in *.
  destruct (getProp (VRef u) "compilerOptions" h) as [o h'| |]; try done.
  destruct (getProp o "types" h') as [e h''| |]; try done.
  rewrite Hrun1.
  destruct (getProp (VRef u) "compilerOptions" h1) as [o1 h1'| |]; try done.
  destruct (getProp o1 "types" h1') as [e1 h1''| |]; try done.
  by rewrite List.map_map.
Qed.

Lemma installed_targets_map name ss :
  map (fun p => "node_modules/" +:+ name +:+ "/" +:+ json_toString p)
    (map JStr ss) = installed_targets name ss.
Proof. unfold installed_targets. by rewrite List.map_map. Qed.

Lemma writeEntry_inv h u c written types name key value ss :
  store_inv h u c written types →
  paths_set h c →
  as_strings value = Some ss →
  ∃ h',
    writeEntry (VRef u) name key value h = Done () h' ∧
    store_inv h' u c
      (Obj.set (name +:+ "/" +:+ key) (installed_targets name ss) written) types ∧
    paths_set h' c.
Proof.
  intros (Huc & (props & Hu & Hoptions) & (options & Hc & Hpaths & Htypes))
         (options' & m & Hc' & Hv) Hss.
  rewrite Hc in Hc'. injection Hc' as <-.
  apply as_strings_inv in Hss as ->. unfold writeEntry. cbn [truthy].
  erewrite bind_done by (by apply getProp_object).
  rewrite Hoptions. erewrite bind_done by (by apply getProp_object).
  rewrite Hv. erewrite bind_done by reflexivity.
  rewrite installed_targets_map.
  erewrite bind_done by reflexivity.
  rewrite Hv in Hpaths. destruct Hpaths as (Hmu & Hmc & entries & Hm & Hkeys).
  erewrite setProp_object by (by apply lookup_extend).
  pose proof (lookup_lt_Some _ _ _ Hm) as Hmlen.
  set (key' := name +:+ "/" +:+ key).
  set (mapped := installed_targets name ss).
  eexists. split; [done|]. split; [split_and!|].
  - done.
  - exists props. rewrite lookup_insert_other by done. by erewrite lookup_extend.
  - exists options. split_and!.
    + rewrite lookup_insert_other by done. by apply lookup_extend.
    + rewrite Hv. simpl. split_and!; [done..|].
      exists (Obj.set key' (VRef (length h)) entries). split.
      { apply list_lookup_insert_eq. rewrite length_app. simpl. lia. }
      intros k targets. rewrite get_set. case_decide as Hk.
      * intros [= <-]. subst k. exists (length h). split_and!.
        -- apply get_set_eq.
        -- rewrite lookup_insert_other by lia. apply lookup_fresh.
        -- destruct (types_inv_cases _ _ _ Htypes)
             as [[_ ->]|(t & elems & _ & -> & Ht)]; [done|].
           simpl. apply lookup_lt_Some in Ht. intros [= Heq]. lia.
      * intros Hget. destruct (Hkeys _ _ Hget) as (a & Ha & Hcell & Hne).
        exists a. split_and!; [by rewrite get_set_ne| |done].
        rewrite lookup_insert_other by congruence. by apply lookup_extend.
    + destruct (types_inv_cases _ _ _ Htypes)
        as [[Hfalsy ->]|(t & elems & Ht & -> & Hcell)].
      * destruct (default VUndefined (Obj.get "types" options)); by simpl in *.
      * rewrite Ht. simpl. exists elems. split; [done|].
        rewrite lookup_insert_other by congruence. by apply lookup_extend.
  - exists options, m. split; [|done].
    rewrite lookup_insert_other by done. by apply lookup_extend.
Qed.

Lemma writeEntries_inv h u c written types name entries typed :
  store_inv h u c written types →
  paths_set h c →
  entries_typed entries typed →
  ∃ h',
    for_each entries (fun kv => writeEntry (VRef u) name (fst kv) (snd kv)) h
      = Done () h' ∧
    store_inv h' u c (write_all (namespaced_entries name typed) written) types ∧
    paths_set h' c.
Proof.
  intros Hinv Hset Htyped. revert h written Hinv Hset.
  induction Htyped as [|[k v] [k' ss] entries typed [Hk Hss] _ IH];
    intros h written Hinv Hset.
  - exists h. by split_and!.
  - simpl in Hk, Hss. subst k'.
    destruct (writeEntry_inv _ _ _ _ _ name k v ss Hinv Hset Hss)
      as (h1 & Hrun1 & Hinv1 & Hset1).
    destruct (IH _ _ Hinv1 Hset1) as (h2 & Hrun2 & Hinv2 & Hset2).
    exists h2. split_and!; [|done..].
    cbn [for_each]. by erewrite bind_done by exact Hrun1.
Qed.

Lemma ensure_paths_inv h u c written types :
  store_inv h u c written types →
  ∃ h',
    (options ← getProp (VRef u) "compilerOptions";
     existing ← getProp options "paths";
     if truthy_val existing then mret ()
     else fresh ← alloc (CObj []); setProp options "paths" fresh) h = Done () h' ∧
    store_inv h' u c written types ∧
    paths_set h' c.
Proof.
  intros (Huc & (props & Hu & Hoptions) & (options & Hc & Hpaths & Htypes)).
  erewrite bind_done by (by apply getProp_object).
  rewrite Hoptions. erewrite bind_done by (by apply getProp_object).
  destruct (default VUndefined (Obj.get "paths" options)) as [|j|m] eqn:Hv.
  1,2: destruct Hpaths as [Hfalsy ->]; rewrite Hfalsy.
  3: { simpl. exists h. split_and!; [done| |by exists options, m].
       split_and!; [done|by exists props|]. exists options. by rewrite Hv. }
  all: erewrite bind_done by reflexivity;
    erewrite setProp_object by (by apply lookup_extend);
    pose proof (lookup_lt_Some _ _ _ Hu) as Hulen;
    pose proof (lookup_lt_Some _ _ _ Hc) as Hclen;
    eexists; split; [done|];
    assert ((<[c:=CObj (Obj.set "paths" (VRef (length h)) options)]>
               (h ++ [CObj []])) !! c =
            Some (CObj (Obj.set "paths" (VRef (length h)) options))) as Hc'
      by (apply list_lookup_insert_eq; rewrite length_app; simpl; lia);
    (split; [split_and!|]);
    [ done
    | exists props; rewrite lookup_insert_other by done; by erewrite lookup_extend
    | exists (Obj.set "paths" (VRef (length h)) options); split_and!;
      [ done
      | rewrite get_set_eq; simpl; split_and!; [lia..|];
        exists []; split; [rewrite lookup_insert_other by lia; apply lookup_fresh|done]
      | rewrite get_set_ne by done;
        destruct (types_inv_cases _ _ _ Htypes)
          as [[Hf ->]|(t & elems & Ht & -> & Hcell)];
        [ destruct (default VUndefined (Obj.get "types" options)); by simpl in *
        | rewrite Ht; simpl; exists elems; split; [done|];
          rewrite lookup_insert_other by congruence; by apply lookup_extend ] ]
    | exists (Obj.set "paths" (VRef (length h)) options), (length h);
      split; [done|by rewrite get_set_eq] ].
Qed.

Lemma mergePaths_inv h u c written types name paths typed :
  store_inv h u c written types →
  entries_typed (json_entries paths) typed →
  ∃ h',
    mergePaths (VRef u) name paths h = Done () h' ∧
    store_inv h' u c (write_all (namespaced_entries name typed) written) types.
Proof.
  intros Hinv Htyped.
  destruct (ensure_paths_inv _ _ _ _ _ Hinv) as (h1 & Hrun1 & Hinv1 & Hset1).
  destruct (writeEntries_inv _ _ _ _ _ name _ _ Hinv1 Hset1 Htyped)
    as (h2 & Hrun2 & Hinv2 & _).
  exists h2. split; [|done].
  unfold mergePaths, mbind, M_bind in *.
  destruct (getProp (VRef u) "compilerOptions" h) as [o h'| |]; try done.
  destruct (getProp o "paths" h') as [e h''| |]; try done.
  by rewrite Hrun1.
Qed.

Lemma entries_typed_omap (entries : list (string * json)) :
  forallb (fun kv => bool_decide (is_Some (as_strings (snd kv)))) entries = true →
  entries_typed entries
    (omap (fun kv => pair (fst kv) <$> as_strings (snd kv)) entries).
Proof.
  induction entries as [|[k v] entries IH]; simpl; [constructor|].
  intros [Hv Hrest]%andb_true_iff. apply bool_decide_eq_true in Hv as [ss Hss].
  rewrite Hss. csimpl. constructor; [done|by apply IH].
Qed.

Lemma well_typed_paths_entries paths :
  well_typed_paths paths = true →
  entries_typed (json_entries paths) (typed_entries paths).
Proof.
  destruct paths as [| | | | |props]; try done. simpl.
  apply entries_typed_omap.
Qed.

Lemma foldDependency_inv h u c written types name config :
  store_inv h u c written types →
  well_typed_dependency config = true →
  ∃ h' types',
    foldDependency (VRef u) name config h = Done () h' ∧
    store_inv h' u c
      (write_all (namespaced_entries name (dependency_paths config)) written)
      types' ∧
    snd <$> types' = next_types (snd <$> types) config.
Proof.
  intros Hinv Htyped.
  unfold foldDependency, well_typed_dependency, dependency_paths, next_types,
    declares_types, dependency_types in *.
  destruct (compilerOptions config) as [options|]; simpl in *;
    [|by exists h, types].
  apply andb_true_iff in Htyped as [Hpaths Htypes].
  assert (∃ h1,
    (match Obj.get "paths" options with
     | Some paths =>
         if truthy paths then mergePaths (VRef u) name paths else mret ()
     | None => mret ()
     end) h = Done () h1 ∧
    store_inv h1 u c
      (write_all
         (namespaced_entries name
            match Obj.get "paths" options with
            | Some paths => if truthy paths then typed_entries paths else []
            | None => []
            end) written) types) as (h1 & Hrun1 & Hinv1).
  { destruct (Obj.get "paths" options) as [paths|]; [|by exists h].
    destruct (truthy paths) eqn:Htruthy; [|by exists h].
    simpl in Hpaths. apply mergePaths_inv; [done|].
    by apply well_typed_paths_entries. }
  erewrite bind_done by exact Hrun1.
  destruct (Obj.get "types" options) as [typesJson|]; simpl;
    [|by exists h1, types].
  destruct (truthy typesJson) eqn:Htruthy; [|by exists h1, types].
  simpl in Htypes. apply bool_decide_eq_true in Htypes as [ss Hss].
  destruct (mergeTypes_inv _ _ _ _ _ _ _ Hinv1 Hss) as (h2 & t & Hrun2 & Hinv2).
  exists h2, (Some (t, default [] (snd <$> types) ++ strs ss)).
  split_and!; [done..|]. simpl. by rewrite Hss.
Qed.

Lemma write_all_app es1 es2 written :
  write_all (es1 ++ es2) written = write_all es2 (write_all es1 written).
Proof. unfold write_all. by rewrite fold_left_app. Qed.

Lemma foldDependencies_inv h u c written types
    (entries : list (string * TSConfig)) :
  store_inv h u c written types →
  Forall (fun entry => well_typed_dependency (snd entry) = true) entries →
  ∃ h' types',
    for_each entries (fun entry => foldDependency (VRef u) (fst entry) (snd entry)) h
      = Done () h' ∧
    store_inv h' u c
      (write_all
         (List.concat
            (map (fun entry =>
                    namespaced_entries (fst entry) (dependency_paths (snd entry)))
               entries)) written)
      types' ∧
    snd <$> types' = fold_left next_types (map snd entries) (snd <$> types).
Proof.
  intros Hinv Htyped. revert h written types Hinv.
  induction Htyped as [|[name config] entries Hconfig _ IH];
    intros h written types Hinv.
  - by exists h, types.
  - destruct (foldDependency_inv _ _ _ _ _ name config Hinv Hconfig)
      as (h1 & types1 & Hrun1 & Hinv1 & Htypes1).
    destruct (IH _ _ _ Hinv1) as (h2 & types2 & Hrun2 & Hinv2 & Htypes2).
    exists h2, types2. split_and!.
    + cbn [for_each]. by erewrite bind_done by exact Hrun1.
    + cbn [map List.concat fst snd]. by rewrite write_all_app.
    + cbn [map fold_left snd]. by rewrite <- Htypes1.
Qed.

Lemma dependency_types_undeclared config :
  declares_types config = false → dependency_types config = [].
Proof.
  unfold declares_types, dependency_types.
  destruct (compilerOptions config ≫= Obj.get "types") as [types|]; [|done].
  simpl. by intros ->.
Qed.

Lemma undeclared_types_nil configs :
  existsb declares_types configs = false →
  List.concat (map (fun config => strs (dependency_types config)) configs) = [].
Proof.
  induction configs as [|config configs IH]; [done|]. simpl.
  intros [Hconfig Hrest]%orb_false_iff.
  by rewrite dependency_types_undeclared, IH.
Qed.

Lemma fold_next_types configs elems :
  fold_left next_types configs elems =
  if existsb declares_types configs
  then Some (default [] elems
               ++ List.concat (map (fun config => strs (dependency_types config)) configs))
  else elems.
Proof.
  revert elems. induction configs as [|config configs IH]; intros elems; [done|].
  cbn [fold_left existsb map List.concat]. rewrite IH. unfold next_types.
  destruct (declares_types config) eqn:Hdecl; simpl.
  - destruct (existsb declares_types configs) eqn:Hrest; simpl.
    + by rewrite <- app_assoc.
    + by rewrite undeclared_types_nil, app_nil_r.
  - rewrite dependency_types_undeclared by done. done.
Qed.

(** The copy of the project configuration and its options object. *)
Lemma copy_inv h projectConfig :
  project_well_shaped h projectConfig = true →
  ∃ props h1 c types,
    spreadProps projectConfig h = Done props h ∧
    (options ← getProp (VRef (length h)) "compilerOptions";
     if truthy_val options then mret ()
     else fresh ← alloc (CObj []);
          setProp (VRef (length h)) "compilerOptions" fresh)
      (h ++ [CObj props]) = Done () h1 ∧
    store_inv h1 (length h) c [] types ∧
    snd <$> types = read_types h projectConfig ∧
    (∀ c0, read_prop h projectConfig "compilerOptions" = VRef c0 → c = c0).
Proof.
  unfold project_well_shaped, read_types, read_prop, read_object.
  destruct projectConfig as [| |p]; try done.
  destruct (h !! p) as [[props|]|] eqn:Hp; try done.
  intros Hshape. exists (Obj.entries props).
  unfold spreadProps, load, mbind, M_bind at 1. rewrite Hp. cbn [mret M_ret].
  erewrite bind_done by (apply getProp_object, lookup_fresh).
  rewrite get_entries.
  destruct (default VUndefined (Obj.get "compilerOptions" props)) as [|j|c] eqn:Hco.
  3: { simpl. destruct (h !! c) as [[options|]|] eqn:Hc; try done.
       apply andb_true_iff in Hshape as [Hpaths Htypes].
       pose proof (lookup_lt_Some _ _ _ Hc) as Hclen.
       exists (h ++ [CObj (Obj.entries props)]), c.
       exists (match default VUndefined (Obj.get "types" options) with
               | VRef t => match h !! t with
                           | Some (CArr elems) => Some (t, elems)
                           | _ => None
                           end
               | _ => None
               end).
       split_and!; [done..| | |by intros c0 [= ->]].
       - split_and!; [lia| |].
         + exists (Obj.entries props). split; [apply lookup_fresh|].
           by rewrite get_entries, Hco.
         + exists options. split_and!; [by apply lookup_extend| |].
           * destruct (default VUndefined (Obj.get "paths" options)) as [|j|m];
               simpl in *; [done|by apply negb_true_iff in Hpaths|].
             apply andb_true_iff in Hpaths as [Hmc Hm].
             apply negb_true_iff, Nat.eqb_neq in Hmc.
             destruct (h !! m) as [[entries|]|] eqn:Hcell; try done.
             pose proof (lookup_lt_Some _ _ _ Hcell) as Hmlen.
             split_and!; [lia|done|]. exists entries.
             split; [by apply lookup_extend|]. by intros key targets [=].
           * destruct (default VUndefined (Obj.get "types" options)) as [|j|t];
               simpl in *; [done|by apply negb_true_iff in Htypes|].
             destruct (h !! t) as [[|elems]|] eqn:Hcell; try done.
             exists elems. split; [done|by apply lookup_extend].
       - destruct (default VUndefined (Obj.get "types" options)) as [|j|t];
           simpl; try done.
         by destruct (h !! t) as [[|elems]|]. }
  all: match goal with
       | |- context [truthy_val ?v] =>
           assert (truthy_val v = false) as ->
             by (simpl in *; first [done | by apply negb_true_iff])
       end;
    erewrite bind_done by reflexivity;
    eexists _, (length h + 1), None;
    (erewrite setProp_object by (apply lookup_extend, lookup_fresh));
    (split_and!; [done..| |done|done]);
    (split_and!; [lia| |]);
    [ eexists; split;
      [ apply list_lookup_insert_eq; rewrite !length_app; simpl; lia
      | rewrite get_set_eq; simpl; f_equal; rewrite length_app; simpl; lia ]
    | exists []; split_and!;
      [ rewrite lookup_insert_other by lia;
        replace (length h + 1) with (length (h ++ [CObj (Obj.entries props)]))
          by (rewrite length_app; simpl; lia);
        apply lookup_fresh
      | done
      | done ] ].
Qed.

(** *** Reading the result *)

Lemma get_write_all_other es written k :
  k ∉ map fst es → Obj.get k (write_all es written) = Obj.get k written.
Proof.
  revert written. induction es as [|[k0 v0] es IH]; intros written; [done|].
  simpl. intros [Hne Hk]%not_elem_of_cons.
  unfold write_all in *. simpl. rewrite IH by done. by rewrite get_set_ne.
Qed.

Lemma get_write_all es written k (v : list string) :
  NoDup (map fst es) → (k, v) ∈ es →
  Obj.get k (write_all es written) = Some v.
Proof.
  revert written. induction es as [|[k0 v0] es IH]; intros written;
    [by intros _ ?%elem_of_nil|].
  simpl. intros [Hk0 Hnodup]%NoDup_cons [[= -> ->]|Hin]%elem_of_cons.
  - change (Obj.get k0 (write_all es (Obj.set k0 v0 written)) = Some v0).
    rewrite get_write_all_other by done. apply get_set_eq.
  - change (Obj.get k (write_all es (Obj.set k0 v0 written)) = Some v).
    by apply IH.
Qed.

Lemma store_inv_read_targets h u c written types key targets :
  store_inv h u c written types →
  Obj.get key written = Some targets →
  read_path_targets h (VRef u) key = Some (strs targets).
Proof.
  intros (Huc & (props & Hu & Hoptions) & (options & Hc & Hpaths & Htypes)) Hkey.
  unfold read_path_targets, read_prop, read_object. rewrite Hu, Hoptions, Hc.
  destruct (default VUndefined (Obj.get "paths" options)) as [|j|m];
    simpl in Hpaths; [destruct Hpaths as [_ ->]; done..|].
  destruct Hpaths as (_ & _ & entries & Hm & Hkeys). rewrite Hm.
  destruct (Hkeys _ _ Hkey) as (a & -> & Ha & _). simpl. by rewrite Ha.
Qed.

Lemma store_inv_read_options h u c written types :
  store_inv h u c written types →
  read_prop h (VRef u) "compilerOptions" = VRef c.
Proof.
  intros (_ & (props & Hu & Hoptions) & _).
  unfold read_prop, read_object. by rewrite Hu.
Qed.

Lemma store_inv_read_types h u c written types :
  store_inv h u c written types →
  read_types h (VRef u) = snd <$> types.
Proof.
  intros (Huc & (props & Hu & Hoptions) & (options & Hc & Hpaths & Htypes)).
  unfold read_types, read_prop, read_object. rewrite Hu, Hoptions, Hc.
  destruct (types_inv_cases _ _ _ Htypes)
    as [[Hfalsy ->]|(t & elems & -> & -> & Ht)].
  - destruct (default VUndefined (Obj.get "types" options)) as [|j|t];
      simpl in *; done.
  - simpl. by rewrite Ht.
Qed.

Lemma namespaced_elem_of (dependencyConfigs : DependencyConfigs)
    name config key targets :
  (name, config) ∈ Obj.entries dependencyConfigs →
  (key, targets) ∈ dependency_paths config →
  (name +:+ "/" +:+ key, installed_targets name targets)
    ∈ all_namespaced dependencyConfigs.
Proof.
  intros Hentry Hkey. unfold all_namespaced.
  apply list_elem_of_In, in_concat.
  exists (namespaced_entries name (dependency_paths config)). split.
  - apply list_elem_of_In.
    by apply (list_elem_of_fmap_2
                (fun entry => namespaced_entries (fst entry)
                                (dependency_paths (snd entry))) _ (name, config)).
  - apply list_elem_of_In. unfold namespaced_entries.
    by apply (list_elem_of_fmap_2
                (fun kt => (name +:+ "/" +:+ fst kt,
                            installed_targets name (snd kt))) _ (key, targets)).
Qed.

Lemma existsb_map {A B} (f : B → bool) (g : A → B) (l : list A) :
  existsb f (map g l) = existsb (fun x => f (g x)) l.
Proof. induction l as [|x l IH]; [done|]. simpl. by rewrite IH. Qed.

(** The fold, for dependency configurations whose namespaced keys do not
    collide. *)
Lemma incorporateDependencyConfigs_fold
    (h : heap) (projectConfig : val) (dependencyConfigs : DependencyConfigs) :
  project_well_shaped h projectConfig = true →
  Forall (fun entry => well_typed_dependency (snd entry) = true)
    (Obj.entries dependencyConfigs) →
  NoDup (map fst (all_namespaced dependencyConfigs)) →
  ∃ updatedConfig h',
    incorporateDependencyConfigs projectConfig dependencyConfigs h
      = Done updatedConfig h' ∧
    (∀ dependencyName dependencyConfig key targets,
       (dependencyName, dependencyConfig) ∈ Obj.entries dependencyConfigs →
       (key, targets) ∈ dependency_paths dependencyConfig →
       read_path_targets h' updatedConfig (dependencyName +:+ "/" +:+ key) =
         Some (strs (installed_targets dependencyName targets))) ∧
    read_types h' updatedConfig =
      (if existsb (fun entry => declares_types (snd entry))
            (Obj.entries dependencyConfigs)
       then Some (default [] (read_types h projectConfig)
                    ++ all_types dependencyConfigs)
       else read_types h projectConfig) ∧
    updatedConfig = VRef (length h) ∧
    (∀ c, read_prop h projectConfig "compilerOptions" = VRef c →
          read_prop h' updatedConfig "compilerOptions" = VRef c).
Proof.
  intros Hshape Htyped Hnodup.
  destruct (copy_inv h projectConfig Hshape)
    as (props & h1 & c & types & Hspread & Hcopy & Hinv & Htypes & Hshared).
  destruct (foldDependencies_inv _ _ _ _ _ _ Hinv Htyped)
    as (h2 & types2 & Hrun & Hinv2 & Htypes2).
  exists (VRef (length h)), h2. split_and!.
  - unfold incorporateDependencyConfigs.
    erewrite bind_done by exact Hspread.
    erewrite bind_done by reflexivity.
    unfold mbind, M_bind in *.
    destruct (getProp (VRef (length h)) "compilerOptions" (h ++ [CObj props]))
      as [o h'| |]; try done.
    rewrite Hcopy. by rewrite Hrun.
  - intros name config key targets Hentry Hkey.
    eapply store_inv_read_targets; [exact Hinv2|].
    apply get_write_all; [done|]. by apply (namespaced_elem_of _ _ config).
  - rewrite (store_inv_read_types _ _ _ _ _ Hinv2), Htypes2, Htypes.
    rewrite fold_next_types. unfold all_types.
    rewrite List.map_map.
    by rewrite existsb_map.
  - done.
  - intros c0 <-%Hshared. by eapply store_inv_read_options.
Qed.


(** ** Namespaced keys of installed packages *)

Lemma first_segment_app s x :
  no_slash s = true → first_segment (s +:+ "/" +:+ x) = s.
Proof.
  unfold no_slash. induction s as [|c s IH]; simpl; [done|].
  destruct (Ascii.eqb c "/"); [done|]. intros H. by rewrite IH.
Qed.

Lemma first_segment_app_slash s rest x :
  after_slash s = Some rest → first_segment (s +:+ x) = first_segment s.
Proof.
  induction s as [|c s IH]; simpl; [done|].
  destruct (Ascii.eqb c "/"); [done|]. intros H. by rewrite IH.
Qed.

Lemma after_slash_app s rest x :
  after_slash s = Some rest → after_slash (s +:+ x) = Some (rest +:+ x).
Proof.
  induction s as [|c s IH]; simpl; [done|].
  destruct (Ascii.eqb c "/"); [by intros [= ->]|]. apply IH.
Qed.

Lemma after_slash_split s rest :
  after_slash s = Some rest → s = first_segment s +:+ "/" +:+ rest.
Proof.
  induction s as [|c s IH]; simpl; [done|].
  destruct (Ascii.eqb c "/") eqn:E.
  - apply Ascii.eqb_eq in E as ->. by intros [= ->].
  - intros H.
    change (String c s = String c (first_segment s +:+ "/" +:+ rest)).
    f_equal. by apply IH.
Qed.

Lemma scoped_app s x : s ≠ "" → scoped (s +:+ x) = scoped s.
Proof.
  destruct s as [|c s]; [done|]. intros _. unfold scoped.
  change ((if ascii_dec "@" c then String.prefix "" (s +:+ x) else false) =
          (if ascii_dec "@" c then String.prefix "" s else false)).
  destruct (ascii_dec "@" c); [|done].
  transitivity true; [by destruct (s +:+ x)|by destruct s].
Qed.

Lemma package_of_namespaced name key :
  is_package_name name = true → package_of (name +:+ "/" +:+ key) = name.
Proof.
  unfold is_package_name, package_of. destruct (scoped name) eqn:Hscoped.
  - rewrite scoped_app, Hscoped by (by destruct name).
    destruct (after_slash name) as [package|] eqn:Hafter; [|done].
    intros Hpackage.
    rewrite (after_slash_app _ _ _ Hafter), (first_segment_app_slash _ _ _ Hafter).
    rewrite first_segment_app by done. symmetry. by apply after_slash_split.
  - intros Hname. destruct name as [|c name].
    + simpl. done.
    + rewrite scoped_app, Hscoped by done. by apply first_segment_app.
Qed.

Lemma append_inj_r (s a b : string) : s +:+ a = s +:+ b → a = b.
Proof. induction s as [|c s IH]; simpl; [done|]. intros [= H]. by apply IH. Qed.

Lemma namespaced_keys_eq name entries :
  map fst (namespaced_entries name entries) =
  map (fun k => name +:+ "/" +:+ k) (map fst entries).
Proof. unfold namespaced_entries. by rewrite !List.map_map. Qed.

Lemma namespaced_keys_NoDup name entries :
  NoDup (map fst entries) → NoDup (map fst (namespaced_entries name entries)).
Proof.
  rewrite namespaced_keys_eq. intros Hnodup.
  assert (Inj (=) (=) (fun k => name +:+ "/" +:+ k)) as Hinj.
  { intros k1 k2 Heq. by apply append_inj_r in Heq as [= ?]. }
  by apply (NoDup_fmap_2 (fun k => name +:+ "/" +:+ k)).
Qed.

Lemma namespaced_keys_package (l : list (string * TSConfig)) key :
  Forall (fun entry => is_package_name (fst entry) = true) l →
  key ∈ map fst
          (List.concat
             (map (fun entry =>
                     namespaced_entries (fst entry) (dependency_paths (snd entry)))
                l)) →
  package_of key ∈ map fst l.
Proof.
  induction 1 as [|[name config] l Hname _ IH]; simpl.
  - by intros ?%elem_of_nil.
  - rewrite map_app. intros [Hin|Hin]%elem_of_app.
    + rewrite namespaced_keys_eq in Hin.
      apply (list_elem_of_fmap (fun k => name +:+ "/" +:+ k)) in Hin
        as (k & -> & _).
      rewrite package_of_namespaced by done. left.
    + right. by apply IH.
Qed.

(** The namespaced keys of dependencies that bear package names do not
    collide, so that the maps [scanNodeModules] builds meet the condition
    of the fold. *)
Lemma package_names_do_not_collide (dependencyConfigs : DependencyConfigs) :
  NoDup (map fst (Obj.entries dependencyConfigs)) →
  Forall (fun entry => is_package_name (fst entry) = true)
    (Obj.entries dependencyConfigs) →
  Forall (fun entry => NoDup (map fst (dependency_paths (snd entry))))
    (Obj.entries dependencyConfigs) →
  NoDup (map fst (all_namespaced dependencyConfigs)).
Proof.
  unfold all_namespaced.
  induction (Obj.entries dependencyConfigs) as [|[name config] l IH]; simpl;
    [constructor|].
  intros [Hname Hnames]%NoDup_cons [Hpackage Hpackages]%Forall_cons_1
         [Hpaths Hall]%Forall_cons_1.
  rewrite map_app. apply NoDup_app. split_and!.
  - by apply namespaced_keys_NoDup.
  - intros key Hin Hin'. apply Hname.
    rewrite namespaced_keys_eq in Hin.
    apply (list_elem_of_fmap (fun k => name +:+ "/" +:+ k)) in Hin
      as (k & -> & _).
    apply namespaced_keys_package in Hin'; [|done].
    by rewrite package_of_namespaced in Hin'.
  - by apply IH.
Qed.

(** *** The maps that the scan builds *)

Lemma keys_set {V} (o : list (string * V)) k v :
  Obj.keys (Obj.set k v o) =
  if decide (k ∈ Obj.keys o) then Obj.keys o else Obj.keys o ++ [k].
Proof.
  unfold Obj.keys. induction o as [|[k' v'] o IH]; simpl.
  - done.
  - destruct (String.eqb k' k) eqn:E; simpl.
    + apply String.eqb_eq in E as ->. by rewrite decide_True by left.
    + apply String.eqb_neq in E. rewrite IH.
      destruct (decide (k ∈ map fst o)) as [Hin|Hin].
      * by rewrite decide_True by (by right).
      * rewrite decide_False; [done|]. apply not_elem_of_cons. split; congruence.
Qed.

Lemma well_formed_do_not_collide (dependencyConfigs : DependencyConfigs) :
  NoDup (Obj.keys dependencyConfigs) →
  Forall (fun entry =>
            is_package_name (fst entry) = true ∧
            well_typed_dependency (snd entry) = true ∧
            NoDup (map fst (dependency_paths (snd entry))))
    (Obj.entries dependencyConfigs) →
  NoDup (map fst (all_namespaced dependencyConfigs)).
Proof.
  intros Hkeys Hentries. apply package_names_do_not_collide.
  - by rewrite keys_entries.
  - eapply Forall_impl; [exact Hentries|]. by intros entry (? & _).
  - eapply Forall_impl; [exact Hentries|]. by intros entry (_ & _ & ?).
Qed.

Lemma package_keys_set (dependencyConfigs : DependencyConfigs) name config :
  package_keys dependencyConfigs →
  is_package_name name = true →
  package_keys (Obj.set name config dependencyConfigs).
Proof.
  intros [Hnodup Hnames] Hname. unfold package_keys. rewrite keys_set.
  case_decide as Hin; [done|]. split.
  - apply NoDup_app. split_and!; [done| |apply NoDup_singleton].
    intros k Hk ->%list_elem_of_singleton. done.
  - apply Forall_app. split; [done|]. by apply Forall_singleton.
Qed.

Lemma after_slash_app_plain s x :
  no_slash s = true → after_slash (s +:+ "/" +:+ x) = Some x.
Proof.
  unfold no_slash. induction s as [|c s IH]; simpl; [done|].
  by destruct (Ascii.eqb c "/").
Qed.

Lemma scoped_package_name scope name :
  scoped scope = true → no_slash scope = true → no_slash name = true →
  is_package_name (scope +:+ "/" +:+ name) = true.
Proof.
  intros Hscoped Hscope Hname. unfold is_package_name.
  rewrite scoped_app, Hscoped by (by destruct scope).
  by rewrite after_slash_app_plain.
Qed.

Section scan_keys.
Variable readdir : string → outcome (list Dirent.t).
Variable readFile : string → outcome string.
Variable access : string → outcome unit.
Variable join : string → string → string.
Variable parseTSConfig : string → outcome TSConfig.
Variable parsePackageJson : string → outcome PackageJson.t.
Hypothesis Hplain : plain_entry_names readdir.

Lemma scanScope_package_keys scope scopePath scopedEntries deps :
  scoped scope = true → no_slash scope = true →
  Forall (fun entry => no_slash (Dirent.name entry) = true) scopedEntries →
  package_keys deps →
  package_keys
    (fst (scanScope readFile access join parseTSConfig parsePackageJson
            scope scopePath scopedEntries deps)).
Proof.
  intros Hscoped Hscope Hentries. revert deps.
  induction Hentries as [|entry entries Hentry _ IH]; intros deps Hdeps; [done|].
  simpl. destruct (Dirent.isDirectory entry); [|by apply IH].
  destruct (resolvePackageConfig _ _ _ _ _ _) as [[config|]|e];
    [|by apply IH|done].
  apply IH. apply package_keys_set; [done|]. by apply scoped_package_name.
Qed.

Lemma scanEntries_package_keys nodeModulesPath entries deps :
  Forall (fun entry => no_slash (Dirent.name entry) = true) entries →
  package_keys deps →
  package_keys
    (fst (scanEntries readdir readFile access join parseTSConfig parsePackageJson
            nodeModulesPath entries deps)).
Proof.
  intros Hentries. revert deps.
  induction Hentries as [|entry entries Hentry _ IH]; intros deps Hdeps; [done|].
  simpl. fold (scoped (Dirent.name entry)).
  destruct (Dirent.isDirectory entry); simpl; [|by apply IH].
  destruct (scoped (Dirent.name entry)) eqn:Hscoped; simpl.
  - destruct (readdir _) as [scopedEntries|e] eqn:Hread; [|done].
    pose proof (scanScope_package_keys (Dirent.name entry)
                  (join nodeModulesPath (Dirent.name entry)) scopedEntries deps
                  Hscoped Hentry (Hplain _ _ Hread) Hdeps) as Hscope.
    destruct (scanScope _ _ _ _ _ _ _ _ _) as [deps' [[]|e]]; [by apply IH|done].
  - destruct (resolvePackageConfig _ _ _ _ _ _) as [[config|]|e];
      [|by apply IH|done].
    apply IH. apply package_keys_set; [done|].
    unfold is_package_name. by rewrite Hscoped.
Qed.

(** The map of a scan is keyed by distinct package names. *)
Lemma scanNodeModules_package_keys projectRoot deps :
  scanNodeModules readdir readFile access join parseTSConfig parsePackageJson
    projectRoot = Returns deps →
  NoDup (map fst (Obj.entries deps)) ∧
  Forall (fun entry => is_package_name (fst entry) = true) (Obj.entries deps).
Proof.
  unfold scanNodeModules, scanTryBlock.
  assert (package_keys deps → NoDup (map fst (Obj.entries deps)) ∧
          Forall (fun entry => is_package_name (fst entry) = true) (Obj.entries deps))
    as Hkeys.
  { intros [Hnodup Hnames]. rewrite keys_entries. split; [done|].
    rewrite <- keys_entries in Hnames. by apply Forall_fmap in Hnames. }
  destruct (readdir (join projectRoot "node_modules")) as [entries|e] eqn:Hread.
  - pose proof (scanEntries_package_keys (join projectRoot "node_modules")
                  entries [] (Hplain _ _ Hread)) as Hscan.
    destruct (scanEntries _ _ _ _ _ _ _ _ _) as [deps' [[]|e]]; simpl;
      intros [= <-]; apply Hkeys, Hscan; (split; [constructor|constructor]).
  - simpl. intros [= <-]. split; constructor.
Qed.
End scan_keys.

(** C5. For a project configuration of the expected shape in the store and
    a map of dependency configurations of the expected types, keyed by
    package names, [incorporateDependencyConfigs] returns a configuration
    in which every path entry [key] of every dependency is found under
    [<dependencyName>/<key>], its targets each prefixed with
    [node_modules/<dependencyName>/], and whose types list is the one of
    the project followed by the types of all dependencies in the order of
    the map, duplicates included. *)
Theorem incorporateDependencyConfigs_namespaces_paths_appends_types
    (h : heap) (projectConfig : val) (dependencyConfigs : DependencyConfigs) :
  project_well_shaped h projectConfig = true →
  NoDup (Obj.keys dependencyConfigs) →
  Forall (fun entry =>
            is_package_name (fst entry) = true ∧
            well_typed_dependency (snd entry) = true ∧
            NoDup (map fst (dependency_paths (snd entry))))
    (Obj.entries dependencyConfigs) →
  ∃ updatedConfig h',
    incorporateDependencyConfigs projectConfig dependencyConfigs h
      = Done updatedConfig h' ∧
    (∀ dependencyName dependencyConfig key targets,
       (dependencyName, dependencyConfig) ∈ Obj.entries dependencyConfigs →
       (key, targets) ∈ dependency_paths dependencyConfig →
       read_path_targets h' updatedConfig (dependencyName +:+ "/" +:+ key) =
         Some (strs (installed_targets dependencyName targets))) ∧
    read_types h' updatedConfig =
      (if existsb (fun entry => declares_types (snd entry))
            (Obj.entries dependencyConfigs)
       then Some (default [] (read_types h projectConfig)
                    ++ all_types dependencyConfigs)
       else read_types h projectConfig).
Proof.
  intros Hshape Hkeys Hentries.
  destruct (incorporateDependencyConfigs_fold h projectConfig dependencyConfigs)
    as (updatedConfig & h' & Hrun & Hpaths & Htypes & _); [done| | |].
  - eapply Forall_impl; [exact Hentries|]. by intros entry (_ & ? & _).
  - by apply well_formed_do_not_collide.
  - by exists updatedConfig, h'.
Qed.

Lemma incorporateDependencyConfigs_namespaces_paths_appends_types_witness :
  ∃ updatedConfig h',
    incorporateDependencyConfigs (VRef 0) sample_dependencies sample_store
      = Done updatedConfig h' ∧
    read_path_targets h' updatedConfig "@scope/tool/@lib/*" =
      Some [ VJson (JStr "node_modules/@scope/tool/src/*");
             VJson (JStr "node_modules/@scope/tool/gen/*") ] ∧
    read_types h' updatedConfig =
      Some [ VJson (JStr "node"); VJson (JStr "jest"); VJson (JStr "jest") ].
Proof.
  destruct (incorporateDependencyConfigs_namespaces_paths_appends_types
              sample_store (VRef 0) sample_dependencies)
    as (updatedConfig & h' & Hrun & Hpaths & Htypes).
  - reflexivity.
  - by_evaluation.
  - repeat (apply Forall_cons_2; [split_and!; [reflexivity..|by_evaluation]|]).
    apply Forall_nil_2.
  - exists updatedConfig, h'. split_and!.
    + exact Hrun.
    + apply (Hpaths "@scope/tool" sample_dependency "@lib/*" ["src/*"; "gen/*"]).
      * vm_compute. elem_of_list.
      * vm_compute. elem_of_list.
    + rewrite Htypes. reflexivity.
Defined.

(** C6 (what the code does). The configuration [incorporateDependencyConfigs]
    returns is a new object, but its [compilerOptions] is the very object
    of the project configuration, and the fold writes through it. So, for
    every project configuration that has a [compilerOptions] object and
    every map in which a dependency declares types, the [types] array
    reached from the options object of the project holds, after the call,
    what it held before followed by the types of all dependencies: the
    input is written. *)
Theorem incorporateDependencyConfigs_writes_into_project
    (h : heap) (projectConfig : val) (dependencyConfigs : DependencyConfigs)
    (c : loc) :
  project_well_shaped h projectConfig = true →
  NoDup (Obj.keys dependencyConfigs) →
  Forall (fun entry =>
            is_package_name (fst entry) = true ∧
            well_typed_dependency (snd entry) = true ∧
            NoDup (map fst (dependency_paths (snd entry))))
    (Obj.entries dependencyConfigs) →
  read_prop h projectConfig "compilerOptions" = VRef c →
  existsb (fun entry => declares_types (snd entry))
    (Obj.entries dependencyConfigs) = true →
  ∃ updatedConfig h',
    incorporateDependencyConfigs projectConfig dependencyConfigs h
      = Done updatedConfig h' ∧
    updatedConfig ≠ projectConfig ∧
    read_prop h' updatedConfig "compilerOptions" = VRef c ∧
    read_array h' (read_prop h' (VRef c) "types") =
      Some (default [] (read_array h (read_prop h (VRef c) "types"))
              ++ all_types dependencyConfigs).
Proof.
  intros Hshape Hkeys Hentries Hoptions Hdeclares.
  destruct (incorporateDependencyConfigs_fold h projectConfig dependencyConfigs)
    as (updatedConfig & h' & Hrun & _ & Htypes & -> & Hshared); [done| | |].
  - eapply Forall_impl; [exact Hentries|]. by intros entry (_ & ? & _).
  - by apply well_formed_do_not_collide.
  - exists (VRef (length h)), h'. split_and!; [done| |by apply Hshared|].
    + unfold project_well_shaped in Hshape.
      destruct projectConfig as [| |p]; try done.
      destruct (h !! p) eqn:Hp; [|done].
      apply lookup_lt_Some in Hp. intros [= Heq]. lia.
    + rewrite Hdeclares in Htypes. unfold read_types in Htypes.
      by rewrite (Hshared _ Hoptions), Hoptions in Htypes.
Qed.

Lemma incorporateDependencyConfigs_writes_into_project_witness :
  ∃ updatedConfig h',
    incorporateDependencyConfigs (VRef 0) sample_dependencies sample_store
      = Done updatedConfig h' ∧
    updatedConfig ≠ VRef 0 ∧
    read_array sample_store (VRef 2) = Some [VJson (JStr "node")] ∧
    read_array h' (VRef 2) =
      Some [ VJson (JStr "node"); VJson (JStr "jest"); VJson (JStr "jest") ].
Proof.
  destruct (incorporateDependencyConfigs_writes_into_project
              sample_store (VRef 0) sample_dependencies 1)
    as (updatedConfig & h' & Hrun & Hfresh & Hshared & Htypes).
  - reflexivity.
  - by_evaluation.
  - repeat (apply Forall_cons_2; [split_and!; [reflexivity..|by_evaluation]|]).
    apply Forall_nil_2.
  - reflexivity.
  - reflexivity.
  - exists updatedConfig, h'. split_and!; [done..|reflexivity|].
    assert (read_prop h' (VRef 1) "types" = VRef 2) as Hsame.
    { revert Hrun. vm_compute. by intros [= <- <-]. }
    rewrite Hsame in Htypes. rewrite Htypes. reflexivity.
Defined.

(** ** Suggestions and reports *)

Lemma outside_of_returns callee allowed v :
  (∃ b, outside_of callee allowed v = Returns b) ↔
  (lowers v = true ∨ truthy_opt v = false).
Proof.
  destruct v as [[|[]|n|s|l|o]|]; simpl; try (split; [by eauto|by eexists]).
  - split; [intros [b [=]]|by intros [[=]|[=]]].
  - destruct (Z.eqb n 0); simpl; [split; [by eauto|by eexists]|].
    split; [intros [b [=]]|by intros [[=]|[=]]].
  - split; [intros [b [=]]|by intros [[=]|[=]]].
  - split; [intros [b [=]]|by intros [[=]|[=]]].
Qed.

Lemma outside_of_raises callee allowed v e :
  outside_of callee allowed v = Raises e →
  e = not_a_function callee ∧
  lowers v = false ∧ truthy_opt v = true.
Proof.
  destruct v as [[|[]|n|s|l|o]|]; simpl; try done; try by intros [= <-].
  destruct (Z.eqb n 0); simpl; [done|by intros [= <-]].
Qed.

(** The suggestions of a configuration that has compiler options, by the
    tests on the four options. *)
Lemma generateSuggestions_options config options :
  compilerOptions config = Some options →
  generateSuggestions (Some config) =
    (outdated ← outside_of "compilerOptions.target.toLowerCase" MODERN_TARGETS
                  (Obj.get "target" options);
     foreign ← outside_of "compilerOptions.module.toLowerCase" ESM_MODULES
                 (Obj.get "module" options);
     Returns
       ((if not_true (Obj.get "strict" options) then
           [ {| Suggestion.setting := "compilerOptions.strict";
                Suggestion.currentValue := Obj.get "strict" options;
                Suggestion.suggestedValue := JBool true;
                Suggestion.reason :=
                  "Enabling strict mode helps catch more errors and improves type safety." |} ]
         else []) ++
        (if outdated : bool then
           [ {| Suggestion.setting := "compilerOptions.target";
                Suggestion.currentValue := Obj.get "target" options;
                Suggestion.suggestedValue := JStr "es2022";
                Suggestion.reason :=
                  "Using a more modern target allows for better optimizations and newer language features." |} ]
         else []) ++
        (if not_true (Obj.get "incremental" options) then
           [ {| Suggestion.setting := "compilerOptions.incremental";
                Suggestion.currentValue := Obj.get "incremental" options;
                Suggestion.suggestedValue := JBool true;
                Suggestion.reason :=
                  "Enabling incremental compilation can significantly speed up subsequent builds." |} ]
         else []) ++
        (if foreign : bool then
           [ {| Suggestion.setting := "compilerOptions.module";
                Suggestion.currentValue := Obj.get "module" options;
                Suggestion.suggestedValue := JStr "es2022";
                Suggestion.reason :=
                  "Using the ECMAScript module system enables better tree-shaking and is more future-proof." |} ]
         else []))).
Proof.
  intros Hoptions. unfold generateSuggestions. rewrite Hoptions.
  destruct (outside_of "compilerOptions.target.toLowerCase" MODERN_TARGETS _)
    as [outdated|e]; [|done].
  destruct (outside_of "compilerOptions.module.toLowerCase" ESM_MODULES _)
    as [foreign|e]; cbn [mbind outcome_bind]; [|done].
  by destruct (not_true (Obj.get "strict" options)), outdated,
    (not_true (Obj.get "incremental" options)), foreign.
Qed.

Lemma array_filter_raises {A} (keep : A → outcome bool) (l : list A) e :
  array_filter keep l = Raises e → ∃ x, x ∈ l ∧ keep x = Raises e.
Proof.
  induction l as [|x l IH]; simpl; [done|].
  destruct (keep x) as [b|e'] eqn:Hx; simpl.
  - destruct (array_filter keep l) as [kept|e'']; simpl; [done|].
    intros [= ->]. destruct IH as (y & Hy & Hraise); [done|].
    exists y. split; [by right|done].
  - intros [= ->]. exists x. split; [by left|done].
Qed.

Lemma opt_toLowerCase_lowers callee v :
  match opt_toLowerCase callee v with
  | Returns _ => lowers v = true
  | Raises e => e = not_a_function callee ∧ lowers v = false
  end.
Proof. by destruct v as [[| | | | |]|]. Qed.

(** A check of the catalog returns unless it lowers a value that cannot
    be lowered. *)
Lemma check_lowers rule config :
  rule ∈ commonIssues →
  match Issue.check rule config with
  | Returns _ =>
      Issue.setting rule ∈ ["target"; "module"] →
      lowers (get_option config (Issue.setting rule)) = true
  | Raises e =>
      e = not_a_function
            ("config.compilerOptions?." +:+ Issue.setting rule +:+ "?.toLowerCase") ∧
      Issue.setting rule ∈ ["target"; "module"] ∧
      lowers (get_option config (Issue.setting rule)) = false
  end.
Proof.
  intros Hin. unfold commonIssues in Hin.
  repeat (apply elem_of_cons in Hin as [->|Hin]);
    try (by apply elem_of_nil in Hin);
    unfold Issue.check; cbn [Issue.test Issue.setting];
    try (unfold not_enabled; intros Hk;
         repeat (apply elem_of_cons in Hk as [Hk|Hk]; [done|]);
         by apply elem_of_nil in Hk).
  - unfold target_outdated.
    pose proof (opt_toLowerCase_lowers
                  "config.compilerOptions?.target?.toLowerCase"
                  (get_option config "target")) as H.
    destruct (opt_toLowerCase _); cbn [mbind outcome_bind]; [done|].
    destruct H as [-> H]. split_and!; [done|elem_of_list|done].
  - unfold module_not_esnext.
    pose proof (opt_toLowerCase_lowers
                  "config.compilerOptions?.module?.toLowerCase"
                  (get_option config "module")) as H.
    destruct (opt_toLowerCase _); cbn [mbind outcome_bind]; [done|].
    destruct H as [-> H]. split_and!; [done|elem_of_list|done].
Qed.

Lemma catalog_has_setting setting :
  setting ∈ map Issue.setting commonIssues →
  ∃ rule, rule ∈ commonIssues ∧ Issue.setting rule = setting.
Proof.
  intros (rule & -> & Hin)%(list_elem_of_fmap_1 Issue.setting). by exists rule.
Qed.

Lemma analysis_lowers config detected setting :
  array_filter (fun issue => Issue.check issue config) commonIssues
    = Returns detected →
  setting ∈ ["target"; "module"] →
  lowers (get_option config setting) = true.
Proof.
  intros [Hret _]%array_filter_inv Hk.
  destruct (catalog_has_setting setting) as (rule & Hin & <-).
  { repeat (apply elem_of_cons in Hk as [->|Hk]); [by_evaluation..|].
    by apply elem_of_nil in Hk. }
  destruct (Hret rule Hin) as [b Hb].
  pose proof (check_lowers rule config Hin) as H. rewrite Hb in H. by apply H.
Qed.

Lemma analyzeCommonIssues_lowers config :
  match analyzeCommonIssues config with
  | Returns _ =>
      lowers (get_option config "target") = true ∧
      lowers (get_option config "module") = true
  | Raises e =>
      (∃ callee, e = not_a_function callee) ∧
      (lowers (get_option config "target") = false ∨
       lowers (get_option config "module") = false)
  end.
Proof.
  unfold analyzeCommonIssues.
  destruct (array_filter _ commonIssues) as [detected|e] eqn:Hfilter;
    cbn [mbind outcome_bind].
  - split; apply (analysis_lowers _ _ _ Hfilter); elem_of_list.
  - apply array_filter_raises in Hfilter as (rule & Hin & Hraise).
    pose proof (check_lowers rule config Hin) as H. cbv beta in Hraise.
    rewrite Hraise in H. destruct H as (-> & Hk & Hlow). split; [by eexists|].
    apply elem_of_cons in Hk as [Hk|Hk]; [left; by rewrite <- Hk|].
    apply elem_of_cons in Hk as [Hk|Hk]; [right; by rewrite <- Hk|].
    by apply elem_of_nil in Hk.
Qed.

Lemma array_filter_sublist {A} (keep : A → outcome bool) (l kept : list A) :
  array_filter keep l = Returns kept → kept `sublist_of` l.
Proof.
  revert kept. induction l as [|x l IH]; intros kept; simpl.
  - by intros [= <-].
  - destruct (keep x) as [b|e]; simpl; [|done].
    destruct (array_filter keep l) as [kept'|e]; simpl; [|done].
    intros [= <-]. destruct b.
    + by apply sublist_skip, IH.
    + by apply sublist_cons, IH.
Qed.

Lemma get_option_options config options k :
  compilerOptions config = Some options → get_option config k = Obj.get k options.
Proof. unfold get_option. by intros ->. Qed.

Lemma generateSuggestions_lowers config :
  match generateSuggestions (Some config) with
  | Returns _ =>
      (lowers (get_option config "target") = true
       ∨ truthy_opt (get_option config "target") = false) ∧
      (lowers (get_option config "module") = true
       ∨ truthy_opt (get_option config "module") = false)
  | Raises e =>
      (∃ callee, e = not_a_function callee) ∧
      ((lowers (get_option config "target") = false
        ∧ truthy_opt (get_option config "target") = true) ∨
       (lowers (get_option config "module") = false
        ∧ truthy_opt (get_option config "module") = true))
  end.
Proof.
  destruct (compilerOptions config) as [options|] eqn:Hoptions.
  - rewrite (generateSuggestions_options _ _ Hoptions),
      !(get_option_options _ _ _ Hoptions).
    pose proof (outside_of_returns "compilerOptions.target.toLowerCase"
                  MODERN_TARGETS (Obj.get "target" options)) as Ht.
    pose proof (outside_of_returns "compilerOptions.module.toLowerCase"
                  ESM_MODULES (Obj.get "module" options)) as Hm.
    destruct (outside_of "compilerOptions.target.toLowerCase" MODERN_TARGETS _)
      as [outdated|e] eqn:Houtdated; cbn [mbind outcome_bind].
    + destruct (outside_of "compilerOptions.module.toLowerCase" ESM_MODULES _)
        as [foreign|e] eqn:Hforeign; cbn [mbind outcome_bind].
      * split; [apply Ht|apply Hm]; by eexists.
      * apply outside_of_raises in Hforeign as (-> & ? & ?). eauto.
    + apply outside_of_raises in Houtdated as (-> & ? & ?). eauto.
  - unfold generateSuggestions, get_option. rewrite Hoptions. simpl. auto.
Qed.

(** The filter of an array on which the callback returns, and the filter
    up to the first element on which it throws. *)
Lemma array_filter_returns_all {A} (keep : A → outcome bool) (l : list A) :
  (∀ x, x ∈ l → ∃ b, keep x = Returns b) →
  array_filter keep l =
    Returns (List.filter
               (fun x => match keep x with Returns true => true | _ => false end)
               l).
Proof.
  induction l as [|x l IH]; intros Hl; [done|]. simpl.
  destruct (Hl x) as [b Hb]; [by left|]. rewrite Hb. cbn [mbind outcome_bind].
  rewrite IH by (intros y Hy; apply Hl; by right). by destruct b.
Qed.

Lemma array_filter_first_raise {A} (keep : A → outcome bool) (pre post : list A)
    x e :
  (∀ y, y ∈ pre → ∃ b, keep y = Returns b) →
  keep x = Raises e →
  array_filter keep (pre ++ x :: post) = Raises e.
Proof.
  intros Hpre Hx. induction pre as [|y pre IH]; simpl; [by rewrite Hx|].
  destruct (Hpre y) as [b ->]; [by left|]. cbn [mbind outcome_bind].
  rewrite IH; [done|]. intros z Hz. apply Hpre. by right.
Qed.

Lemma opt_toLowerCase_raises callee v :
  lowers v = false → opt_toLowerCase callee v = Raises (not_a_function callee).
Proof. by destruct v as [[| | | | |]|]. Qed.

Lemma opt_toLowerCase_returns callee v :
  lowers v = true → ∃ lowered, opt_toLowerCase callee v = Returns lowered.
Proof. destruct v as [[| | | | |]|]; try done; by eexists. Qed.

(** X1. [analyzeCommonIssues] calls [toLowerCase] on the [target] and on
    the [module] option behind [?.], in the checks of the second and of
    the third rule. For a [target] that is neither a string, [null] nor
    absent (a number, a boolean, an array, an object) it throws the
    [TypeError] of that call, and for such a [module], when the [target]
    is fine, the [TypeError] of the other call. Otherwise it returns, for
    exactly the rules of the catalog whose check returns [true], in the
    order of the catalog, the description, the fixed configuration and the
    reason of the rule. *)
Theorem analyzeCommonIssues_returns_or_throws_TypeError (config : TSConfig) :
  analyzeCommonIssues config =
    if negb (lowers (get_option config "target")) then
      Raises (not_a_function "config.compilerOptions?.target?.toLowerCase")
    else if negb (lowers (get_option config "module")) then
      Raises (not_a_function "config.compilerOptions?.module?.toLowerCase")
    else
      Returns (map (detected_issue config)
                 (List.filter (fires config) commonIssues)).
Proof.
  unfold analyzeCommonIssues.
  destruct (lowers (get_option config "target")) eqn:Htarget; cbn [negb].
  - destruct (lowers (get_option config "module")) eqn:Hmodule; cbn [negb].
    + rewrite array_filter_returns_all; [done|].
      intros rule Hin. pose proof (check_lowers rule config Hin) as H.
      destruct (Issue.check rule config) as [b|e]; [by eexists|].
      destruct H as (_ & Hk & Hlow).
      apply elem_of_cons in Hk as [Hk|Hk]; [rewrite Hk in Hlow; congruence|].
      apply elem_of_cons in Hk as [Hk|Hk]; [rewrite Hk in Hlow; congruence|].
      by apply elem_of_nil in Hk.
    + assert (array_filter (fun issue => Issue.check issue config) commonIssues
              = Raises (not_a_function "config.compilerOptions?.module?.toLowerCase"))
        as ->; [|done].
      apply (array_filter_first_raise _
               [ Issue.mk "Strict mode is not enabled" "strict" not_enabled
                   (JBool true)
                   "Enabling strict mode helps catch more errors and improves type safety.";
                 Issue.mk "Target is set to an outdated ECMAScript version"
                   "target" target_outdated (JStr "es2022")
                   "Using a more modern target allows for better optimizations and newer language features." ]).
      * intros rule [->|Hin]%elem_of_cons; [by eexists|].
        apply list_elem_of_singleton in Hin as ->.
        unfold Issue.check, target_outdated. cbn [Issue.test Issue.setting].
        destruct (opt_toLowerCase_returns
                    "config.compilerOptions?.target?.toLowerCase" _ Htarget)
          as [lowered ->].
        by eexists.
      * unfold Issue.check, module_not_esnext. cbn [Issue.test Issue.setting].
        by rewrite opt_toLowerCase_raises.
  - assert (array_filter (fun issue => Issue.check issue config) commonIssues
            = Raises (not_a_function "config.compilerOptions?.target?.toLowerCase"))
      as ->; [|done].
    apply (array_filter_first_raise _
             [ Issue.mk "Strict mode is not enabled" "strict" not_enabled
                 (JBool true)
                 "Enabling strict mode helps catch more errors and improves type safety." ]).
    + intros rule Hin. apply list_elem_of_singleton in Hin as ->. by eexists.
    + unfold Issue.check, target_outdated. cbn [Issue.test Issue.setting].
      by rewrite opt_toLowerCase_raises.
Qed.

(** X2. [generateSuggestions] throws a [TypeError] on [null], and on a
    configuration exactly when [target] or [module] holds a truthy value
    that is not a string: the error is the one of the call of
    [toLowerCase] on the [target], or else on the [module]. It is less
    strict than the catalog of common issues, which also rejects [false],
    [0] and the like: whenever [analyzeCommonIssues] returns on a
    configuration, so does [generateSuggestions]. *)
Theorem generateSuggestions_returns_or_throws_TypeError (config : TSConfig) :
  match generateSuggestions (Some config) with
  | Returns _ =>
      (lowers (get_option config "target") = true
       ∨ truthy_opt (get_option config "target") = false) ∧
      (lowers (get_option config "module") = true
       ∨ truthy_opt (get_option config "module") = false)
  | Raises e =>
      (e = not_a_function "compilerOptions.target.toLowerCase" ∧
       lowers (get_option config "target") = false ∧
       truthy_opt (get_option config "target") = true) ∨
      (e = not_a_function "compilerOptions.module.toLowerCase" ∧
       (lowers (get_option config "target") = true
        ∨ truthy_opt (get_option config "target") = false) ∧
       lowers (get_option config "module") = false ∧
       truthy_opt (get_option config "module") = true)
  end ∧
  generateSuggestions None =
    Raises (Error "TypeError"
              "Cannot read properties of null (reading 'compilerOptions')") ∧
  (∀ issues, analyzeCommonIssues config = Returns issues →
     ∃ suggestions, generateSuggestions (Some config) = Returns suggestions).
Proof.
  split_and!; [|done|].
  - destruct (compilerOptions config) as [options|] eqn:Hoptions.
    + rewrite (generateSuggestions_options _ _ Hoptions),
        !(get_option_options _ _ _ Hoptions).
      pose proof (outside_of_returns "compilerOptions.target.toLowerCase"
                    MODERN_TARGETS (Obj.get "target" options)) as Ht.
      pose proof (outside_of_returns "compilerOptions.module.toLowerCase"
                    ESM_MODULES (Obj.get "module" options)) as Hm.
      destruct (outside_of "compilerOptions.target.toLowerCase" MODERN_TARGETS _)
        as [outdated|e] eqn:Houtdated; cbn [mbind outcome_bind].
      * destruct (outside_of "compilerOptions.module.toLowerCase" ESM_MODULES _)
          as [foreign|e] eqn:Hforeign; cbn [mbind outcome_bind].
        -- split; [apply Ht|apply Hm]; by eexists.
        -- apply outside_of_raises in Hforeign as (-> & ? & ?). right.
           split_and!; [done| |done..]. apply Ht. by eexists.
      * apply outside_of_raises in Houtdated as (-> & ? & ?). by left.
    + unfold generateSuggestions, get_option. rewrite Hoptions. simpl. auto.
  - intros issues Hrun.
    pose proof (analyzeCommonIssues_lowers config) as Ha. rewrite Hrun in Ha.
    pose proof (generateSuggestions_lowers config) as Hs.
    destruct (generateSuggestions (Some config)) as [suggestions|e]; [by eexists|].
    destruct Ha as [Ht Hm], Hs as [_ [[? _]|[? _]]]; congruence.
Qed.

(** Every suggestion is filed for one of the four options, with the value
    of the option, because the test on that value held. *)
Lemma generateSuggestions_draws config suggestions s :
  generateSuggestions (Some config) = Returns suggestions →
  s ∈ suggestions →
  ∃ k, k ∈ ["strict"; "target"; "incremental"; "module"] ∧
       Suggestion.setting s = "compilerOptions." +:+ k ∧
       Suggestion.currentValue s = get_option config k ∧
       Suggestion.suggestedValue s = suggested_for k ∧
       draws_suggestion k (get_option config k) = Returns true.
Proof.
  destruct (compilerOptions config) as [options|] eqn:Hoptions.
  - rewrite (generateSuggestions_options _ _ Hoptions).
    destruct (outside_of "compilerOptions.target.toLowerCase" MODERN_TARGETS _) as [outdated|e] eqn:Houtdated;
      cbn [mbind outcome_bind]; [|done].
    destruct (outside_of "compilerOptions.module.toLowerCase" ESM_MODULES _) as [foreign|e] eqn:Hforeign;
      cbn [mbind outcome_bind]; [|done].
    intros [= <-]. rewrite !elem_of_app.
    intros [Hs|[Hs|[Hs|Hs]]].
    + destruct (not_true (Obj.get "strict" options)) eqn:Htest;
        [|by apply elem_of_nil in Hs].
      apply list_elem_of_singleton in Hs as ->. exists "strict".
      rewrite (get_option_options _ _ _ Hoptions).
      split_and!; [elem_of_list|done..|]. unfold draws_suggestion. simpl.
      by rewrite Htest.
    + destruct outdated; [|by apply elem_of_nil in Hs].
      apply list_elem_of_singleton in Hs as ->. exists "target".
      rewrite (get_option_options _ _ _ Hoptions).
      split_and!; [elem_of_list|done..].
    + destruct (not_true (Obj.get "incremental" options)) eqn:Htest;
        [|by apply elem_of_nil in Hs].
      apply list_elem_of_singleton in Hs as ->. exists "incremental".
      rewrite (get_option_options _ _ _ Hoptions).
      split_and!; [elem_of_list|done..|]. unfold draws_suggestion. simpl.
      by rewrite Htest.
    + destruct foreign; [|by apply elem_of_nil in Hs].
      apply list_elem_of_singleton in Hs as ->. exists "module".
      rewrite (get_option_options _ _ _ Hoptions).
      split_and!; [elem_of_list|done..].
  - unfold generateSuggestions. rewrite Hoptions. intros [= <-].
    by intros ?%elem_of_nil.
Qed.

Lemma generateSuggestions_settings config suggestions :
  generateSuggestions (Some config) = Returns suggestions →
  map Suggestion.setting suggestions `sublist_of` SUGGESTED_SETTINGS.
Proof.
  destruct (compilerOptions config) as [options|] eqn:Hoptions.
  - rewrite (generateSuggestions_options _ _ Hoptions).
    destruct (outside_of "compilerOptions.target.toLowerCase" MODERN_TARGETS _) as [outdated|e];
      cbn [mbind outcome_bind]; [|done].
    destruct (outside_of "compilerOptions.module.toLowerCase" ESM_MODULES _) as [foreign|e];
      cbn [mbind outcome_bind]; [|done].
    intros [= <-]. rewrite !map_app.
    change SUGGESTED_SETTINGS with
      (["compilerOptions.strict"] ++ ["compilerOptions.target"]
         ++ ["compilerOptions.incremental"] ++ ["compilerOptions.module"]).
    repeat apply sublist_app;
      match goal with
      | |- context [if ?b then _ else _] =>
          destruct b; simpl; [done|apply sublist_nil_l]
      end.
  - unfold generateSuggestions. rewrite Hoptions. intros [= <-].
    apply sublist_nil_l.
Qed.

Lemma draws_not_suggested k v :
  draws_suggestion k v = Returns true → v ≠ Some (suggested_for k).
Proof.
  intros Hdraws ->. revert Hdraws. unfold draws_suggestion, suggested_for.
  case_bool_decide as Hk; [done|].
  destruct (String.eqb k "target"); [done|].
  by destruct (String.eqb k "module").
Qed.

(** X3. What [generateSuggestions] returns: at most one suggestion for each
    of [strict], [target], [incremental] and [module], in that order, and
    none for a configuration without compiler options. A suggestion shows
    as current value the value of its option, and never suggests the value
    the option already has. *)
Theorem generateSuggestions_suggests_changes
    (config : TSConfig) (suggestions : list Suggestion.t) :
  generateSuggestions (Some config) = Returns suggestions →
  map Suggestion.setting suggestions `sublist_of` SUGGESTED_SETTINGS ∧
  (compilerOptions config = None → suggestions = []) ∧
  Forall (fun s =>
            ∃ k, Suggestion.setting s = "compilerOptions." +:+ k ∧
                 Suggestion.currentValue s = get_option config k ∧
                 Suggestion.currentValue s ≠ Some (Suggestion.suggestedValue s))
    suggestions.
Proof.
  intros Hrun. split_and!.
  - by eapply generateSuggestions_settings.
  - intros Hnone. unfold generateSuggestions in Hrun. rewrite Hnone in Hrun.
    by injection Hrun as <-.
  - apply Forall_forall. intros s Hs.
    destruct (generateSuggestions_draws _ _ _ Hrun Hs)
      as (k & _ & Hsetting & Hcurrent & Hsuggested & Hdraws).
    exists k. split_and!; [done..|].
    rewrite Hcurrent, Hsuggested. by apply draws_not_suggested.
Qed.

Lemma generateSuggestions_suggests_changes_witness :
  ∃ suggestions,
    generateSuggestions (Some sample_legacy_config) = Returns suggestions ∧
    map Suggestion.setting suggestions = SUGGESTED_SETTINGS ∧
    map Suggestion.currentValue suggestions =
      [ Some (JBool false); Some (JStr "es5"); None; Some (JStr "commonjs") ] ∧
    Forall (fun s =>
              Suggestion.currentValue s ≠ Some (Suggestion.suggestedValue s))
      suggestions.
Proof.
  eexists. split; [reflexivity|]. split; [reflexivity|]. split; [reflexivity|].
  destruct (generateSuggestions_suggests_changes sample_legacy_config _ eq_refl)
    as (_ & _ & Hchanges).
  eapply Forall_impl; [exact Hchanges|]. by intros s (k & _ & _ & Hne).
Defined.

(** X4. The fix of a rule of the catalog and the suggestions of the report
    agree on [strict] and [target] and disagree on [module]: on the
    configuration that the fix of a rule produces, [generateSuggestions]
    files no suggestion for the option the rule has set (and returns
    whenever it did before the fix); but the value it suggests for [module],
    [es2022], is one the catalog reports as "Module is not set to ESNext",
    while the values it suggests for [strict] and [target] pass the tests
    of the catalog. *)
Theorem catalog_fix_against_suggestions (rule : Issue.t) (config : TSConfig) :
  rule ∈ commonIssues →
  (∀ suggestions,
     generateSuggestions (Some config) = Returns suggestions →
     ∃ suggestions',
       generateSuggestions (Some (Issue.fix_ rule config)) = Returns suggestions') ∧
  (∀ suggestions',
     generateSuggestions (Some (Issue.fix_ rule config)) = Returns suggestions' →
     "compilerOptions." +:+ Issue.setting rule
       ∉ map Suggestion.setting suggestions') ∧
  (∀ suggestions s,
     generateSuggestions (Some config) = Returns suggestions →
     s ∈ suggestions →
     Suggestion.setting s = "compilerOptions." +:+ Issue.setting rule →
     Issue.test rule (Some (Suggestion.suggestedValue s)) =
       Returns (bool_decide (Issue.setting rule = "module"))).
Proof.
  intros Hin. split_and!.
  - intros suggestions Hrun.
    pose proof (generateSuggestions_lowers config) as Hbefore.
    rewrite Hrun in Hbefore.
    pose proof (generateSuggestions_lowers (Issue.fix_ rule config)) as Hafter.
    destruct (generateSuggestions (Some (Issue.fix_ rule config)))
      as [suggestions'|e]; [by eexists|].
    exfalso. unfold Issue.fix_ in Hafter.
    rewrite !get_option_set_option in Hafter.
    destruct Hbefore as [Ht Hm], Hafter as [_ Hafter].
    unfold commonIssues in Hin.
    repeat (apply elem_of_cons in Hin as [->|Hin]);
      [..|by apply elem_of_nil in Hin];
      cbn [Issue.setting Issue.value] in Hafter;
      repeat case_decide; try discriminate;
      destruct Hafter as [[? ?]|[? ?]]; try discriminate;
      destruct Ht, Hm; congruence.
  - intros suggestions' Hrun
      (s & Hsetting & Hs)%(list_elem_of_fmap_1 Suggestion.setting).
    destruct (generateSuggestions_draws _ _ _ Hrun Hs)
      as (k & Hk & Hsetting' & _ & _ & Hdraws).
    rewrite Hsetting' in Hsetting. apply append_inj_r in Hsetting as <-.
    unfold Issue.fix_ in Hdraws.
    rewrite get_option_set_option, decide_True in Hdraws by done.
    revert Hk Hdraws. unfold commonIssues in Hin.
    repeat (apply elem_of_cons in Hin as [->|Hin]); try done;
      try (by apply elem_of_nil in Hin);
      cbn [Issue.setting Issue.value]; intros Hk;
      repeat (apply elem_of_cons in Hk as [Hk|Hk]; [done|]);
      by apply elem_of_nil in Hk.
  - intros suggestions s Hrun Hs Hsetting.
    destruct (generateSuggestions_draws _ _ _ Hrun Hs)
      as (k & Hk & Hsetting' & _ & -> & _).
    rewrite Hsetting' in Hsetting. apply append_inj_r in Hsetting as ->.
    revert Hk. unfold commonIssues in Hin.
    repeat (apply elem_of_cons in Hin as [->|Hin]); try done;
      try (by apply elem_of_nil in Hin);
      cbn [Issue.setting Issue.value]; intros Hk;
      repeat (apply elem_of_cons in Hk as [Hk|Hk]; [done|]);
      by apply elem_of_nil in Hk.
Qed.

Lemma catalog_fix_against_suggestions_witness :
  let rule :=
    Issue.mk "Module is not set to ESNext" "module" module_not_esnext
      (JStr "ESNext")
      "Using ESNext as the module system enables better tree-shaking and is more future-proof." in
  commonIssues !! 2 = Some rule ∧
  (∃ suggestions',
     generateSuggestions (Some (Issue.fix_ rule sample_legacy_config))
       = Returns suggestions' ∧
     "compilerOptions.module" ∉ map Suggestion.setting suggestions') ∧
  Issue.test rule (Some (JStr "es2022")) = Returns true.
Proof.
  intros rule.
  destruct (catalog_fix_against_suggestions rule sample_legacy_config)
    as (Hreturns & Hsilent & Hvalue).
  { unfold commonIssues. elem_of_list. }
  split_and!.
  - reflexivity.
  - destruct (Hreturns _ eq_refl) as [suggestions' Hrun].
    exists suggestions'. split; [done|]. by apply Hsilent.
  - apply (Hvalue _
      {| Suggestion.setting := "compilerOptions.module";
         Suggestion.currentValue := Some (JStr "commonjs");
         Suggestion.suggestedValue := JStr "es2022";
         Suggestion.reason :=
           "Using the ECMAScript module system enables better tree-shaking and is more future-proof." |}
      eq_refl); [|reflexivity].
    vm_compute. elem_of_list.
Defined.

Section report_facts.
Variable JSON_stringify : json → string.
Variable JSON_stringify_results : list AnalysisResult.t → string.

Lemma text_section_failure report result :
  match generateSuggestions (AnalysisResult.config result) with
  | Raises e => text_section JSON_stringify report result = Raises e
  | Returns _ => ∃ lines,
      text_section JSON_stringify report result = Returns (report ++ lines) ∧
      text_section JSON_stringify [] result = Returns lines
  end.
Proof.
  unfold text_section.
  destruct (generateSuggestions _) as [suggestions|e];
    cbn [mbind outcome_bind]; [|done].
  eexists. split; [|reflexivity]. f_equal.
  destruct (Nat.ltb 0 (length suggestions)); by rewrite <- ?app_assoc.
Qed.

Lemma text_sections_failure report results :
  match first_failure results with
  | Some e => text_sections JSON_stringify report results = Raises e
  | None => ∃ sections,
      Forall2 (fun result lines =>
                 text_section JSON_stringify [] result = Returns lines)
        results sections ∧
      text_sections JSON_stringify report results =
        Returns (report ++ List.concat sections)
  end.
Proof.
  revert report. induction results as [|result results IH]; intros report; simpl.
  - exists []. split; [constructor|]. by rewrite app_nil_r.
  - pose proof (text_section_failure report result) as Hsection.
    destruct (generateSuggestions _) as [suggestions|e].
    + destruct Hsection as (lines & -> & Hlines). cbn [mbind outcome_bind].
      specialize (IH (report ++ lines)).
      destruct (first_failure results) as [e|]; [done|].
      destruct IH as (sections & Hsections & ->).
      exists (lines :: sections). split; [by constructor|].
      simpl. by rewrite <- app_assoc.
    + by rewrite Hsection.
Qed.

Lemma array_map_failure (section : AnalysisResult.t → outcome string) results :
  (∀ result,
     match generateSuggestions (AnalysisResult.config result) with
     | Raises e => section result = Raises e
     | Returns _ => ∃ text, section result = Returns text
     end) →
  match first_failure results with
  | Some e => array_map section results = Raises e
  | None => ∃ sections, array_map section results = Returns sections
  end.
Proof.
  intros Hsection. induction results as [|result results IH]; simpl.
  - by eexists.
  - specialize (Hsection result).
    destruct (generateSuggestions _) as [suggestions|e].
    + destruct Hsection as [text ->]. cbn [mbind outcome_bind].
      destruct (first_failure results) as [e|].
      * by rewrite IH.
      * destruct IH as [sections ->]. by eexists.
    + by rewrite Hsection.
Qed.

Lemma generateTextReport_failure results :
  match first_failure results with
  | Some e => generateTextReport JSON_stringify results = Raises e
  | None => ∃ text, generateTextReport JSON_stringify results = Returns text
  end.
Proof.
  unfold generateTextReport.
  pose proof (text_sections_failure TEXT_HEADER results) as H.
  unfold TEXT_HEADER in H.
  destruct (first_failure results) as [e|].
  - by rewrite H.
  - destruct H as (sections & _ & ->). by eexists.
Qed.

Lemma exportReport_failure format results :
  format ∈ ["html"; "markdown"] →
  match first_failure results with
  | Some e => exportReport JSON_stringify format results = Raises e
  | None => ∃ text, exportReport JSON_stringify format results = Returns text
  end.
Proof.
  intros Hformat. unfold exportReport.
  apply elem_of_cons in Hformat as [->|Hformat]; simpl.
  - unfold generateHTMLReport.
    pose proof (array_map_failure (html_section JSON_stringify) results) as H.
    destruct (first_failure results) as [e|].
    + rewrite H; [done|]. intros result. unfold html_section.
      destruct (generateSuggestions _); [by eexists|done].
    + destruct H as [sections ->]; [|by eexists].
      intros result. unfold html_section.
      destruct (generateSuggestions _); [by eexists|done].
  - apply list_elem_of_singleton in Hformat as ->. simpl.
    unfold generateMarkdownReport.
    pose proof (array_map_failure (md_section JSON_stringify) results) as H.
    destruct (first_failure results) as [e|].
    + rewrite H; [done|]. intros result. unfold md_section.
      destruct (generateSuggestions _); [by eexists|done].
    + destruct H as [sections ->]; [|by eexists].
      intros result. unfold md_section.
      destruct (generateSuggestions _); [by eexists|done].
Qed.

Lemma generateReport_failure format results :
  format ∈ [None; Some "text"; Some "html"; Some "markdown"] →
  match first_failure results with
  | Some e =>
      generateReport JSON_stringify JSON_stringify_results results format
        = Raises e
  | None =>
      ∃ text,
        generateReport JSON_stringify JSON_stringify_results results format
          = Returns text
  end.
Proof.
  intros Hformat. unfold generateReport.
  repeat (apply elem_of_cons in Hformat as [->|Hformat]); simpl.
  - apply generateTextReport_failure.
  - apply generateTextReport_failure.
  - apply exportReport_failure. elem_of_list.
  - apply exportReport_failure. elem_of_list.
  - by apply elem_of_nil in Hformat.
Qed.
End report_facts.

Lemma generateSuggestions_TypeError config e :
  generateSuggestions config = Raises e → ∃ message, e = Error "TypeError" message.
Proof.
  destruct config as [config|]; [|intros [= <-]; by eexists].
  intros Hrun. pose proof (generateSuggestions_lowers config) as H.
  rewrite Hrun in H. destruct H as [[callee ->] _]. by eexists.
Qed.

Lemma first_failure_TypeError results e :
  first_failure results = Some e → ∃ message, e = Error "TypeError" message.
Proof.
  induction results as [|result results IH]; simpl; [done|].
  destruct (generateSuggestions _) as [suggestions|e'] eqn:Hrun; [done|].
  intros [= <-]. by eapply generateSuggestions_TypeError.
Qed.

Lemma first_failure_null results result :
  result ∈ results → AnalysisResult.config result = None →
  is_Some (first_failure results).
Proof.
  intros Hin Hnull. induction results as [|result' results IH];
    [by apply elem_of_nil in Hin|]. simpl.
  apply elem_of_cons in Hin as [<-|Hin].
  - by rewrite Hnull.
  - destruct (generateSuggestions _); [by apply IH|done].
Qed.

(** X5. [generateReport] by format. The text report (also when the format
    is left out), the HTML report and the Markdown report fail together:
    each throws the error of the first result on which
    [generateSuggestions] throws, and returns a text when there is none.
    The JSON format returns what [JSON.stringify] makes of the results and
    asks for no suggestions. Any other format throws "Unsupported report
    format"; the "Unsupported export format" of [exportReport] is never
    reached through [generateReport]. *)
Theorem generateReport_by_format
    (JSON_stringify : json → string)
    (JSON_stringify_results : list AnalysisResult.t → string)
    (results : list AnalysisResult.t) :
  let report := generateReport JSON_stringify JSON_stringify_results results in
  (∀ format, format ∈ [None; Some "text"; Some "html"; Some "markdown"] →
     match first_failure results with
     | Some e => report format = Raises e
     | None => ∃ text, report format = Returns text
     end) ∧
  report (Some "json") = Returns (JSON_stringify_results results) ∧
  (∀ format, format ∉ ["text"; "json"; "html"; "markdown"] →
     report (Some format) =
       Raises (Error "Error" ("Unsupported report format: " +:+ format))) ∧
  (∀ format unsupported,
     report format ≠
       Raises (Error "Error" ("Unsupported export format: " +:+ unsupported))).
Proof.
  intros report. subst report. split_and!.
  - intros format Hformat. by apply generateReport_failure.
  - done.
  - intros format Hformat. unfold generateReport. simpl.
    rewrite !not_elem_of_cons in Hformat.
    destruct Hformat as (Htext & Hjson & Hhtml & Hmarkdown & _).
    apply String.eqb_neq in Htext, Hjson, Hhtml, Hmarkdown.
    by rewrite Htext, Hjson, Hhtml, Hmarkdown.
  - intros format unsupported Hraise.
    destruct (decide (format ∈ [None; Some "text"; Some "html"; Some "markdown"]))
      as [Hformat|Hformat].
    + pose proof (generateReport_failure JSON_stringify JSON_stringify_results
                    format results Hformat) as H.
      destruct (first_failure results) as [e|] eqn:Hfirst.
      * rewrite H in Hraise. injection Hraise as ->.
        by apply first_failure_TypeError in Hfirst as [message [=]].
      * destruct H as [text H]. by rewrite H in Hraise.
    + destruct format as [format|]; [|destruct Hformat; elem_of_list].
      revert Hraise. unfold generateReport. simpl.
      destruct (String.eqb format "text") eqn:Htext.
      { apply String.eqb_eq in Htext as ->. destruct Hformat. elem_of_list. }
      destruct (String.eqb format "json") eqn:Hjson; [done|].
      destruct (String.eqb format "html") eqn:Hhtml.
      { apply String.eqb_eq in Hhtml as ->. destruct Hformat. elem_of_list. }
      destruct (String.eqb format "markdown") eqn:Hmarkdown.
      { apply String.eqb_eq in Hmarkdown as ->. destruct Hformat. elem_of_list. }
      simpl. by intros [=].
Qed.

(** X6. A result whose configuration is [null], which is what the command
    line stores for an analyzer that has read no configuration, makes the
    text, HTML and Markdown reports throw a [TypeError], whatever the other
    results are; the JSON report of the same results is returned. *)
Theorem generateReport_throws_on_null_config
    (JSON_stringify : json → string)
    (JSON_stringify_results : list AnalysisResult.t → string)
    (results : list AnalysisResult.t) (result : AnalysisResult.t) :
  result ∈ results →
  AnalysisResult.config result = None →
  (∀ format, format ∈ [None; Some "text"; Some "html"; Some "markdown"] →
     ∃ message,
       generateReport JSON_stringify JSON_stringify_results results format
         = Raises (Error "TypeError" message)) ∧
  generateReport JSON_stringify JSON_stringify_results results (Some "json")
    = Returns (JSON_stringify_results results).
Proof.
  intros Hin Hnull. split; [|done]. intros format Hformat.
  pose proof (generateReport_failure JSON_stringify JSON_stringify_results
                format results Hformat) as H.
  destruct (first_failure_null _ _ Hin Hnull) as [e Hfirst].
  rewrite Hfirst in H. rewrite H.
  apply first_failure_TypeError in Hfirst as [message ->]. by exists message.
Qed.

Lemma generateReport_throws_on_null_config_witness :
  let results := sample_results ++ [sample_unread_result] in
  generateReport sample_stringify sample_stringify_results results None
    = Raises (Error "TypeError"
                "Cannot read properties of null (reading 'compilerOptions')") ∧
  (∃ message,
     generateReport sample_stringify sample_stringify_results results
       (Some "markdown") = Raises (Error "TypeError" message)) ∧
  (∃ text,
     generateReport sample_stringify sample_stringify_results sample_results
       (Some "markdown") = Returns text) ∧
  generateReport sample_stringify sample_stringify_results results (Some "json")
    = Returns "[tsconfig.json,src/tsconfig.app.json,packages/api/tsconfig.json]".
Proof.
  intros results.
  destruct (generateReport_throws_on_null_config sample_stringify
              sample_stringify_results results sample_unread_result)
    as [Hthrows Hjson].
  { subst results. apply elem_of_app. right. elem_of_list. }
  { reflexivity. }
  split_and!.
  - reflexivity.
  - apply Hthrows. elem_of_list.
  - eexists. vm_compute. reflexivity.
  - rewrite Hjson. reflexivity.
Defined.

(** X7. The text report is the three lines of the head followed by one
    section per result, in the order of the results, all joined by line
    feeds. The section of a result is made from that result alone: it
    opens with the line that names the configuration and closes with the
    ruler and an empty line. *)
Theorem generateTextReport_one_section_per_result
    (JSON_stringify : json → string)
    (results : list AnalysisResult.t) (sections : list (list string)) :
  Forall2 (fun result lines =>
             text_section JSON_stringify [] result = Returns lines)
    results sections →
  generateTextReport JSON_stringify results =
    Returns (String.concat LF (TEXT_HEADER ++ List.concat sections)) ∧
  Forall2 (fun result lines =>
             ∃ body,
               lines =
                 ("Configuration: " +:+ AnalysisResult.configPath result)
                   :: body ++ ["------------------------------------------"; ""])
    results sections.
Proof.
  intros Hsections. split.
  - unfold generateTextReport. fold TEXT_HEADER.
    pose proof (text_sections_failure JSON_stringify TEXT_HEADER results) as H.
    assert (first_failure results = None) as Hnone.
    { clear H. induction Hsections as [|result lines results sections Hrun _ IH];
        [done|]. simpl.
      pose proof (text_section_failure JSON_stringify [] result) as H.
      destruct (generateSuggestions _); [done|congruence]. }
    rewrite Hnone in H. destruct H as (sections' & Hsections' & ->).
    cbn [mbind outcome_bind]. enough (sections' = sections) as -> by done.
    clear Hnone. revert sections' Hsections'.
    induction Hsections as [|result lines results sections Hrun _ IH];
      intros sections' Hsections'.
    + by apply Forall2_nil_inv_l in Hsections' as ->.
    + apply Forall2_cons_inv_l in Hsections'
        as (lines' & sections'' & Hrun' & Hrest & ->).
      f_equal; [congruence|by apply IH].
  - eapply Forall2_impl; [exact Hsections|]. intros result lines Hrun.
    unfold text_section in Hrun.
    destruct (generateSuggestions _) as [suggestions|e];
      cbn [mbind outcome_bind] in Hrun; [|done].
    injection Hrun as <-.
    destruct (Nat.ltb 0 (length suggestions));
      rewrite <- !app_assoc; cbn [app];
      eexists (_ :: _ :: _ :: _); cbn [app]; reflexivity.
Qed.

Lemma generateTextReport_one_section_per_result_witness :
  let first :=
    [ "Configuration: tsconfig.json";
      "Overall Validity: Valid";
      "";
      "Analysis Messages:";
      "- Compiler options are valid.";
      "- Project structure analysis completed successfully.";
      "";
      "Suggestions for Improvement:";
      "- compilerOptions.strict:";
      "  Current value: false";
      "  Suggested value: true";
      "  Reason: Enabling strict mode helps catch more errors and improves type safety.";
      "";
      "- compilerOptions.target:";
      "  Current value: " +:+ dq +:+ "es5" +:+ dq;
      "  Suggested value: " +:+ dq +:+ "es2022" +:+ dq;
      "  Reason: Using a more modern target allows for better optimizations and newer language features.";
      "";
      "- compilerOptions.incremental:";
      "  Current value: undefined";
      "  Suggested value: true";
      "  Reason: Enabling incremental compilation can significantly speed up subsequent builds.";
      "";
      "- compilerOptions.module:";
      "  Current value: " +:+ dq +:+ "commonjs" +:+ dq;
      "  Suggested value: " +:+ dq +:+ "es2022" +:+ dq;
      "  Reason: Using the ECMAScript module system enables better tree-shaking and is more future-proof.";
      "";
      "------------------------------------------";
      "" ] in
  let second :=
    [ "Configuration: src/tsconfig.app.json";
      "Overall Validity: Invalid";
      "";
      "Analysis Messages:";
      "- Compiler options validation failed:";
      "";
      "Suggestions for Improvement:";
      "- compilerOptions.target:";
      "  Current value: " +:+ dq +:+ "invalid" +:+ dq;
      "  Suggested value: " +:+ dq +:+ "es2022" +:+ dq;
      "  Reason: Using a more modern target allows for better optimizations and newer language features.";
      "";
      "- compilerOptions.incremental:";
      "  Current value: undefined";
      "  Suggested value: true";
      "  Reason: Enabling incremental compilation can significantly speed up subsequent builds.";
      "";
      "------------------------------------------";
      "" ] in
  generateTextReport sample_stringify sample_results =
    Returns (String.concat LF (TEXT_HEADER ++ first ++ second)).
Proof.
  intros first second.
  destruct (generateTextReport_one_section_per_result sample_stringify
              sample_results [first; second]) as [Hreport _].
  { unfold sample_results.
    repeat (constructor; [vm_compute; reflexivity|]). constructor. }
  exact Hreport.
Defined.

(** ** Discovery and the scan of the structure *)

Lemma scanDirectory_S readdir join fuel dir configFiles :
  scanDirectory readdir join (S fuel) dir configFiles =
  match readdir dir with
  | Raises e => Some (Raises e)
  | Returns entries =>
      visitEntries join (scanDirectory readdir join fuel) dir entries configFiles
  end.
Proof. reflexivity. Qed.

Lemma scanStructure_S readdir join relative fuel projectRoot dir structure :
  scanStructure readdir join relative (S fuel) projectRoot dir structure =
  match readdir dir with
  | Raises e => Some (Raises e)
  | Returns entries =>
      visitStructure join relative
        (scanStructure readdir join relative fuel projectRoot)
        projectRoot dir entries structure
  end.
Proof. reflexivity. Qed.

Section discovery_facts.
Variable readdir : string → outcome (list Dirent.t).
Variable join : string → string → string.

(** One round of the loop of [scanDirectory]. *)
Lemma visitEntries_cons scan dir entry rest configFiles :
  visitEntries join scan dir (entry :: rest) configFiles =
  if entered entry then
    match scan (join dir (Dirent.name entry)) configFiles with
    | Some (Returns configFiles') => visitEntries join scan dir rest configFiles'
    | Some (Raises e) => Some (Raises e)
    | None => None
    end
  else if config_entry entry
  then visitEntries join scan dir rest (configFiles ++ [join dir (Dirent.name entry)])
  else visitEntries join scan dir rest configFiles.
Proof.
  unfold config_entry, entered. simpl.
  by destruct (Dirent.isDirectory entry && _ && _).
Qed.

Lemma reads_trans projectRoot dir dir' :
  reads readdir join projectRoot dir →
  reads readdir join dir dir' →
  reads readdir join projectRoot dir'.
Proof.
  intros Hdir Hdir'. induction Hdir' as [|d entries entry _ IH Hread Hin Hentered];
    [done|]. by eapply reads_entered.
Qed.

Lemma reads_inv projectRoot dir :
  reads readdir join projectRoot dir →
  dir = projectRoot ∨
  ∃ entries entry,
    readdir projectRoot = Returns entries ∧ entry ∈ entries ∧
    entered entry = true ∧
    reads readdir join (join projectRoot (Dirent.name entry)) dir.
Proof.
  induction 1 as [|d entries entry Hd IH Hread Hin Hentered]; [by left|].
  right. destruct IH as [->|(entries' & entry' & Hread' & Hin' & Hentered' & Hd')].
  - exists entries, entry. split_and!; [done..|]. apply reads_root.
  - exists entries', entry'. split_and!; [done..|]. by eapply reads_entered.
Qed.

(** What a scan that returns has appended to the list it was given. *)
Lemma visitEntries_extends scan dir entries configFiles configFiles' :
  (∀ d c c', scan d c = Some (Returns c') → ∃ found, c' = c ++ found) →
  visitEntries join scan dir entries configFiles = Some (Returns configFiles') →
  ∃ found, configFiles' = configFiles ++ found.
Proof.
  intros Hscan. revert configFiles.
  induction entries as [|entry rest IH]; intros configFiles.
  - intros [= <-]. exists []. by rewrite app_nil_r.
  - rewrite visitEntries_cons. destruct (entered entry).
    + destruct (scan _ _) as [[c|e]|] eqn:Hsub; [|done..].
      intros (found & ->)%IH. apply Hscan in Hsub as (found' & ->).
      exists (found' ++ found). by rewrite app_assoc.
    + destruct (config_entry entry).
      * intros (found & ->)%IH. eexists. by rewrite <- app_assoc.
      * apply IH.
Qed.

Lemma scanDirectory_extends fuel dir configFiles configFiles' :
  scanDirectory readdir join fuel dir configFiles = Some (Returns configFiles') →
  ∃ found, configFiles' = configFiles ++ found.
Proof.
  revert dir configFiles configFiles'.
  induction fuel as [|fuel IH]; intros dir configFiles configFiles'; [done|].
  rewrite scanDirectory_S. destruct (readdir dir) as [entries|e]; [|done].
  apply visitEntries_extends. intros d c c'. apply IH.
Qed.

(** Soundness: what discovery returns, it has found as a configuration
    file of a directory it reads. *)
Lemma visitEntries_sound projectRoot scan dir entries todo configFiles configFiles' :
  reads readdir join projectRoot dir →
  readdir dir = Returns entries →
  (∀ entry, entry ∈ todo → entry ∈ entries) →
  (∀ d c c', reads readdir join projectRoot d →
     scan d c = Some (Returns c') →
     Forall (discovered readdir join projectRoot) c →
     Forall (discovered readdir join projectRoot) c') →
  visitEntries join scan dir todo configFiles = Some (Returns configFiles') →
  Forall (discovered readdir join projectRoot) configFiles →
  Forall (discovered readdir join projectRoot) configFiles'.
Proof.
  intros Hdir Hread Hsub Hscan. revert configFiles.
  induction todo as [|entry rest IH]; intros configFiles.
  - by intros [= <-].
  - rewrite visitEntries_cons.
    assert (entry ∈ entries) as Hentry by (apply Hsub; left).
    assert (∀ entry', entry' ∈ rest → entry' ∈ entries) as Hrest
      by (intros ? ?; apply Hsub; by right).
    destruct (entered entry) eqn:Hentered.
    + destruct (scan _ _) as [[c|e]|] eqn:Hsubscan; [|done..].
      intros Hvisit Hfound. apply (IH Hrest c Hvisit).
      eapply Hscan; [|exact Hsubscan|exact Hfound]. by eapply reads_entered.
    + destruct (config_entry entry) eqn:Hconfig.
      * intros Hvisit Hfound. apply (IH Hrest _ Hvisit).
        apply Forall_app. split; [done|]. apply Forall_singleton.
        by exists dir, entries, entry.
      * apply IH, Hrest.
Qed.

Lemma scanDirectory_sound projectRoot fuel dir configFiles configFiles' :
  reads readdir join projectRoot dir →
  scanDirectory readdir join fuel dir configFiles = Some (Returns configFiles') →
  Forall (discovered readdir join projectRoot) configFiles →
  Forall (discovered readdir join projectRoot) configFiles'.
Proof.
  revert dir configFiles configFiles'.
  induction fuel as [|fuel IH]; intros dir configFiles configFiles' Hdir; [done|].
  rewrite scanDirectory_S. destruct (readdir dir) as [entries|e] eqn:Hread; [|done].
  by apply (visitEntries_sound projectRoot _ dir entries).
Qed.

(** Completeness: a scan that returns has found every configuration file
    of every directory that is read from the one it started in. *)
Lemma scanDirectory_complete fuel dir configFiles configFiles' :
  scanDirectory readdir join fuel dir configFiles = Some (Returns configFiles') →
  ∀ configFile, discovered readdir join dir configFile → configFile ∈ configFiles'.
Proof.
  revert dir configFiles configFiles'.
  induction fuel as [|fuel IH]; intros dir configFiles configFiles'; [done|].
  rewrite scanDirectory_S. destruct (readdir dir) as [entries|e] eqn:Hread; [|done].
  intros Hvisit configFile (d & entries' & entry & Hd & Hread' & Hin & Hconfig & ->).
  assert (∃ entry0, entry0 ∈ entries ∧
            ((entered entry0 = false ∧ config_entry entry0 = true ∧
              join d (Dirent.name entry) = join dir (Dirent.name entry0)) ∨
             (entered entry0 = true ∧
              discovered readdir join (join dir (Dirent.name entry0))
                (join d (Dirent.name entry))))) as (entry0 & Hin0 & Hcase).
  { apply reads_inv in Hd
      as [->|(entries0 & entry0 & Hread0 & Hin0 & Hentered0 & Hd)].
    - rewrite Hread in Hread'. injection Hread' as <-.
      exists entry. split; [done|]. left. split_and!; [|done..].
      unfold config_entry in Hconfig. by destruct (entered entry).
    - rewrite Hread in Hread0. injection Hread0 as <-.
      exists entry0. split; [done|]. right. split; [done|].
      by exists d, entries', entry. }
  clear Hd Hread' Hin Hconfig Hread.
  revert configFiles Hvisit.
  induction entries as [|entry1 rest IHrest]; intros configFiles;
    [by apply elem_of_nil in Hin0|].
  rewrite visitEntries_cons.
  apply elem_of_cons in Hin0 as [<-|Hin0].
  - destruct Hcase as [(-> & -> & ->)|[-> Hfound]].
    + intros (found & ->)%(visitEntries_extends _ _ _ _ _
        (fun d c c' => scanDirectory_extends fuel d c c')).
      rewrite !elem_of_app. left. right. by apply list_elem_of_singleton.
    + destruct (scanDirectory _ _ _ _ _) as [[c|e]|] eqn:Hscan; [|done..].
      intros (found & ->)%(visitEntries_extends _ _ _ _ _
        (fun d c c' => scanDirectory_extends fuel d c c')).
      apply elem_of_app. left. by eapply IH.
  - destruct (entered entry1).
    + destruct (scanDirectory _ _ _ _ _) as [[c|e]|]; [|done..].
      by apply IHrest.
    + destruct (config_entry entry1); by apply IHrest.
Qed.

(** Discovery asks for the listings of the directories it reads, and for
    no other. *)
Lemma visitEntries_agree scan scan' dir entries todo projectRoot configFiles :
  reads readdir join projectRoot dir →
  readdir dir = Returns entries →
  (∀ entry, entry ∈ todo → entry ∈ entries) →
  (∀ d c, reads readdir join projectRoot d → scan' d c = scan d c) →
  visitEntries join scan' dir todo configFiles =
  visitEntries join scan dir todo configFiles.
Proof.
  intros Hdir Hread Hsub Hscan. revert configFiles.
  induction todo as [|entry rest IH]; intros configFiles; [done|].
  rewrite !visitEntries_cons.
  assert (entry ∈ entries) as Hentry by (apply Hsub; left).
  assert (∀ entry', entry' ∈ rest → entry' ∈ entries) as Hrest
    by (intros ? ?; apply Hsub; by right).
  destruct (entered entry) eqn:Hentered.
  - rewrite Hscan by (by eapply reads_entered).
    destruct (scan _ _) as [[c|e]|]; [|done..]. by apply IH.
  - destruct (config_entry entry); by apply IH.
Qed.

Lemma scanDirectory_agree readdir' projectRoot fuel dir configFiles :
  (∀ d, reads readdir join projectRoot d → readdir' d = readdir d) →
  reads readdir join projectRoot dir →
  scanDirectory readdir' join fuel dir configFiles =
  scanDirectory readdir join fuel dir configFiles.
Proof.
  intros Hagree. revert dir configFiles.
  induction fuel as [|fuel IH]; intros dir configFiles Hdir; [done|].
  rewrite !scanDirectory_S, (Hagree dir Hdir).
  destruct (readdir dir) as [entries|e] eqn:Hread; [|done].
  by apply (visitEntries_agree _ _ dir entries entries projectRoot).
Qed.

Lemma config_name_entered name :
  name ∈ CONFIG_FILE_NAMES →
  String.prefix "." name = false ∧ String.eqb name "node_modules" = false.
Proof.
  unfold CONFIG_FILE_NAMES. intros Hname.
  repeat (apply elem_of_cons in Hname as [->|Hname]); [done..|].
  by apply elem_of_nil in Hname.
Qed.

Lemma directory_not_config_entry entry :
  Dirent.isDirectory entry = true → config_entry entry = false.
Proof.
  intros Hdirectory. unfold config_entry, entered. rewrite Hdirectory.
  case_bool_decide as Hname; [|by rewrite andb_false_r].
  apply config_name_entered in Hname as [-> ->]. done.
Qed.

(** The scan of the structure enters every directory discovery enters,
    and lists every file discovery finds there. *)
Lemma scanStructure_covers relative projectRoot fuel dir structure structure' :
  scanStructure readdir join relative fuel projectRoot dir structure
    = Some (Returns structure') →
  ∀ configFiles, ∃ found added,
    scanDirectory readdir join fuel dir configFiles
      = Some (Returns (configFiles ++ found)) ∧
    ProjectStructure.files structure' = ProjectStructure.files structure ++ added ∧
    map (relative projectRoot) found `sublist_of` added.
Proof.
  revert dir structure structure'.
  induction fuel as [|fuel IH]; intros dir structure structure'; [done|].
  rewrite scanStructure_S. setoid_rewrite scanDirectory_S.
  destruct (readdir dir) as [entries|e]; [|done].
  revert structure. induction entries as [|entry rest IHrest];
    intros structure Hvisit configFiles.
  - injection Hvisit as <-. exists [], []. by rewrite !app_nil_r.
  - rewrite visitEntries_cons. cbn [visitStructure] in Hvisit.
    destruct (Dirent.isDirectory entry) eqn:Hdirectory.
    + destruct (scanStructure _ _ _ _ _ _ _) as [[s|e]|] eqn:Hscan; [|done..].
      destruct (IH _ _ _ Hscan configFiles) as (found1 & added1 & Hsub & Hfiles1 & Hlist1).
      destruct (entered entry) eqn:Hentered.
      * rewrite Hsub.
        destruct (IHrest _ Hvisit (configFiles ++ found1))
          as (found2 & added2 & -> & -> & Hlist2).
        exists (found1 ++ found2), (added1 ++ added2).
        rewrite Hfiles1. simpl. rewrite !app_assoc, map_app.
        split_and!; [done..|]. by apply sublist_app.
      * rewrite (directory_not_config_entry _ Hdirectory).
        destruct (IHrest _ Hvisit configFiles)
          as (found2 & added2 & -> & -> & Hlist2).
        exists found2, (added1 ++ added2).
        rewrite Hfiles1. simpl. rewrite !app_assoc.
        split_and!; [done..|]. by apply sublist_inserts_l.
    + assert (entered entry = false) as ->
        by (unfold entered; by rewrite Hdirectory).
      unfold config_entry, entered. rewrite Hdirectory. simpl.
      destruct (Dirent.isFile entry) eqn:Hfile; simpl.
      * destruct (IHrest _ Hvisit
          (if bool_decide (Dirent.name entry ∈ CONFIG_FILE_NAMES)
           then configFiles ++ [join dir (Dirent.name entry)] else configFiles))
          as (found2 & added2 & Hsub & -> & Hlist2).
        simpl. case_bool_decide.
        -- rewrite Hsub. eexists (_ :: found2), (_ :: added2).
           rewrite <- !app_assoc. simpl. split_and!; [done..|].
           by apply sublist_skip.
        -- rewrite Hsub. eexists found2, (_ :: added2).
           rewrite <- !app_assoc. simpl. split_and!; [done..|].
           by apply sublist_cons.
      * destruct (IHrest _ Hvisit configFiles)
          as (found2 & added2 & -> & -> & Hlist2).
        by exists found2, added2.
Qed.
Lemma grows_refl structure : grows structure structure.
Proof. split; exists []; by rewrite app_nil_r. Qed.

Lemma grows_trans s1 s2 s3 : grows s1 s2 → grows s2 s3 → grows s1 s3.
Proof.
  intros [[f1 Hf1] [d1 Hd1]] [[f2 Hf2] [d2 Hd2]]. split.
  - exists (f1 ++ f2). by rewrite Hf2, Hf1, app_assoc.
  - exists (d1 ++ d2). by rewrite Hd2, Hd1, app_assoc.
Qed.

Lemma recorded_grows relative projectRoot dir structure structure' entry :
  grows structure structure' →
  recorded join relative projectRoot dir structure entry →
  recorded join relative projectRoot dir structure' entry.
Proof.
  intros [[f Hf] [d Hd]]. unfold recorded. cbv zeta.
  destruct (Dirent.isDirectory entry).
  - rewrite Hd, elem_of_app. by left.
  - intros H Hfile. rewrite Hf, elem_of_app. left. by apply H.
Qed.

Lemma listed_grows relative projectRoot structure structure' dir :
  grows structure structure' →
  listed readdir join relative projectRoot structure dir →
  listed readdir join relative projectRoot structure' dir.
Proof.
  intros Hgrows (entries & Hread & Hentries). exists entries. split; [done|].
  intros entry Hin. eapply recorded_grows; [done|]. by apply Hentries.
Qed.

Lemma scans_below dir entries entry d :
  readdir dir = Returns entries → entry ∈ entries →
  Dirent.isDirectory entry = true →
  scans readdir join (join dir (Dirent.name entry)) d →
  scans readdir join dir d.
Proof.
  intros Hread Hin Hdirectory Hd.
  induction Hd as [|d' entries' entry' _ IH Hread' Hin' Hdirectory'].
  - eapply scans_directory; [apply scans_root|done..].
  - by eapply scans_directory.
Qed.

Lemma scans_inv dir d :
  scans readdir join dir d →
  d = dir ∨
  ∃ entries entry,
    readdir dir = Returns entries ∧ entry ∈ entries ∧
    Dirent.isDirectory entry = true ∧
    scans readdir join (join dir (Dirent.name entry)) d.
Proof.
  induction 1 as [|d entries entry Hd IH Hread Hin Hdirectory]; [by left|].
  right. destruct IH as [->|(entries' & entry' & Hread' & Hin' & Hdirectory' & Hd')].
  - exists entries, entry. split_and!; [done..|]. apply scans_root.
  - exists entries', entry'. split_and!; [done..|]. by eapply scans_directory.
Qed.

(** One round of the loop of the scan of the structure, and what the loop
    records when the scan of a subdirectory records what it reads. *)
Lemma visitStructure_records relative projectRoot scan dir entries
    structure structure' :
  (∀ d s s', scan d s = Some (Returns s') →
     grows s s' ∧
     ∀ d', scans readdir join d d' →
       listed readdir join relative projectRoot s' d') →
  visitStructure join relative scan projectRoot dir entries structure
    = Some (Returns structure') →
  grows structure structure' ∧
  ∀ entry, entry ∈ entries →
    recorded join relative projectRoot dir structure' entry ∧
    (Dirent.isDirectory entry = true →
     ∀ d', scans readdir join (join dir (Dirent.name entry)) d' →
       listed readdir join relative projectRoot structure' d').
Proof.
  intros Hscan. revert structure.
  induction entries as [|entry rest IH]; intros structure Hvisit.
  - injection Hvisit as <-. split; [apply grows_refl|].
    by intros entry ?%elem_of_nil.
  - cbn [visitStructure] in Hvisit.
    destruct (Dirent.isDirectory entry) eqn:Hdirectory.
    + destruct (scan _ _) as [[s|e]|] eqn:Hsub; [|done..].
      destruct (Hscan _ _ _ Hsub) as [Hgrows Hlisted].
      destruct (IH _ Hvisit) as [Hgrows' Hrest].
      assert (grows structure structure') as Hall.
      { eapply grows_trans; [|exact Hgrows']. eapply grows_trans; [|exact Hgrows].
        split; [exists []; by rewrite app_nil_r|by eexists]. }
      split; [done|].
      intros entry' [->|Hin]%elem_of_cons; [|by apply Hrest].
      split.
      * unfold recorded. cbv zeta. rewrite Hdirectory.
        destruct Hgrows as [_ [d1 Hd1]], Hgrows' as [_ [d2 Hd2]].
        rewrite Hd2, Hd1. cbn [ProjectStructure.directories].
        rewrite !elem_of_app, list_elem_of_singleton. auto.
      * intros _ d' Hd'. eapply listed_grows; [exact Hgrows'|]. by apply Hlisted.
    + destruct (Dirent.isFile entry) eqn:Hfile.
      * destruct (IH _ Hvisit) as [Hgrows' Hrest].
        assert (grows structure structure') as Hall.
        { eapply grows_trans; [|exact Hgrows'].
          split; [by eexists|exists []; by rewrite app_nil_r]. }
        split; [done|].
        intros entry' [->|Hin]%elem_of_cons; [|by apply Hrest].
        split; [|by rewrite Hdirectory].
        unfold recorded. cbv zeta. rewrite Hdirectory. intros _.
        destruct Hgrows' as [[f2 Hf2] _]. rewrite Hf2.
        cbn [ProjectStructure.files].
        rewrite !elem_of_app, list_elem_of_singleton. auto.
      * destruct (IH _ Hvisit) as [Hgrows' Hrest]. split; [done|].
        intros entry' [->|Hin]%elem_of_cons; [|by apply Hrest].
        split; [|by rewrite Hdirectory].
        unfold recorded. cbv zeta. by rewrite Hdirectory, Hfile.
Qed.

(** The scan of the structure lists every directory below the one it is
    started on, and records every entry of these. *)
Lemma scanStructure_records relative projectRoot fuel dir structure structure' :
  scanStructure readdir join relative fuel projectRoot dir structure
    = Some (Returns structure') →
  grows structure structure' ∧
  ∀ d, scans readdir join dir d →
    listed readdir join relative projectRoot structure' d.
Proof.
  revert dir structure structure'.
  induction fuel as [|fuel IH]; intros dir structure structure'; [done|].
  rewrite scanStructure_S.
  destruct (readdir dir) as [entries|e] eqn:Hread; [|done].
  intros Hvisit.
  destruct (visitStructure_records _ _ _ _ _ _ _ (IH) Hvisit) as [Hgrows Hentries].
  split; [done|].
  intros d [->|(entries' & entry & Hread' & Hin & Hdirectory & Hd)]%scans_inv.
  - exists entries. split; [done|]. intros entry Hin. by apply Hentries.
  - rewrite Hread in Hread'. injection Hread' as <-.
    by apply (Hentries entry Hin).
Qed.

(** A scan of the structure that throws does so with the error of a
    directory it reads. *)
Lemma visitStructure_raises relative projectRoot scan dir entries structure e :
  (∀ d s, scan d s = Some (Raises e) →
     ∃ d', scans readdir join d d' ∧ readdir d' = Raises e) →
  visitStructure join relative scan projectRoot dir entries structure
    = Some (Raises e) →
  ∃ entry d',
    entry ∈ entries ∧ Dirent.isDirectory entry = true ∧
    scans readdir join (join dir (Dirent.name entry)) d' ∧
    readdir d' = Raises e.
Proof.
  intros Hscan. revert structure.
  induction entries as [|entry rest IH]; intros structure Hvisit; [done|].
  cbn [visitStructure] in Hvisit.
  assert (∀ s, visitStructure join relative scan projectRoot dir rest s
               = Some (Raises e) →
          ∃ entry' d',
            entry' ∈ entry :: rest ∧ Dirent.isDirectory entry' = true ∧
            scans readdir join (join dir (Dirent.name entry')) d' ∧
            readdir d' = Raises e) as Hrest.
  { intros s (entry' & d' & Hin & ?)%IH. exists entry', d'.
    split; [by right|done]. }
  destruct (Dirent.isDirectory entry) eqn:Hdirectory.
  - destruct (scan _ _) as [[s|e']|] eqn:Hsub; [by eapply Hrest| |done].
    injection Hvisit as ->. apply Hscan in Hsub as (d' & Hd' & Hraise).
    exists entry, d'. split_and!; [by left|done..].
  - destruct (Dirent.isFile entry); by eapply Hrest.
Qed.

Lemma scanStructure_raises relative projectRoot fuel dir structure e :
  scanStructure readdir join relative fuel projectRoot dir structure
    = Some (Raises e) →
  ∃ d, scans readdir join dir d ∧ readdir d = Raises e.
Proof.
  revert dir structure.
  induction fuel as [|fuel IH]; intros dir structure; [done|].
  rewrite scanStructure_S.
  destruct (readdir dir) as [entries|e'] eqn:Hread.
  - intros (entry & d' & Hin & Hdirectory & Hd' & Hraise)%visitStructure_raises;
      [|exact IH].
    exists d'. split; [by eapply scans_below|done].
  - intros [= ->]. exists dir. split; [apply scans_root|done].
Qed.

End discovery_facts.

(** X8. What [findTSConfigs] returns, when it returns: exactly the paths
    of the entries that are files named as one of [CONFIG_FILE_NAMES], in
    the directories it reads. These are the project root and, below a
    directory it reads, every directory whose name neither starts with a
    dot nor is [node_modules]. *)
Theorem findTSConfigs_returns_the_configuration_files
    (readdir : string → outcome (list Dirent.t))
    (join : string → string → string)
    (fuel : nat) (projectRoot : string) (configFiles : list string) :
  findTSConfigs readdir join fuel projectRoot = Some (Returns configFiles) →
  ∀ configFile,
    configFile ∈ configFiles ↔
    ∃ dir entries entry,
      reads readdir join projectRoot dir ∧
      readdir dir = Returns entries ∧
      entry ∈ entries ∧
      config_entry entry = true ∧
      configFile = join dir (Dirent.name entry).
Proof.
  unfold findTSConfigs. intros Hscan configFile. split.
  - intros Hin.
    pose proof (scanDirectory_sound readdir join projectRoot fuel projectRoot
                  [] configFiles (reads_root _ _ _) Hscan (Forall_nil_2 _)) as Hsound.
    rewrite Forall_forall in Hsound. by apply Hsound.
  - by apply (scanDirectory_complete readdir join fuel projectRoot [] configFiles).
Qed.

Lemma findTSConfigs_returns_the_configuration_files_witness :
  findTSConfigs (sample_tree sample_unreadable) sample_join 2 "/repo" =
    Some (Returns ["/repo/src/tsconfig.app.json"; "/repo/tsconfig.json"]) ∧
  ¬ (∃ dir entries entry,
       reads (sample_tree sample_installed) sample_join "/repo" dir ∧
       sample_tree sample_installed dir = Returns entries ∧
       entry ∈ entries ∧
       config_entry entry = true ∧
       "/repo/node_modules/tsconfig.json" = sample_join dir (Dirent.name entry)).
Proof.
  split; [reflexivity|].
  intros Hfound.
  apply (findTSConfigs_returns_the_configuration_files
           (sample_tree sample_installed) sample_join 2 "/repo"
           ["/repo/src/tsconfig.app.json"; "/repo/tsconfig.json"] eq_refl) in Hfound.
  repeat (apply elem_of_cons in Hfound as [Hfound|Hfound]; [discriminate|]).
  by apply elem_of_nil in Hfound.
Defined.

Lemma reads_sample_tree node_modules dir :
  reads (sample_tree node_modules) sample_join "/repo" dir →
  dir = "/repo" ∨ dir = "/repo/src".
Proof.
  induction 1 as [|d entries entry _ IH Hread Hin Hentered]; [by left|].
  right. destruct IH as [->| ->].
  - injection Hread as <-.
    repeat (apply elem_of_cons in Hin as [->|Hin]); try done.
    by apply elem_of_nil in Hin.
  - injection Hread as <-.
    repeat (apply elem_of_cons in Hin as [->|Hin]); try done.
    by apply elem_of_nil in Hin.
Qed.

(** X9. [findTSConfigs] asks for the listing of the project root and of
    the directories it enters, and of no other directory: two file systems
    that agree on these listings give the same result, whatever they hold
    elsewhere. A directory it enters is a directory entry whose name
    neither starts with a dot nor is [node_modules], so what is installed
    under [node_modules], or whether it can be read at all, makes no
    difference. *)
Theorem findTSConfigs_reads_only_entered_directories
    (readdir readdir' : string → outcome (list Dirent.t))
    (join : string → string → string) (fuel : nat) (projectRoot : string) :
  (∀ dir, reads readdir join projectRoot dir → readdir' dir = readdir dir) →
  findTSConfigs readdir' join fuel projectRoot =
    findTSConfigs readdir join fuel projectRoot ∧
  (∀ dir, reads readdir join projectRoot dir →
     dir = projectRoot ∨
     ∃ parent entry,
       dir = join parent (Dirent.name entry) ∧
       Dirent.isDirectory entry = true ∧
       String.prefix "." (Dirent.name entry) = false ∧
       Dirent.name entry ≠ "node_modules").
Proof.
  intros Hagree. split.
  - unfold findTSConfigs. apply (scanDirectory_agree _ _ _ projectRoot); [done|].
    apply reads_root.
  - intros dir [|parent entries entry _ _ _ Hentered]; [by left|]. right.
    exists parent, entry. unfold entered in Hentered.
    apply andb_prop in Hentered as [[Hdirectory Hdot]%andb_prop Hmodules].
    apply negb_true_iff in Hdot, Hmodules. by apply String.eqb_neq in Hmodules.
Qed.

Lemma findTSConfigs_reads_only_entered_directories_witness :
  findTSConfigs (sample_tree sample_installed) sample_join 2 "/repo" =
    findTSConfigs (sample_tree sample_unreadable) sample_join 2 "/repo" ∧
  findTSConfigs (sample_tree sample_unreadable) sample_join 2 "/repo" =
    Some (Returns ["/repo/src/tsconfig.app.json"; "/repo/tsconfig.json"]).
Proof.
  split; [|reflexivity].
  apply (findTSConfigs_reads_only_entered_directories
           (sample_tree sample_unreadable) (sample_tree sample_installed)).
  by intros dir [->| ->]%reads_sample_tree.
Defined.

(** X10. [scanProjectStructure] ends as its scan ends: what the scan
    throws is thrown again. The scan reads the project root and every
    directory of a listing it reads, hidden ones and [node_modules]
    included: when it returns, each of these directories has been listed
    and each of its entries is recorded, a directory among the
    directories and a file among the files, by its path relative to the
    root; and when it throws, the error is the one of the listing of such
    a directory. So whenever it returns, [findTSConfigs] returns as well,
    with the same bound on the depth, and every configuration file that
    discovery finds is listed among the files of the structure, in the
    same order. *)
Theorem scanProjectStructure_lists_discovered_files
    (readdir : string → outcome (list Dirent.t))
    (join relative : string → string → string)
    (fuel : nat) (projectRoot : string) :
  scanProjectStructure readdir join relative fuel projectRoot =
    scanStructure readdir join relative fuel projectRoot projectRoot
      {| ProjectStructure.files := []; ProjectStructure.directories := [] |} ∧
  match scanProjectStructure readdir join relative fuel projectRoot with
  | Some (Returns structure) =>
      (∀ dir, scans readdir join projectRoot dir →
         listed readdir join relative projectRoot structure dir) ∧
      ∃ configFiles,
        findTSConfigs readdir join fuel projectRoot = Some (Returns configFiles) ∧
        map (relative projectRoot) configFiles
          `sublist_of` ProjectStructure.files structure
  | Some (Raises e) =>
      ∃ dir, scans readdir join projectRoot dir ∧ readdir dir = Raises e
  | None => True
  end.
Proof.
  unfold scanProjectStructure, findTSConfigs.
  destruct (scanStructure _ _ _ _ _ _ _) as [[scanned|e]|] eqn:Hscan;
    cbn [try_catch]; (split; [done|]); [| |done].
  - split; [by apply (scanStructure_records _ _ _ _ _ _ _ _ Hscan)|].
    destruct (scanStructure_covers _ _ _ _ _ _ _ _ Hscan [])
      as (found & added & Hfound & Hfiles & Hlisted).
    exists found. split; [done|]. by rewrite Hfiles.
  - by eapply scanStructure_raises.
Qed.

Lemma scanProjectStructure_lists_discovered_files_witness :
  scanProjectStructure (sample_tree sample_installed) sample_join
    sample_relative 2 "/repo" =
    Some (Returns
      {| ProjectStructure.files :=
           [ "src/tsconfig.app.json"; "src/index.ts";
             "node_modules/tsconfig.json"; ".git/config"; "tsconfig.json";
             "README.md" ];
         ProjectStructure.directories := [ "src"; "node_modules"; ".git" ] |}) ∧
  (∃ configFiles,
     findTSConfigs (sample_tree sample_installed) sample_join 2 "/repo"
       = Some (Returns configFiles) ∧
     map (sample_relative "/repo") configFiles
       `sublist_of`
       [ "src/tsconfig.app.json"; "src/index.ts"; "node_modules/tsconfig.json";
         ".git/config"; "tsconfig.json"; "README.md" ]) ∧
  scanProjectStructure (sample_tree sample_unreadable) sample_join
    sample_relative 2 "/repo" =
    Some (Raises (Error "Error"
                    "EACCES: permission denied, scandir '/repo/node_modules'")).
Proof.
  split; [reflexivity|]. split; [|reflexivity].
  pose proof (scanProjectStructure_lists_discovered_files
                (sample_tree sample_installed) sample_join sample_relative 2
                "/repo") as [_ Hscan].
  change (scanProjectStructure (sample_tree sample_installed) sample_join
            sample_relative 2 "/repo")
    with (Some (Returns
      {| ProjectStructure.files :=
           [ "src/tsconfig.app.json"; "src/index.ts";
             "node_modules/tsconfig.json"; ".git/config"; "tsconfig.json";
             "README.md" ];
         ProjectStructure.directories := [ "src"; "node_modules"; ".git" ] |}))
    in Hscan.
  exact (proj2 Hscan).
Defined.

(** ** Reading and merging *)

Lemma readConfigs_outcome readTSConfig configPaths :
  match readConfigs readTSConfig configPaths with
  | Returns configs =>
      Forall2 (fun configPath config => readTSConfig configPath = Returns config)
        configPaths configs
  | Raises e =>
      ∃ pre configPath post,
        configPaths = pre ++ configPath :: post ∧
        Forall (fun p => ∃ config, readTSConfig p = Returns config) pre ∧
        readTSConfig configPath = Raises e
  end.
Proof.
  induction configPaths as [|configPath paths IH]; simpl; [constructor|].
  destruct (readTSConfig configPath) as [config|e] eqn:Hread;
    cbn [mbind outcome_bind].
  - destruct (readConfigs readTSConfig paths) as [configs|e];
      cbn [mbind outcome_bind].
    + by constructor.
    + destruct IH as (pre & p & post & -> & Hpre & Hp).
      exists (configPath :: pre), p, post. split_and!; [done| |done].
      constructor; [by eexists|done].
  - by exists [], configPath, paths.
Qed.

(** X11. [mergeConfigs] reads every file before it merges any. It throws
    the error of the first file, in the order of the list, that
    [readTSConfig] cannot read or parse, also when that file is the last
    one. When all are read, it runs the loop over the sources from the
    back, on an empty object. When no source has a key [__proto__], the
    loop does not throw, and the caller holds the configuration of the
    specification: it has no [extends], whatever the sources say, and has
    a [compilerOptions] object as soon as one source has one. *)
Theorem mergeConfigs_reads_all_then_merges
    (readTSConfig : string → outcome TSConfig) (configPaths : list string) :
  match readConfigs readTSConfig configPaths with
  | Returns configs =>
      Forall2 (fun configPath config => readTSConfig configPath = Returns config)
        configPaths configs ∧
      mergeConfigs readTSConfig configPaths =
        merge_all (rev configs) Merged.empty ∧
      (Forall unpolluted configs →
       held (mergeConfigs readTSConfig configPaths) =
         Some (Returns (spec_merged configs)) ∧
       extends (spec_merged configs) = None ∧
       (compilerOptions (spec_merged configs) = None ↔
        Forall (fun config => compilerOptions config = None) configs))
  | Raises e =>
      mergeConfigs readTSConfig configPaths = Raises e ∧
      ∃ pre configPath post,
        configPaths = pre ++ configPath :: post ∧
        Forall (fun p => ∃ config, readTSConfig p = Returns config) pre ∧
        readTSConfig configPath = Raises e
  end.
Proof.
  pose proof (readConfigs_outcome readTSConfig configPaths) as Hread.
  destruct (readConfigs readTSConfig configPaths) as [configs|e] eqn:Hconfigs.
  - split_and!; [done|by apply mergeConfigs_merges|].
    intros Hunpolluted. split_and!.
    + by apply held_unpolluted.
    + apply spec_merged_extends.
    + apply spec_merged_no_compilerOptions.
  - split; [|done]. unfold mergeConfigs. by rewrite Hconfigs.
Qed.

Lemma list_ascii_of_string_app a b :
  list_ascii_of_string (a +:+ b) = list_ascii_of_string a ++ list_ascii_of_string b.
Proof. induction a as [|c a IH]; simpl; [done|]. by rewrite IH. Qed.

Lemma posix_basename_sample_join dir name :
  name ∈ CONFIG_FILE_NAMES → posix_basename (sample_join dir name) = name.
Proof.
  intros Hname. unfold posix_basename, sample_join.
  rewrite !list_ascii_of_string_app, !rev_app_distr.
  unfold CONFIG_FILE_NAMES in Hname.
  repeat (apply elem_of_cons in Hname as [->|Hname]); [reflexivity..|].
  by apply elem_of_nil in Hname.
Qed.

Lemma discovered_named readdir join basename projectRoot configFile :
  (∀ dir name, name ∈ CONFIG_FILE_NAMES → basename (join dir name) = name) →
  discovered readdir join projectRoot configFile →
  basename configFile ∈ CONFIG_FILE_NAMES.
Proof.
  intros Hbasename (dir & entries & entry & _ & _ & _ & Hconfig & ->).
  unfold config_entry in Hconfig.
  apply andb_prop in Hconfig as [_ Hname%bool_decide_eq_true_1].
  by rewrite Hbasename.
Qed.

(** X12. [findAndMergeConfigs] merges what discovery has found, in the
    order [determineRelevantConfigs] gives. When the base name of a joined
    path is the name that was joined, every discovered file bears a name of
    the ranking list, so that the selection puts the best ranked file at
    the front, which is then merged last; and a project in which discovery
    finds no configuration file gets the empty configuration, not an
    error. *)
Theorem findAndMergeConfigs_merges_ranked_files
    (readdir : string → outcome (list Dirent.t))
    (readFile : string → outcome string)
    (join : string → string → string) (basename : string → string)
    (parseTSConfig : string → outcome TSConfig)
    (fuel : nat) (projectRoot : string) (configFiles : list string) :
  (∀ dir name, name ∈ CONFIG_FILE_NAMES → basename (join dir name) = name) →
  findTSConfigs readdir join fuel projectRoot = Some (Returns configFiles) →
  Forall (fun configFile => basename configFile ∈ CONFIG_FILE_NAMES) configFiles ∧
  findAndMergeConfigs readdir readFile join basename parseTSConfig fuel projectRoot =
    held (mergeConfigs (readTSConfig readFile parseTSConfig)
            (determineRelevantConfigs basename configFiles)) ∧
  (configFiles ≠ [] →
   front_is_best basename configFiles
     (determineRelevantConfigs basename configFiles)) ∧
  (configFiles = [] →
   findAndMergeConfigs readdir readFile join basename parseTSConfig fuel projectRoot =
     Some (Returns emptyConfig)).
Proof.
  intros Hbasename Hfound.
  assert (Forall (fun configFile => basename configFile ∈ CONFIG_FILE_NAMES)
            configFiles) as Hnamed.
  { pose proof (scanDirectory_sound readdir join projectRoot fuel projectRoot
                  [] configFiles (reads_root _ _ _) Hfound (Forall_nil_2 _)) as Hsound.
    eapply Forall_impl; [exact Hsound|]. intros configFile.
    by apply discovered_named. }
  unfold findAndMergeConfigs. rewrite Hfound. split_and!; [done..| |].
  - intros Hsome. by apply determineRelevantConfigs_invariant.
  - by intros ->.
Qed.

Lemma findAndMergeConfigs_merges_ranked_files_witness :
  ∃ merged,
    findAndMergeConfigs (sample_tree sample_unreadable) sample_tree_readFile
      sample_join posix_basename sample_tree_parseTSConfig 2 "/repo"
      = Some (Returns merged) ∧
    determineRelevantConfigs posix_basename
      ["/repo/src/tsconfig.app.json"; "/repo/tsconfig.json"] =
      ["/repo/tsconfig.json"; "/repo/src/tsconfig.app.json"] ∧
    compilerOptions merged ≫= Obj.get "target" = Some (JStr "es2022") ∧
    include merged = Some ["src"; "app"; "src"].
Proof.
  destruct (findAndMergeConfigs_merges_ranked_files
              (sample_tree sample_unreadable) sample_tree_readFile sample_join
              posix_basename sample_tree_parseTSConfig 2 "/repo"
              ["/repo/src/tsconfig.app.json"; "/repo/tsconfig.json"])
    as (_ & Hmerge & _ & _).
  { intros dir name. apply posix_basename_sample_join. }
  { reflexivity. }
  eexists. split; [rewrite Hmerge; reflexivity|]. by split_and!.
Defined.

(** ** Patterns and the structure cross-check *)

Lemma append_assoc (a b c : string) : (a +:+ b) +:+ c = a +:+ b +:+ c.
Proof.
  induction a as [|x a IH]; [done|].
  change (String x ((a +:+ b) +:+ c) = String x (a +:+ b +:+ c)). by rewrite IH.
Qed.

Lemma replace_all_app c replacement a b :
  replace_all c replacement (a +:+ b) =
  replace_all c replacement a +:+ replace_all c replacement b.
Proof.
  induction a as [|c' a IH]; simpl; [done|].
  destruct (Ascii.eqb c' c); simpl; rewrite IH; [|done].
  by rewrite append_assoc.
Qed.

Lemma regexPattern_cons c pattern :
  regexPattern (String c pattern) = translate c +:+ regexPattern pattern.
Proof.
  unfold regexPattern, translate. simpl.
  destruct (Ascii.eqb c ".") eqn:Hdot.
  - rewrite !replace_all_app. reflexivity.
  - simpl. destruct (Ascii.eqb c "*") eqn:Hstar.
    + rewrite !replace_all_app. reflexivity.
    + simpl. by destruct (Ascii.eqb c "?").
Qed.

(** X13. The three replacements of [minimatch], run one after the other,
    come to a translation character by character: a dot becomes an escaped
    dot, a star becomes [.*], a question mark becomes a dot, and every other
    character stands for itself. So the translation of a concatenation is
    the concatenation of the translations, and a pattern without these three
    characters reaches the engine as it is, the characters that are special
    to the engine included. *)
Theorem regexPattern_translates_each_character (pattern : string) :
  regexPattern pattern = translate_all pattern ∧
  (∀ rest, regexPattern (pattern +:+ rest) =
           regexPattern pattern +:+ regexPattern rest) ∧
  (Forall (fun c => c ∉ ["."; "*"; "?"]%char) (list_ascii_of_string pattern) →
   regexPattern pattern = pattern).
Proof.
  assert (∀ p, regexPattern p = translate_all p) as Htranslate.
  { induction p as [|c p IH]; [done|]. rewrite regexPattern_cons. simpl.
    by rewrite IH. }
  split_and!; [done| |].
  - intros rest. rewrite !Htranslate.
    induction pattern as [|c pattern IH]; simpl; [done|].
    by rewrite IH, append_assoc.
  - rewrite Htranslate. induction pattern as [|c pattern IH]; simpl; [done|].
    intros [Hc Hrest]%Forall_cons. rewrite IH by done.
    rewrite !not_elem_of_cons in Hc. destruct Hc as (Hdot & Hstar & Hmark & _).
    unfold translate.
    apply Ascii.eqb_neq in Hdot, Hstar, Hmark. by rewrite Hdot, Hstar, Hmark.
Qed.

(** X14. A structure without files is checked without a pattern being
    handed to the engine: the analysis returns whatever the patterns are,
    even with an engine that accepts none. It reports every declared file
    as missing and counts no file for [include]; nothing is said about
    [exclude]. *)
Theorem analyzeProjectStructure_of_no_files
    (RegExp : string → outcome (string → bool))
    (structure : ProjectStructure.t) (tsconfig : TSConfig) :
  ProjectStructure.files structure = [] →
  analyzeProjectStructure RegExp structure tsconfig =
    Returns
      (match files tsconfig with
       | Some (file :: declared) =>
           "The following files specified in 'files' are missing from the project:"
             :: map (fun file => "  - " +:+ file) (file :: declared)
       | _ => []
       end ++
       match include tsconfig with
       | Some _ => ["Found 0 files matching 'include' patterns."]
       | None => []
       end).
Proof.
  intros Hfiles. unfold analyzeProjectStructure. rewrite Hfiles.
  assert (∀ declared : list string,
            filter (fun file => file ∉ ([] : list string)) declared = declared)
    as Hmissing.
  { induction declared as [|file declared IH]; [done|].
    rewrite filter_cons_True by apply not_elem_of_nil. by rewrite IH. }
  destruct (files tsconfig) as [[|file declared]|];
    rewrite ?Hmissing; simpl;
    destruct (include tsconfig), (exclude tsconfig); simpl;
    by rewrite ?app_nil_r.
Qed.

Lemma analyzeProjectStructure_of_no_files_witness :
  analyzeProjectStructure rejecting_RegExp
    {| ProjectStructure.files := []; ProjectStructure.directories := ["src"] |}
    {| compilerOptions := None; include := Some ["("]; exclude := Some ["["];
       extends := None; files := Some ["src/a.ts"]; other := [] |} =
  Returns
    [ "The following files specified in 'files' are missing from the project:";
      "  - src/a.ts";
      "Found 0 files matching 'include' patterns." ].
Proof.
  exact (analyzeProjectStructure_of_no_files rejecting_RegExp
           {| ProjectStructure.files := [];
              ProjectStructure.directories := ["src"] |}
           {| compilerOptions := None; include := Some ["("];
              exclude := Some ["["]; extends := None;
              files := Some ["src/a.ts"]; other := [] |} eq_refl).
Defined.

(** ** Resolution of a package *)

(** X15. [resolvePackageConfig] never throws. It gives [null] for a
    package whose manifest cannot be read or parsed, also when the package
    has a [tsconfig.json]. With a manifest, an accessible [tsconfig.json] is
    what it reads, whatever the manifest declares; without one, the file
    that [types] names, when accessible, is read and parsed as a
    configuration. What cannot be read or parsed gives [null]. *)
Theorem resolvePackageConfig_reads_first_accessible
    (readFile : string → outcome string) (access : string → outcome unit)
    (join : string → string → string)
    (parseTSConfig : string → outcome TSConfig)
    (parsePackageJson : string → outcome PackageJson.t)
    (packagePath : string) :
  let resolved :=
    resolvePackageConfig readFile access join parseTSConfig parsePackageJson
      packagePath in
  let parsed (configPath : string) : option TSConfig :=
    match readTSConfig readFile parseTSConfig configPath with
    | Returns config => Some config
    | Raises _ => None
    end in
  (∃ config, resolved = Returns config) ∧
  (∀ e, readFile (join packagePath "package.json") = Raises e →
     resolved = Returns None) ∧
  (∀ content e,
     readFile (join packagePath "package.json") = Returns content →
     parsePackageJson content = Raises e →
     resolved = Returns None) ∧
  (∀ content manifest,
     readFile (join packagePath "package.json") = Returns content →
     parsePackageJson content = Returns manifest →
     access (join packagePath "tsconfig.json") = Returns () →
     join packagePath "tsconfig.json" ≠ "" →
     resolved = Returns (parsed (join packagePath "tsconfig.json"))) ∧
  (∀ content manifest declared e,
     readFile (join packagePath "package.json") = Returns content →
     parsePackageJson content = Returns manifest →
     access (join packagePath "tsconfig.json") = Raises e →
     PackageJson.types manifest = Some declared →
     declared ≠ "" →
     access (join packagePath declared) = Returns () →
     join packagePath declared ≠ "" →
     resolved = Returns (parsed (join packagePath declared))).
Proof.
  intros resolved parsed. subst resolved parsed. split_and!.
  - apply resolvePackageConfig_returns.
  - intros e Hread. unfold resolvePackageConfig. by rewrite Hread.
  - intros content e Hread Hparse. unfold resolvePackageConfig.
    rewrite Hread. cbn [mbind outcome_bind]. by rewrite Hparse.
  - intros content manifest Hread Hparse Haccess Hpath.
    unfold resolvePackageConfig. rewrite Hread. cbn [mbind outcome_bind].
    rewrite Hparse. cbn [mbind outcome_bind].
    unfold findTSConfig, possiblePaths. simpl. rewrite Haccess. simpl.
    apply String.eqb_neq in Hpath. rewrite Hpath.
    by destruct (readTSConfig readFile parseTSConfig _).
  - intros content manifest declared e Hread Hparse Haccess Htypes Hdeclared
      Haccess' Hpath.
    unfold resolvePackageConfig. rewrite Hread. cbn [mbind outcome_bind].
    rewrite Hparse. cbn [mbind outcome_bind].
    unfold findTSConfig, possiblePaths. rewrite Htypes.
    apply String.eqb_neq in Hdeclared. rewrite Hdeclared. simpl.
    rewrite Haccess. simpl. rewrite Haccess'. simpl.
    apply String.eqb_neq in Hpath. rewrite Hpath.
    by destruct (readTSConfig readFile parseTSConfig _).
Qed.

(** X16. [scanNodeModules] returns a map whose keys are distinct and are
    package names, [name] or [@scope/name], as long as the names of
    directory entries have no slash: what it returns meets the conditions
    on names under which the path entries of different dependencies cannot
    collide in [incorporateDependencyConfigs]. *)
Theorem scanNodeModules_keys_are_package_names
    (readdir : string → outcome (list Dirent.t))
    (readFile : string → outcome string) (access : string → outcome unit)
    (join : string → string → string)
    (parseTSConfig : string → outcome TSConfig)
    (parsePackageJson : string → outcome PackageJson.t)
    (projectRoot : string) :
  plain_entry_names readdir →
  ∃ dependencyConfigs,
    scanNodeModules readdir readFile access join parseTSConfig parsePackageJson
      projectRoot = Returns dependencyConfigs ∧
    NoDup (Obj.keys dependencyConfigs) ∧
    Forall (fun name => is_package_name name = true) (Obj.keys dependencyConfigs).
Proof.
  intros Hplain.
  assert (∃ dependencyConfigs,
            scanNodeModules readdir readFile access join parseTSConfig
              parsePackageJson projectRoot = Returns dependencyConfigs)
    as [dependencyConfigs Hscan].
  { unfold scanNodeModules.
    destruct (scanTryBlock _ _ _ _ _ _ _) as [deps [[]|e]]; by eexists. }
  exists dependencyConfigs. split; [done|].
  destruct (scanNodeModules_package_keys _ _ _ _ _ _ Hplain _ _ Hscan)
    as [Hnodup Hnames].
  rewrite keys_entries in Hnodup. split; [done|].
  rewrite <- keys_entries. by apply Forall_fmap.
Qed.

Lemma scanNodeModules_keys_are_package_names_witness :
  ∃ dependencyConfigs,
    scanNodeModules sample_readdir sample_readFile sample_access sample_join
      sample_parseTSConfig sample_parsePackageJson "/project"
      = Returns dependencyConfigs ∧
    Obj.keys dependencyConfigs = ["left-pad"] ∧
    NoDup (Obj.keys dependencyConfigs) ∧
    Forall (fun name => is_package_name name = true) (Obj.keys dependencyConfigs).
Proof.
  destruct (scanNodeModules_keys_are_package_names sample_readdir
              sample_readFile sample_access sample_join sample_parseTSConfig
              sample_parsePackageJson "/project")
    as (dependencyConfigs & Hscan & Hnodup & Hnames).
  { intros dir entries. unfold sample_readdir.
    destruct (String.eqb dir "/project/node_modules"); [|done].
    intros [= <-]. repeat (apply Forall_cons_2; [reflexivity|]).
    apply Forall_nil_2. }
  exists dependencyConfigs. split_and!; [done| |done..].
  revert Hscan. vm_compute. by intros [= <-].
Defined.

(** ** Fixes *)

Lemma analyzeCommonIssues_detect config :
  analyzeCommonIssues config = (detected ← detect config;
                                Returns (map (detected_issue config) detected)).
Proof. reflexivity. Qed.

Lemma filter_all {A} (P : A → Prop) `{!∀ x, Decision (P x)} (l : list A) :
  Forall P l → filter P l = l.
Proof.
  induction 1 as [|x l Hx _ IH]; [done|].
  by rewrite filter_cons_True, IH.
Qed.

(** A change of the test that leaves it as it was where [P] holds and makes
    it fail elsewhere filters what was kept. *)
Lemma array_filter_restrict {A} (P : A → Prop) `{!∀ x, Decision (P x)}
    (keep keep' : A → outcome bool) (l kept : list A) :
  array_filter keep l = Returns kept →
  (∀ x, x ∈ l → P x → keep' x = keep x) →
  (∀ x, x ∈ l → ¬ P x → keep' x = Returns false) →
  array_filter keep' l = Returns (filter P kept).
Proof.
  revert kept. induction l as [|x l IH]; intros kept; simpl.
  - by intros [= <-].
  - destruct (keep x) as [b|e] eqn:Hx; simpl; [|done].
    destruct (array_filter keep l) as [kept'|e] eqn:Hl; simpl; [|done].
    intros [= <-] Hsame Hfalse.
    rewrite (IH kept' eq_refl); cycle 1.
    { intros y Hy. apply Hsame. by right. }
    { intros y Hy. apply Hfalse. by right. }
    destruct (decide (P x)) as [HP|HP].
    + rewrite Hsame, Hx by (done || by left). simpl.
      destruct b; [by rewrite filter_cons_True|done].
    + rewrite Hfalse by (done || by left). simpl.
      destruct b; [by rewrite filter_cons_False|done].
Qed.

Lemma detect_catalog config detected :
  detect config = Returns detected →
  detected `sublist_of` commonIssues ∧ NoDup (map Issue.setting detected).
Proof.
  intros Hdetect%array_filter_sublist. split; [done|].
  eapply sublist_NoDup; [apply commonIssues_settings_distinct|].
  by apply (fmap_sublist Issue.setting).
Qed.

(** The rules that fire once the fix of a rule has been applied: those
    that fired before, without the rule. *)
Lemma detect_after_fix config detected rule :
  detect config = Returns detected →
  rule ∈ commonIssues →
  detect (Issue.fix_ rule config) =
    Returns (filter (fun r => Issue.setting r ≠ Issue.setting rule) detected).
Proof.
  intros Hdetect Hin. unfold detect.
  apply (array_filter_restrict _ _ _ _ _ Hdetect).
  - intros r Hr Hne. apply check_after_other_fix; [done..|]. by intros ->.
  - intros r Hr Heq. apply dec_stable in Heq.
    assert (r = rule) as ->.
    { by apply (NoDup_fmap_eq Issue.setting commonIssues);
        [apply commonIssues_settings_distinct|..]. }
    by apply check_after_own_fix.
Qed.

Lemma detect_after_fix_at config before rule after :
  detect config = Returns (before ++ rule :: after) →
  detect (Issue.fix_ rule config) = Returns (before ++ after).
Proof.
  intros Hdetect. destruct (detect_catalog _ _ Hdetect) as [Hsub Hnodup].
  assert (rule ∈ commonIssues) as Hin.
  { eapply elem_of_sublist; [|exact Hsub].
    apply elem_of_app. right. by left. }
  rewrite (detect_after_fix _ _ _ Hdetect Hin).
  rewrite map_app in Hnodup. cbn [map] in Hnodup.
  apply NoDup_app in Hnodup as (_ & Hbefore & [Hrule _]%NoDup_cons).
  rewrite filter_app, filter_cons_False by (by intros Hne; apply Hne).
  rewrite !filter_all; [done| |].
  - apply Forall_forall. intros r Hr Heq. apply Hrule. rewrite <- Heq.
    by apply (list_elem_of_fmap_2 Issue.setting).
  - apply Forall_forall. intros r Hr Heq.
    apply (Hbefore (Issue.setting r)).
    + by apply (list_elem_of_fmap_2 Issue.setting).
    + rewrite Heq. by left.
Qed.

Lemma applyFix_at config detected i rule :
  detect config = Returns detected →
  detected !! i = Some rule →
  applyFix config (Z.of_nat i) = Returns (Issue.fix_ rule config).
Proof.
  intros Hdetect Hrule. unfold applyFix.
  rewrite analyzeCommonIssues_detect, Hdetect. cbn [mbind outcome_bind].
  rewrite length_map.
  apply lookup_lt_Some in Hrule as Hlt.
  assert (Z.leb 0 (Z.of_nat i) && Z.ltb (Z.of_nat i) (Z.of_nat (length detected))
          = true) as ->.
  { apply andb_true_iff. split; [apply Z.leb_le|apply Z.ltb_lt]; lia. }
  rewrite Nat2Z.id. rewrite (list_lookup_fmap (detected_issue config)), Hrule.
  done.
Qed.

Lemma applyFix_past config detected i :
  detect config = Returns detected →
  length detected ≤ i →
  applyFix config (Z.of_nat i) = Returns config.
Proof.
  intros Hdetect Hle. unfold applyFix.
  rewrite analyzeCommonIssues_detect, Hdetect. cbn [mbind outcome_bind].
  rewrite length_map.
  assert (Z.leb 0 (Z.of_nat i) && Z.ltb (Z.of_nat i) (Z.of_nat (length detected))
          = false) as ->; [|done].
  apply andb_false_iff. right. apply Z.ltb_ge. lia.
Qed.

(** The loop at the round of index [i], when the rules that fire are those
    of [kept], which the loop has passed, followed by those of [rest], which
    start at the index of the round. *)
Lemma applyFixes_from rounds : ∀ i config kept rest,
  detect config = Returns (kept ++ rest) →
  length kept = i ∨ (rest = [] ∧ length kept ≤ i) →
  length rest ≤ rounds →
  ∃ fixed,
    applyFixes config i rounds = (Returns (), fixed) ∧
    detect fixed = Returns (kept ++ every_other rest).
Proof.
  induction rounds as [|rounds IH]; intros i config kept rest Hdetect Hi Hrounds.
  - destruct rest; [|simpl in Hrounds; lia]. by exists config.
  - simpl. destruct rest as [|rule rest].
    + rewrite (applyFix_past _ _ _ Hdetect)
        by (rewrite length_app; simpl; destruct Hi as [?|[_ ?]]; lia).
      apply (IH (S i) config kept []); [done| |simpl; lia].
      right. split; [done|]. destruct Hi as [?|[_ ?]]; lia.
    + destruct Hi as [Hi|[? _]]; [|done].
      rewrite (applyFix_at _ _ _ rule Hdetect)
        by (rewrite lookup_app_r, Hi, Nat.sub_diag by lia; done).
      apply detect_after_fix_at in Hdetect.
      destruct rest as [|next rest].
      * apply (IH (S i) _ kept []); [done| |simpl; lia].
        right. split; [done|lia].
      * destruct (IH (S i) (Issue.fix_ rule config) (kept ++ [next]) rest)
          as (fixed & Hfixed & Hdetect').
        { by rewrite <- app_assoc. }
        { left. rewrite length_app. simpl. lia. }
        { simpl in Hrounds. lia. }
        exists fixed. split; [done|]. rewrite Hdetect'.
        by rewrite <- app_assoc.
Qed.

Lemma every_other_fmap {A B} (f : A → B) (l : list A) :
  every_other (map f l) = map f (every_other l).
Proof.
  revert l. fix IH 1. intros [|x [|y l]]; [done..|].
  simpl. f_equal. apply IH.
Qed.

Lemma every_other_length {A} (l : list A) :
  length (every_other l) = length l / 2.
Proof.
  revert l. fix IH 1. intros [|x [|y l]]; [done..|].
  cbn [every_other length]. rewrite IH.
  change (S (S (length l))) with (1 * 2 + length l) at 1.
  rewrite (Nat.add_comm (1 * 2)), Nat.div_add by done. lia.
Qed.

(** X17. [applyFix] with an index in the range of the detected issues
    returns the configuration in which the option of that issue holds the
    value of its fix. Every other compiler option reads as before, and so
    do [include], [exclude], [files], [extends] and every other top-level
    key: a fix changes one option and nothing else. *)
Theorem applyFix_changes_one_option
    (config : TSConfig) (issues : list Detected.t) (fixIndex : Z) :
  analyzeCommonIssues config = Returns issues →
  (0 ≤ fixIndex < Z.of_nat (length issues))%Z →
  ∃ rule fixed,
    rule ∈ commonIssues ∧
    Detected.description <$> issues !! Z.to_nat fixIndex
      = Some (Issue.description rule) ∧
    applyFix config fixIndex = Returns fixed ∧
    get_option fixed (Issue.setting rule) = Some (Issue.value rule) ∧
    (∀ setting, setting ≠ Issue.setting rule →
       get_option fixed setting = get_option config setting) ∧
    include fixed = include config ∧
    exclude fixed = exclude config ∧
    files fixed = files config ∧
    extends fixed = extends config ∧
    (∀ key, Obj.get key (other fixed) = Obj.get key (other config)).
Proof.
  intros Hissues Hrange. rewrite analyzeCommonIssues_detect in Hissues.
  destruct (detect config) as [detected|e] eqn:Hdetect; [|done].
  cbn [mbind outcome_bind] in Hissues. injection Hissues as <-.
  rewrite length_map in Hrange.
  destruct (lookup_lt_is_Some_2 detected (Z.to_nat fixIndex)) as [rule Hrule];
    [lia|].
  exists rule, (Issue.fix_ rule config). split_and!.
  - eapply elem_of_sublist; [by eapply list_elem_of_lookup_2|].
    by apply detect_catalog in Hdetect as [? _].
  - by rewrite (list_lookup_fmap (detected_issue config)), Hrule.
  - rewrite <- (Z2Nat.id fixIndex) by lia. by eapply applyFix_at.
  - unfold Issue.fix_. by rewrite get_option_set_option, decide_True.
  - intros setting Hne. unfold Issue.fix_.
    by rewrite get_option_set_option, decide_False.
  - done.
  - done.
  - done.
  - done.
  - intros key. unfold Issue.fix_, set_option. simpl. rewrite get_assign.
    by destruct (Obj.get key (other config)).
Qed.

Lemma applyFix_changes_one_option_witness :
  ∃ fixed,
    applyFix sample_base_config 0 = Returns fixed ∧
    get_option fixed "module" = Some (JStr "ESNext") ∧
    get_option fixed "target" = Some (JStr "es2022") ∧
    get_option fixed "strict" = Some (JBool true) ∧
    include fixed = Some ["src"] ∧
    Obj.get "compileOnSave" (other fixed) = Some (JBool true).
Proof.
  destruct (analyzeCommonIssues sample_base_config) as [issues|e] eqn:Hissues;
    [|by vm_compute in Hissues].
  destruct (applyFix_changes_one_option sample_base_config issues 0 Hissues)
    as (rule & fixed & Hrule & Hdescription & Hfix & Hvalue & Hothers
        & Hinclude & _ & _ & _ & Hother).
  { vm_compute in Hissues. injection Hissues as <-. simpl. lia. }
  exists fixed. revert Hdescription Hvalue Hothers.
  vm_compute in Hissues. injection Hissues as <-. cbn [lookup list_lookup fmap option_fmap option_map Detected.description Z.to_nat].
  intros [= Hdescription] Hvalue Hothers.
  assert (Issue.setting rule = "module") as Hsetting.
  { revert Hdescription. unfold commonIssues in Hrule.
    repeat (apply elem_of_cons in Hrule as [->|Hrule]); try done.
    by apply elem_of_nil in Hrule. }
  rewrite Hsetting in Hvalue, Hothers.
  assert (Issue.value rule = JStr "ESNext") as Hwritten.
  { revert Hdescription. unfold commonIssues in Hrule.
    repeat (apply elem_of_cons in Hrule as [->|Hrule]); try done.
    by apply elem_of_nil in Hrule. }
  rewrite Hwritten in Hvalue.
  split_and!; [done|done| | |by rewrite Hinclude|by rewrite Hother].
  - by rewrite Hothers.
  - by rewrite Hothers.
Defined.

(** X18. The loop of [analyzeConfig] that applies the fixes calls
    [applyFix] with the indices [0], [1], ... of the issues it detected at
    first, and [applyFix] detects the issues again on the configuration it
    is given. So the round of index [i] fixes the issue that is then at
    index [i]: the loop fixes the first, the third, the fifth ... of the
    issues detected at first and leaves every second of them. When [n]
    issues were detected, the configuration the loop ends with still has
    the integer half of [n] of them. *)
Theorem applyFixes_leaves_every_other_issue
    (config : TSConfig) (issues : list Detected.t) :
  analyzeCommonIssues config = Returns issues →
  ∃ fixed remaining,
    applyFixes config 0 (length issues) = (Returns (), fixed) ∧
    analyzeCommonIssues fixed = Returns remaining ∧
    map Detected.description remaining =
      every_other (map Detected.description issues) ∧
    length remaining = length issues / 2.
Proof.
  intros Hissues. rewrite analyzeCommonIssues_detect in Hissues.
  destruct (detect config) as [detected|e] eqn:Hdetect; [|done].
  cbn [mbind outcome_bind] in Hissues. injection Hissues as <-.
  rewrite length_map.
  destruct (applyFixes_from (length detected) 0 config [] detected)
    as (fixed & Hfixed & Hremaining); [done|by left|done|].
  exists fixed, (map (detected_issue fixed) (every_other detected)).
  split_and!.
  - done.
  - by rewrite analyzeCommonIssues_detect, Hremaining.
  - rewrite !map_map. cbn [detected_issue Detected.description].
    by rewrite every_other_fmap.
  - by rewrite length_map, every_other_length.
Qed.

Lemma applyFixes_leaves_every_other_issue_witness :
  ∃ issues fixed remaining,
    analyzeCommonIssues sample_legacy_config = Returns issues ∧
    length issues = 13 ∧
    applyFixes sample_legacy_config 0 13 = (Returns (), fixed) ∧
    analyzeCommonIssues fixed = Returns remaining ∧
    map Detected.description remaining =
      [ "Target is set to an outdated ECMAScript version";
        "esModuleInterop is not enabled";
        "skipLibCheck is not enabled";
        "strictNullChecks is not enabled";
        "noUnusedParameters is not enabled";
        "declaration is not enabled" ].
Proof.
  destruct (analyzeCommonIssues sample_legacy_config) as [issues|e] eqn:Hissues;
    [|by vm_compute in Hissues].
  destruct (applyFixes_leaves_every_other_issue sample_legacy_config issues Hissues)
    as (fixed & remaining & Hfixed & Hremaining & Hdescriptions & _).
  exists issues, fixed, remaining.
  vm_compute in Hissues. injection Hissues as <-.
  split_and!; [done|done|exact Hfixed|exact Hremaining|exact Hdescriptions].
Defined.

(** ** The analyzer *)

Lemma detect_generateSuggestions config detected :
  detect config = Returns detected →
  ∃ suggestions, generateSuggestions (Some config) = Returns suggestions.
Proof.
  intros Hdetect.
  pose proof (analyzeCommonIssues_lowers config) as Ha.
  rewrite analyzeCommonIssues_detect, Hdetect in Ha. cbn [mbind outcome_bind] in Ha.
  pose proof (generateSuggestions_lowers config) as Hs.
  destruct (generateSuggestions (Some config)) as [suggestions|e]; [by eexists|].
  destruct Ha as [Ht Hm], Hs as [_ [[? _]|[? _]]]; congruence.
Qed.

Section analyzer_facts.
Variable World : Type.
Variable promptUser : string → string → World → outcome string * World.
Variable zod_message : ZodIssue → string.
Variable RegExp : string → outcome (string → bool).
Variable JSON_stringify : json → string.
Variable JSON_stringify_results : list AnalysisResult.t → string.

(** What [analyzeConfig] makes of a validated configuration on which the
    cross-check and the detection return. *)
Lemma analyzeValidated_returns this validated config structureAnalysis detected :
  cross_check RegExp (TSConfigAnalyzer.projectStructure this) config
    = Returns structureAnalysis →
  detect config = Returns detected →
  let autoFix :=
    enabled (AnalyzerOptions.autoFix (TSConfigAnalyzer.options this)) in
  let messages :=
    validation_messages validated ++ structure_messages structureAnalysis
      ++ issue_messages autoFix detected in
  ∃ config' lines,
    TSConfigAnalyzer.analyzeValidated RegExp JSON_stringify JSON_stringify_results
      this validated config =
      (Returns
         {| Analysis.valid :=
              Validated.valid validated
              || enabled (AnalyzerOptions.ignoreErrors
                            (TSConfigAnalyzer.options this));
            Analysis.messages := messages;
            Analysis.report := String.concat LF (TEXT_HEADER ++ lines);
            Analysis.suggestedFixes :=
              map (fun issue =>
                     {| SuggestedFix.description := Issue.description issue;
                        SuggestedFix.reason := Issue.reason issue |}) detected |},
       config') ∧
    text_section JSON_stringify []
      {| AnalysisResult.configPath := "";
         AnalysisResult.valid := Validated.valid validated;
         AnalysisResult.messages := messages;
         AnalysisResult.config := Some config' |} = Returns lines ∧
    (if autoFix then detect config' = Returns (every_other detected)
     else config' = config).
Proof.
  intros Hcheck Hdetect autoFix messages.
  assert (∃ config',
            (if autoFix && Nat.ltb 0 (length detected)
             then applyFixes config 0 (length detected) = (Returns (), config')
             else config' = config) ∧
            (if autoFix then detect config' = Returns (every_other detected)
             else config' = config)) as (config' & Hloop & Hafter).
  { destruct autoFix; simpl.
    - destruct detected as [|rule detected]; simpl Nat.ltb.
      + by exists config.
      + destruct (applyFixes_from (length (rule :: detected)) 0 config []
                    (rule :: detected)) as (fixed & Hfixed & Hdetect');
          [done|by left|done|].
        by exists fixed.
    - by exists config. }
  assert (∃ suggestions, generateSuggestions (Some config') = Returns suggestions)
    as [suggestions Hsuggestions].
  { destruct autoFix; [by eapply detect_generateSuggestions|].
    subst config'. by eapply detect_generateSuggestions. }
  pose proof (text_section_failure JSON_stringify TEXT_HEADER
                {| AnalysisResult.configPath := "";
                   AnalysisResult.valid := Validated.valid validated;
                   AnalysisResult.messages := messages;
                   AnalysisResult.config := Some config' |}) as Hsection.
  cbn [AnalysisResult.config] in Hsection. rewrite Hsuggestions in Hsection.
  destruct Hsection as (lines & Hreport & Hlines).
  exists config', lines. split_and!; [|done..].
  unfold TSConfigAnalyzer.analyzeValidated.
  rewrite analyzeCommonIssues_detect, Hdetect. cbn [mbind outcome_bind].
  rewrite !length_map.
  assert (generateReport JSON_stringify JSON_stringify_results
            [ {| AnalysisResult.configPath := "";
                 AnalysisResult.valid := Validated.valid validated;
                 AnalysisResult.messages := messages;
                 AnalysisResult.config := Some config' |} ] None
          = Returns (String.concat LF (TEXT_HEADER ++ lines))) as Hgenerate.
  { unfold generateReport, generateTextReport. simpl default.
    cbn [String.eqb Ascii.eqb Bool.eqb]. cbn [text_sections].
    fold TEXT_HEADER. by rewrite Hreport. }
  unfold cross_check in Hcheck. subst messages.
  unfold validation_messages, structure_messages, issue_messages.
  destruct (TSConfigAnalyzer.projectStructure this) as [structure|].
  - destruct (analyzeProjectStructure RegExp structure config) as [notes|e];
      cbn [mbind outcome_bind] in Hcheck; [|done].
    injection Hcheck as <-. cbn [mbind outcome_bind].
    revert Hgenerate. unfold validation_messages, structure_messages, issue_messages.
    fold autoFix.
    destruct (Validated.valid validated); cbn [negb];
      destruct detected as [|rule detected]; cbn [length Nat.ltb Nat.leb];
      rewrite ?andb_false_r, ?andb_true_r in Hloop;
      destruct autoFix; cbn [andb length Nat.ltb Nat.leb] in Hloop;
      rewrite ?Hloop; subst; cbn [app map];
      rewrite <- ?app_assoc; cbn [app map]; rewrite ?map_map;
      cbn [Detected.description Detected.reason detected_issue];
      rewrite ?app_nil_r; cbv beta iota zeta; intros ->; reflexivity.
  - injection Hcheck as <-.
    revert Hgenerate. unfold validation_messages, structure_messages, issue_messages.
    fold autoFix.
    destruct (Validated.valid validated); cbn [negb];
      destruct detected as [|rule detected]; cbn [length Nat.ltb Nat.leb];
      rewrite ?andb_false_r, ?andb_true_r in Hloop;
      destruct autoFix; cbn [andb length Nat.ltb Nat.leb] in Hloop;
      rewrite ?Hloop; subst; cbn [app map];
      rewrite <- ?app_assoc; cbn [app map]; rewrite ?map_map;
      cbn [Detected.description Detected.reason detected_issue];
      rewrite ?app_nil_r; cbv beta iota zeta; intros ->; reflexivity.
Qed.

Lemma validateLoaded_without_options options config w :
  compilerOptions config = None →
  TSConfigAnalyzer.validateLoaded World promptUser zod_message options config w =
    Some (Returns TSConfigAnalyzer.no_compiler_options, config, w).
Proof. unfold TSConfigAnalyzer.validateLoaded. by intros ->. Qed.

Lemma validateLoaded_quiet options config declared w :
  compilerOptions config = Some declared →
  valid (validateCompilerOptions (JObj declared)) = true
  ∨ enabled (AnalyzerOptions.ignoreErrors options) = true →
  TSConfigAnalyzer.validateLoaded World promptUser zod_message options config w =
    Some (Returns
            {| Validated.valid := valid (validateCompilerOptions (JObj declared));
               Validated.errors :=
                 map (TSConfigAnalyzer.reported zod_message)
                   (errors (validateCompilerOptions (JObj declared))) |},
          config, w).
Proof.
  unfold TSConfigAnalyzer.validateLoaded. intros -> [-> | ->]; [done|].
  by rewrite andb_false_r.
Qed.

Lemma correct_option config declared k correction :
  compilerOptions config = Some declared →
  TSConfigAnalyzer.correct config [Key k] correction =
    Some (Returns (TSConfigAnalyzer.with_compilerOptions config
                     (Obj.set k (JStr correction) declared))).
Proof. unfold TSConfigAnalyzer.correct. by intros ->. Qed.
End analyzer_facts.

Lemma prefix_append (s x : string) : String.prefix s (s +:+ x) = true.
Proof.
  induction s as [|c s IH]; simpl; [by destruct x|].
  destruct (ascii_dec c c); [done|congruence].
Qed.

(** The loop of [handleValidationErrors] with a user who agrees to every
    correction, on errors that each lie on an option. *)
Lemma handleValidationErrors_agreed {World : Type}
    (promptUser : string → string → World → outcome string * World)
    errors : ∀ correctedErrors config w,
  agrees promptUser →
  is_Some (compilerOptions config) →
  Forall (fun error => ∃ k, Reported.path error = [Key k]) errors →
  ∃ config' w',
    TSConfigAnalyzer.handleValidationErrors_from World promptUser errors
      correctedErrors config w = Some (Returns correctedErrors, config', w') ∧
    is_Some (compilerOptions config') ∧
    (∀ k, holds_string config k → holds_string config' k) ∧
    Forall (fun error => ∃ k, Reported.path error = [Key k] ∧ holds_string config' k)
      errors ∧
    include config' = include config ∧ exclude config' = exclude config ∧
    files config' = files config.
Proof.
  induction errors as [|error errors IH]; intros correctedErrors config w
    Hagrees Hoptions Herrors.
  - exists config, w. by split_and!.
  - apply Forall_cons in Herrors as [[k Hk] Herrors].
    cbn [TSConfigAnalyzer.handleValidationErrors_from].
    unfold TSConfigAnalyzer.handleValidationError. rewrite Hk.
    cbn [map segment_text String.concat].
    destruct (Hagrees
      ("Do you want to correct the error: "
         +:+ (k +:+ ": " +:+ Reported.message error) +:+ "? (yes/no)")
      ("correct_error_" +:+ k) w) as (answer & w1 & -> & Hyes).
    rewrite Hyes by apply prefix_append. cbn [String.eqb Ascii.eqb Bool.eqb].
    destruct (Hagrees ("Enter the correct value for " +:+ k +:+ ":")
                ("correction_" +:+ k) w1) as (correction & w2 & -> & _).
    destruct Hoptions as [declared Hdeclared].
    rewrite (correct_option _ _ _ _ Hdeclared).
    destruct (IH correctedErrors
                (TSConfigAnalyzer.with_compilerOptions config
                   (Obj.set k (JStr correction) declared)) w2 Hagrees)
      as (config' & w' & Hrun & Hoptions' & Hkeeps & Hholds & Hinclude & Hexclude
          & Hfiles); [done|done|].
    exists config', w'. split_and!; [done|done| | |done|done|done].
    + intros k' [text Htext]. apply Hkeeps.
      unfold holds_string, get_option. simpl. rewrite get_set.
      case_decide; [by eexists|].
      exists text. revert Htext. unfold get_option. by rewrite Hdeclared.
    + constructor; [|done]. exists k. split; [done|]. apply Hkeeps.
      exists correction. unfold get_option. simpl. by rewrite get_set_eq.
Qed.

(** X19. With [ignoreErrors] set, [analyzeConfig] asks the user nothing,
    and when the cross-check of the structure and the detection of the
    common issues return, it returns an analysis whose [valid] is true. It
    is true also when the compiler options are missing or rejected by the
    schema: then the first message says that the validation of the
    compiler options has failed, and the report of the same analysis reads
    [Overall Validity: Invalid]. *)
Theorem analyzeConfig_ignoring_errors_is_valid
    (World : Type)
    (promptUser : string → string → World → outcome string * World)
    (zod_message : ZodIssue → string)
    (RegExp : string → outcome (string → bool))
    (JSON_stringify : json → string)
    (JSON_stringify_results : list AnalysisResult.t → string)
    (this : TSConfigAnalyzer.t) (config : TSConfig)
    (structureAnalysis : option (list string)) (detected : list Issue.t)
    (w : World) :
  TSConfigAnalyzer.config this = Some config →
  enabled (AnalyzerOptions.ignoreErrors (TSConfigAnalyzer.options this)) = true →
  cross_check RegExp (TSConfigAnalyzer.projectStructure this) config
    = Returns structureAnalysis →
  detect config = Returns detected →
  ∃ analysis this',
    TSConfigAnalyzer.analyzeConfig World promptUser zod_message RegExp
      JSON_stringify JSON_stringify_results this w
      = Some (Returns analysis, this', w) ∧
    Analysis.valid analysis = true ∧
    (match compilerOptions config with
     | Some declared => valid (validateCompilerOptions (JObj declared)) = false
     | None => True
     end →
     head (Analysis.messages analysis)
       = Some "Compiler options validation failed:" ∧
     ∃ rest,
       Analysis.report analysis =
         String.concat LF
           (TEXT_HEADER ++ ["Configuration: "; "Overall Validity: Invalid"] ++ rest)).
Proof.
  intros Hconfig Hignore Hcheck Hdetect.
  unfold TSConfigAnalyzer.analyzeConfig. rewrite Hconfig.
  assert (∃ validated,
            TSConfigAnalyzer.validateLoaded World promptUser zod_message
              (TSConfigAnalyzer.options this) config w
              = Some (Returns validated, config, w) ∧
            (match compilerOptions config with
             | Some declared =>
                 valid (validateCompilerOptions (JObj declared)) = false
             | None => True
             end → Validated.valid validated = false))
    as (validated & -> & Hinvalid).
  { destruct (compilerOptions config) as [declared|] eqn:Hdeclared.
    - eexists. split; [by apply (validateLoaded_quiet _ _ _ _ _ declared); auto|].
      done.
    - eexists. split; [by apply validateLoaded_without_options|]. done. }
  destruct (analyzeValidated_returns RegExp JSON_stringify JSON_stringify_results
              this validated config structureAnalysis detected Hcheck Hdetect)
    as (config' & lines & -> & Hlines & _).
  eexists _, _. split; [reflexivity|]. cbn [Analysis.valid Analysis.messages
    Analysis.report]. split; [by rewrite Hignore, orb_true_r|].
  intros Hrejected. specialize (Hinvalid Hrejected).
  unfold validation_messages. rewrite Hinvalid. split; [done|].
  revert Hlines. unfold text_section. rewrite Hinvalid.
  cbn [AnalysisResult.config AnalysisResult.valid AnalysisResult.configPath].
  destruct (generateSuggestions (Some config')) as [suggestions|e];
    cbn [mbind outcome_bind]; [|done].
  intros [= <-].
  destruct (Nat.ltb 0 (length suggestions)); cbn [app]; eexists; reflexivity.
Qed.

Lemma analyzeConfig_ignoring_errors_is_valid_witness :
  ∃ analysis this',
    TSConfigAnalyzer.analyzeConfig nat sample_promptUser sample_zod_message
      wildcard_RegExp sample_stringify sample_stringify_results
      (sample_analyzer (AnalyzerOptions.mk (Some true) None)) 0
      = Some (Returns analysis, this', 0) ∧
    Analysis.valid analysis = true ∧
    head (Analysis.messages analysis) = Some "Compiler options validation failed:" ∧
    ∃ rest,
      Analysis.report analysis =
        String.concat LF
          (TEXT_HEADER ++ ["Configuration: "; "Overall Validity: Invalid"] ++ rest).
Proof.
  edestruct (analyzeConfig_ignoring_errors_is_valid nat sample_promptUser
               sample_zod_message wildcard_RegExp sample_stringify
               sample_stringify_results
               (sample_analyzer (AnalyzerOptions.mk (Some true) None))
               sample_mistyped_config)
    as (analysis & this' & Hrun & Hvalid & Hinvalid).
  - reflexivity.
  - reflexivity.
  - vm_compute. reflexivity.
  - vm_compute. reflexivity.
  - exists analysis, this'. split; [exact Hrun|]. split; [exact Hvalid|].
    apply Hinvalid. reflexivity.
Defined.

(** X20. When the schema rejects the compiler options, errors are not
    ignored and the user agrees to correct every error, the method
    [validateCompilerOptions] writes each answer to the option in error as
    the string that was typed, and then reports the options valid, with no
    error left, without validating them again. For errors that each lie on
    an option: every option that was in error holds a string afterwards,
    also an option that the schema wants boolean, and [include],
    [exclude] and [files] are as before. *)
Theorem validateCompilerOptions_trusts_corrections
    (World : Type)
    (promptUser : string → string → World → outcome string * World)
    (zod_message : ZodIssue → string)
    (options : AnalyzerOptions.t) (config : TSConfig)
    (declared : Obj.t json) (w : World) :
  compilerOptions config = Some declared →
  valid (validateCompilerOptions (JObj declared)) = false →
  enabled (AnalyzerOptions.ignoreErrors options) = false →
  Forall (fun issue => ∃ k, path issue = [Key k])
    (errors (validateCompilerOptions (JObj declared))) →
  agrees promptUser →
  ∃ config' w',
    TSConfigAnalyzer.validateLoaded World promptUser zod_message options config w =
      Some (Returns {| Validated.valid := true; Validated.errors := [] |},
            config', w') ∧
    Forall (fun issue => ∃ k, path issue = [Key k] ∧ holds_string config' k)
      (errors (validateCompilerOptions (JObj declared))) ∧
    include config' = include config ∧
    exclude config' = exclude config ∧
    files config' = files config.
Proof.
  intros Hdeclared Hinvalid Hignore Htop Hagrees.
  unfold TSConfigAnalyzer.validateLoaded. rewrite Hdeclared, Hinvalid, Hignore.
  cbn [negb andb]. unfold TSConfigAnalyzer.handleValidationErrors.
  destruct (handleValidationErrors_agreed promptUser
              (map (TSConfigAnalyzer.reported zod_message)
                 (errors (validateCompilerOptions (JObj declared))))
              [] config w Hagrees)
    as (config' & w' & -> & _ & _ & Hholds & Hinclude & Hexclude & Hfiles).
  { by rewrite Hdeclared. }
  { apply Forall_fmap. eapply Forall_impl; [exact Htop|].
    intros issue [k Hk]. by exists k. }
  exists config', w'. split_and!; [done| |done..].
  apply Forall_forall. intros issue Hin. rewrite Forall_forall in Hholds.
  apply (Hholds (TSConfigAnalyzer.reported zod_message issue)).
  by apply (list_elem_of_fmap_2 (TSConfigAnalyzer.reported zod_message)).
Qed.

Lemma validateCompilerOptions_trusts_corrections_witness :
  ∃ config' asked,
    errors (validateCompilerOptions
              (JObj [ ("strict", JStr "yes"); ("target", JStr "es2022") ]))
      = [ invalid_type [Key "strict"] ] ∧
    TSConfigAnalyzer.validateLoaded nat sample_promptUser sample_zod_message
      (AnalyzerOptions.mk None None) sample_mistyped_config 0 =
      Some (Returns {| Validated.valid := true; Validated.errors := [] |},
            config', asked) ∧
    asked = 2 ∧
    get_option config' "strict" = Some (JStr "true") ∧
    valid (validateCompilerOptions
             (JObj (default [] (compilerOptions config')))) = false.
Proof.
  destruct (validateCompilerOptions_trusts_corrections nat sample_promptUser
              sample_zod_message (AnalyzerOptions.mk None None)
              sample_mistyped_config
              [ ("strict", JStr "yes"); ("target", JStr "es2022") ] 0)
    as (config' & asked & Hrun & _).
  - reflexivity.
  - reflexivity.
  - reflexivity.
  - vm_compute. repeat constructor. by eexists.
  - intros question id asked. eexists _, _. split; [reflexivity|].
    by intros ->.
  - exists config', asked. split; [reflexivity|]. split; [exact Hrun|].
    revert Hrun. vm_compute. by intros [= <- <-].
Defined.

(** X21. With [autoFix] set, [analyzeConfig] suggests a fix for every
    issue it detects and says that the automatic fixes were applied, but
    the configuration the analyzer holds afterwards still has every second
    of these issues: the loop that applies the fixes counts on through the
    issues detected at first while [applyFix] detects them anew. The
    configuration that is checked is the one validation has left, with the
    corrections of the user. *)
Theorem analyzeConfig_applies_every_other_fix
    (World : Type)
    (promptUser : string → string → World → outcome string * World)
    (zod_message : ZodIssue → string)
    (RegExp : string → outcome (string → bool))
    (JSON_stringify : json → string)
    (JSON_stringify_results : list AnalysisResult.t → string)
    (this : TSConfigAnalyzer.t) (config corrected : TSConfig)
    (validated : Validated.t) (w w' : World)
    (structureAnalysis : option (list string)) (detected : list Issue.t) :
  TSConfigAnalyzer.config this = Some config →
  enabled (AnalyzerOptions.autoFix (TSConfigAnalyzer.options this)) = true →
  TSConfigAnalyzer.validateLoaded World promptUser zod_message
    (TSConfigAnalyzer.options this) config w
    = Some (Returns validated, corrected, w') →
  cross_check RegExp (TSConfigAnalyzer.projectStructure this) corrected
    = Returns structureAnalysis →
  detect corrected = Returns detected →
  ∃ analysis this' fixed,
    TSConfigAnalyzer.analyzeConfig World promptUser zod_message RegExp
      JSON_stringify JSON_stringify_results this w
      = Some (Returns analysis, this', w') ∧
    TSConfigAnalyzer.getConfig this' = Some fixed ∧
    detect fixed = Returns (every_other detected) ∧
    map SuggestedFix.description (Analysis.suggestedFixes analysis)
      = map Issue.description detected ∧
    (detected ≠ [] →
     last (Analysis.messages analysis) = Some "Automatic fixes applied.").
Proof.
  intros Hconfig HautoFix Hvalidated Hcheck Hdetect.
  unfold TSConfigAnalyzer.analyzeConfig. rewrite Hconfig, Hvalidated.
  destruct (analyzeValidated_returns RegExp JSON_stringify JSON_stringify_results
              this validated corrected structureAnalysis detected Hcheck Hdetect)
    as (fixed & lines & -> & _ & Hfixed).
  rewrite HautoFix in Hfixed. eexists _, _, fixed.
  split; [reflexivity|]. split; [reflexivity|]. split; [done|].
  cbn [Analysis.suggestedFixes Analysis.messages]. split.
  - by rewrite map_map.
  - intros Hsome. rewrite HautoFix. unfold issue_messages.
    destruct detected as [|rule detected]; [done|].
    rewrite app_comm_cons, !app_assoc. apply last_snoc.
Qed.

Lemma analyzeConfig_applies_every_other_fix_witness :
  ∃ analysis this' fixed remaining,
    TSConfigAnalyzer.analyzeConfig nat sample_promptUser sample_zod_message
      wildcard_RegExp sample_stringify sample_stringify_results
      (sample_analyzer (AnalyzerOptions.mk None (Some true))) 0
      = Some (Returns analysis, this', 2) ∧
    TSConfigAnalyzer.getConfig this' = Some fixed ∧
    length (Analysis.suggestedFixes analysis) = 11 ∧
    last (Analysis.messages analysis) = Some "Automatic fixes applied." ∧
    analyzeCommonIssues fixed = Returns remaining ∧
    length remaining = 5.
Proof.
  edestruct (analyzeConfig_applies_every_other_fix nat sample_promptUser
               sample_zod_message wildcard_RegExp sample_stringify
               sample_stringify_results
               (sample_analyzer (AnalyzerOptions.mk None (Some true)))
               sample_mistyped_config)
    as (analysis & this' & fixed & Hrun & Hfixed & Hremaining & Hsuggested & Hlast).
  - reflexivity.
  - reflexivity.
  - vm_compute. reflexivity.
  - vm_compute. reflexivity.
  - vm_compute. reflexivity.
  - exists analysis, this', fixed. eexists. split; [exact Hrun|].
    split; [exact Hfixed|]. split.
    { rewrite <- (length_map SuggestedFix.description), Hsuggested. reflexivity. }
    split; [by apply Hlast|].
    rewrite analyzeCommonIssues_detect, Hremaining. split; reflexivity.
Defined.

(** ** The fold over dependencies that declare nothing *)

Lemma foldDependency_undeclared updatedConfig name config h :
  declares config = false →
  foldDependency updatedConfig name config h = Done () h.
Proof.
  unfold declares, foldDependency, truthy_opt.
  destruct (compilerOptions config) as [options|]; simpl; [|done].
  intros [Hpaths Htypes]%orb_false_iff.
  unfold mbind, M_bind.
  destruct (Obj.get "paths" options) as [paths|]; simpl in *;
    [rewrite Hpaths|]; simpl;
    (destruct (Obj.get "types" options) as [types|]; simpl in *;
       [by rewrite Htypes|done]).
Qed.

Lemma for_each_undeclared updatedConfig (entries : list (string * TSConfig)) h :
  Forall (fun entry => declares (snd entry) = false) entries →
  for_each entries
    (fun entry => foldDependency updatedConfig (fst entry) (snd entry)) h =
  Done () h.
Proof.
  induction 1 as [|entry entries Hentry _ IH]; [done|].
  simpl. erewrite bind_done by by apply foldDependency_undeclared. exact IH.
Qed.

(** The write that sets a property of the copy, the object before the last
    of the store. *)
Lemma insert_copy (h : heap) (f : loc → cell) c x :
  <[length h:=f (length (h ++ [c]))]> ((h ++ [c]) ++ [x]) =
  h ++ [f (S (length h)); x].
Proof.
  revert f. induction h as [|c' h IH]; intros f; simpl; [done|].
  f_equal. apply (IH (fun l => f (S l))).
Qed.

(** The run of the fold over dependencies that declare nothing. *)
Lemma incorporateDependencyConfigs_undeclared
    (h : heap) (p : loc) (props : Obj.t val)
    (dependencyConfigs : DependencyConfigs) :
  h !! p = Some (CObj props) →
  Forall (fun entry => declares (snd entry) = false)
    (Obj.entries dependencyConfigs) →
  incorporateDependencyConfigs (VRef p) dependencyConfigs h =
  Done (VRef (length h))
    (h ++
     if truthy_val (default VUndefined (Obj.get "compilerOptions" props))
     then [CObj (Obj.entries props)]
     else [CObj (Obj.set "compilerOptions" (VRef (S (length h)))
                   (Obj.entries props));
           CObj []]).
Proof.
  intros Hp Hquiet. unfold incorporateDependencyConfigs.
  erewrite bind_done; cycle 1.
  { unfold spreadProps, load, mbind, M_bind. by rewrite Hp. }
  erewrite bind_done by reflexivity.
  erewrite bind_done by apply getProp_object, lookup_fresh.
  rewrite get_entries.
  destruct (truthy_val (default VUndefined (Obj.get "compilerOptions" props))).
  - erewrite bind_done by reflexivity.
    erewrite bind_done by by apply for_each_undeclared. done.
  - erewrite bind_done; cycle 1.
    { erewrite bind_done by reflexivity.
      apply setProp_object, lookup_extend, lookup_fresh. }
    erewrite bind_done by by apply for_each_undeclared.
    unfold mret, M_ret. f_equal.
    apply (insert_copy h
             (fun l => CObj (Obj.set "compilerOptions" (VRef l)
                               (Obj.entries props)))).
Qed.

(** X22. When no dependency configuration declares [paths] or [types],
    [incorporateDependencyConfigs] writes into no object that was there
    before the call: the store ends as the store of the call with the copy
    of the project configuration added, and with it an empty
    [compilerOptions] object, set on the copy, when the project
    configuration has none. *)
Theorem incorporateDependencyConfigs_without_declarations
    (h : heap) (p : loc) (props : Obj.t val)
    (dependencyConfigs : DependencyConfigs) :
  h !! p = Some (CObj props) →
  Forall (fun entry => declares (snd entry) = false)
    (Obj.entries dependencyConfigs) →
  incorporateDependencyConfigs (VRef p) dependencyConfigs h =
  Done (VRef (length h))
    (h ++
     if truthy_val (default VUndefined (Obj.get "compilerOptions" props))
     then [CObj (Obj.entries props)]
     else [CObj (Obj.set "compilerOptions" (VRef (S (length h)))
                   (Obj.entries props));
           CObj []]).
Proof. apply incorporateDependencyConfigs_undeclared. Qed.

Lemma incorporateDependencyConfigs_without_declarations_witness :
  incorporateDependencyConfigs (VRef 0)
    [("left-pad", sample_base_config); ("tslib", emptyConfig)] sample_store =
  Done (VRef 3)
    (sample_store ++
     [CObj [("compilerOptions", VRef 1);
            ("include", VJson (JArr [JStr "src"]))]]).
Proof.
  apply (incorporateDependencyConfigs_without_declarations sample_store 0
           [("compilerOptions", VRef 1); ("include", VJson (JArr [JStr "src"]))]
           [("left-pad", sample_base_config); ("tslib", emptyConfig)]).
  - reflexivity.
  - repeat constructor.
Defined.

(** ** Reading, and the command *)

Section entry_facts.
Variable readdir : string → outcome (list Dirent.t).
Variable readFile : string → outcome string.
Variable access : string → outcome unit.
Variable writeFile : string → string → outcome unit.
Variable join : string → string → string.
Variable basename : string → string.
Variable dirname : string → string.
Variable relative : string → string → string.
Variable resolve : string → string.
Variable parseTSConfig : string → outcome TSConfig.
Variable parsePackageJson : string → outcome PackageJson.t.
Variable World : Type.
Variable promptUser : string → string → World → outcome string * World.
Variable zod_message : ZodIssue → string.
Variable RegExp : string → outcome (string → bool).
Variable JSON_stringify : json → string.
Variable JSON_stringify_results : list AnalysisResult.t → string.
Variable JSON_stringify_command : list CommandResult.t → string.

#[local] Abbreviation merged_of fuel configPath :=
  (findAndMergeConfigs readdir readFile join basename parseTSConfig fuel
     (dirname configPath)).
#[local] Abbreviation analyzed_of :=
  (analyzeTSConfig readdir readFile access join basename dirname relative
     parseTSConfig parsePackageJson World promptUser zod_message RegExp
     JSON_stringify JSON_stringify_results).
#[local] Abbreviation analyzed_all :=
  (analyzeAll readdir readFile access join basename dirname relative
     parseTSConfig parsePackageJson World promptUser zod_message RegExp
     JSON_stringify JSON_stringify_results).

(** The result of an analyzer that has read no configuration. *)
Lemma analyzeTSConfig_unread fuel configPath options w e :
  merged_of fuel configPath = Some (Raises e) →
  analyzed_of fuel configPath options w =
    Some (if enabled (AnalyzerOptions.ignoreErrors options)
          then Returns {| Analyzed.valid := false;
                          Analyzed.messages := ["No configuration found"];
                          Analyzed.report := "";
                          Analyzed.suggestedFixes := [];
                          Analyzed.config := None |}
          else Raises e,
          w).
Proof.
  intros Hmerged. unfold analyzeTSConfig, readAndParseConfig, caught.
  cbn [TSConfigAnalyzer.new TSConfigAnalyzer.configPath TSConfigAnalyzer.options].
  rewrite Hmerged.
  by destruct (enabled (AnalyzerOptions.ignoreErrors options)).
Qed.

(** A result without a configuration makes every report but the JSON one
    throw. *)
Lemma commandReport_null results result format :
  result ∈ results →
  CommandResult.config result = None →
  format ≠ "json" →
  ∃ e, commandReport JSON_stringify JSON_stringify_command results format
         = Raises e.
Proof.
  intros Hin Hnull Hformat. unfold commandReport.
  destruct (decide (Some format ∈ [None; Some "text"; Some "html"; Some "markdown"]))
    as [Hknown|Hunknown].
  - pose proof (generateReport_failure JSON_stringify
                  (fun _ => JSON_stringify_command results) (Some format)
                  (map reported_result results) Hknown) as H.
    destruct (first_failure_null (map reported_result results)
                (reported_result result)) as [e Hfirst].
    { by apply list_elem_of_fmap_2. }
    { done. }
    rewrite Hfirst in H. by exists e.
  - unfold generateReport. simpl.
    rewrite !not_elem_of_cons in Hunknown.
    destruct Hunknown as (_ & Htext & Hhtml & Hmarkdown & _).
    apply String.eqb_neq in Hformat.
    assert (String.eqb format "text" = false) as ->
      by (apply String.eqb_neq; congruence).
    assert (String.eqb format "html" = false) as ->
      by (apply String.eqb_neq; congruence).
    assert (String.eqb format "markdown" = false) as ->
      by (apply String.eqb_neq; congruence).
    rewrite Hformat. by eexists.
Qed.

(** The loop of the command on files whose configurations cannot be read
    and merged: without [ignoreErrors] it ends at the first, and with it
    every file leaves a result without a configuration. *)
Lemma analyzeAll_rejects fuel options configPath rest results w e :
  enabled (CommandOptions.ignoreErrors options) = false →
  merged_of fuel configPath = Some (Raises e) →
  analyzed_all fuel options (configPath :: rest) results w = Some (Raises e, w).
Proof.
  intros Hignore Hmerged. cbn [analyzeAll].
  rewrite (analyzeTSConfig_unread _ _ _ _ _ Hmerged).
  cbn [AnalyzerOptions.ignoreErrors]. by rewrite Hignore.
Qed.

Lemma analyzeAll_unread fuel options configFiles results w :
  enabled (CommandOptions.ignoreErrors options) = true →
  Forall (fun configPath => ∃ e, merged_of fuel configPath = Some (Raises e))
    configFiles →
  analyzed_all fuel options configFiles results w =
    Some (Returns (results ++ map unread_result configFiles), w).
Proof.
  intros Hignore Hunread. revert results.
  induction Hunread as [|configPath rest [e Hmerged] _ IH]; intros results.
  - cbn. by rewrite app_nil_r.
  - cbn [analyzeAll]. rewrite (analyzeTSConfig_unread _ _ _ _ _ Hmerged).
    cbn [AnalyzerOptions.ignoreErrors]. rewrite Hignore.
    cbn [Analyzed.valid Analyzed.messages Analyzed.report
         Analyzed.suggestedFixes Analyzed.config].
    rewrite IH. cbn [map]. by rewrite <- app_assoc.
Qed.

End entry_facts.

(** X23. When the configuration files below the directory of [configPath]
    cannot be discovered, read or merged, [analyzeTSConfig] rejects with
    the error of that step; with [ignoreErrors] it resolves instead, to an
    analysis that is not valid, has the one message [No configuration
    found], an empty report, no suggested fixes and the configuration
    [null]. The user is asked nothing in either case. *)
Theorem analyzeTSConfig_when_configurations_cannot_be_read
    (readdir : string → outcome (list Dirent.t))
    (readFile : string → outcome string)
    (access : string → outcome unit)
    (join : string → string → string)
    (basename dirname : string → string)
    (relative : string → string → string)
    (parseTSConfig : string → outcome TSConfig)
    (parsePackageJson : string → outcome PackageJson.t)
    (World : Type)
    (promptUser : string → string → World → outcome string * World)
    (zod_message : ZodIssue → string)
    (RegExp : string → outcome (string → bool))
    (JSON_stringify : json → string)
    (JSON_stringify_results : list AnalysisResult.t → string)
    (fuel : nat) (configPath : string) (options : AnalyzerOptions.t)
    (w : World) (e : error) :
  findAndMergeConfigs readdir readFile join basename parseTSConfig fuel
    (dirname configPath) = Some (Raises e) →
  analyzeTSConfig readdir readFile access join basename dirname relative
    parseTSConfig parsePackageJson World promptUser zod_message RegExp
    JSON_stringify JSON_stringify_results fuel configPath options w =
  Some (if enabled (AnalyzerOptions.ignoreErrors options)
        then Returns {| Analyzed.valid := false;
                        Analyzed.messages := ["No configuration found"];
                        Analyzed.report := "";
                        Analyzed.suggestedFixes := [];
                        Analyzed.config := None |}
        else Raises e,
        w).
Proof. apply analyzeTSConfig_unread. Qed.

Lemma analyzeTSConfig_when_configurations_cannot_be_read_witness :
  let analyze :=
    analyzeTSConfig (sample_tree sample_installed) sample_tree_readFile
      sample_access sample_join posix_basename sample_dirname sample_relative
      sample_rejecting_parser sample_parsePackageJson nat sample_promptUser
      sample_zod_message wildcard_RegExp sample_stringify sample_stringify_results
      5 "/repo/tsconfig.json" in
  analyze (AnalyzerOptions.mk None None) 0 =
    Some (Raises (Error "SyntaxError" "Unexpected token in JSON"), 0) ∧
  analyze (AnalyzerOptions.mk (Some true) None) 0 =
    Some (Returns {| Analyzed.valid := false;
                     Analyzed.messages := ["No configuration found"];
                     Analyzed.report := "";
                     Analyzed.suggestedFixes := [];
                     Analyzed.config := None |}, 0).
Proof.
  intros analyze. subst analyze.
  split.
  - apply (analyzeTSConfig_when_configurations_cannot_be_read
             (sample_tree sample_installed) sample_tree_readFile
             sample_access sample_join posix_basename sample_dirname
             sample_relative sample_rejecting_parser sample_parsePackageJson
             nat sample_promptUser sample_zod_message wildcard_RegExp
             sample_stringify sample_stringify_results
             5 "/repo/tsconfig.json" (AnalyzerOptions.mk None None) 0
             (Error "SyntaxError" "Unexpected token in JSON")).
    reflexivity.
  - apply (analyzeTSConfig_when_configurations_cannot_be_read
             (sample_tree sample_installed) sample_tree_readFile
             sample_access sample_join posix_basename sample_dirname
             sample_relative sample_rejecting_parser sample_parsePackageJson
             nat sample_promptUser sample_zod_message wildcard_RegExp
             sample_stringify sample_stringify_results
             5 "/repo/tsconfig.json" (AnalyzerOptions.mk (Some true) None) 0
             (Error "SyntaxError" "Unexpected token in JSON")).
    reflexivity.
Defined.

(** X24. With [ignoreErrors], a project whose configurations are read and
    merged but whose directory tree cannot be scanned is analysed all the
    same, on the merged configuration as it is: the dependency
    configurations are not folded in, the cross-check of the structure is
    replaced by the warning that it was skipped, and the analysis is
    declared valid. With [autoFix] the configuration returned is the merged
    one after the fixes, on which every second of the issues is still
    detected. *)
Theorem analyzeTSConfig_without_structure
    (readdir : string → outcome (list Dirent.t))
    (readFile : string → outcome string)
    (access : string → outcome unit)
    (join : string → string → string)
    (basename dirname : string → string)
    (relative : string → string → string)
    (parseTSConfig : string → outcome TSConfig)
    (parsePackageJson : string → outcome PackageJson.t)
    (World : Type)
    (promptUser : string → string → World → outcome string * World)
    (zod_message : ZodIssue → string)
    (RegExp : string → outcome (string → bool))
    (JSON_stringify : json → string)
    (JSON_stringify_results : list AnalysisResult.t → string)
    (fuel : nat) (configPath : string) (options : AnalyzerOptions.t)
    (w : World) (merged : TSConfig) (e : error) (detected : list Issue.t) :
  enabled (AnalyzerOptions.ignoreErrors options) = true →
  findAndMergeConfigs readdir readFile join basename parseTSConfig fuel
    (dirname configPath) = Some (Returns merged) →
  scanProjectStructure readdir join relative fuel (dirname configPath)
    = Some (Raises e) →
  detect merged = Returns detected →
  ∃ analyzed validated,
    analyzeTSConfig readdir readFile access join basename dirname relative
      parseTSConfig parsePackageJson World promptUser zod_message RegExp
      JSON_stringify JSON_stringify_results fuel configPath options w
      = Some (Returns analyzed, w) ∧
    Analyzed.valid analyzed = true ∧
    Analyzed.messages analyzed =
      validation_messages validated
        ++ ["Warning: Project structure analysis skipped - no structure data available."]
        ++ issue_messages (enabled (AnalyzerOptions.autoFix options)) detected ∧
    (if enabled (AnalyzerOptions.autoFix options)
     then ∃ fixed, Analyzed.config analyzed = Some fixed ∧
                   detect fixed = Returns (every_other detected)
     else Analyzed.config analyzed = Some merged).
Proof.
  intros Hignore Hmerged Hscan Hdetect.
  unfold analyzeTSConfig, readAndParseConfig, caught.
  cbn [TSConfigAnalyzer.new TSConfigAnalyzer.configPath TSConfigAnalyzer.options
       TSConfigAnalyzer.with_config].
  rewrite Hmerged, Hscan, Hignore. cbn [negb].
  unfold TSConfigAnalyzer.analyzeConfig.
  set (this := TSConfigAnalyzer.with_config
                 (TSConfigAnalyzer.new configPath options) (Some merged)).
  change (TSConfigAnalyzer.config this) with (Some merged).
  change (TSConfigAnalyzer.options this) with options.
  cbv beta iota.
  assert (∃ validated,
            TSConfigAnalyzer.validateLoaded World promptUser zod_message
              options merged w = Some (Returns validated, merged, w))
    as [validated ->].
  { destruct (compilerOptions merged) as [declared|] eqn:Hdeclared.
    - eexists. by apply (validateLoaded_quiet _ _ _ _ _ declared); auto.
    - eexists. by apply validateLoaded_without_options. }
  destruct (analyzeValidated_returns RegExp JSON_stringify JSON_stringify_results
              this validated merged None detected eq_refl Hdetect)
    as (config' & lines & -> & _ & Hafter).
  change (TSConfigAnalyzer.options this) with options in Hafter.
  change (TSConfigAnalyzer.options this) with options.
  eexists _, validated. split; [reflexivity|].
  cbn [Analyzed.valid Analyzed.messages Analyzed.config Analysis.valid
       Analysis.messages TSConfigAnalyzer.getConfig TSConfigAnalyzer.config
       TSConfigAnalyzer.with_config TSConfigAnalyzer.options].
  split_and!; [by rewrite Hignore, orb_true_r|done|].
  destruct (enabled (AnalyzerOptions.autoFix options)); [by exists config'|].
  by rewrite Hafter.
Qed.

Lemma analyzeTSConfig_without_structure_witness :
  ∃ analyzed,
    analyzeTSConfig (sample_tree sample_unreadable) sample_tree_readFile
      sample_access sample_join posix_basename sample_dirname sample_relative
      sample_tree_parseTSConfig sample_parsePackageJson nat sample_promptUser
      sample_zod_message wildcard_RegExp sample_stringify sample_stringify_results
      5 "/repo/tsconfig.json" (AnalyzerOptions.mk (Some true) None) 0
      = Some (Returns analyzed, 0) ∧
    Analyzed.valid analyzed = true ∧
    length (Analyzed.messages analyzed) = 13 ∧
    Analyzed.config analyzed
      = Some (spec_merged [sample_base_config; sample_app_config]).
Proof.
  edestruct (analyzeTSConfig_without_structure
              (sample_tree sample_unreadable) sample_tree_readFile
              sample_access sample_join posix_basename sample_dirname
              sample_relative sample_tree_parseTSConfig sample_parsePackageJson
              nat sample_promptUser sample_zod_message wildcard_RegExp
              sample_stringify sample_stringify_results
              5 "/repo/tsconfig.json" (AnalyzerOptions.mk (Some true) None) 0
              (spec_merged [sample_base_config; sample_app_config])
              (Error "Error" "EACCES: permission denied, scandir '/repo/node_modules'"))
    as (analyzed & validated & Hrun & Hvalid & Hmessages & Hconfig).
  { reflexivity. }
  { vm_compute. reflexivity. }
  { vm_compute. reflexivity. }
  { vm_compute. reflexivity. }
  exists analyzed. split; [exact Hrun|]. split; [exact Hvalid|].
  split; [|exact Hconfig].
  vm_compute in Hrun. injection Hrun as <-. reflexivity.
Defined.

(** X25. The command ends with the exit code 1 when the configurations
    below the directory of the first discovered file cannot be read and
    merged, for every output format but [json]. Without [--ignore-errors]
    the analysis of that file rejects, and the command ends with its
    error. With [--ignore-errors], and when the configurations of the
    other discovered files cannot be read and merged either, every
    analysis leaves a result without a configuration, and the command
    ends with the error that the report throws on these. No report is
    printed or written, and the user is asked nothing. *)
Theorem analyzeAction_exits_on_unreadable_configuration
    (readdir : string → outcome (list Dirent.t))
    (readFile : string → outcome string)
    (access : string → outcome unit)
    (writeFile : string → string → outcome unit)
    (join : string → string → string)
    (basename dirname : string → string)
    (relative : string → string → string)
    (resolve : string → string)
    (parseTSConfig : string → outcome TSConfig)
    (parsePackageJson : string → outcome PackageJson.t)
    (World : Type)
    (promptUser : string → string → World → outcome string * World)
    (zod_message : ZodIssue → string)
    (RegExp : string → outcome (string → bool))
    (JSON_stringify : json → string)
    (JSON_stringify_results : list AnalysisResult.t → string)
    (JSON_stringify_command : list CommandResult.t → string)
    (fuel : nat) (options : CommandOptions.t) (w : World)
    (configPath : string) (rest : list string) (e : error) :
  findTSConfigs readdir join fuel (resolve (CommandOptions.path options))
    = Some (Returns (configPath :: rest)) →
  findAndMergeConfigs readdir readFile join basename parseTSConfig fuel
    (dirname configPath) = Some (Raises e) →
  CommandOptions.output options ≠ "json" →
  (enabled (CommandOptions.ignoreErrors options) = true →
   Forall
     (fun other =>
        ∃ e', findAndMergeConfigs readdir readFile join basename parseTSConfig
                fuel (dirname other) = Some (Raises e'))
     rest) →
  ∃ thrown,
    analyzeAction readdir readFile access writeFile join basename dirname
      relative resolve parseTSConfig parsePackageJson World promptUser
      zod_message RegExp JSON_stringify JSON_stringify_results
      JSON_stringify_command fuel options w = Some (Raises thrown, w) ∧
    if enabled (CommandOptions.ignoreErrors options) then
      commandReport JSON_stringify JSON_stringify_command
        (map unread_result (configPath :: rest))
        (CommandOptions.output options) = Raises thrown
    else thrown = e.
Proof.
  intros Hfound Hmerged Hformat Hrest.
  unfold analyzeAction. rewrite Hfound.
  destruct (enabled (CommandOptions.ignoreErrors options)) eqn:Hignore.
  - rewrite (analyzeAll_unread readdir readFile access join basename dirname
               relative parseTSConfig parsePackageJson World promptUser
               zod_message RegExp JSON_stringify JSON_stringify_results
               fuel options (configPath :: rest) [] w Hignore)
      by (constructor; [by exists e|by apply Hrest]).
    cbn [app].
    destruct (commandReport_null JSON_stringify JSON_stringify_command
                (map unread_result (configPath :: rest))
                (unread_result configPath) (CommandOptions.output options))
      as [thrown Hreport]; [by left|done..|].
    exists thrown. by rewrite Hreport.
  - rewrite (analyzeAll_rejects readdir readFile access join basename dirname
               relative parseTSConfig parsePackageJson World promptUser
               zod_message RegExp JSON_stringify JSON_stringify_results
               fuel options configPath rest [] w e Hignore Hmerged).
    by exists e.
Qed.

Lemma analyzeAction_exits_on_unreadable_configuration_witness :
  sample_action sample_installed sample_rejecting_parser
    (CommandOptions.mk "/repo" "text" (Some true) None None) =
  Some (Raises (Error "TypeError"
                  "Cannot read properties of null (reading 'compilerOptions')"),
        0) ∧
  sample_action sample_installed sample_rejecting_parser
    (CommandOptions.mk "/repo" "text" None None None) =
  Some (Raises (Error "SyntaxError" "Unexpected token in JSON"), 0).
Proof.
  split.
  - edestruct (analyzeAction_exits_on_unreadable_configuration
                 (sample_tree sample_installed) sample_tree_readFile sample_access
                 sample_writeFile sample_join posix_basename sample_dirname
                 sample_relative sample_resolve sample_rejecting_parser
                 sample_parsePackageJson nat sample_promptUser sample_zod_message
                 wildcard_RegExp sample_stringify sample_stringify_results
                 sample_stringify_command 5
                 (CommandOptions.mk "/repo" "text" (Some true) None None) 0
                 "/repo/src/tsconfig.app.json" ["/repo/tsconfig.json"]
                 (Error "SyntaxError" "Unexpected token in JSON"))
      as (thrown & Hrun & Hreport).
    { vm_compute. reflexivity. }
    { vm_compute. reflexivity. }
    { done. }
    { intros _. constructor; [|constructor]. eexists. vm_compute. reflexivity. }
    vm_compute in Hreport. injection Hreport as <-. exact Hrun.
  - edestruct (analyzeAction_exits_on_unreadable_configuration
                 (sample_tree sample_installed) sample_tree_readFile sample_access
                 sample_writeFile sample_join posix_basename sample_dirname
                 sample_relative sample_resolve sample_rejecting_parser
                 sample_parsePackageJson nat sample_promptUser sample_zod_message
                 wildcard_RegExp sample_stringify sample_stringify_results
                 sample_stringify_command 5
                 (CommandOptions.mk "/repo" "text" None None None) 0
                 "/repo/src/tsconfig.app.json" ["/repo/tsconfig.json"]
                 (Error "SyntaxError" "Unexpected token in JSON"))
      as (thrown & Hrun & Hthrown).
    { vm_compute. reflexivity. }
    { vm_compute. reflexivity. }
    { done. }
    { intros [=]. }
    cbn in Hthrown. subst thrown. exact Hrun.
Defined.

(** ** Saved answers *)

Lemma has_id_userInput id question answer :
  has_id id (userInput id question answer) = Returns true.
Proof. unfold has_id, userInput. simpl. by rewrite String.eqb_refl. Qed.

Lemma array_findIndex_ge id elems i j :
  array_findIndex id elems i = Returns (Some j) → i ≤ j.
Proof.
  revert i. induction elems as [|input elems IH]; intros i; simpl; [done|].
  destruct (has_id id input) as [[|]|]; [| |done].
  - intros [= <-]. lia.
  - intros H%IH. lia.
Qed.

(** The entry written at the index [findIndex] returns, or pushed, is the
    entry [find] returns. *)
Lemma array_find_written id entry elems i index :
  has_id id entry = Returns true →
  array_findIndex id elems i = Returns index →
  array_find id
    match index with
    | Some j => <[j - i:=entry]> elems
    | None => elems ++ [entry]
    end = Returns (Some entry).
Proof.
  intros Hentry. revert i.
  induction elems as [|input elems IH]; intros i; simpl.
  - intros [= <-]. simpl. by rewrite Hentry.
  - destruct (has_id id input) as [[|]|] eqn:Hinput; [| |done].
    + intros [= <-]. rewrite Nat.sub_diag. simpl. by rewrite Hentry.
    + intros Hrest. pose proof (IH _ Hrest) as Hfound.
      destruct index as [j|]; simpl.
      * apply array_findIndex_ge in Hrest.
        replace (j - i) with (S (j - S i)) by lia. simpl. by rewrite Hinput.
      * by rewrite Hinput.
Qed.

Lemma upsert_found id entry elems saved :
  has_id id entry = Returns true →
  upsert id entry elems = Returns saved →
  array_find id saved = Returns (Some entry).
Proof.
  intros Hentry. unfold upsert.
  destruct (array_findIndex id elems 0) as [index|e] eqn:Hindex; [|done].
  cbn [mbind outcome_bind]. intros [= <-].
  pose proof (array_find_written id entry elems 0 index Hentry Hindex) as H.
  destruct index as [j|]; [|done]. by rewrite Nat.sub_0_r in H.
Qed.

(** A look-up that throws for [findIndex] throws for [find]. *)
Lemma array_find_damaged id before after :
  Forall (fun input => has_id id input = Returns false) before →
  (∃ e, array_find id (before ++ JNull :: after) = Raises e) ∧
  (∀ i, ∃ message,
     array_findIndex id (before ++ JNull :: after) i
       = Raises (Error "TypeError" message)).
Proof.
  induction 1 as [|input before Hinput _ [[e IHfind] IHindex]]; simpl.
  - split; [by eexists|]. intros i. by eexists.
  - rewrite Hinput. split; [by exists e|]. intros i. apply IHindex.
Qed.

(** *** The file of the questions *)

Lemma single_line_app a b :
  single_line (a +:+ b) = single_line a && single_line b.
Proof. unfold single_line. by rewrite list_ascii_of_string_app, forallb_app. Qed.

Lemma blank_app a b : blank (a +:+ b) = blank a && blank b.
Proof. unfold blank. by rewrite list_ascii_of_string_app, forallb_app. Qed.

Lemma split_lines_single s : single_line s = true → split_lines s = [s].
Proof.
  induction s as [|c s IH]; [done|]. unfold single_line. simpl.
  intros [Hc Hs]%andb_true_iff. apply negb_true_iff in Hc. rewrite Hc.
  by rewrite (IH Hs).
Qed.

Lemma split_lines_app s t :
  single_line s = true → split_lines (s +:+ LF +:+ t) = s :: split_lines t.
Proof.
  induction s as [|c s IH]; [done|]. unfold single_line. simpl.
  intros [Hc Hs]%andb_true_iff. apply negb_true_iff in Hc.
  change (String c s +:+ LF +:+ t) with (String c (s +:+ LF +:+ t)).
  simpl. rewrite Hc. by rewrite (IH Hs).
Qed.

Lemma split_lines_concat lines :
  lines ≠ [] → Forall (fun line => single_line line = true) lines →
  split_lines (String.concat LF lines) = lines.
Proof.
  intros Hnil Hlines. induction Hlines as [|line lines Hline Hlines IH]; [done|].
  destruct lines as [|line' lines]; simpl.
  - by apply split_lines_single.
  - rewrite split_lines_app by done. f_equal. by apply IH.
Qed.

Lemma split_lines_single_lines s :
  Forall (fun line => single_line line = true) (split_lines s).
Proof.
  induction s as [|c s IH]; simpl; [by repeat constructor|].
  destruct (Ascii.eqb c "010") eqn:Hc; [by constructor|].
  destruct (split_lines s) as [|line lines]; [repeat constructor|].
  - unfold single_line. simpl. by rewrite Hc.
  - inversion IH as [|? ? Hline Hlines]; subst. constructor; [|done].
    revert Hline. unfold single_line. simpl. by rewrite Hc.
Qed.

Lemma blank_trimStart s : blank s = false → blank (trimStart s) = false.
Proof.
  induction s as [|c s IH]; [done|]. unfold blank in *. simpl.
  destruct (is_space c) eqn:Hc; simpl; [done|]. by rewrite Hc.
Qed.

Lemma blank_rev_app s t : blank (String.rev_app s t) = blank s && blank t.
Proof.
  revert t. induction s as [|c s IH]; intros t; simpl; [done|].
  rewrite IH. unfold blank. simpl. by destruct (is_space c), (forallb _ _).
Qed.

Lemma trim_not_blank s : blank s = false → String.eqb (trim s) "" = false.
Proof.
  intros Hs. apply String.eqb_neq. intros Hempty.
  assert (blank (trim s) = false) as Hblank; [|by rewrite Hempty in Hblank].
  unfold trim, String.rev. rewrite blank_rev_app, andb_true_r.
  apply blank_trimStart. rewrite blank_rev_app, andb_true_r.
  by apply blank_trimStart.
Qed.

Lemma filter_filter {A} (f : A → bool) (l : list A) :
  List.filter f (List.filter f l) = List.filter f l.
Proof.
  induction l as [|x l IH]; [done|]. simpl.
  destruct (f x) eqn:Hx; [|done]. simpl. by rewrite Hx, IH.
Qed.

Lemma filter_Forall {A} (P : A → Prop) (f : A → bool) (l : list A) :
  Forall P l → Forall P (List.filter f l).
Proof.
  induction 1 as [|x l Hx _ IH]; simpl; [done|].
  destruct (f x); [by constructor|done].
Qed.

Lemma existsb_eqb_elem_of (entry : string) (l : list string) :
  existsb (String.eqb entry) l = bool_decide (entry ∈ l).
Proof.
  induction l as [|x l IH]; simpl; [done|].
  destruct (String.eqb entry x) eqn:Hx; simpl.
  - apply String.eqb_eq in Hx as ->. symmetry. apply bool_decide_eq_true.
    by left.
  - rewrite IH. apply String.eqb_neq in Hx. apply bool_decide_ext.
    rewrite elem_of_cons. split; [by right|]. by intros [?|?].
Qed.

(** The questions read back from the file [updateQuestionsFile] writes. *)
Lemma readQuestions_written w id question :
  single_line id = true → single_line question = true →
  let questions := readQuestions w ++ [id +:+ ": " +:+ question] in
  readQuestions
    (with_files w
       (Obj.set QUESTIONS_FILE (String.concat LF questions) (Terminal.files w)))
  = questions.
Proof.
  intros Hid Hquestion questions.
  unfold readQuestions at 1, fs_readFile. cbn [with_files Terminal.files].
  rewrite get_set_eq.
  assert (Forall (fun line => single_line line = true) (readQuestions w)) as Hsingle.
  { unfold readQuestions. destruct (fs_readFile _ _); [|done].
    apply filter_Forall, split_lines_single_lines. }
  rewrite split_lines_concat.
  - subst questions. rewrite List.filter_app. f_equal.
    + unfold readQuestions. destruct (fs_readFile _ _); [|done].
      apply filter_filter.
    + simpl. rewrite trim_not_blank; [done|].
      rewrite blank_app. apply andb_false_iff. by right.
  - subst questions. by destruct (readQuestions w).
  - subst questions. apply Forall_app. split; [done|]. constructor; [|done].
    rewrite !single_line_app, Hid, Hquestion. done.
Qed.

(** What [updateQuestionsFile] does in a directory that can be written. *)
Lemma updateQuestionsFile_writable id question w :
  Terminal.writable w = true →
  ∃ files,
    updateQuestionsFile id question w = (Returns (), with_files w files) ∧
    (∀ file, file ≠ QUESTIONS_FILE →
       Obj.get file files = Obj.get file (Terminal.files w)) ∧
    (files = Terminal.files w ∨
     files = Obj.set QUESTIONS_FILE
               (String.concat LF (readQuestions w ++ [id +:+ ": " +:+ question]))
               (Terminal.files w)).
Proof.
  intros Hwritable. unfold updateQuestionsFile, fs_writeFile.
  rewrite Hwritable.
  destruct (negb (existsb _ _)).
  - eexists. split; [reflexivity|]. split; [|by right].
    intros file Hfile. by apply get_set_ne.
  - exists (Terminal.files w). split; [by destruct w|]. split; [done|by left].
Qed.

(** X26. [promptUser] asks once. When no truthy answer is saved under
    [id], the user is asked, the line typed is returned, and the entry is
    written to the file of the saved answers, in the place of the first
    entry of [id] or at the end. If [JSON.parse] reads back what
    [JSON.stringify] has written, the next call for [id] returns the saved
    answer at once, whatever the question, without a query and without a
    write; unless the answer is the empty string, which is saved and then
    asked for again. *)
Theorem promptUser_saves_the_answer_and_reuses_it
    (JSON_parse : string → outcome json) (JSON_stringify : json → string)
    (question id answer : string) (w : Terminal.t) (rest : list string)
    (elems saved : list json) :
  Terminal.writable w = true →
  Terminal.typed w = answer :: rest →
  from_option truthy false (loadUserInput JSON_parse id w) = false →
  readInputs JSON_parse w = JArr elems →
  upsert id (userInput id question answer) elems = Returns saved →
  JSON_parse (JSON_stringify (JArr saved)) = Returns (JArr saved) →
  ∃ w1,
    promptUser JSON_parse JSON_stringify question id w
      = Some (Returns (JStr answer), w1) ∧
    Terminal.typed w1 = rest ∧
    Terminal.shown w1 = Terminal.shown w ++ [question +:+ " "] ∧
    Obj.get USER_INPUT_FILE (Terminal.files w1)
      = Some (JSON_stringify (JArr saved)) ∧
    ∀ question',
      promptUser JSON_parse JSON_stringify question' id w1 =
        if String.eqb answer "" then askUser JSON_parse JSON_stringify question' id w1
        else Some (Returns (JStr answer), w1).
Proof.
  intros Hwritable Htyped Hunsaved Hinputs Hupsert Hround.
  set (asked := {| Terminal.files := Terminal.files w;
                   Terminal.writable := Terminal.writable w;
                   Terminal.typed := rest;
                   Terminal.shown := Terminal.shown w ++ [question +:+ " "] |}).
  set (written := with_files asked
                    (Obj.set USER_INPUT_FILE (JSON_stringify (JArr saved))
                       (Terminal.files w))).
  destruct (updateQuestionsFile_writable id question written Hwritable)
    as (files & Hupdate & Hfiles & _).
  exists (with_files written files).
  assert (askUser JSON_parse JSON_stringify question id w
          = Some (Returns (JStr answer), with_files written files)) as Hask.
  { unfold askUser, rl_question. rewrite Htyped. fold asked.
    unfold saveUserInput.
    change (readInputs JSON_parse asked) with (readInputs JSON_parse w).
    rewrite Hinputs. cbn [array_of mbind outcome_bind]. rewrite Hupsert.
    unfold fs_writeFile. change (Terminal.writable asked) with (Terminal.writable w).
    rewrite Hwritable.
    change (match updateQuestionsFile id question written with
            | (Raises e, w0) => Some (Raises e, w0)
            | (Returns _, w0) => Some (Returns (JStr answer), w0)
            end = Some (Returns (JStr answer), with_files written files)).
    by rewrite Hupdate. }
  assert (Obj.get USER_INPUT_FILE files = Some (JSON_stringify (JArr saved)))
    as Hfile.
  { rewrite Hfiles by done. apply get_set_eq. }
  assert (loadUserInput JSON_parse id (with_files written files)
          = Some (JStr answer)) as Hload.
  { unfold loadUserInput, fs_readFile. cbn [with_files Terminal.files].
    rewrite Hfile. cbn [mbind outcome_bind]. rewrite Hround.
    cbn [array_of mbind outcome_bind].
    by rewrite (upsert_found _ _ _ _ (has_id_userInput id question answer) Hupsert). }
  split_and!; [|done..|].
  - unfold promptUser.
    destruct (loadUserInput JSON_parse id w) as [savedAnswer|]; [|done].
    simpl in Hunsaved. by rewrite Hunsaved.
  - intros question'. unfold promptUser. rewrite Hload. simpl.
    by destruct (String.eqb answer "").
Qed.

Lemma promptUser_saves_the_answer_and_reuses_it_witness :
  ∃ w1,
    promptUser sample_parse_inputs sample_stringify_inputs
      "What is your name?" "user_name" sample_terminal
      = Some (Returns (JStr "Ada"), w1) ∧
    Terminal.typed w1 = ["blue"] ∧
    Terminal.shown w1 = ["What is your name? "] ∧
    Terminal.files w1 = [("ts-debug.json", "user_name=Ada");
                         ("questions.txt", "user_name: What is your name?")] ∧
    promptUser sample_parse_inputs sample_stringify_inputs
      "Who are you?" "user_name" w1 = Some (Returns (JStr "Ada"), w1).
Proof.
  destruct (promptUser_saves_the_answer_and_reuses_it
              sample_parse_inputs sample_stringify_inputs
              "What is your name?" "user_name" "Ada" sample_terminal ["blue"]
              [] [userInput "user_name" "What is your name?" "Ada"])
    as (w1 & Hrun & Htyped & Hshown & Hfile & Hagain);
    [reflexivity..|].
  exists w1. split; [exact Hrun|]. split; [exact Htyped|].
  split; [exact Hshown|]. split; [|exact (Hagain "Who are you?")].
  vm_compute in Hrun. by injection Hrun as <-.
Defined.

(** X27. A file of saved answers that parses to something on which the
    look-up throws (a value that is no array, or an array with a [null] in
    front of the entries of [id]) is never repaired: [loadUserInput] hides
    the error, so [promptUser] asks the user, and then rejects with a
    [TypeError] from [saveUserInput] without writing any file, on every
    call. *)
Theorem promptUser_rejects_on_damaged_file
    (JSON_parse : string → outcome json) (JSON_stringify : json → string)
    (question id answer : string) (w : Terminal.t) (rest : list string) :
  damaged id (readInputs JSON_parse w) →
  Terminal.typed w = answer :: rest →
  ∃ message,
    promptUser JSON_parse JSON_stringify question id w =
      Some (Raises (Error "TypeError" message),
            {| Terminal.files := Terminal.files w;
               Terminal.writable := Terminal.writable w;
               Terminal.typed := rest;
               Terminal.shown := Terminal.shown w ++ [question +:+ " "] |}).
Proof.
  intros Hdamaged Htyped.
  set (asked := {| Terminal.files := Terminal.files w;
                   Terminal.writable := Terminal.writable w;
                   Terminal.typed := rest;
                   Terminal.shown := Terminal.shown w ++ [question +:+ " "] |}).
  assert (loadUserInput JSON_parse id w = None) as Hload.
  { revert Hdamaged. unfold readInputs, loadUserInput.
    destruct (fs_readFile USER_INPUT_FILE w) as [content|e];
      cbn [mbind outcome_bind]; [|done].
    destruct (JSON_parse content) as [inputs|e]; cbn [mbind outcome_bind];
      [|done].
    destruct inputs as [| | | |elems|]; try done.
    intros (before & after & -> & Hbefore). cbn [array_of mbind outcome_bind].
    destruct (array_find_damaged id before after Hbefore) as [[e ->] _]. done. }
  assert (∃ message,
            (elems ← array_of "existingInputs" "findIndex" (readInputs JSON_parse w);
             upsert id (userInput id question answer) elems)
            = Raises (Error "TypeError" message)) as [message Hsave].
  { destruct (readInputs JSON_parse w) as [| | | |elems|];
      try (by eexists).
    destruct Hdamaged as (before & after & -> & Hbefore).
    destruct (array_find_damaged id before after Hbefore) as [_ Hindex].
    destruct (Hindex 0) as [message Hthrown]. exists message.
    cbn [array_of mbind outcome_bind]. unfold upsert. by rewrite Hthrown. }
  exists message. unfold promptUser. rewrite Hload.
  unfold askUser, rl_question. rewrite Htyped. fold asked.
  unfold saveUserInput.
  change (readInputs JSON_parse asked) with (readInputs JSON_parse w).
  by rewrite Hsave.
Qed.

Lemma promptUser_rejects_on_damaged_file_witness :
  let w := {| Terminal.files := [("ts-debug.json", "{}")];
              Terminal.writable := true;
              Terminal.typed := ["Ada"; "Ada"]; Terminal.shown := [] |} in
  ∃ w1 w2,
    promptUser sample_parse_inputs sample_stringify_inputs
      "What is your name?" "user_name" w
      = Some (Raises (Error "TypeError" "existingInputs.findIndex is not a function"),
              w1) ∧
    promptUser sample_parse_inputs sample_stringify_inputs
      "What is your name?" "user_name" w1
      = Some (Raises (Error "TypeError" "existingInputs.findIndex is not a function"),
              w2) ∧
    Terminal.files w2 = Terminal.files w.
Proof.
  intros w.
  destruct (promptUser_rejects_on_damaged_file
              sample_parse_inputs sample_stringify_inputs
              "What is your name?" "user_name" "Ada" w ["Ada"])
    as [message Hrun]; [done|reflexivity|].
  assert (message = "existingInputs.findIndex is not a function") as ->.
  { vm_compute in Hrun. by injection Hrun. }
  eexists _, _. split; [exact Hrun|].
  split; [vm_compute; reflexivity|reflexivity].
Defined.

(** X28. [updateQuestionsFile] lists a question once. In a directory that
    can be written, and for an [id] and a question without line feed, the
    call leaves the file with the lines that were not blank and, after
    them, the entry of the question if it was not among them; a second
    call with the same arguments writes nothing. *)
Theorem updateQuestionsFile_lists_a_question_once
    (id question : string) (w : Terminal.t) :
  Terminal.writable w = true →
  single_line id = true →
  single_line question = true →
  let entry := id +:+ ": " +:+ question in
  ∃ w1,
    updateQuestionsFile id question w = (Returns (), w1) ∧
    (if bool_decide (entry ∈ readQuestions w) then w1 = w
     else readQuestions w1 = readQuestions w ++ [entry]) ∧
    entry ∈ readQuestions w1 ∧
    updateQuestionsFile id question w1 = (Returns (), w1).
Proof.
  intros Hwritable Hid Hquestion entry.
  unfold updateQuestionsFile at 1. fold entry.
  rewrite existsb_eqb_elem_of.
  destruct (bool_decide (entry ∈ readQuestions w)) eqn:Hlisted; simpl.
  - exists w. apply bool_decide_eq_true in Hlisted. split_and!; [done..|].
    unfold updateQuestionsFile. fold entry.
    rewrite existsb_eqb_elem_of, bool_decide_eq_true_2 by done. done.
  - unfold fs_writeFile. rewrite Hwritable. eexists. split; [reflexivity|].
    pose proof (readQuestions_written w id question Hid Hquestion) as Hread.
    cbv zeta in Hread. fold entry in Hread.
    assert (entry ∈ readQuestions w ++ [entry]) as Hin.
    { apply elem_of_app. right. by left. }
    split_and!; [done|by rewrite Hread|].
    unfold updateQuestionsFile. fold entry. rewrite Hread.
    rewrite existsb_eqb_elem_of, bool_decide_eq_true_2 by done. done.
Qed.

Lemma updateQuestionsFile_lists_a_question_once_witness :
  let w := {| Terminal.files :=
                [("questions.txt",
                  "color: Which color?" +:+ LF +:+ "  " +:+ LF +:+ LF)];
              Terminal.writable := true;
              Terminal.typed := []; Terminal.shown := [] |} in
  ∃ w1,
    updateQuestionsFile "user_name" "What is your name?" w = (Returns (), w1) ∧
    Terminal.files w1 =
      [("questions.txt",
        "color: Which color?" +:+ LF +:+ "user_name: What is your name?")] ∧
    updateQuestionsFile "user_name" "What is your name?" w1 = (Returns (), w1).
Proof.
  intros w.
  destruct (updateQuestionsFile_lists_a_question_once
              "user_name" "What is your name?" w)
    as (w1 & Hrun & _ & _ & Hagain); [reflexivity..|].
  exists w1. split; [exact Hrun|]. split; [|exact Hagain].
  vm_compute in Hrun. by injection Hrun as <-.
Defined.

(** *** Forgetting the answers *)

Lemma get_without file files k :
  Obj.get k (without file files) =
    if String.eqb k file then None else Obj.get k files.
Proof.
  induction files as [|[name content] files IH]; simpl.
  - by destruct (String.eqb k file).
  - destruct (String.eqb name file) eqn:Hname; simpl.
    + rewrite IH. destruct (String.eqb k file) eqn:Hk; [done|].
      apply String.eqb_eq in Hname as ->.
      rewrite String.eqb_sym in Hk. by rewrite Hk.
    + rewrite IH. destruct (String.eqb name k) eqn:Hnk; [|done].
      apply String.eqb_eq in Hnk as ->. by rewrite Hname.
Qed.

Lemma without_absent file files :
  Obj.get file files = None → without file files = files.
Proof.
  induction files as [|[name content] files IH]; simpl; [done|].
  destruct (String.eqb name file); [done|]. intros H. by rewrite IH.
Qed.

(** X30. [clearUserInputs] never throws. In a directory that can be
    written it removes the two files and nothing else: no answer is saved
    for any [id] afterwards, so [promptUser] asks again, and no question is
    listed. In a directory that cannot be written it changes nothing, and
    the failure is not reported. The queries shown and the lines to be
    typed are left alone. *)
Theorem clearUserInputs_forgets_every_answer
    (JSON_parse : string → outcome json) (w : Terminal.t) :
  let cleared := clearUserInputs w in
  Terminal.typed cleared = Terminal.typed w ∧
  Terminal.shown cleared = Terminal.shown w ∧
  Terminal.writable cleared = Terminal.writable w ∧
  if Terminal.writable w then
    (∀ id, loadUserInput JSON_parse id cleared = None) ∧
    readQuestions cleared = [] ∧
    ∀ file, file ∉ [USER_INPUT_FILE; QUESTIONS_FILE] →
      Obj.get file (Terminal.files cleared) = Obj.get file (Terminal.files w)
  else cleared = w.
Proof.
  intros cleared. subst cleared. unfold clearUserInputs.
  destruct w as [files writable typed shown].
  assert (∀ file (w : Terminal.t),
            snd (fs_unlink file w) =
              if Terminal.writable w
              then with_files w (without file (Terminal.files w)) else w)
    as Hunlink.
  { intros file w. unfold fs_unlink.
    destruct (Obj.get file (Terminal.files w)) eqn:Hfile.
    - by destruct (Terminal.writable w).
    - rewrite without_absent by done. by destruct w, writable0. }
  rewrite !Hunlink. cbn [Terminal.writable].
  destruct writable; [|done].
  cbn [with_files Terminal.files Terminal.writable Terminal.typed Terminal.shown].
  split_and!; [done..| | |].
  - intros id. unfold loadUserInput, fs_readFile.
    cbn [with_files Terminal.files]. by rewrite !get_without.
  - unfold readQuestions, fs_readFile. cbn [with_files Terminal.files].
    by rewrite get_without.
  - intros file Hfile. rewrite !not_elem_of_cons in Hfile.
    destruct Hfile as (Hinputs & Hquestions & _).
    apply String.eqb_neq in Hinputs, Hquestions.
    cbn [with_files Terminal.files].
    by rewrite !get_without, Hinputs, Hquestions.
Qed.

(** ** Configurations in the store *)

Lemma mapM_fmap_Some {A B} (f : B → option A) (g : A → B) (l : list A) :
  (∀ x, x ∈ l → f (g x) = Some x) → mapM f (map g l) = Some l.
Proof.
  induction l as [|x l IH]; intros Hl; [done|]. simpl.
  rewrite (Hl x) by by left. simpl. rewrite IH; [done|].
  intros y Hy. apply Hl. by right.
Qed.

Lemma get_unlisted {V} (o : Obj.t V) k : k ∉ Obj.keys o → Obj.get k o = None.
Proof. apply get_None_keys. Qed.

(** The properties of a configuration are read back from its JSON
    object, with a [compilerOptions] added at the end when it has none. *)
Lemma config_of_json_config_json config (added : option (Obj.t json)) :
  distinct_keys config →
  (is_Some added → compilerOptions config = None) →
  config_of_json
    (config_json config ++ optional_entry "compilerOptions" (JObj <$> added))
  = Some {| compilerOptions :=
              match added with
              | Some options => Some options
              | None => compilerOptions config
              end;
            include := include config; exclude := exclude config;
            extends := extends config; files := files config;
            other := other config |}.
Proof.
  intros (_ & Hkeys & Hreserved) Hadded.
  assert (∀ k tail, k ∈ RESERVED_KEYS →
            Obj.get k (other config ++ tail) = Obj.get k tail) as Hget.
  { intros k tail Hk. rewrite get_app, get_unlisted; [done|].
    intros Hin. rewrite Forall_forall in Hreserved. by apply (Hreserved k). }
  assert (∀ l, mapM (fun e => match e with JStr s => Some s | _ => None end)
                 (map JStr l) = Some l) as Hstrings.
  { intros l. by apply mapM_fmap_Some. }
  assert (∀ tail : Obj.t json,
            Forall (fun kv => fst kv ∈ RESERVED_KEYS) tail →
            filter (fun kv => fst kv ∉ RESERVED_KEYS) (other config ++ tail)
            = other config) as Hfilter.
  { intros tail Htail. rewrite filter_app.
    rewrite (filter_all _ (other config)); cycle 1.
    { apply Forall_forall. intros kv Hkv. rewrite Forall_forall in Hreserved.
      apply Hreserved. apply list_elem_of_fmap. by exists kv. }
    rewrite (filter_none _ tail); [by rewrite app_nil_r|].
    eapply Forall_impl; [exact Htail|]. simpl. by intros kv Hkv Hnot. }
  destruct config as [declared included excluded extended listed others].
  cbn [compilerOptions include exclude extends files other] in *.
  destruct added as [options|].
  - rewrite (Hadded (mk_is_Some _ _ eq_refl)).
    unfold config_of_json, config_json, strings_at, string_at, json_strings.
    cbn [compilerOptions include exclude extends files other].
    destruct included, excluded, extended, listed; cbn -[filter];
      rewrite ?Hget by elem_of_list; cbn -[filter]; rewrite ?Hstrings;
      cbn -[filter];
      (repeat (rewrite filter_cons_False by (simpl; intros H; apply H; elem_of_list)));
      rewrite Hfilter by (repeat constructor; simpl; elem_of_list); done.
  - unfold config_of_json, config_json, strings_at, string_at, json_strings.
    cbn [compilerOptions include exclude extends files other].
    destruct declared, included, excluded, extended, listed; cbn -[filter];
      rewrite ?Hget by elem_of_list; cbn -[filter]; rewrite ?Hstrings;
      cbn -[filter];
      (repeat (rewrite filter_cons_False by (simpl; intros H; apply H; elem_of_list)));
      rewrite Hfilter by (repeat constructor; simpl; elem_of_list); done.
Qed.

Lemma set_absent {V} (o : Obj.t V) k v :
  Obj.get k o = None → Obj.set k v o = o ++ [(k, v)].
Proof.
  induction o as [|[k' v'] o IH]; simpl; [done|].
  destruct (String.eqb k' k); [done|]. intros H. by rewrite IH.
Qed.

Lemma keys_embed_props key l props :
  Obj.keys (embed_props key l props) = Obj.keys props.
Proof. unfold Obj.keys, embed_props. rewrite map_map. by apply map_ext. Qed.

Lemma config_json_keys config :
  distinct_keys config →
  NoDup (Obj.keys (config_json config)) ∧
  Obj.get "compilerOptions" (config_json config)
    = JObj <$> compilerOptions config.
Proof.
  intros (_ & Hkeys & Hreserved).
  assert (∀ k, k ∈ RESERVED_KEYS → k ∉ Obj.keys (other config)) as Hout.
  { intros k Hk Hin. rewrite Forall_forall in Hreserved. by apply (Hreserved k). }
  destruct config as [declared included excluded extended listed others].
  cbn [compilerOptions include exclude extends files other] in *.
  unfold config_json, Obj.keys.
  cbn [compilerOptions include exclude extends files other].
  split.
  - destruct declared, included, excluded, extended, listed; simpl;
      repeat (apply NoDup_cons; split;
              [rewrite ?not_elem_of_cons; split_and?; try done;
               apply Hout; elem_of_list|]);
      done.
  - destruct declared, included, excluded, extended, listed; simpl; try done;
      apply get_unlisted, Hout; elem_of_list.
Qed.

Lemma reify_json_props depth h (props : list (string * json)) :
  mapM (fun kv => pair (fst kv) <$> reify depth h (snd kv))
    (map (fun kv => (fst kv, VJson (snd kv))) props) = Some props.
Proof. apply mapM_fmap_Some. intros [k v] _. by destruct depth. Qed.

Lemma reify_json_elems depth h (elems : list json) :
  mapM (reify depth h) (map VJson elems) = Some elems.
Proof. apply mapM_fmap_Some. intros v _. by destruct depth. Qed.

(** The options of an embedded configuration are read back from the
    store. *)
Lemma reify_embed_options depth (h : heap) options :
  NoDup (Obj.keys options) →
  h !! (2 : loc) = Some (CObj match Obj.get "paths" options with
                      | Some (JObj paths) =>
                          map (fun kv => (fst kv, VJson (snd kv))) paths
                      | _ => []
                      end) →
  h !! (3 : loc) = Some (CArr match Obj.get "types" options with
                      | Some (JArr types) => map VJson types
                      | _ => []
                      end) →
  mapM (fun kv => pair (fst kv) <$> reify (S depth) h (snd kv))
    (embed_options options) = Some options.
Proof.
  intros Hkeys Hpaths Htypes. apply mapM_fmap_Some.
  intros [k v] Hin. cbn [fst snd].
  destruct v as [| | | |types|paths]; try done.
  - destruct (String.eqb k "types") eqn:Hk; [|done].
    apply String.eqb_eq in Hk as ->. cbn [reify]. rewrite Htypes.
    rewrite (get_distinct _ _ _ Hkeys Hin). by rewrite reify_json_elems.
  - destruct (String.eqb k "paths") eqn:Hk; [|done].
    apply String.eqb_eq in Hk as ->. cbn [reify]. rewrite Hpaths.
    rewrite (get_distinct _ _ _ Hkeys Hin). by rewrite reify_json_props.
Qed.

Lemma lookup_front (h fresh : heap) (l : loc) :
  l < length h → (h ++ fresh) !! l = h !! l.
Proof. apply lookup_app_l. Qed.

Lemma reify_object depth (h : heap) (u : loc) props json_props :
  h !! u = Some (CObj props) →
  mapM (fun kv => pair (fst kv) <$> reify depth h (snd kv)) props
    = Some json_props →
  reify (S depth) h (VRef u) = Some (JObj json_props).
Proof. intros Hu Hprops. simpl. by rewrite Hu, Hprops. Qed.

Lemma mapM_app_Some {A B} (f : A → option B) l1 l2 k1 k2 :
  mapM f l1 = Some k1 → mapM f l2 = Some k2 →
  mapM f (l1 ++ l2) = Some (k1 ++ k2).
Proof.
  revert k1. induction l1 as [|x l1 IH]; intros k1; simpl.
  - by intros [= <-].
  - destruct (f x) as [y|]; simpl; [|done].
    destruct (mapM f l1) as [k|]; simpl; [|done].
    intros [= <-] H2. by rewrite (IH k eq_refl H2).
Qed.

(** The properties of an embedded configuration are read back from a
    store that holds the embedding in front. *)
Lemma reify_embed_props config (h : heap) :
  distinct_keys config →
  (∀ l : loc, l < 4 → h !! l = embed config !! l) →
  mapM (fun kv => pair (fst kv) <$> reify 3 h (snd kv))
    (embed_props "compilerOptions" 1 (config_json config))
  = Some (config_json config).
Proof.
  intros Hdistinct Hfront.
  destruct (config_json_keys config Hdistinct) as [Hkeys Hdeclared].
  destruct Hdistinct as (Hoptions & _).
  apply mapM_fmap_Some. intros [k v] Hin. cbn [fst snd].
  destruct v as [| | | | |declared]; try done.
  destruct (String.eqb k "compilerOptions") eqn:Hk; [|done].
  apply String.eqb_eq in Hk as ->.
  rewrite (get_distinct _ _ _ Hkeys Hin) in Hdeclared.
  destruct (compilerOptions config) as [options|] eqn:Hconfig; [|done].
  injection Hdeclared as ->.
  rewrite (reify_object 2 h 1 (embed_options options) options); [done| |].
  - rewrite Hfront by lia. unfold embed. by rewrite Hconfig.
  - apply (reify_embed_options 1); [done| |].
    + rewrite Hfront by lia. unfold embed. by rewrite Hconfig.
    + rewrite Hfront by lia. unfold embed. by rewrite Hconfig.
Qed.

(** The fold over dependencies that declare nothing, on the configuration
    an analyzer holds: the configuration comes back with a
    [compilerOptions] object. *)
Lemma incorporate_undeclared config dependencyConfigs :
  distinct_keys config →
  Forall (fun entry => declares (snd entry) = false)
    (Obj.entries dependencyConfigs) →
  incorporate config dependencyConfigs =
    Some (Returns {| compilerOptions := Some (default [] (compilerOptions config));
                     include := include config; exclude := exclude config;
                     extends := extends config; files := files config;
                     other := other config |}).
Proof.
  intros Hdistinct Hquiet.
  destruct (config_json_keys config Hdistinct) as [Hkeys Hdeclared].
  unfold incorporate.
  rewrite (incorporateDependencyConfigs_undeclared (embed config) 0
             (embed_props "compilerOptions" 1 (config_json config))
             dependencyConfigs eq_refl Hquiet).
  rewrite entries_distinct by by rewrite keys_embed_props.
  assert (Obj.get "compilerOptions"
            (embed_props "compilerOptions" 1 (config_json config))
          = (fun _ => VRef 1) <$> compilerOptions config) as Hget.
  { revert Hdeclared. generalize (config_json config) as props.
    induction props as [|[k v] props IH]; simpl.
    - by destruct (compilerOptions config).
    - destruct (String.eqb k "compilerOptions") eqn:Hk; [|done].
      destruct (compilerOptions config); simpl; [|done]. by intros [= ->]. }
  rewrite Hget. unfold extract.
  change (length (embed config)) with 4.
  destruct (compilerOptions config) as [options|] eqn:Hconfig;
    cbn [fmap option_fmap option_map from_option default id truthy_val].
  - erewrite (reify_object 3 _ 4); [|reflexivity|]; cycle 1.
    { apply reify_embed_props; [done|].
      intros l Hl. by apply lookup_front. }
    cbn [fmap option_fmap option_map].
    pose proof (config_of_json_config_json config None Hdistinct) as Hback.
    cbn [fmap option_fmap option_map optional_entry] in Hback.
    rewrite app_nil_r in Hback. rewrite Hback; [by rewrite ?Hconfig|].
    by intros [? [=]].
  - rewrite set_absent by done.
    erewrite (reify_object 3 _ 4); [|reflexivity|]; cycle 1.
    { apply mapM_app_Some.
      - apply reify_embed_props; [done|].
        intros l Hl. by apply lookup_front.
      - reflexivity. }
    cbn [fmap option_fmap option_map].
    pose proof (config_of_json_config_json config (Some []) Hdistinct) as Hback.
    cbn [fmap option_fmap option_map optional_entry] in Hback. cbn [fst].
    rewrite Hback; [by rewrite ?Hconfig|done].
Qed.

(** X29. When the configurations, the directory tree and the dependencies
    of a project are read, and no dependency declares [paths] or [types]
    (in particular when none is installed), [readAndParseConfig] leaves the
    analyzer with the merged configuration, the structure and the map of
    the dependencies. The configuration is the merged one, with an empty
    [compilerOptions] object added when no source had one. *)
Theorem readAndParseConfig_without_declarations
    (readdir : string → outcome (list Dirent.t))
    (readFile : string → outcome string)
    (access : string → outcome unit)
    (join : string → string → string)
    (basename dirname : string → string)
    (relative : string → string → string)
    (parseTSConfig : string → outcome TSConfig)
    (parsePackageJson : string → outcome PackageJson.t)
    (fuel : nat) (this : TSConfigAnalyzer.t) (merged : TSConfig)
    (structure : ProjectStructure.t) (dependencyConfigs : DependencyConfigs) :
  let projectRoot := dirname (TSConfigAnalyzer.configPath this) in
  findAndMergeConfigs readdir readFile join basename parseTSConfig fuel
    projectRoot = Some (Returns merged) →
  scanProjectStructure readdir join relative fuel projectRoot
    = Some (Returns structure) →
  scanNodeModules readdir readFile access join parseTSConfig parsePackageJson
    projectRoot = Returns dependencyConfigs →
  Forall (fun entry => declares (snd entry) = false)
    (Obj.entries dependencyConfigs) →
  distinct_keys merged →
  readAndParseConfig readdir readFile access join basename dirname relative
    parseTSConfig parsePackageJson fuel this =
  Some (Returns (),
        {| TSConfigAnalyzer.configPath := TSConfigAnalyzer.configPath this;
           TSConfigAnalyzer.config :=
             Some {| compilerOptions :=
                       Some (default [] (compilerOptions merged));
                     include := include merged; exclude := exclude merged;
                     extends := extends merged; files := files merged;
                     other := other merged |};
           TSConfigAnalyzer.projectStructure := Some structure;
           TSConfigAnalyzer.dependencyConfigs := Some dependencyConfigs;
           TSConfigAnalyzer.options := TSConfigAnalyzer.options this |}).
Proof.
  intros projectRoot Hmerged Hscan Hdependencies Hquiet Hdistinct.
  unfold readAndParseConfig. fold projectRoot.
  rewrite Hmerged, Hscan, Hdependencies.
  by rewrite (incorporate_undeclared merged dependencyConfigs Hdistinct Hquiet).
Qed.

Lemma readAndParseConfig_without_declarations_witness :
  ∃ analyzer,
    readAndParseConfig (sample_tree sample_installed) sample_tree_readFile
      sample_access sample_join posix_basename sample_dirname sample_relative
      sample_tree_parseTSConfig sample_parsePackageJson 5
      (TSConfigAnalyzer.new "/repo/src/tsconfig.app.json"
         (AnalyzerOptions.mk None None))
    = Some (Returns (), analyzer) ∧
    TSConfigAnalyzer.getConfig analyzer
      = Some {| compilerOptions :=
                  Some [("target", JStr "es5"); ("module", JStr "esnext")];
                include := Some ["src"; "app"]; exclude := Some ["dist"];
                extends := None; files := None;
                other := [("compileOnSave", JBool false);
                          ("references", JArr [])] |} ∧
    TSConfigAnalyzer.dependencyConfigs analyzer = Some [].
Proof.
  eexists. split.
  { apply (readAndParseConfig_without_declarations
           (sample_tree sample_installed) sample_tree_readFile
           sample_access sample_join posix_basename sample_dirname
           sample_relative sample_tree_parseTSConfig sample_parsePackageJson 5
           (TSConfigAnalyzer.new "/repo/src/tsconfig.app.json"
              (AnalyzerOptions.mk None None))
           (spec_merged [sample_app_config])
           {| ProjectStructure.files := ["tsconfig.app.json"; "index.ts"];
              ProjectStructure.directories := [] |}
           []).
    - reflexivity.
    - reflexivity.
    - reflexivity.
    - constructor.
    - split_and!; [by_evaluation..|repeat constructor; by_evaluation]. }
  split; reflexivity.
Defined.
